(** * A two-layer perceptron trained by hand on MNIST

    Shallow embedding of
    [Lab03/Solution/assignment3_same_normalization_parameters_on_validation_split.py]
    and of the sweep configuration of [Lab05/Assignment5/Bonus_Code/runner.py].

    Number model.  A float tensor entry is a real number ([R]); uint8 pixels
    and int64 labels are integers ([Z]); sizes and positions are [nat].
    A 1-D tensor is a [list R], a 2-D tensor a list of rows.  A matrix
    without rows is taken to have no columns either.

    Abnormal runs.  The Python code either raises (shape mismatch, index
    out of range, integer division by zero) or silently carries [nan]/[inf]
    entries on.  Every function of the embedding returns an [outcome]:
    [Ok v], [NonFinite] (a float that ends up in the result is [nan] or
    [inf]: a division by zero, a statistic of too few entries) or [Raises].
    The first abnormal event of a run is the one reported.  Rounding is not
    modelled: arithmetic is exact, and the theorems are about the program
    over the real numbers; in float32 the equalities they state hold up to
    rounding.

    Tensor objects.  The functions are given twice.  The value-level forms
    ([forward], [train_batch], [evaluate], ...) take and return tensor
    values.  The store-level forms ([forward_st], [train_batch_st],
    [evaluate_st], ...) run on a heap of tensor objects named by
    locations: [w[i] += ...] updates the object in place, a tensor that a
    statement binds to a name is a new object.  The agreement lemmas
    relate the two. *)

From Stdlib Require Import String List ZArith Reals Lra Lia Bool Arith.
Import ListNotations.

Set Implicit Arguments.

(** ** Outcomes *)

Inductive outcome (A : Type) : Type :=
| Ok (a : A)
| NonFinite
| Raises.

Arguments Ok {A} a.
Arguments NonFinite {A}.
Arguments Raises {A}.

Definition bind {A B : Type} (m : outcome A) (k : A -> outcome B) : outcome B :=
  match m with
  | Ok a => k a
  | NonFinite => NonFinite
  | Raises => Raises
  end.

Notation "x <- m ;; k" := (bind m (fun x => k))
  (at level 61, m at next level, right associativity).
Notation "' p <- m ;; k" := (bind m (fun p => k))
  (at level 61, p pattern, m at next level, right associativity).

Fixpoint mapM {A B : Type} (f : A -> outcome B) (l : list A) : outcome (list B) :=
  match l with
  | [] => Ok []
  | a :: l' => b <- f a ;; bs <- mapM f l' ;; Ok (b :: bs)
  end.

(** ** Tensors *)

Abbreviation vec := (list R).
Abbreviation mat := (list (list R)).

Open Scope R_scope.

(** [torch.eye(n)]. *)
Definition eye (n : nat) : mat :=
  map (fun i => map (fun j => if Nat.eqb i j then 1 else 0) (seq 0 n)) (seq 0 n).

(** Indexing by an integer the way Python and torch do it: a negative
    index counts from the end, anything outside raises [IndexError]. *)
Definition py_index {A : Type} (l : list A) (i : Z) : outcome A :=
  let n := Z.of_nat (length l) in
  let k := if (i <? 0)%Z then (i + n)%Z else i in
  if ((0 <=? k) && (k <? n))%Z then
    match nth_error l (Z.to_nat k) with
    | Some a => Ok a
    | None => Raises
    end
  else Raises.

(** [x.max()] of an integer tensor; raises on a tensor without elements. *)
Definition zmax (x : list Z) : outcome Z :=
  match x with
  | [] => Raises
  | x0 :: xs => Ok (fold_left Z.max xs x0)
  end.

(** [to_one_hot]: [torch.eye(x.max() + 1)[x]]. *)
Definition to_one_hot (x : list Z) : outcome mat :=
  m <- zmax x ;;
  let n := (m + 1)%Z in
  if (n <? 0)%Z then Raises
  else mapM (py_index (eye (Z.to_nat n))) x.

(** ** Arithmetic on tensors *)

Fixpoint zip_with {A B C : Type} (f : A -> B -> C) (a : list A) (b : list B) : list C :=
  match a, b with
  | x :: a', y :: b' => f x y :: zip_with f a' b'
  | _, _ => []
  end.

Definition rsum (v : vec) : R := fold_right Rplus 0 v.
Definition dot (a b : vec) : R := rsum (zip_with Rmult a b).
Definition vadd (a b : vec) : vec := zip_with Rplus a b.
Definition vscale (c : R) (v : vec) : vec := map (Rmult c) v.
Definition mscale (c : R) (m : mat) : mat := map (vscale c) m.
Definition sum_sq (m : mat) : R := rsum (map (fun v => v * v) (concat m)).

Definition width {A : Type} (m : list (list A)) : nat :=
  match m with
  | [] => 0
  | r :: _ => length r
  end.
Definition column (j : nat) (m : mat) : vec := map (fun r => nth j r 0) m.
Definition transpose (m : mat) : mat := map (fun j => column j m) (seq 0 (width m)).
Definition matmul (a b : mat) : mat :=
  map (fun r => map (fun j => dot r (column j b)) (seq 0 (width b))) a.

(** [shape r c m]: [m] is a tensor of [r] rows and [c] columns. *)
Definition shape (r c : nat) (m : mat) : Prop :=
  length m = r /\ Forall (fun row => length row = c) m.

Definition shape_of (m : mat) : list nat := map (@length R) m.
Definition same_shape (a b : mat) : bool :=
  if list_eq_dec Nat.eq_dec (shape_of a) (shape_of b) then true else false.

(** The operations below raise where torch reports a size mismatch.
    Broadcasting is modelled only where the program relies on it (a bias
    vector added to every row, a scalar statistic applied to a tensor). *)

(** [a @ b]. *)
Definition matmul_chk (a b : mat) : outcome mat :=
  if forallb (fun r => length r =? length b)%nat a then Ok (matmul a b) else Raises.

(** [m + b] with the 1-D [b] added to every row. *)
Definition add_bias (m : mat) (b : vec) : outcome mat :=
  if forallb (fun r => length r =? length b)%nat m
  then Ok (map (fun r => vadd r b) m) else Raises.

(** Elementwise [a - b] and [a * b] of equally shaped tensors. *)
Definition msub_chk (a b : mat) : outcome mat :=
  if same_shape a b then Ok (zip_with (zip_with Rminus) a b) else Raises.
Definition mmul_chk (a b : mat) : outcome mat :=
  if same_shape a b then Ok (zip_with (zip_with Rmult) a b) else Raises.

(** The in-place [p += t] on a 2-D and on a 1-D parameter. *)
Definition iadd (p t : mat) : outcome mat :=
  if same_shape p t then Ok (zip_with vadd p t) else Raises.
Definition viadd (p t : vec) : outcome vec :=
  if (length p =? length t)%nat then Ok (vadd p t) else Raises.

(** [flat.reshape(r, -1)]. *)
Fixpoint chunk {A : Type} (r c : nat) (flat : list A) : list (list A) :=
  match r with
  | O => []
  | S r' => firstn c flat :: chunk r' c (skipn c flat)
  end.
Definition reshape (r : nat) (flat : vec) : outcome mat :=
  if (r =? 0)%nat then Raises
  else if (length flat mod r =? 0)%nat then Ok (chunk r (length flat / r) flat)
  else Raises.

(** [m.mean(axis=0)]: the mean of every column; [nan] without rows. *)
Definition mean0 (m : mat) : outcome vec :=
  match m with
  | [] => NonFinite
  | _ => Ok (map (fun j => rsum (column j m) / INR (length m)) (seq 0 (width m)))
  end.

(** A float scalar that may be [nan]/[inf] ([None]). *)
Abbreviation fscalar := (option R).

(** [torch.std_mean(t)] over all entries [v] of [t], as (std, mean); the
    standard deviation is the unbiased one (divisor [n - 1]). *)
Definition std_mean (v : vec) : fscalar * fscalar :=
  let n := length v in
  match n with
  | O => (None, None)
  | S k =>
      let m := rsum v / INR n in
      (match k with
       | O => None
       | _ => Some (sqrt (rsum (map (fun x => (x - m) * (x - m)) v) / INR k))
       end, Some m)
  end.

Definition no_entries (t : mat) : bool :=
  forallb (fun r => match r with [] => true | _ => false end) t.

(** [t -= s] and [t /= s] for a scalar [s]: every entry of [t] becomes
    [nan]/[inf] when [s] is [nan], or zero in the division. *)
Definition sub_scalar (t : mat) (s : fscalar) : outcome mat :=
  match s with
  | Some c => Ok (map (map (fun v => v - c)) t)
  | None => if no_entries t then Ok t else NonFinite
  end.
Definition div_scalar (t : mat) (s : fscalar) : outcome mat :=
  match s with
  | Some c =>
      if Req_dec_T c 0 then (if no_entries t then Ok t else NonFinite)
      else Ok (map (map (fun v => v / c)) t)
  | None => if no_entries t then Ok t else NonFinite
  end.

(** ** Activations and losses *)

(** [activate]: softmax over the class dimension. *)
Definition softmax_row (r : vec) : vec :=
  let e := map exp r in map (fun v => v / rsum e) e.
Definition activate (x : mat) : mat := map softmax_row x.

(** [hidden_activate]: ReLU. *)
Definition hidden_activate (x : mat) : mat := map (map (Rmax 0)) x.

(** [(v > 0).float()]. *)
Definition positive01 (v : R) : R := if Rlt_dec 0 v then 1 else 0.

Definition log_softmax (r : vec) : vec :=
  let s := ln (rsum (map exp r)) in map (fun v => v - s) r.

(** [torch.nn.functional.cross_entropy(input, target)] with a float
    target of class probabilities: the input rows are taken as logits
    (log-softmax is applied to them), the mean is over the batch. *)
Definition cross_entropy_prob (input target : mat) : outcome R :=
  if same_shape input target then
    match input with
    | [] => NonFinite
    | _ => Ok (rsum (zip_with (fun i t => - dot t (log_softmax i)) input target)
               / INR (length input))
    end
  else Raises.

(** The same function with integer class targets: a target outside
    [0, classes) raises, except the default [ignore_index] -100, which is
    skipped; the mean is over the targets that count. *)
Fixpoint nll_terms (input : mat) (target : list Z) : outcome (list R) :=
  match input, target with
  | i :: input', t :: target' =>
      rest <- nll_terms input' target' ;;
      if (t =? -100)%Z then Ok rest
      else if ((0 <=? t) && (t <? Z.of_nat (length i)))%Z
           then Ok (- nth (Z.to_nat t) (log_softmax i) 0 :: rest)
           else Raises
  | _, _ => Ok []
  end.
Definition cross_entropy_idx (input : mat) (target : list Z) : outcome R :=
  if (length input =? length target)%nat then
    terms <- nll_terms input target ;;
    match terms with
    | [] => NonFinite
    | _ => Ok (rsum terms / INR (length terms))
    end
  else Raises.

(** [torch.max(row)[1]]: the position of the first largest entry. *)
Fixpoint argmax_from (best : R) (besti i : nat) (l : vec) : nat :=
  match l with
  | [] => besti
  | v :: l' =>
      if Rlt_dec best v then argmax_from v i (S i) l'
      else argmax_from best besti (S i) l'
  end.
Definition argmax (r : vec) : outcome nat :=
  match r with
  | [] => Raises
  | v :: l => Ok (argmax_from v 0 1 l)
  end.

(** [collate(losses).mean()] for a list of scalar tensors; [collate]
    reads [x[0]] and so raises on the empty list. *)
Definition collate_mean (losses : list R) : outcome R :=
  match losses with
  | [] => Raises
  | _ => Ok (rsum losses / INR (length losses))
  end.

(** ** The network *)

(** [forward].  [y_h_hat] is the tensor [torch.relu] returns, a new one,
    which the two in-place statements then update. *)
Definition forward (x : mat) (w : mat * mat) (b : vec * vec)
  : outcome (mat * mat * mat * mat) :=
  xw <- matmul_chk x (fst w) ;;
  z_h <- add_bias xw (fst b) ;;
  let y_h_hat := hidden_activate z_h in
  let std_mean_ := std_mean (concat y_h_hat) in
  y_h_hat <- sub_scalar y_h_hat (snd std_mean_) ;;
  y_h_hat <- div_scalar y_h_hat (fst std_mean_) ;;
  yw <- matmul_chk y_h_hat (snd w) ;;
  z <- add_bias yw (snd b) ;;
  let y_hat := activate z in
  Ok (z_h, y_h_hat, z, y_hat).

(** [train_batch]: returns the updated weights and biases and the loss. *)
Definition train_batch (x y_true : mat) (w : mat * mat) (b : vec * vec)
    (mu : R) (batch_size : nat) (wd : R) : outcome ((mat * mat) * (vec * vec) * R) :=
  '(z_h, y_h_hat, z, y_hat) <- forward x w b ;;
  error <- msub_chk y_true y_hat ;;
  let w_1_copy := mscale (-2 * wd) (snd w) in
  let w_0_copy := mscale (-2 * wd) (fst w) in
  ce <- cross_entropy_prob y_hat y_true ;;
  let loss := ce + wd * sum_sq (snd w) in
  ew <- matmul_chk error (transpose (snd w)) ;;
  mask <- reshape batch_size (map positive01 (concat z_h)) ;;
  error_h <- mmul_chk ew mask ;;
  error_mean <- mean0 error ;;
  g1 <- matmul_chk (transpose y_h_hat) (repeat error_mean batch_size) ;;
  w1 <- iadd (snd w) (mscale mu g1) ;;
  w1 <- iadd w1 (mscale mu w_1_copy) ;;
  b1 <- viadd (snd b) (vscale mu error_mean) ;;
  error_h_mean <- mean0 error_h ;;
  g0 <- matmul_chk (transpose x) (repeat error_h_mean batch_size) ;;
  w0 <- iadd (fst w) (mscale mu g0) ;;
  w0 <- iadd w0 (mscale mu w_0_copy) ;;
  b0 <- viadd (fst b) (vscale mu error_h_mean) ;;
  Ok ((w0, w1), (b0, b1), loss).

(** ** One epoch of training *)

(** [t[range(lo, lo + n)]]: the rows at these positions, [IndexError]
    when one of them is outside. *)
Definition take_rows {A : Type} (t : list A) (lo n : nat) : outcome (list A) :=
  mapM (fun i => match nth_error t i with
                 | Some a => Ok a
                 | None => Raises
                 end) (seq lo n).

(** The loop of [train_perceptron] over the steps still to run. *)
Fixpoint train_steps (data labels : mat) (steps : list nat) (w : mat * mat)
    (b : vec * vec) (mu : R) (batch_size : nat) (wd : R) (losses : list R)
  : outcome ((mat * mat) * (vec * vec) * list R) :=
  match steps with
  | [] => Ok (w, b, losses)
  | step :: steps' =>
      input <- take_rows data (step * batch_size) batch_size ;;
      output <- take_rows labels (step * batch_size) batch_size ;;
      '(w', b', loss) <- train_batch input output w b mu batch_size wd ;;
      train_steps data labels steps' w' b' mu batch_size wd (losses ++ [loss])
  end.

(** [train_perceptron]; [//] raises on a zero batch size. *)
Definition train_perceptron (data labels : mat) (w : mat * mat) (b : vec * vec)
    (mu : R) (batch_size : nat) (wd : R) : outcome ((mat * mat) * (vec * vec) * R) :=
  if (batch_size =? 0)%nat then Raises
  else
    let nsteps := (length data / batch_size)%nat in
    '(w', b', losses) <- train_steps data labels (seq 0 nsteps) w b mu batch_size wd [] ;;
    loss <- collate_mean losses ;;
    Ok (w', b', loss).

(** ** Evaluation *)

(** [t[lo:hi]]. *)
Definition slice {A : Type} (t : list A) (lo hi : nat) : list A :=
  firstn (hi - lo) (skipn lo t).

(** [(torch.max(y_hat, dim=1)[1] == y).sum().item()]. *)
Definition count_correct (y_hat : mat) (y : list Z) : outcome nat :=
  predicted <- mapM argmax y_hat ;;
  if (length predicted =? length y)%nat
  then Ok (length (filter (fun py => (Z.of_nat (fst py) =? snd py)%Z) (combine predicted y)))
  else Raises.

(** [range(0, stop, step)] for a positive [step]. *)
Definition range_step (stop step : nat) : list nat :=
  map (fun k => (k * step)%nat) (seq 0 ((stop + step - 1) / step)).

Fixpoint evaluate_loop (data : mat) (labels : list Z) (w : mat * mat) (b : vec * vec)
    (batch_size : nat) (starts : list nat) (total_correct_predictions : nat)
    (loss : list R) : outcome (nat * list R) :=
  match starts with
  | [] => Ok (total_correct_predictions, loss)
  | i :: starts' =>
      let x := slice data i (i + batch_size) in
      let y := slice labels i (i + batch_size) in
      predicted_distribution <- forward x w b ;;
      l <- cross_entropy_idx (snd predicted_distribution) y ;;
      correct_predictions <- count_correct (snd predicted_distribution) y ;;
      evaluate_loop data labels w b batch_size starts'
        (total_correct_predictions + correct_predictions) (loss ++ [l])
  end.

(** [evaluate]: [range] raises on a zero step, the final division raises
    on a data set without rows. *)
Definition evaluate (data : mat) (labels : list Z) (w : mat * mat) (b : vec * vec)
    (batch_size : nat) : outcome (R * R) :=
  if (batch_size =? 0)%nat then Raises
  else
    '(total_correct_predictions, loss) <-
      evaluate_loop data labels w b batch_size (range_step (length data) batch_size) 0 [] ;;
    if (length data =? 0)%nat then Raises
    else
      mean_loss <- collate_mean loss ;;
      Ok (INR total_correct_predictions / INR (length data), mean_loss).

(** ** Loading and normalizing the data *)

(** A grey-scale image: rows of uint8 pixels. *)
Definition image := list (list Z).

(** [255 * torch.ones(size=(r, c))]. *)
Definition fill (r c : nat) : image := repeat (repeat 255%Z c) r.

(** [torch.cat((a, b))] along the rows and, with [dim=1], along the columns. *)
Definition cat0 (a b : image) : outcome image :=
  if forallb (fun r => length r =? width a)%nat b then Ok (a ++ b) else Raises.
Definition cat1 (a b : image) : outcome image :=
  if (length a =? length b)%nat then Ok (zip_with (@app Z) a b) else Raises.

Definition img_shifted_1 (tensor : image) : outcome image :=
  cat0 (fill 2 28) (skipn 2 tensor).
Definition img_shifted_2 (tensor : image) : outcome image :=
  cat0 (firstn 26 tensor) (fill 2 28).
Definition img_shifted_3 (tensor : image) : outcome image :=
  cat1 (fill 28 2) (map (skipn 2) tensor).
Definition img_shifted_4 (tensor : image) : outcome image :=
  cat1 (map (firstn 26) tensor) (fill 28 2).

(** [collate] of a list of image tensors ([torch.stack]: equal shapes) and
    of a list of labels; both read [x[0]]. *)
Definition image_shape (i : image) : list nat := map (@length Z) i.
Definition collate_images (x : list image) : outcome (list image) :=
  match x with
  | [] => Raises
  | x0 :: _ =>
      if forallb (fun i => if list_eq_dec Nat.eq_dec (image_shape i) (image_shape x0)
                           then true else false) x
      then Ok x else Raises
  end.
Definition collate_labels (y : list Z) : outcome (list Z) :=
  match y with
  | [] => Raises
  | _ => Ok y
  end.

(** [t.max()] and [t.min()] over all entries. *)
Definition rmax_list (v : vec) : outcome R :=
  match v with
  | [] => Raises
  | a :: l => Ok (fold_left Rmax l a)
  end.
Definition rmin_list (v : vec) : outcome R :=
  match v with
  | [] => Raises
  | a :: l => Ok (fold_left Rmin l a)
  end.

(** What [load_dataset] returns: four values for the training split, two
    for the other one. *)
Inductive loaded : Type :=
| LoadedTrain (x_data : mat) (y_data : list Z) (y_data_labels : mat)
    (mean_std : fscalar * fscalar)
| LoadedTest (x_data : mat) (y_data : list Z).

Section WithRotate.

(** [imutils.rotate(img, angle)], an OpenCV affine warp, is not part of
    the program. *)
Variable rotate : image -> Z -> image.

(** The body of the loop over the data set, for one image. *)
Definition read_image (train : bool) (img : image) (label : Z)
  : outcome (list image * list Z) :=
  if train then
    s1 <- img_shifted_1 img ;;
    s2 <- img_shifted_2 img ;;
    s3 <- img_shifted_3 img ;;
    s4 <- img_shifted_4 img ;;
    Ok ([img] ++ [s1; s2; s3; s4] ++ [rotate img 5%Z; rotate img (-5)%Z],
        [label] ++ repeat label 4 ++ repeat label 2)
  else Ok ([img], [label]).

Fixpoint read_images (train : bool) (mnist_trainset : list (image * Z))
  : outcome (list image * list Z) :=
  match mnist_trainset with
  | [] => Ok ([], [])
  | (img, label) :: rest =>
      '(xs, ys) <- read_image train img label ;;
      '(x_data, y_data) <- read_images train rest ;;
      Ok (xs ++ x_data, ys ++ y_data)
  end.

(** [load_dataset]; the MNIST split that [path] and [train] select is the
    argument [mnist_trainset]. *)
Definition load_dataset (mnist_trainset : list (image * Z)) (train pin_memory : bool)
    (mean_std : option (fscalar * fscalar)) : outcome loaded :=
  '(x_data, y_data) <- read_images train mnist_trainset ;;
  x_data <- collate_images x_data ;;
  let x_data := map (fun i => concat (map (map IZR) i)) x_data in
  maxi_data <- rmax_list (concat x_data) ;;
  mini_data <- rmin_list (concat x_data) ;;
  x_data <- sub_scalar x_data (Some mini_data) ;;
  x_data <- div_scalar x_data (Some maxi_data) ;;
  mean_std <- (if train then Ok (std_mean (concat x_data))
               else match mean_std with
                    | Some p => Ok p
                    | None => Raises
                    end) ;;
  x_data <- sub_scalar x_data (snd mean_std) ;;
  x_data <- div_scalar x_data (fst mean_std) ;;
  y_data <- collate_labels y_data ;;
  if train then
    y_data_labels <- to_one_hot y_data ;;
    if pin_memory then Ok (LoadedTrain x_data y_data y_data_labels mean_std)
    else Ok (LoadedTrain x_data y_data y_data_labels mean_std)
  else
    if pin_memory then Ok (LoadedTest x_data y_data)
    else Ok (LoadedTest x_data y_data).

(** ** The training run *)

(** One line of progress: test accuracy and loss, training accuracy and
    loss, loss during training. *)
Definition report : Type := (R * R * R * R * R)%type.

(** The loop of [train] over the epochs still to run. *)
Fixpoint train_epochs (x_train : mat) (y_train_labels : list Z) (y_train : mat)
    (x_test : mat) (y_test : list Z) (epochs : list nat)
    (weights : mat * mat) (biases : vec * vec) (mu : R)
    (batch_size eval_batch_size : nat) (wd : R) (out : list report)
  : outcome ((mat * mat) * (vec * vec) * list report) :=
  match epochs with
  | [] => Ok (weights, biases, out)
  | epoch :: epochs' =>
      let mu := if ((epoch + 1) mod 60 =? 0)%nat then mu * 0.2 else mu in
      '(weights, biases, loss) <-
        train_perceptron x_train y_train weights biases mu batch_size wd ;;
      '(accuracy_test, loss_test) <-
        evaluate x_test y_test weights biases eval_batch_size ;;
      '(accuracy_train, loss_train) <-
        evaluate x_train y_train_labels weights biases eval_batch_size ;;
      train_epochs x_train y_train_labels y_train x_test y_test epochs'
        weights biases mu batch_size eval_batch_size wd
        (out ++ [(accuracy_test, loss_test, accuracy_train, loss_train, loss)])
  end.

(** [train].  The randomly drawn initial [weights] and [biases] and the
    two MNIST splits are arguments; the final parameters, which the
    program drops, are returned with the progress lines. *)
Definition train (mnist_train mnist_test : list (image * Z))
    (weights : mat * mat) (biases : vec * vec) (epochs : nat) (pin_memory : bool)
    (mu : R) (batch_size eval_batch_size : nat) (wd : R)
  : outcome ((mat * mat) * (vec * vec) * list report) :=
  tr <- load_dataset mnist_train true pin_memory None ;;
  match tr with
  | LoadedTrain x_train y_train_labels y_train mean_std =>
      te <- load_dataset mnist_test false pin_memory (Some mean_std) ;;
      match te with
      | LoadedTest x_test y_test =>
          train_epochs x_train y_train_labels y_train x_test y_test (seq 0 epochs)
            weights biases mu batch_size eval_batch_size wd []
      | LoadedTrain _ _ _ _ => Raises
      end
  | LoadedTest _ _ => Raises
  end.

End WithRotate.

(** ** The same program on a store of tensor objects

    [w] and [b] are Python lists of tensor objects, and [train_batch]
    updates these objects in place.  The functions below run on a store
    of tensors.  A statement that binds a name to the result of a tensor
    expression, appends the result to a list or returns it, makes an
    object of the store for it; an augmented assignment ([+=], [-=],
    [/=]) overwrites the object it is applied to.  The intermediate
    results inside an expression (the product in [x @ w[0] + b[0]]) are
    not objects of the store: no statement can reach them.  The store
    thus tells which objects a call changes and which it leaves alone; how
    many objects it holds says nothing about how many tensors torch
    creates.  Parameters are passed as the locations of their objects;
    the data and label tensors, which no statement updates, are passed as
    values. *)

Inductive tensor : Type :=
| T0 (s : fscalar)
| T1 (v : vec)
| T2 (m : mat)
| TI (v : list Z).

Definition loc := nat.
Definition heap := list tensor.
Definition M (A : Type) : Type := heap -> outcome (A * heap).

Definition ret {A : Type} (a : A) : M A := fun h => Ok (a, h).
Definition bindM {A B : Type} (m : M A) (k : A -> M B) : M B :=
  fun h => match m h with
           | Ok (a, h') => k a h'
           | NonFinite => NonFinite
           | Raises => Raises
           end.
Definition lift {A : Type} (o : outcome A) : M A :=
  fun h => match o with
           | Ok a => Ok (a, h)
           | NonFinite => NonFinite
           | Raises => Raises
           end.

Notation "x <~ m ;; k" := (bindM m (fun x => k))
  (at level 61, m at next level, right associativity).
Notation "' p <~ m ;; k" := (bindM m (fun p => k))
  (at level 61, p pattern, m at next level, right associativity).

(** A new tensor object. *)
Definition alloc (t : tensor) : M loc := fun h => Ok (length h, h ++ [t]).

(** The value of a 2-D, of a 1-D, of a 0-D and of an integer tensor
    object. *)
Definition load2 (l : loc) : M mat :=
  fun h => match nth_error h l with
           | Some (T2 m) => Ok (m, h)
           | _ => Raises
           end.
Definition load1 (l : loc) : M vec :=
  fun h => match nth_error h l with
           | Some (T1 v) => Ok (v, h)
           | _ => Raises
           end.
Definition load0 (l : loc) : M fscalar :=
  fun h => match nth_error h l with
           | Some (T0 s) => Ok (s, h)
           | _ => Raises
           end.
Definition loadI (l : loc) : M (list Z) :=
  fun h => match nth_error h l with
           | Some (TI v) => Ok (v, h)
           | _ => Raises
           end.

(** Overwriting a tensor object in place. *)
Fixpoint update (l : loc) (t : tensor) (h : heap) : heap :=
  match h, l with
  | [], _ => []
  | _ :: h', O => t :: h'
  | c :: h', S l' => c :: update l' t h'
  end.
Definition store (l : loc) (t : tensor) : M unit :=
  fun h => if (l <? length h)%nat then Ok (tt, update l t h) else Raises.

(** [forward] on the store; it returns the locations of its four results.
    [std_mean] is the pair of the two objects [torch.std_mean] returns. *)
Definition forward_st (x : mat) (w b : loc * loc) : M (loc * loc * loc * loc) :=
  w0 <~ load2 (fst w) ;;
  b0 <~ load1 (fst b) ;;
  xw <~ lift (matmul_chk x w0) ;;
  zh <~ lift (add_bias xw b0) ;;
  z_h <~ alloc (T2 zh) ;;
  zh <~ load2 z_h ;;
  y_h_hat <~ alloc (T2 (hidden_activate zh)) ;;
  y <~ load2 y_h_hat ;;
  std <~ alloc (T0 (fst (std_mean (concat y)))) ;;
  mean <~ alloc (T0 (snd (std_mean (concat y)))) ;;
  let std_mean_ := (std, mean) in
  y <~ load2 y_h_hat ;;
  m <~ load0 (snd std_mean_) ;;
  y' <~ lift (sub_scalar y m) ;;
  _ <~ store y_h_hat (T2 y') ;;
  y <~ load2 y_h_hat ;;
  s <~ load0 (fst std_mean_) ;;
  y' <~ lift (div_scalar y s) ;;
  _ <~ store y_h_hat (T2 y') ;;
  y <~ load2 y_h_hat ;;
  w1 <~ load2 (snd w) ;;
  b1 <~ load1 (snd b) ;;
  yw <~ lift (matmul_chk y w1) ;;
  zv <~ lift (add_bias yw b1) ;;
  z <~ alloc (T2 zv) ;;
  zv <~ load2 z ;;
  y_hat <~ alloc (T2 (activate zv)) ;;
  ret (z_h, y_h_hat, z, y_hat).

(** [train_batch] on the store: [error], [w_1_copy], [w_0_copy], [loss]
    and [error_h] are new objects, the parameter objects are updated in
    place; the loss is returned as the number its object holds. *)
Definition train_batch_st (x y_true : mat) (w b : loc * loc) (mu : R)
    (batch_size : nat) (wd : R) : M R :=
  '(z_h, y_h_hat, z, y_hat) <~ forward_st x w b ;;
  y_hat_v <~ load2 y_hat ;;
  e <~ lift (msub_chk y_true y_hat_v) ;;
  error <~ alloc (T2 e) ;;
  w1 <~ load2 (snd w) ;;
  w_1_copy <~ alloc (T2 (mscale (-2 * wd) w1)) ;;
  w0 <~ load2 (fst w) ;;
  w_0_copy <~ alloc (T2 (mscale (-2 * wd) w0)) ;;
  y_hat_v <~ load2 y_hat ;;
  ce <~ lift (cross_entropy_prob y_hat_v y_true) ;;
  w1 <~ load2 (snd w) ;;
  let loss_v := ce + wd * sum_sq w1 in
  loss <~ alloc (T0 (Some loss_v)) ;;
  error_v <~ load2 error ;;
  w1 <~ load2 (snd w) ;;
  ew <~ lift (matmul_chk error_v (transpose w1)) ;;
  z_h_v <~ load2 z_h ;;
  mask <~ lift (reshape batch_size (map positive01 (concat z_h_v))) ;;
  eh <~ lift (mmul_chk ew mask) ;;
  error_h <~ alloc (T2 eh) ;;
  error_v <~ load2 error ;;
  error_mean <~ lift (mean0 error_v) ;;
  y_h_hat_v <~ load2 y_h_hat ;;
  g1 <~ lift (matmul_chk (transpose y_h_hat_v) (repeat error_mean batch_size)) ;;
  w1 <~ load2 (snd w) ;;
  w1' <~ lift (iadd w1 (mscale mu g1)) ;;
  _ <~ store (snd w) (T2 w1') ;;
  w1 <~ load2 (snd w) ;;
  w_1_copy_v <~ load2 w_1_copy ;;
  w1' <~ lift (iadd w1 (mscale mu w_1_copy_v)) ;;
  _ <~ store (snd w) (T2 w1') ;;
  b1 <~ load1 (snd b) ;;
  b1' <~ lift (viadd b1 (vscale mu error_mean)) ;;
  _ <~ store (snd b) (T1 b1') ;;
  error_h_v <~ load2 error_h ;;
  error_h_mean <~ lift (mean0 error_h_v) ;;
  g0 <~ lift (matmul_chk (transpose x) (repeat error_h_mean batch_size)) ;;
  w0 <~ load2 (fst w) ;;
  w0' <~ lift (iadd w0 (mscale mu g0)) ;;
  _ <~ store (fst w) (T2 w0') ;;
  w0 <~ load2 (fst w) ;;
  w_0_copy_v <~ load2 w_0_copy ;;
  w0' <~ lift (iadd w0 (mscale mu w_0_copy_v)) ;;
  _ <~ store (fst w) (T2 w0') ;;
  b0 <~ load1 (fst b) ;;
  b0' <~ lift (viadd b0 (vscale mu error_h_mean)) ;;
  _ <~ store (fst b) (T1 b0') ;;
  ret loss_v.

(** The loop of [train_perceptron]: [input] and [output] are new objects
    for every step. *)
Fixpoint train_steps_st (data labels : mat) (steps : list nat) (w b : loc * loc)
    (mu : R) (batch_size : nat) (wd : R) (losses : list R) : M (list R) :=
  match steps with
  | [] => ret losses
  | step :: steps' =>
      rows <~ lift (take_rows data (step * batch_size) batch_size) ;;
      input <~ alloc (T2 rows) ;;
      rows <~ lift (take_rows labels (step * batch_size) batch_size) ;;
      output <~ alloc (T2 rows) ;;
      input_v <~ load2 input ;;
      output_v <~ load2 output ;;
      loss <~ train_batch_st input_v output_v w b mu batch_size wd ;;
      train_steps_st data labels steps' w b mu batch_size wd (losses ++ [loss])
  end.

Definition train_perceptron_st (data labels : mat) (w b : loc * loc) (mu : R)
    (batch_size : nat) (wd : R) : M R :=
  if (batch_size =? 0)%nat then lift Raises
  else
    let nsteps := (length data / batch_size)%nat in
    losses <~ train_steps_st data labels (seq 0 nsteps) w b mu batch_size wd [] ;;
    loss <~ lift (collate_mean losses) ;;
    _ <~ alloc (T0 (Some loss)) ;;
    ret loss.

(** The loop of [evaluate]: [x], [y] and the loss appended to the list
    are new objects for every batch. *)
Fixpoint evaluate_loop_st (data : mat) (labels : list Z) (w b : loc * loc)
    (batch_size : nat) (starts : list nat) (total_correct_predictions : nat)
    (loss : list R) : M (nat * list R) :=
  match starts with
  | [] => ret (total_correct_predictions, loss)
  | i :: starts' =>
      x <~ alloc (T2 (slice data i (i + batch_size))) ;;
      y <~ alloc (TI (slice labels i (i + batch_size))) ;;
      x_v <~ load2 x ;;
      predicted_distribution <~ forward_st x_v w b ;;
      y_hat <~ load2 (snd predicted_distribution) ;;
      y_v <~ loadI y ;;
      l <~ lift (cross_entropy_idx y_hat y_v) ;;
      _ <~ alloc (T0 (Some l)) ;;
      y_hat <~ load2 (snd predicted_distribution) ;;
      y_v <~ loadI y ;;
      correct_predictions <~ lift (count_correct y_hat y_v) ;;
      evaluate_loop_st data labels w b batch_size starts'
        (total_correct_predictions + correct_predictions) (loss ++ [l])
  end.

(** [evaluate] on the store. *)
Definition evaluate_st (data : mat) (labels : list Z) (w b : loc * loc)
    (batch_size : nat) : M (R * R) :=
  if (batch_size =? 0)%nat then lift Raises
  else
    '(total_correct_predictions, loss) <~
      evaluate_loop_st data labels w b batch_size
        (range_step (length data) batch_size) 0 [] ;;
    if (length data =? 0)%nat then lift Raises
    else
      mean_loss <~ lift (collate_mean loss) ;;
      _ <~ alloc (T0 (Some mean_loss)) ;;
      ret (INR total_correct_predictions / INR (length data), mean_loss).

(** The loop of [train] on the store. *)
Fixpoint train_epochs_st (x_train : mat) (y_train_labels : list Z) (y_train : mat)
    (x_test : mat) (y_test : list Z) (epochs : list nat) (weights biases : loc * loc)
    (mu : R) (batch_size eval_batch_size : nat) (wd : R) (out : list report)
  : M (list report) :=
  match epochs with
  | [] => ret out
  | epoch :: epochs' =>
      let mu := if ((epoch + 1) mod 60 =? 0)%nat then mu * 0.2 else mu in
      loss <~ train_perceptron_st x_train y_train weights biases mu batch_size wd ;;
      '(accuracy_test, loss_test) <~
        evaluate_st x_test y_test weights biases eval_batch_size ;;
      '(accuracy_train, loss_train) <~
        evaluate_st x_train y_train_labels weights biases eval_batch_size ;;
      train_epochs_st x_train y_train_labels y_train x_test y_test epochs'
        weights biases mu batch_size eval_batch_size wd
        (out ++ [(accuracy_test, loss_test, accuracy_train, loss_train, loss)])
  end.

(** The parameter objects at the locations [w], [b] hold the values [wv], [bv]. *)
Definition params_at (h : heap) (w b : loc * loc) (wv : mat * mat) (bv : vec * vec) : Prop :=
  nth_error h (fst w) = Some (T2 (fst wv)) /\ nth_error h (snd w) = Some (T2 (snd wv)) /\
  nth_error h (fst b) = Some (T1 (fst bv)) /\ nth_error h (snd b) = Some (T1 (snd bv)).

(** What [evaluate] computes for one batch: the number of correct
    predictions and the cross-entropy of the batch. *)
Definition evaluate_batch (data : mat) (labels : list Z) (wv : mat * mat)
    (bv : vec * vec) (batch_size i : nat) : outcome (nat * R) :=
  let x := slice data i (i + batch_size) in
  let y := slice labels i (i + batch_size) in
  predicted_distribution <- forward x wv bv ;;
  l <- cross_entropy_idx (snd predicted_distribution) y ;;
  correct_predictions <- count_correct (snd predicted_distribution) y ;;
  Ok (correct_predictions, l).

(** ** Vocabulary of the statements *)

(** The pixel of an image at row [i], column [j]. *)
Definition pixel (t : image) (i j : nat) : Z := nth j (nth i t []) 0%Z.

(** A 28 x 28 image. *)
Definition is28 (t : image) : Prop :=
  length t = 28%nat /\ Forall (fun r => length r = 28%nat) t.

(** A test image: pixel (i, j) is [(5 * i + j) mod 256], which differs
    from the pixels two rows or two columns away. *)
Definition ramp : image :=
  map (fun i => map (fun j => Z.of_nat ((5 * i + j) mod 256)) (seq 0 28)) (seq 0 28).

(** The up-shift as the specification words it: the bottom two rows hold
    the fill value and the content sits two rows lower than in the source. *)
Definition up_shift_as_specified (img s : image) : Prop :=
  (forall i j, (26 <= i < 28)%nat -> (j < 28)%nat -> pixel s i j = 255%Z) /\
  (forall i j, (i < 24)%nat -> (j < 28)%nat -> pixel s (i + 2) j = pixel img i j).

(** The mini-batches of an epoch as the specification describes them:
    [n] contiguous slices of [batch_size] rows, in the order of the data. *)
Definition batch_slices {A : Type} (t : list A) (batch_size n : nat) : list (list A) :=
  map (fun k => slice t (k * batch_size) ((k + 1) * batch_size)) (seq 0 n).

(** Training on a given list of (input, label) batches, one call of
    [train_batch] after the other. *)
Fixpoint train_on (batches : list (mat * mat)) (w : mat * mat) (b : vec * vec)
    (mu : R) (batch_size : nat) (wd : R) (losses : list R)
  : outcome ((mat * mat) * (vec * vec) * list R) :=
  match batches with
  | [] => Ok (w, b, losses)
  | (input, output) :: batches' =>
      '(w', b', loss) <- train_batch input output w b mu batch_size wd ;;
      train_on batches' w' b' mu batch_size wd (losses ++ [loss])
  end.

(** One epoch is a full pass: the batches together are the whole data set. *)
Definition full_pass {A : Type} (t : list A) (batch_size : nat) : Prop :=
  concat (batch_slices t batch_size (length t / batch_size)) = t.

(** The entry of a matrix at row [i], column [j]; the sum and the mean of
    column [j] over the rows (over the batch, for a batch tensor). *)
Definition entry (m : mat) (i j : nat) : R := nth j (nth i m []) 0.
Definition colsum (m : mat) (j : nat) : R := rsum (column j m).
Definition colmean (m : mat) (j : nat) : R := colsum m j / INR (length m).

(** Parameters of a network with [D] inputs, [H] hidden units and [O]
    classes. *)
Definition network_shape (D H O : nat) (w : mat * mat) (b : vec * vec) : Prop :=
  shape D H (fst w) /\ length (fst b) = H /\
  shape H O (snd w) /\ length (snd b) = O /\
  (0 < D)%nat /\ (0 < H)%nat /\ (0 < O)%nat.

(** The pre-activation [x @ w[0] + b[0]] of the hidden layer. *)
Definition hidden_pre_activation (x : mat) (w : mat * mat) (b : vec * vec) : outcome mat :=
  xw <- matmul_chk x (fst w) ;; add_bias xw (fst b).

(** The mean over the batch of the outer products of the rows of [a] with
    the rows of [e], at position ([i], [j]): the weight gradient as the
    specification words it. *)
Definition mean_outer (a e : mat) (i j : nat) : R :=
  rsum (zip_with (fun ar er => nth i ar 0 * nth j er 0) a e) / INR (length a).

(** A small network and batch: one input, one hidden unit, two classes,
    three examples. *)
Definition sample_x : mat := [[0]; [1]; [2]].
Definition sample_y : mat := [[1; 0]; [1; 0]; [0; 1]].
Definition sample_w : mat * mat := ([[1]], [[0; 0]]).
Definition sample_b : vec * vec := ([0], [0; 0]).

(** The all-zero matrix of [r] rows and [c] columns. *)
Definition zeros (r c : nat) : mat := repeat (repeat 0 c) r.

(** A uint8 image: every pixel lies in 0..255. *)
Definition uint8_image (t : image) : bool :=
  forallb (forallb (fun p => (0 <=? p)%Z && (p <=? 255)%Z)) t.

(** What is assumed of the external rotation: the result has the size and
    the pixel type of its argument. *)
Definition rotate_ok (rotate : image -> Z -> image) : Prop :=
  forall img angle,
    is28 img -> uint8_image img = true ->
    is28 (rotate img angle) /\ uint8_image (rotate img angle) = true.

(** The rotation by no angle at all, to run the loader on examples. *)
Definition no_rotation (img : image) (angle : Z) : image := img.

(** The seven tensors [load_dataset] stores for a training image. *)
Definition augmented (rotate : image -> Z -> image) (img : image) : list image :=
  [img;
   fill 2 28 ++ skipn 2 img;
   firstn 26 img ++ fill 2 28;
   zip_with (@app Z) (fill 28 2) (map (skipn 2) img);
   zip_with (@app Z) (map (firstn 26) img) (fill 28 2);
   rotate img 5%Z;
   rotate img (-5)%Z].

(** [collate(x_data).float().flatten(start_dim=1)]. *)
Definition flat_pixels (x : list image) : mat :=
  map (fun i => concat (map (map IZR) i)) x.

(** Step (1) and step (2) of the normalization, entry by entry. *)
Definition min_max_scale (mini maxi : R) (x : mat) : mat :=
  map (map (fun v => v / maxi)) (map (map (fun v => v - mini)) x).
Definition standardize (s m : R) (x : mat) : mat :=
  map (map (fun v => v / s)) (map (map (fun v => v - m)) x).

(** A training set the loader accepts: 28 x 28 uint8 images with labels
    0..9, not all pixels at the fill value 255. *)
Definition training_set_ok (ds : list (image * Z)) : Prop :=
  ds <> [] /\
  Forall (fun p => is28 (fst p) /\ uint8_image (fst p) = true /\ (0 <= snd p <= 9)%Z) ds /\
  exists img label p, In (img, label) ds /\ In p (concat img) /\ p <> 255%Z.

(** A validation or test set the loader accepts: uint8 images of one
    shape, not all pixels zero. *)
Definition test_set_ok (ds : list (image * Z)) : Prop :=
  ds <> [] /\
  (exists sh, Forall (fun p => image_shape (fst p) = sh) ds) /\
  Forall (fun p => uint8_image (fst p) = true) ds /\
  exists img label p, In (img, label) ds /\ In p (concat img) /\ p <> 0%Z.

(** The images and the labels of the training tensor, augmentation included. *)
Definition training_images (rotate : image -> Z -> image) (ds : list (image * Z))
  : list image :=
  flat_map (fun p => augmented rotate (fst p)) ds.
Definition training_labels (ds : list (image * Z)) : list Z :=
  flat_map (fun p => repeat (snd p) 7) ds.

(** A test image with one black pixel and all others at 100, and the two
    splits of the examples: one training image, one validation image. *)
Definition dim : image :=
  map (fun i => map (fun j => if (Nat.eqb i 0 && Nat.eqb j 0)%bool then 0%Z else 100%Z)
                    (seq 0 28)) (seq 0 28).
Definition sample_train : list (image * Z) := [(ramp, 3%Z)].
Definition sample_test : list (image * Z) := [(dim, 5%Z)].

(** C1 as the specification words it: whichever call path normalizes it,
    the same raw pixel value comes out as the same standardized value. *)
Definition same_raw_same_output (rotate : image -> Z -> image)
    (T V : list (image * Z)) : Prop :=
  forall x_train y_train_labels y_train mean_std x_test y_test,
    load_dataset rotate T true false None
      = Ok (LoadedTrain x_train y_train_labels y_train mean_std) ->
    load_dataset rotate V false false (Some mean_std) = Ok (LoadedTest x_test y_test) ->
    forall i j i' j',
      (i < length x_train)%nat -> (j < length (nth i x_train []))%nat ->
      (i' < length x_test)%nat -> (j' < length (nth i' x_test []))%nat ->
      entry (flat_pixels (training_images rotate T)) i j
        = entry (flat_pixels (map fst V)) i' j' ->
      entry x_train i j = entry x_test i' j'.

(** C2 as the specification words it: the validation data are min-max
    scaled with the global minimum and maximum of the training tensor. *)
Definition test_scaled_by_training_extrema (rotate : image -> Z -> image)
    (T V : list (image * Z)) : Prop :=
  forall x_train y_train_labels y_train s m x_test y_test mini maxi,
    load_dataset rotate T true false None
      = Ok (LoadedTrain x_train y_train_labels y_train (Some s, Some m)) ->
    rmin_list (concat (flat_pixels (training_images rotate T))) = Ok mini ->
    rmax_list (concat (flat_pixels (training_images rotate T))) = Ok maxi ->
    load_dataset rotate V false false (Some (Some s, Some m))
      = Ok (LoadedTest x_test y_test) ->
    x_test = standardize s m (min_max_scale mini maxi (flat_pixels (map fst V))).

(** Every pixel of an image lies in 0..255. *)
Definition pixels_in_range (t : image) : Prop :=
  Forall (Forall (fun p => (0 <= p <= 255)%Z)) t.

(** The four parameter objects are different objects. *)
Definition distinct_params (w b : loc * loc) : Prop :=
  fst w <> snd w /\ fst w <> fst b /\ fst w <> snd b /\
  snd w <> fst b /\ snd w <> snd b /\ fst b <> snd b.

(** ** The derivative of the softmax *)

(** [torch.diag_embed(y)] for one row of [y]. *)
Definition diag_embed (r : vec) : mat :=
  map (fun i => map (fun j => if Nat.eqb i j then nth i r 0 else 0) (seq 0 (length r)))
      (seq 0 (length r)).

(** [deriv_activation]: for every row [r] of the batch [y], the matrix
    [diag(r) - r^T r]; [y.unsqueeze(1)] makes a 1 x n matrix of the row. *)
Definition deriv_activation (y : mat) : outcome (list mat) :=
  mapM (fun r => outer <- matmul_chk (transpose [r]) [r] ;;
                 msub_chk (diag_embed r) outer) y.

(** ** The sweep configuration of [Runner]

    [Lab05/Assignment5/Bonus_Code/runner.py].  Every dict display of the
    code makes a dict object on a store of their own, and a dict stored
    under a key of another dict is stored as a reference to its object,
    so that a later update of it shows through.  Lists and tuples, which
    the code never updates, are kept as values. *)

Module Runner.

Local Open Scope string_scope.
Local Open Scope Z_scope.

(** Python values: a float literal is kept as its decimal digits,
    [mantissa * 10 ^ exponent].  [VRef] is a reference to a dict object;
    [VDict] is a dict written out, with the dicts it holds written out in
    their turn. *)
Inductive value : Type :=
| VStr (s : string)
| VInt (z : Z)
| VFloat (mantissa exponent : Z)
| VBool (b : bool)
| VTuple (l : list value)
| VList (l : list value)
| VDict (d : list (string * value))
| VRef (l : nat).

Definition dict := list (string * value).
Definition store := list dict.

(** [d[k] = v]: an existing key keeps its place. *)
Fixpoint setitem (d : dict) (k : string) (v : value) : dict :=
  match d with
  | [] => [(k, v)]
  | (k', v') :: d' =>
      if String.eqb k' k then (k', v) :: d' else (k', v') :: setitem d' k v
  end.

(** [d[k]]; [KeyError] on a missing key. *)
Fixpoint getitem (d : dict) (k : string) : outcome value :=
  match d with
  | [] => Raises
  | (k', v') :: d' => if String.eqb k' k then Ok v' else getitem d' k
  end.

(** [d.update(other)]. *)
Definition update (d other : dict) : dict :=
  fold_left (fun acc kv => setitem acc (fst kv) (snd kv)) other d.

(** A new dict object, and the two accesses to a dict object. *)
Definition new_dict (d : dict) (s : store) : nat * store :=
  (List.length s, (s ++ [d])%list).
Definition read (l : nat) (s : store) : outcome dict :=
  match nth_error s l with
  | Some d => Ok d
  | None => Raises
  end.
Fixpoint write (l : nat) (d : dict) (s : store) : store :=
  match s, l with
  | [], _ => []
  | _ :: s', O => d :: s'
  | c :: s', S l' => c :: write l' d s'
  end.

(** The fields of a [Runner] that the sweep configuration reads. *)
Record runner : Type := { epochs : Z; sweep_config : nat }.

Definition layer_sizes : list value :=
  [VInt 4000; VInt 1024; VInt 1000; VInt 512; VInt 256; VInt 128].
Definition dropouts : list value :=
  [VTuple [VStr "a"; VFloat 0 0]; VTuple [VStr "a"; VFloat 3 (-1)];
   VTuple [VStr "b"; VFloat 4 (-1)]; VTuple [VStr "b"; VFloat 5 (-1)];
   VTuple [VStr "b"; VFloat 0 0]; VTuple [VStr "b"; VFloat 3 (-1)];
   VTuple [VStr "a"; VFloat 4 (-1)]; VTuple [VStr "a"; VFloat 5 (-1)]].
Definition booleans : list value := [VBool true; VBool false].

(** The keys of the dict display bound to [parameters_dict], each with
    the dict display [{'values': [...]}] written as its value. *)
Definition parameters_entries : list (string * dict) :=
  map (fun kv => (fst kv, [("values", VList (snd kv))]))
    [("batch_size", [VInt 32; VInt 64; VInt 128]);
     ("optimizer", [VStr "adam"; VStr "sgd"; VStr "rmsprop"; VStr "adagrad";
                    VStr "sam_sgd"]);
     ("fc_layer_size_1", layer_sizes);
     ("fc_layer_size_2", layer_sizes);
     ("fc_layer_size_3", layer_sizes);
     ("dropout_1", dropouts);
     ("dropout_2", dropouts);
     ("dropout_3", dropouts);
     ("dropout_4", dropouts);
     ("batch_norm", booleans);
     ("weight_decay", [VFloat 0 0; VFloat 1 (-1); VFloat 1 (-3); VFloat 5 (-3);
                       VFloat 5 (-4); VFloat 1 (-5)]);
     ("momentum", [VFloat 0 0; VFloat 9 (-1)]);
     ("Nesterov", booleans);
     ("lr", [VFloat 1 (-1); VFloat 1 (-3); VFloat 5 (-3); VFloat 5 (-4);
             VFloat 1 (-5)]);
     ("gradient_clipping", booleans);
     ("lr_scheduler", booleans)].

(** A dict display whose values are dict displays: the inner dicts are
    made one after the other, then the outer one, which holds their
    references. *)
Fixpoint new_inner (entries : list (string * dict)) (s : store) : dict * store :=
  match entries with
  | [] => ([], s)
  | (k, d) :: entries' =>
      let '(l, s) := new_dict d s in
      let '(refs, s) := new_inner entries' s in
      ((k, VRef l) :: refs, s)
  end.
Definition new_nested (entries : list (string * dict)) (s : store) : nat * store :=
  let '(refs, s) := new_inner entries s in new_dict refs s.

(** [configure_sweep]. *)
Definition configure_sweep (self : runner) (s : store) : outcome store :=
  let '(metric, s) :=
    new_dict [("name", VStr "accuracy"); ("goal", VStr "maximize")] s in
  cfg <- read (sweep_config self) s ;;
  let s := write (sweep_config self) (setitem cfg "metric" (VRef metric)) s in
  let '(parameters_dict, s) := new_nested parameters_entries s in
  cfg <- read (sweep_config self) s ;;
  let s := write (sweep_config self) (setitem cfg "parameters" (VRef parameters_dict)) s in
  let '(other, s) := new_nested [("epochs", [("value", VInt (epochs self))])] s in
  p <- read parameters_dict s ;;
  o <- read other s ;;
  let s := write parameters_dict (update p o) s in
  Ok s.

(** The part of [__init__] that sets up the sweep: the new object with its
    [epochs] and its [sweep_config], then [configure_sweep]. *)
Definition init (epochs_ : Z) (s : store) : outcome (runner * store) :=
  let '(cfg, s) := new_dict [("method", VStr "random")] s in
  let self := {| epochs := epochs_; sweep_config := cfg |} in
  s <- configure_sweep self s ;;
  Ok (self, s).

(** A value with every reference replaced by the dict it points to, as
    far as [fuel] levels of references go. *)
Fixpoint resolve (fuel : nat) (s : store) (v : value) : value :=
  match v with
  | VRef l =>
      match fuel, nth_error s l with
      | S fuel', Some d => VDict (map (fun kv => (fst kv, resolve fuel' s (snd kv))) d)
      | _, _ => v
      end
  | _ => v
  end.

(** [self.sweep_config[k1][k2]], written out. *)
Definition lookup2 (self : runner) (k1 k2 : string) (s : store) : outcome value :=
  cfg <- read (sweep_config self) s ;;
  v <- getitem cfg k1 ;;
  match v with
  | VRef l => d <- read l s ;; v2 <- getitem d k2 ;; Ok (resolve 1 s v2)
  | _ => Raises
  end.

(** The dict display bound to [parameters_dict], written out. *)
Definition parameters_literal : dict :=
  map (fun kd => (fst kd, VDict (snd kd))) parameters_entries.

(** The references the outer dict of a nested display holds: one for
    every entry, to consecutive new objects. *)
Fixpoint refs_from (n : nat) (entries : list (string * dict)) : dict :=
  match entries with
  | [] => []
  | (k, _) :: entries' => (k, VRef n) :: refs_from (S n) entries'
  end.

End Runner.

(** ** Vocabulary of further statements *)

(** The loop of [train] with the learning rate of every epoch looked up in
    [rate], instead of being updated on the way. *)
Fixpoint train_epochs_at (rate : nat -> R) (x_train : mat) (y_train_labels : list Z)
    (y_train : mat) (x_test : mat) (y_test : list Z) (epochs : list nat)
    (weights : mat * mat) (biases : vec * vec)
    (batch_size eval_batch_size : nat) (wd : R) (out : list report)
  : outcome ((mat * mat) * (vec * vec) * list report) :=
  match epochs with
  | [] => Ok (weights, biases, out)
  | epoch :: epochs' =>
      '(weights, biases, loss) <-
        train_perceptron x_train y_train weights biases (rate epoch) batch_size wd ;;
      '(accuracy_test, loss_test) <-
        evaluate x_test y_test weights biases eval_batch_size ;;
      '(accuracy_train, loss_train) <-
        evaluate x_train y_train_labels weights biases eval_batch_size ;;
      train_epochs_at rate x_train y_train_labels y_train x_test y_test epochs'
        weights biases batch_size eval_batch_size wd
        (out ++ [(accuracy_test, loss_test, accuracy_train, loss_train, loss)])
  end.

(** The program hands [cross_entropy] the output of the softmax, whose
    entries lie between 0 and 1, where it expects logits.  The loss of a
    row of [n] such entries is at least [loss_floor n]. *)
Definition loss_floor (n : nat) : R := ln (1 + (INR n - 1) * exp (-1)).

(** A computation on the store keeps the object at [l]: when it returns,
    the object is what it was. *)
Definition keeps {A : Type} (l : loc) (m : M A) : Prop :=
  forall h t a h', nth_error h l = Some t -> m h = Ok (a, h') -> nth_error h' l = Some t.

(** The sum of [f 0], ..., [f (n - 1)]. *)
Definition sum_over (n : nat) (f : nat -> R) : R := rsum (map f (seq 0 n)).

(** [p] is the position of the first largest entry of the row [r]. *)
Definition first_largest (r : vec) (p : nat) : Prop :=
  (p < length r)%nat /\
  (forall j, (j < length r)%nat -> nth j r 0 <= nth p r 0) /\
  (forall j, (j < p)%nat -> nth j r 0 < nth p r 0).

(** The rows of batch [k] of an evaluation: the rows [k * batch_size],
    [k * batch_size + 1], ... of [t], [batch_size] of them or as many as
    are left. *)
Definition batch_rows {A : Type} (t : list A) (d : A) (batch_size k : nat) : list A :=
  map (fun j => nth (k * batch_size + j) t d)
      (seq 0 (Nat.min batch_size (length t - k * batch_size))).

(** The sample network with both output weights at 1. *)
Definition sample_w_ones : mat * mat := ([[1]], [[1; 1]]).

(** A data set of six rows for two evaluation batches of three, with the
    output weights 1 and -1: the logits of the two batches and the classes
    they predict. *)
Definition sample_data : mat := [[0]; [1]; [2]; [5]; [3]; [4]].
Definition sample_labels : list Z := [1; 0; 1; 0; 0; 0]%Z.
Definition sample_w_signed : mat * mat := ([[1]], [[1; -1]]).
Definition sample_logits (k : nat) : mat :=
  if (k =? 0)%nat then [[-1; 1]; [0; 0]; [1; -1]] else [[1; -1]; [-1; 1]; [0; 0]].
Definition sample_predicted (i : nat) : nat := nth i [1; 0; 0; 0; 1; 0]%nat 0%nat.

(** A network with two hidden units, for a batch of two examples. *)
Definition sample_x2 : mat := [[0]; [1]].
Definition sample_y2 : mat := [[1; 0]; [0; 1]].
Definition sample_w2 : mat * mat := ([[0; 2]], [[1; 0]; [0; 1]]).
Definition sample_b2 : vec * vec := ([0; 0], [0; 0]).

(** * Properties *)

(** ** Facts about [mapM], [zmax] and [eye] *)

Lemma mapM_Ok_pointwise {A B : Type} (f : A -> outcome B) (g : A -> B) (l : list A) :
  (forall a, In a l -> f a = Ok (g a)) -> mapM f l = Ok (map g l).
Proof.
  induction l as [|a l IH]; intros H; simpl; [reflexivity|].
  rewrite (H a) by (left; reflexivity). simpl.
  rewrite IH by (intros; apply H; right; assumption). reflexivity.
Qed.

Lemma fold_max_ge_init (xs : list Z) (x0 : Z) : (x0 <= fold_left Z.max xs x0)%Z.
Proof.
  revert x0. induction xs as [|y ys IH]; intros x0; simpl; [lia|].
  specialize (IH (Z.max x0 y)). lia.
Qed.

Lemma fold_max_ge (xs : list Z) (x0 y : Z) :
  In y xs -> (y <= fold_left Z.max xs x0)%Z.
Proof.
  revert x0. induction xs as [|z zs IH]; intros x0 Hin; simpl; [contradiction|].
  destruct Hin as [E|H].
  - subst. pose proof (fold_max_ge_init zs (Z.max x0 y)). lia.
  - apply IH; assumption.
Qed.

Lemma fold_max_In (xs : list Z) (x0 : Z) :
  fold_left Z.max xs x0 = x0 \/ In (fold_left Z.max xs x0) xs.
Proof.
  revert x0. induction xs as [|z zs IH]; intros x0; simpl; [left; reflexivity|].
  destruct (IH (Z.max x0 z)) as [E|H].
  - rewrite E. destruct (Z.max_spec x0 z) as [[_ ->]|[_ ->]]; auto.
  - right; right; assumption.
Qed.

Lemma zmax_spec (x : list Z) :
  x <> [] ->
  exists m, zmax x = Ok m /\ In m x /\ (forall y, In y x -> (y <= m)%Z).
Proof.
  destruct x as [|x0 xs]; [congruence|]. intros _.
  exists (fold_left Z.max xs x0). split; [reflexivity|]. split.
  - destruct (fold_max_In xs x0) as [E|H]; [left; symmetry; exact E | right; exact H].
  - intros y [E|H]; [subst; apply fold_max_ge_init | apply fold_max_ge; assumption].
Qed.

Lemma eye_length (n : nat) : length (eye n) = n.
Proof. unfold eye. rewrite length_map, length_seq. reflexivity. Qed.

Lemma eye_row (n i : nat) :
  (i < n)%nat ->
  nth_error (eye n) i = Some (map (fun j => if Nat.eqb i j then 1 else 0) (seq 0 n)).
Proof.
  intros H. unfold eye.
  rewrite nth_error_map, nth_error_nth' with (d := 0%nat) by (rewrite length_seq; exact H).
  rewrite seq_nth by exact H. reflexivity.
Qed.

Lemma py_index_eye (n : nat) (l : Z) :
  (0 <= l < Z.of_nat n)%Z ->
  py_index (eye n) l = Ok (map (fun j => if Nat.eqb (Z.to_nat l) j then 1 else 0) (seq 0 n)).
Proof.
  intros H. unfold py_index. rewrite eye_length.
  destruct (l <? 0)%Z eqn:E; [apply Z.ltb_lt in E; lia|].
  replace ((0 <=? l) && (l <? Z.of_nat n))%Z with true
    by (symmetry; apply andb_true_iff; split; [apply Z.leb_le | apply Z.ltb_lt]; lia).
  rewrite eye_row by lia. reflexivity.
Qed.

(** ** One-hot encoding (C10) *)

Lemma map_indicator_nth (n l j : nat) :
  nth j (map (fun k => if Nat.eqb l k then 1 else 0) (seq 0 n)) 0 =
  if (j <? n)%nat && Nat.eqb l j then 1 else 0.
Proof.
  set (f := fun k => if Nat.eqb l k then 1 else 0).
  destruct (Nat.ltb_spec j n) as [H|H]; simpl.
  - rewrite nth_indep with (d' := f 0%nat)
      by (rewrite length_map, length_seq; exact H).
    rewrite map_nth, seq_nth by exact H. reflexivity.
  - apply nth_overflow. rewrite length_map, length_seq. exact H.
Qed.

(** C10, as the code has it: the rows of [to_one_hot x] are indicator
    vectors with a single 1 at the label's position, but their width is
    the largest label of [x] plus one; they are 10 wide exactly when the
    label 9 occurs in [x]. *)
Theorem to_one_hot_indicator (x : list Z) :
  x <> [] ->
  Forall (fun l => 0 <= l <= 9)%Z x ->
  exists m rows,
    zmax x = Ok m /\ to_one_hot x = Ok rows /\
    length rows = length x /\
    (forall i l, nth_error x i = Some l ->
       exists row, nth_error rows i = Some row /\
         length row = Z.to_nat (m + 1) /\
         nth (Z.to_nat l) row 0 = 1 /\
         (forall j, j <> Z.to_nat l -> nth j row 0 = 0)) /\
    (Z.to_nat (m + 1) = 10%nat <-> In 9%Z x).
Proof.
  intros Hne Hrange. rewrite Forall_forall in Hrange.
  destruct (zmax_spec Hne) as (m & Hm & Hin & Hmax).
  pose proof (Hrange m Hin) as Hm9.
  set (row_of := fun l : Z =>
         map (fun j => if Nat.eqb (Z.to_nat l) j then 1 else 0) (seq 0 (Z.to_nat (m + 1)))).
  assert (Hoh : to_one_hot x = Ok (map row_of x)).
  { unfold to_one_hot. rewrite Hm. simpl.
    destruct (m + 1 <? 0)%Z eqn:E; [apply Z.ltb_lt in E; lia|].
    apply mapM_Ok_pointwise. intros l Hl.
    apply py_index_eye. specialize (Hmax l Hl). specialize (Hrange l Hl). lia. }
  exists m, (map row_of x). repeat split; try assumption.
  - apply length_map.
  - intros i l Hi. exists (row_of l). split; [|split; [|split]].
    + rewrite nth_error_map, Hi. reflexivity.
    + unfold row_of. rewrite length_map, length_seq. reflexivity.
    + unfold row_of. rewrite map_indicator_nth, Nat.eqb_refl.
      assert (Hl : In l x) by (eapply nth_error_In; exact Hi).
      specialize (Hmax l Hl). specialize (Hrange l Hl).
      replace (Z.to_nat l <? Z.to_nat (m + 1))%nat with true
        by (symmetry; apply Nat.ltb_lt; lia).
      reflexivity.
    + intros j Hj. unfold row_of. rewrite map_indicator_nth.
      destruct (Nat.eqb_spec (Z.to_nat l) j); [congruence|].
      rewrite andb_false_r. reflexivity.
  - intros E. replace 9%Z with m by lia. exact Hin.
  - intros H9. specialize (Hmax 9%Z H9). lia.
Qed.

Lemma to_one_hot_indicator_witness :
  exists m rows,
    zmax [3; 9; 0]%Z = Ok m /\ to_one_hot [3; 9; 0]%Z = Ok rows /\
    length rows = length [3; 9; 0]%Z /\
    (forall i l, nth_error [3; 9; 0]%Z i = Some l ->
       exists row, nth_error rows i = Some row /\
         length row = Z.to_nat (m + 1) /\
         nth (Z.to_nat l) row 0 = 1 /\
         (forall j, j <> Z.to_nat l -> nth j row 0 = 0)) /\
    (Z.to_nat (m + 1) = 10%nat <-> In 9%Z [3; 9; 0]%Z).
Proof.
  apply (@to_one_hot_indicator [3; 9; 0]%Z).
  - discriminate.
  - repeat constructor; lia.
Defined.

(** The claim as the specification words it: every row is 10 wide. *)
Definition one_hot_ten_wide (x : list Z) : Prop :=
  exists rows, to_one_hot x = Ok rows /\ Forall (fun row => length row = 10%nat) rows.

Lemma to_one_hot_width_counterexample :
  Forall (fun l => 0 <= l <= 9)%Z [0; 1]%Z /\
  to_one_hot [0; 1]%Z = Ok [[1; 0]; [0; 1]] /\
  ~ one_hot_ten_wide [0; 1]%Z.
Proof.
  split; [repeat constructor; lia|].
  assert (E : to_one_hot [0; 1]%Z = Ok [[1; 0]; [0; 1]]) by reflexivity.
  split; [exact E|].
  intros (rows & Hrows & Hw). rewrite E in Hrows. injection Hrows as <-.
  inversion Hw as [|? ? Hlen _]. simpl in Hlen. discriminate.
Qed.

(** ** The four border variants of an image (C5) *)

Lemma zip_with_length {A B C : Type} (f : A -> B -> C) (a : list A) (b : list B) :
  length (zip_with f a b) = Nat.min (length a) (length b).
Proof.
  revert b. induction a as [|x a IH]; intros [|y b]; simpl; try reflexivity.
  rewrite IH. reflexivity.
Qed.

Lemma zip_with_nth {A B C : Type} (f : A -> B -> C) (a : list A) (b : list B)
    (i : nat) (da : A) (db : B) (dc : C) :
  (i < length a)%nat -> (i < length b)%nat ->
  nth i (zip_with f a b) dc = f (nth i a da) (nth i b db).
Proof.
  revert b i. induction a as [|x a IH]; intros [|y b] [|i] Ha Hb; simpl in *; try lia.
  - reflexivity.
  - apply IH; lia.
Qed.

Lemma in_skipn {A : Type} (l : list A) (k : nat) (a : A) :
  In a (skipn k l) -> In a l.
Proof.
  intros H. rewrite <- (firstn_skipn k l). apply in_or_app. right. exact H.
Qed.

Lemma nth_firstn_lt {A : Type} (l : list A) (k i : nat) (d : A) :
  (i < k)%nat -> nth i (firstn k l) d = nth i l d.
Proof.
  revert l i. induction k as [|k IH]; intros l i H; [lia|].
  destruct l as [|a l]; [reflexivity|].
  destruct i as [|i]; simpl; [reflexivity | apply IH; lia].
Qed.

Lemma nth_repeat_lt {A : Type} (a d : A) (n i : nat) :
  (i < n)%nat -> nth i (repeat a n) d = a.
Proof.
  revert i. induction n as [|n IH]; intros i H; [lia|].
  destruct i as [|i]; simpl; [reflexivity | apply IH; lia].
Qed.

Lemma forallb_length_eq {A : Type} (l : list (list A)) (n : nat) :
  Forall (fun r => length r = n) l -> forallb (fun r => length r =? n)%nat l = true.
Proof.
  intros H. apply forallb_forall. rewrite Forall_forall in H.
  intros r Hr. apply Nat.eqb_eq. apply H. exact Hr.
Qed.

Lemma is28_row (t : image) (i : nat) :
  is28 t -> (i < 28)%nat -> length (nth i t []) = 28%nat.
Proof.
  intros [Hlen Hrows] Hi. rewrite Forall_forall in Hrows.
  apply Hrows. apply nth_In. lia.
Qed.

Lemma img_shifted_1_Ok (t : image) :
  is28 t -> img_shifted_1 t = Ok (fill 2 28 ++ skipn 2 t).
Proof.
  intros [_ Hrows]. unfold img_shifted_1, cat0.
  rewrite forallb_length_eq; [reflexivity|].
  rewrite Forall_forall in *. intros r Hr. simpl. apply Hrows.
  eapply in_skipn; exact Hr.
Qed.

Lemma img_shifted_2_Ok (t : image) :
  is28 t -> img_shifted_2 t = Ok (firstn 26 t ++ fill 2 28).
Proof.
  intros [Hlen Hrows]. unfold img_shifted_2, cat0.
  rewrite forallb_length_eq; [reflexivity|].
  assert (Hw : width (firstn 26 t) = 28%nat).
  { destruct t as [|r t]; [discriminate|]. simpl.
    inversion Hrows; assumption. }
  rewrite Hw. repeat constructor.
Qed.

Lemma img_shifted_3_Ok (t : image) :
  is28 t -> img_shifted_3 t = Ok (zip_with (@app Z) (fill 28 2) (map (skipn 2) t)).
Proof.
  intros [Hlen _]. unfold img_shifted_3, cat1.
  rewrite length_map, Hlen. reflexivity.
Qed.

Lemma img_shifted_4_Ok (t : image) :
  is28 t -> img_shifted_4 t = Ok (zip_with (@app Z) (map (firstn 26) t) (fill 28 2)).
Proof.
  intros [Hlen _]. unfold img_shifted_4, cat1.
  rewrite length_map, Hlen. reflexivity.
Qed.

Lemma pixel_shifted_1 (t : image) (i j : nat) :
  (i < 28)%nat -> (j < 28)%nat ->
  pixel (fill 2 28 ++ skipn 2 t) i j = if (i <? 2)%nat then 255%Z else pixel t i j.
Proof.
  intros Hi Hj. unfold pixel.
  destruct (Nat.ltb_spec i 2) as [H|H].
  - rewrite app_nth1 by (unfold fill; rewrite repeat_length; exact H).
    unfold fill. rewrite nth_repeat_lt by exact H. apply nth_repeat_lt. exact Hj.
  - rewrite app_nth2 by (unfold fill; rewrite repeat_length; exact H).
    unfold fill. rewrite repeat_length, nth_skipn.
    replace (2 + (i - 2))%nat with i by lia. reflexivity.
Qed.

Lemma pixel_shifted_2 (t : image) (i j : nat) :
  is28 t -> (i < 28)%nat -> (j < 28)%nat ->
  pixel (firstn 26 t ++ fill 2 28) i j = if (26 <=? i)%nat then 255%Z else pixel t i j.
Proof.
  intros [Hlen _] Hi Hj. unfold pixel.
  assert (Hf : length (firstn 26 t) = 26%nat) by (rewrite length_firstn; lia).
  destruct (Nat.leb_spec 26 i) as [H|H].
  - rewrite app_nth2 by lia. rewrite Hf. unfold fill.
    rewrite nth_repeat_lt by lia. apply nth_repeat_lt. exact Hj.
  - rewrite app_nth1 by lia. rewrite nth_firstn_lt by exact H. reflexivity.
Qed.

Lemma pixel_shifted_3 (t : image) (i j : nat) :
  is28 t -> (i < 28)%nat -> (j < 28)%nat ->
  pixel (zip_with (@app Z) (fill 28 2) (map (skipn 2) t)) i j =
  if (j <? 2)%nat then 255%Z else pixel t i j.
Proof.
  intros [Hlen Hrows] Hi Hj. unfold pixel.
  rewrite zip_with_nth with (da := []) (db := skipn 2 [])
    by (unfold fill; rewrite ?repeat_length, ?length_map; lia).
  rewrite map_nth. unfold fill. rewrite nth_repeat_lt by exact Hi.
  destruct (Nat.ltb_spec j 2) as [H|H].
  - rewrite app_nth1 by (rewrite repeat_length; exact H).
    apply nth_repeat_lt. exact H.
  - rewrite app_nth2 by (rewrite repeat_length; exact H).
    rewrite repeat_length, nth_skipn.
    replace (2 + (j - 2))%nat with j by lia. reflexivity.
Qed.

Lemma pixel_shifted_4 (t : image) (i j : nat) :
  is28 t -> (i < 28)%nat -> (j < 28)%nat ->
  pixel (zip_with (@app Z) (map (firstn 26) t) (fill 28 2)) i j =
  if (26 <=? j)%nat then 255%Z else pixel t i j.
Proof.
  intros H28 Hi Hj. pose proof (is28_row H28 Hi) as Hrow. destruct H28 as [Hlen _].
  unfold pixel.
  rewrite zip_with_nth with (da := firstn 26 []) (db := [])
    by (unfold fill; rewrite ?repeat_length, ?length_map; lia).
  rewrite map_nth. unfold fill. rewrite nth_repeat_lt by exact Hi.
  assert (Hf : length (firstn 26 (nth i t [])) = 26%nat) by (rewrite length_firstn; lia).
  destruct (Nat.leb_spec 26 j) as [H|H].
  - rewrite app_nth2 by lia. rewrite Hf. apply nth_repeat_lt. lia.
  - rewrite app_nth1 by lia. apply nth_firstn_lt. exact H.
Qed.

(** C5, as the code has it: each of the four variants leaves every pixel
    of a 28 x 28 image where it is and overwrites a border two pixels wide
    with the constant 255: the top two rows, the bottom two rows, the left
    two columns, the right two columns.  No content moves. *)
Theorem shifted_variants_overwrite_border (img : image) :
  is28 img ->
  exists s1 s2 s3 s4,
    img_shifted_1 img = Ok s1 /\ img_shifted_2 img = Ok s2 /\
    img_shifted_3 img = Ok s3 /\ img_shifted_4 img = Ok s4 /\
    forall i j, (i < 28)%nat -> (j < 28)%nat ->
      pixel s1 i j = (if (i <? 2)%nat then 255%Z else pixel img i j) /\
      pixel s2 i j = (if (26 <=? i)%nat then 255%Z else pixel img i j) /\
      pixel s3 i j = (if (j <? 2)%nat then 255%Z else pixel img i j) /\
      pixel s4 i j = (if (26 <=? j)%nat then 255%Z else pixel img i j).
Proof.
  intros H28.
  exists (fill 2 28 ++ skipn 2 img), (firstn 26 img ++ fill 2 28),
    (zip_with (@app Z) (fill 28 2) (map (skipn 2) img)),
    (zip_with (@app Z) (map (firstn 26) img) (fill 28 2)).
  split; [apply img_shifted_1_Ok; exact H28|].
  split; [apply img_shifted_2_Ok; exact H28|].
  split; [apply img_shifted_3_Ok; exact H28|].
  split; [apply img_shifted_4_Ok; exact H28|].
  intros i j Hi Hj.
  split; [apply pixel_shifted_1; assumption|].
  split; [apply pixel_shifted_2; assumption|].
  split; [apply pixel_shifted_3; assumption|].
  apply pixel_shifted_4; assumption.
Qed.

Lemma ramp_is28 : is28 ramp.
Proof.
  split; [reflexivity|]. unfold ramp. apply Forall_forall.
  intros r Hr. apply in_map_iff in Hr. destruct Hr as (i & <- & _).
  rewrite length_map, length_seq. reflexivity.
Qed.

Lemma shifted_variants_overwrite_border_witness :
  exists s1 s2 s3 s4,
    img_shifted_1 ramp = Ok s1 /\ img_shifted_2 ramp = Ok s2 /\
    img_shifted_3 ramp = Ok s3 /\ img_shifted_4 ramp = Ok s4 /\
    forall i j, (i < 28)%nat -> (j < 28)%nat ->
      pixel s1 i j = (if (i <? 2)%nat then 255%Z else pixel ramp i j) /\
      pixel s2 i j = (if (26 <=? i)%nat then 255%Z else pixel ramp i j) /\
      pixel s3 i j = (if (j <? 2)%nat then 255%Z else pixel ramp i j) /\
      pixel s4 i j = (if (26 <=? j)%nat then 255%Z else pixel ramp i j).
Proof.
  apply (@shifted_variants_overwrite_border ramp).
  split; [reflexivity|]. unfold ramp. apply Forall_forall.
  intros r Hr. apply in_map_iff in Hr. destruct Hr as (i & <- & _).
  rewrite length_map, length_seq. reflexivity.
Defined.

(** On the test image none of the four variants is the up-shift of the
    specification: pixel (2, 10) of each still holds the source's pixel
    (2, 10) or the fill value, never the source's pixel (0, 10). *)
Lemma up_shift_counterexample :
  is28 ramp /\
  exists s1 s2 s3 s4,
    img_shifted_1 ramp = Ok s1 /\ img_shifted_2 ramp = Ok s2 /\
    img_shifted_3 ramp = Ok s3 /\ img_shifted_4 ramp = Ok s4 /\
    ~ up_shift_as_specified ramp s1 /\ ~ up_shift_as_specified ramp s2 /\
    ~ up_shift_as_specified ramp s3 /\ ~ up_shift_as_specified ramp s4.
Proof.
  split; [exact ramp_is28|].
  do 4 eexists.
  split; [vm_compute; reflexivity|]. split; [vm_compute; reflexivity|].
  split; [vm_compute; reflexivity|]. split; [vm_compute; reflexivity|].
  repeat split; intros [_ H]; specialize (H 0%nat 10%nat ltac:(lia) ltac:(lia));
    vm_compute in H; discriminate.
Qed.

(** ** The mini-batches of an epoch (C8) *)

Lemma take_rows_slice {A : Type} (t : list A) (lo n : nat) :
  (lo + n <= length t)%nat -> take_rows t lo n = Ok (firstn n (skipn lo t)).
Proof.
  unfold take_rows. revert lo t. induction n as [|n IH]; intros lo t H; simpl.
  - reflexivity.
  - destruct (nth_error t lo) as [a|] eqn:E;
      [|apply nth_error_None in E; lia].
    simpl. rewrite IH by lia. simpl.
    assert (Hs : skipn lo t = a :: skipn (S lo) t).
    { clear IH H. revert t E. induction lo as [|lo IHlo]; intros [|x t] E;
        simpl in *; try discriminate.
      - injection E as ->. reflexivity.
      - apply IHlo. exact E. }
    rewrite Hs. reflexivity.
Qed.

Lemma slice_step {A : Type} (t : list A) (k bs : nat) :
  slice t (k * bs) ((k + 1) * bs) = firstn bs (skipn (k * bs) t).
Proof. unfold slice. f_equal. lia. Qed.

Lemma batch_slices_concat {A : Type} (t : list A) (bs n : nat) :
  concat (batch_slices t bs n) = firstn (n * bs) t.
Proof.
  unfold batch_slices. induction n as [|n IH].
  - reflexivity.
  - rewrite seq_S, map_app, concat_app, IH. simpl.
    rewrite app_nil_r, slice_step.
    rewrite <- (firstn_skipn (n * bs) (firstn (bs + n * bs) t)) at 1.
    rewrite firstn_firstn, Nat.min_l by lia.
    rewrite skipn_firstn_comm. f_equal. f_equal. lia.
Qed.

Lemma batch_slices_length {A : Type} (t : list A) (bs n : nat) :
  (n * bs <= length t)%nat ->
  Forall (fun batch => length batch = bs) (batch_slices t bs n).
Proof.
  intros H. unfold batch_slices. apply Forall_forall.
  intros batch Hb. apply in_map_iff in Hb. destruct Hb as (k & <- & Hk).
  apply in_seq in Hk. rewrite slice_step, length_firstn, length_skipn. nia.
Qed.

Lemma train_steps_train_on (data labels : mat) (w : mat * mat) (b : vec * vec)
    (mu : R) (bs : nat) (wd : R) (lo n : nat) (losses : list R) :
  ((lo + n) * bs <= length data)%nat -> ((lo + n) * bs <= length labels)%nat ->
  train_steps data labels (seq lo n) w b mu bs wd losses =
  train_on (combine (map (fun k => slice data (k * bs) ((k + 1) * bs)) (seq lo n))
                    (map (fun k => slice labels (k * bs) ((k + 1) * bs)) (seq lo n)))
           w b mu bs wd losses.
Proof.
  revert lo w b losses. induction n as [|n IH]; intros lo w b losses Hd Hl; simpl.
  - reflexivity.
  - rewrite !take_rows_slice by nia. simpl. rewrite !slice_step.
    destruct (train_batch _ _ w b mu bs wd) as [[[w' b'] loss]| |]; simpl; try reflexivity.
    apply IH; nia.
Qed.

(** C8, as the code has it: with a positive batch size [train_perceptron]
    trains on [len(data) // batch_size] batches, which are the contiguous
    slices [k * batch_size, (k + 1) * batch_size) of the data in order, each
    of exactly [batch_size] rows; they depend on the data and the batch
    size only, so every epoch sees the same ones.  Together they are the
    first [nsteps * batch_size] rows: the pass is a full one exactly when
    the batch size divides the number of rows, and the remaining rows are
    never used otherwise. *)
Theorem train_perceptron_batches (data labels : mat) (w : mat * mat) (b : vec * vec)
    (mu : R) (batch_size : nat) (wd : R) :
  (0 < batch_size)%nat ->
  (length data / batch_size * batch_size <= length labels)%nat ->
  let nsteps := (length data / batch_size)%nat in
  train_perceptron data labels w b mu batch_size wd =
    ('(w', b', losses) <-
       train_on (combine (batch_slices data batch_size nsteps)
                         (batch_slices labels batch_size nsteps))
                w b mu batch_size wd [] ;;
     loss <- collate_mean losses ;;
     Ok (w', b', loss)) /\
  Forall (fun batch => length batch = batch_size) (batch_slices data batch_size nsteps) /\
  concat (batch_slices data batch_size nsteps) = firstn (nsteps * batch_size) data /\
  (full_pass data batch_size <-> (length data mod batch_size = 0)%nat).
Proof.
  intros Hbs Hlabels nsteps.
  assert (Hdata : (nsteps * batch_size <= length data)%nat).
  { unfold nsteps. rewrite Nat.mul_comm. apply Nat.Div0.mul_div_le. }
  split; [|split; [|split]].
  - unfold train_perceptron.
    destruct (Nat.eqb_spec batch_size 0) as [E|_]; [lia|].
    fold nsteps. rewrite train_steps_train_on by assumption. reflexivity.
  - apply batch_slices_length. exact Hdata.
  - apply batch_slices_concat.
  - unfold full_pass. fold nsteps. rewrite batch_slices_concat.
    pose proof (Nat.div_mod_eq (length data) batch_size) as Hdm. fold nsteps in Hdm.
    split.
    + intros E. apply (f_equal (@length _)) in E.
      rewrite length_firstn in E. lia.
    + intros E. apply firstn_all2. lia.
Qed.

Lemma train_perceptron_batches_witness :
  let data := [[1]; [2]; [3]; [4]] in
  let labels := [[1; 0]; [0; 1]; [1; 0]; [0; 1]] in
  let w := ([[1]], [[0; 0]]) in
  let b := ([0], [0; 0]) in
  let nsteps := (length data / 2)%nat in
  train_perceptron data labels w b 1 2 0 =
    ('(w', b', losses) <-
       train_on (combine (batch_slices data 2 nsteps) (batch_slices labels 2 nsteps))
                w b 1 2 0 [] ;;
     loss <- collate_mean losses ;;
     Ok (w', b', loss)) /\
  Forall (fun batch => length batch = 2%nat) (batch_slices data 2 nsteps) /\
  concat (batch_slices data 2 nsteps) = firstn (nsteps * 2) data /\
  (full_pass data 2 <-> (length data mod 2 = 0)%nat).
Proof.
  apply (@train_perceptron_batches [[1]; [2]; [3]; [4]]
           [[1; 0]; [0; 1]; [1; 0]; [0; 1]] ([[1]], [[0; 0]]) ([0], [0; 0]) 1 2 0).
  - lia.
  - simpl. lia.
Defined.

(** Five rows in batches of two: the code selects rows 0-1 and 2-3, and
    the fifth row is in no batch. *)
Lemma full_pass_counterexample :
  mapM (fun step => take_rows [[1]; [2]; [3]; [4]; [5]] (step * 2) 2)
       (seq 0 (length [[1]; [2]; [3]; [4]; [5]] / 2))
    = Ok [[[1]; [2]]; [[3]; [4]]] /\
  ~ full_pass [[1]; [2]; [3]; [4]; [5]] 2.
Proof.
  split; [reflexivity|].
  unfold full_pass. intros E. apply (f_equal (@length _)) in E.
  simpl in E. discriminate.
Qed.

(** ** Shapes *)

Lemma shape_width (r c : nat) (m : mat) :
  shape r c m -> (0 < r)%nat -> width m = c.
Proof.
  intros [Hlen Hrows] Hr. destruct m as [|row m]; simpl in *; [lia|].
  inversion Hrows; assumption.
Qed.

Lemma shape_row (r c : nat) (m : mat) (row : vec) :
  shape r c m -> In row m -> length row = c.
Proof. intros [_ Hrows] Hin. rewrite Forall_forall in Hrows. auto. Qed.

Lemma shape_map_rows (r c c' : nat) (m : mat) (f : vec -> vec) :
  shape r c m -> (forall row, length row = c -> length (f row) = c') ->
  shape r c' (map f m).
Proof.
  intros [Hlen Hrows] Hf. split; [rewrite length_map; exact Hlen|].
  apply Forall_map. eapply Forall_impl; [|exact Hrows]. exact Hf.
Qed.

Lemma shape_map_map (r c : nat) (m : mat) (f : R -> R) :
  shape r c m -> shape r c (map (map f) m).
Proof.
  intros H. eapply shape_map_rows; [exact H|].
  intros row Hrow. rewrite length_map. exact Hrow.
Qed.

Lemma shape_of_shape (r c : nat) (m : mat) :
  shape r c m -> shape_of m = repeat c r.
Proof.
  intros [Hlen Hrows]. subst r. unfold shape_of.
  induction Hrows as [|row m Hrow _ IH]; simpl; [reflexivity|].
  rewrite Hrow, IH. reflexivity.
Qed.

Lemma same_shape_true (r c : nat) (a b : mat) :
  shape r c a -> shape r c b -> same_shape a b = true.
Proof.
  intros Ha Hb. unfold same_shape.
  rewrite (shape_of_shape Ha), (shape_of_shape Hb).
  destruct (list_eq_dec Nat.eq_dec (repeat c r) (repeat c r)); congruence.
Qed.

Lemma shape_zip_with (r c : nat) (a b : mat) (f : R -> R -> R) :
  shape r c a -> shape r c b -> shape r c (zip_with (zip_with f) a b).
Proof.
  intros [Hla Ha] [Hlb Hb]. split.
  - rewrite zip_with_length. lia.
  - subst r. clear Hlb. revert b Hb.
    induction Ha as [|x a Hx _ IH]; intros [|y b] Hb; simpl; constructor.
    + inversion Hb; subst. rewrite zip_with_length. lia.
    + apply IH. inversion Hb; assumption.
Qed.

Lemma shape_zip_vadd (r c : nat) (a b : mat) :
  shape r c a -> shape r c b -> shape r c (zip_with vadd a b).
Proof. exact (@shape_zip_with r c a b Rplus). Qed.

Lemma shape_matmul (r k : nat) (a b : mat) :
  shape r k a -> shape r (width b) (matmul a b).
Proof.
  intros [Hlen _]. unfold matmul. split; [rewrite length_map; exact Hlen|].
  apply Forall_map, Forall_forall. intros row _.
  rewrite length_map, length_seq. reflexivity.
Qed.

Lemma shape_transpose (r c : nat) (m : mat) :
  shape r c m -> (0 < r)%nat -> shape c r (transpose m).
Proof.
  intros H Hr. unfold transpose. rewrite (shape_width H Hr).
  split; [rewrite length_map, length_seq; reflexivity|].
  apply Forall_map, Forall_forall. intros j _.
  unfold column. rewrite length_map. apply H.
Qed.

Lemma shape_repeat (r c : nat) (v : vec) :
  length v = c -> shape r c (repeat v r).
Proof.
  intros H. split; [apply repeat_length|].
  apply Forall_forall. intros row Hrow. apply repeat_spec in Hrow.
  rewrite Hrow. exact H.
Qed.

Lemma matmul_chk_Ok (r k : nat) (a b : mat) :
  shape r k a -> length b = k -> matmul_chk a b = Ok (matmul a b).
Proof.
  intros [_ Hrows] Hb. unfold matmul_chk.
  rewrite forallb_length_eq; [reflexivity|]. rewrite Hb. exact Hrows.
Qed.

Lemma add_bias_Ok (r c : nat) (m : mat) (b : vec) :
  shape r c m -> length b = c -> add_bias m b = Ok (map (fun row => vadd row b) m).
Proof.
  intros [_ Hrows] Hb. unfold add_bias.
  rewrite forallb_length_eq; [reflexivity|]. rewrite Hb. exact Hrows.
Qed.

Lemma shape_add_bias {r c : nat} {m : mat} {b : vec} :
  shape r c m -> length b = c -> shape r c (map (fun row => vadd row b) m).
Proof.
  intros H Hb. eapply shape_map_rows; [exact H|].
  intros row Hrow. unfold vadd. rewrite zip_with_length. lia.
Qed.

Lemma msub_chk_Ok (r c : nat) (a b : mat) :
  shape r c a -> shape r c b -> msub_chk a b = Ok (zip_with (zip_with Rminus) a b).
Proof. intros Ha Hb. unfold msub_chk. rewrite (same_shape_true Ha Hb). reflexivity. Qed.

Lemma mmul_chk_Ok (r c : nat) (a b : mat) :
  shape r c a -> shape r c b -> mmul_chk a b = Ok (zip_with (zip_with Rmult) a b).
Proof. intros Ha Hb. unfold mmul_chk. rewrite (same_shape_true Ha Hb). reflexivity. Qed.

Lemma iadd_Ok (r c : nat) (p t : mat) :
  shape r c p -> shape r c t -> iadd p t = Ok (zip_with vadd p t).
Proof. intros Ha Hb. unfold iadd. rewrite (same_shape_true Ha Hb). reflexivity. Qed.

Lemma viadd_Ok (p t : vec) :
  length p = length t -> viadd p t = Ok (vadd p t).
Proof. intros H. unfold viadd. rewrite H, Nat.eqb_refl. reflexivity. Qed.

Lemma shape_mscale (r c : nat) (k : R) (m : mat) :
  shape r c m -> shape r c (mscale k m).
Proof. apply shape_map_map. Qed.

Lemma shape_concat_length (r c : nat) (m : mat) :
  shape r c m -> length (concat m) = (r * c)%nat.
Proof.
  intros [Hlen Hrows]. subst r.
  induction Hrows as [|row m Hrow _ IH]; simpl; [reflexivity|].
  rewrite length_app, IH, Hrow. reflexivity.
Qed.

Lemma chunk_concat (r c : nat) (m : mat) :
  shape r c m -> chunk r c (concat m) = m.
Proof.
  intros [Hlen Hrows]. subst r.
  induction Hrows as [|row m Hrow _ IH]; simpl; [reflexivity|].
  assert (Hf : firstn c (row ++ concat m) = row).
  { rewrite <- Hrow, firstn_app, Nat.sub_diag, firstn_all. apply app_nil_r. }
  assert (Hs : skipn c (row ++ concat m) = concat m).
  { rewrite <- Hrow, skipn_app, Nat.sub_diag, skipn_all. reflexivity. }
  rewrite Hf, Hs, IH. reflexivity.
Qed.

Lemma reshape_concat (r c : nat) (m : mat) :
  shape r c m -> (0 < r)%nat -> reshape r (concat m) = Ok m.
Proof.
  intros H Hr. unfold reshape.
  destruct (Nat.eqb_spec r 0) as [E|_]; [lia|].
  rewrite (shape_concat_length H).
  rewrite Nat.mul_comm, Nat.Div0.mod_mul, Nat.div_mul by lia. simpl.
  rewrite (chunk_concat H). reflexivity.
Qed.

Lemma mean0_Ok (r c : nat) (m : mat) :
  shape r c m -> (0 < r)%nat ->
  mean0 m = Ok (map (fun j => rsum (column j m) / INR r) (seq 0 c)).
Proof.
  intros H Hr. pose proof (shape_width H Hr) as Hw. destruct H as [Hlen _].
  unfold mean0. destruct m as [|row m]; [simpl in Hlen; lia|].
  rewrite Hw, Hlen. reflexivity.
Qed.

(** ** The forward pass, under well-formed shapes *)

Lemma sub_scalar_shape {r c : nat} {t t' : mat} {s : fscalar} :
  shape r c t -> sub_scalar t s = Ok t' -> shape r c t'.
Proof.
  intros H. unfold sub_scalar. destruct s as [v|].
  - intros E. injection E as <-. apply shape_map_map. exact H.
  - destruct (no_entries t); [|discriminate]. intros E. injection E as <-. exact H.
Qed.

Lemma div_scalar_shape {r c : nat} {t t' : mat} {s : fscalar} :
  shape r c t -> div_scalar t s = Ok t' -> shape r c t'.
Proof.
  intros H. unfold div_scalar. destruct s as [v|].
  - destruct (Req_dec_T v 0).
    + destruct (no_entries t); [|discriminate]. intros E. injection E as <-. exact H.
    + intros E. injection E as <-. apply shape_map_map. exact H.
  - destruct (no_entries t); [|discriminate]. intros E. injection E as <-. exact H.
Qed.

Lemma shape_activate {r c : nat} {z : mat} : shape r c z -> shape r c (activate z).
Proof.
  intros H. unfold activate. eapply shape_map_rows; [exact H|].
  intros row Hrow. unfold softmax_row. rewrite !length_map. exact Hrow.
Qed.

(** The hidden pre-activation [x @ w[0] + b[0]]. *)
Lemma hidden_pre_activation_Ok (B D H O : nat) (x : mat) (w : mat * mat) (b : vec * vec) :
  network_shape D H O w b -> shape B D x ->
  (xw <- matmul_chk x (fst w) ;; add_bias xw (fst b)) =
    Ok (map (fun row => vadd row (fst b)) (matmul x (fst w))) /\
  shape B H (map (fun row => vadd row (fst b)) (matmul x (fst w))).
Proof.
  intros (Hw0 & Hb0 & _ & _ & HD & _ & _) Hx.
  pose proof (shape_matmul (fst w) Hx) as Hm.
  rewrite (shape_width Hw0 HD) in Hm.
  rewrite (matmul_chk_Ok (fst w) Hx (proj1 Hw0)). simpl.
  rewrite (add_bias_Ok (fst b) Hm Hb0). split; [reflexivity|].
  apply shape_add_bias; assumption.
Qed.

Lemma forward_shapes (B D H O : nat) (x : mat) (w : mat * mat) (b : vec * vec)
    (z_h y_h_hat z y_hat : mat) :
  network_shape D H O w b -> shape B D x ->
  forward x w b = Ok (z_h, y_h_hat, z, y_hat) ->
  shape B H z_h /\ shape B H y_h_hat /\ shape B O z /\ shape B O y_hat.
Proof.
  intros Hnet Hx. destruct (hidden_pre_activation_Ok Hnet Hx) as [Epre Hpre].
  destruct Hnet as (Hw0 & Hb0 & Hw1 & Hb1 & HD & HH & HO).
  unfold forward.
  destruct (matmul_chk x (fst w)) as [xw| |]; simpl in Epre |- *; try discriminate.
  rewrite Epre. simpl.
  set (a := hidden_activate _).
  assert (Ha : shape B H a) by (apply shape_map_map; exact Hpre).
  destruct (sub_scalar a _) as [a1| |] eqn:E1; simpl; try discriminate.
  destruct (div_scalar a1 _) as [a2| |] eqn:E2; simpl; try discriminate.
  pose proof (div_scalar_shape (sub_scalar_shape Ha E1) E2) as Ha2.
  rewrite (matmul_chk_Ok (snd w) Ha2 (proj1 Hw1)). simpl.
  pose proof (shape_matmul (snd w) Ha2) as Hm. rewrite (shape_width Hw1 HH) in Hm.
  rewrite (add_bias_Ok (snd b) Hm Hb1). simpl.
  intros E. injection E as <- <- <- <-.
  pose proof (shape_add_bias Hm Hb1) as Hz.
  split; [exact Hpre|]. split; [exact Ha2|]. split; [exact Hz|].
  exact (shape_activate Hz).
Qed.

(** ** Statistics of a constant tensor *)

Lemma rsum_cons (e : R) (v : vec) : rsum (e :: v) = e + rsum v.
Proof. reflexivity. Qed.

Lemma rsum_const (v : vec) (c : R) :
  Forall (fun e => e = c) v -> rsum v = INR (length v) * c.
Proof.
  induction 1 as [|e v He _ IH]; [simpl; lra|].
  change (rsum (e :: v)) with (e + rsum v). cbn [length].
  rewrite IH, He, S_INR. lra.
Qed.

Lemma rsum_sq_dev_const (v : vec) (c : R) :
  Forall (fun e => e = c) v -> rsum (map (fun x => (x - c) * (x - c)) v) = 0.
Proof.
  induction 1 as [|e v He _ IH]; [reflexivity|].
  cbn [map]. change (rsum (?h :: ?t)) with (h + rsum t).
  rewrite IH, He. lra.
Qed.

Lemma INR_S_neq_0 (n : nat) : INR (S n) <> 0.
Proof. apply not_0_INR. discriminate. Qed.

Lemma std_mean_const (v : vec) (c : R) :
  v <> [] -> Forall (fun e => e = c) v ->
  snd (std_mean v) = Some c /\
  ((2 <= length v)%nat -> fst (std_mean v) = Some 0) /\
  (length v = 1%nat -> fst (std_mean v) = None).
Proof.
  intros Hne Hc. unfold std_mean.
  destruct (length v) as [|k] eqn:Hlen; [destruct v; [congruence | discriminate]|].
  assert (Hm : rsum v / INR (S k) = c).
  { rewrite (rsum_const Hc), Hlen. field. apply INR_S_neq_0. }
  rewrite Hm. simpl. split; [reflexivity|]. split.
  - intros Hk. destruct k as [|k]; [lia|].
    rewrite (rsum_sq_dev_const Hc). unfold Rdiv. rewrite Rmult_0_l, sqrt_0. reflexivity.
  - intros Hk. injection Hk as ->. reflexivity.
Qed.

Lemma no_entries_false {t : mat} : concat t <> [] -> no_entries t = false.
Proof.
  induction t as [|row t IH]; simpl; [congruence|].
  destruct row as [|e row]; simpl; [exact IH | reflexivity].
Qed.

Lemma concat_map_map_nonempty {t : mat} (f : R -> R) :
  concat t <> [] -> concat (map (map f) t) <> [].
Proof.
  rewrite <- concat_map. destruct (concat t); [congruence | discriminate].
Qed.

(** ** The forward pass, stage by stage *)

Lemma forward_stages (x : mat) (w : mat * mat) (b : vec * vec)
    (z_h a z : mat) (s m : R) :
  hidden_pre_activation x w b = Ok z_h ->
  hidden_activate z_h = a ->
  std_mean (concat a) = (Some s, Some m) -> s <> 0 ->
  (yw <- matmul_chk (map (map (fun v => v / s)) (map (map (fun v => v - m)) a)) (snd w) ;;
   add_bias yw (snd b)) = Ok z ->
  forward x w b =
    Ok (z_h, map (map (fun v => v / s)) (map (map (fun v => v - m)) a), z, activate z).
Proof.
  unfold hidden_pre_activation, forward. intros Hpre Ha Hsm Hs Hz.
  destruct (matmul_chk x (fst w)) as [xw| |]; cbn [bind] in Hpre |- *; try discriminate.
  rewrite Hpre. cbn [bind]. rewrite Ha, Hsm. cbn [fst snd sub_scalar bind div_scalar].
  destruct (Req_dec_T s 0) as [E|_]; [contradiction|]. cbn [bind].
  destruct (matmul_chk _ (snd w)) as [yw| |]; cbn [bind] in Hz |- *; try discriminate.
  rewrite Hz. reflexivity.
Qed.

(** When all hidden activations of a batch are equal, their standard
    deviation is zero (or undefined, for a single activation) and the
    standardisation leaves no finite entry in [y_h_hat]. *)
Lemma forward_constant_hidden (x : mat) (w : mat * mat) (b : vec * vec)
    (z_h : mat) (c : R) :
  hidden_pre_activation x w b = Ok z_h ->
  concat (hidden_activate z_h) <> [] ->
  Forall (fun v => v = c) (concat (hidden_activate z_h)) ->
  forward x w b = NonFinite.
Proof.
  unfold hidden_pre_activation, forward. intros Hpre Hne Hc.
  destruct (matmul_chk x (fst w)) as [xw| |]; cbn [bind] in Hpre |- *; try discriminate.
  rewrite Hpre. cbn [bind].
  destruct (std_mean_const Hne Hc) as (Hmean & Hstd2 & Hstd1).
  rewrite Hmean. cbn [sub_scalar bind].
  pose proof (no_entries_false (concat_map_map_nonempty (fun v => v - c) Hne)) as Hno.
  destruct (Nat.eq_dec (length (concat (hidden_activate z_h))) 1) as [E1|E1].
  - rewrite (Hstd1 E1). cbn [div_scalar]. rewrite Hno. reflexivity.
  - rewrite Hstd2.
    + cbn [div_scalar]. destruct (Req_dec_T 0 0) as [_|N]; [|contradiction].
      rewrite Hno. reflexivity.
    + destruct (concat (hidden_activate z_h)) as [|e [|e' l]]; simpl in *;
        [congruence | congruence | lia].
Qed.

(** ** Entries of sums, multiples and products *)

Lemma nth_map_lt {A B : Type} (f : A -> B) (l : list A) (i : nat) (da : A) (db : B) :
  (i < length l)%nat -> nth i (map f l) db = f (nth i l da).
Proof.
  intros H. rewrite nth_indep with (d' := f da) by (rewrite length_map; exact H).
  apply map_nth.
Qed.

Lemma shape_nth_row (r c : nat) (m : mat) (i : nat) :
  shape r c m -> (i < r)%nat -> length (nth i m []) = c.
Proof.
  intros [Hlen Hrows] Hi. rewrite Forall_forall in Hrows.
  apply Hrows, nth_In. lia.
Qed.

Lemma entry_zip_vadd (r c : nat) (a b : mat) (i j : nat) :
  shape r c a -> shape r c b -> (i < r)%nat -> (j < c)%nat ->
  entry (zip_with vadd a b) i j = entry a i j + entry b i j.
Proof.
  intros Ha Hb Hi Hj. unfold entry.
  rewrite zip_with_nth with (da := []) (db := [])
    by (rewrite ?(proj1 Ha), ?(proj1 Hb); exact Hi).
  unfold vadd. apply zip_with_nth.
  - rewrite (shape_nth_row Ha Hi). exact Hj.
  - rewrite (shape_nth_row Hb Hi). exact Hj.
Qed.

Lemma entry_mscale (r c : nat) (k : R) (m : mat) (i j : nat) :
  shape r c m -> (i < r)%nat -> (j < c)%nat ->
  entry (mscale k m) i j = k * entry m i j.
Proof.
  intros Hm Hi Hj. unfold entry, mscale.
  rewrite nth_map_lt with (da := []) by (rewrite (proj1 Hm); exact Hi).
  unfold vscale. apply nth_map_lt. rewrite (shape_nth_row Hm Hi). exact Hj.
Qed.

Lemma nth_vadd (a b : vec) (j : nat) :
  (j < length a)%nat -> (j < length b)%nat ->
  nth j (vadd a b) 0 = nth j a 0 + nth j b 0.
Proof. intros Ha Hb. unfold vadd. apply zip_with_nth; assumption. Qed.

Lemma nth_vscale (k : R) (v : vec) (j : nat) :
  (j < length v)%nat -> nth j (vscale k v) 0 = k * nth j v 0.
Proof. intros H. unfold vscale. apply nth_map_lt. exact H. Qed.

Lemma dot_repeat (r : vec) (c : R) : dot r (repeat c (length r)) = rsum r * c.
Proof.
  unfold dot. induction r as [|e r IH]; [simpl; lra|].
  cbn [length repeat zip_with]. rewrite rsum_cons, IH, rsum_cons. lra.
Qed.

Lemma column_repeat (v : vec) (n j : nat) :
  column j (repeat v n) = repeat (nth j v 0) n.
Proof. unfold column. apply map_repeat. Qed.

Lemma nth_transpose (r c : nat) (m : mat) (i : nat) :
  shape r c m -> (0 < r)%nat -> (i < c)%nat -> nth i (transpose m) [] = column i m.
Proof.
  intros Hm Hr Hi. unfold transpose. rewrite (shape_width Hm Hr).
  rewrite nth_map_lt with (da := 0%nat) by (rewrite length_seq; exact Hi).
  rewrite seq_nth by exact Hi. reflexivity.
Qed.

(** An entry of [a.transpose(0, 1) @ v.unsqueeze(0).repeat(B, 1)]: the sum
    over the batch of column [i] of [a], times entry [j] of [v]. *)
Lemma entry_transpose_matmul_repeat (B c : nat) (a : mat) (v : vec) (i j : nat) :
  shape B c a -> (0 < B)%nat -> (i < c)%nat -> (j < length v)%nat ->
  entry (matmul (transpose a) (repeat v B)) i j = colsum a i * nth j v 0.
Proof.
  intros Ha HB Hi Hj. unfold entry, matmul.
  pose proof (shape_transpose Ha HB) as Hat.
  rewrite nth_map_lt with (da := []) by (rewrite (proj1 Hat); exact Hi).
  rewrite (shape_width (shape_repeat B v eq_refl) HB).
  rewrite nth_map_lt with (da := 0%nat) by (rewrite length_seq; exact Hj).
  rewrite seq_nth by exact Hj. simpl.
  rewrite (nth_transpose Ha HB Hi), column_repeat.
  assert (Hlen : length (column i a) = B) by (unfold column; rewrite length_map; apply Ha).
  rewrite <- Hlen. apply dot_repeat.
Qed.

Lemma nth_colmeans (m : mat) (n j : nat) :
  (j < n)%nat -> nth j (map (fun k => colmean m k) (seq 0 n)) 0 = colmean m j.
Proof.
  intros H. rewrite nth_map_lt with (da := 0%nat) by (rewrite length_seq; exact H).
  rewrite seq_nth by exact H. reflexivity.
Qed.

(** ** One training step, under well-formed shapes *)

Section TrainingStep.

Variables (B D H O : nat) (x y_true : mat) (w : mat * mat) (b : vec * vec).
Variables (mu wd : R) (z_h y_h_hat z y_hat : mat).

Hypothesis Hnet : network_shape D H O w b.
Hypothesis Hx : shape B D x.
Hypothesis Hy : shape B O y_true.
Hypothesis HB : (0 < B)%nat.
Hypothesis Hfw : forward x w b = Ok (z_h, y_h_hat, z, y_hat).

(** The errors of the output and of the hidden layer. *)
Let error := zip_with (zip_with Rminus) y_true y_hat.
Let error_h :=
  zip_with (zip_with Rmult) (matmul error (transpose (snd w))) (map (map positive01) z_h).

(** The result of [train_batch] once the forward pass has gone through:
    no size check fails, and the updates are the ones below. *)
Lemma train_batch_Ok :
  let error_mean := map (fun j => colmean error j) (seq 0 O) in
  let error_h_mean := map (fun j => colmean error_h j) (seq 0 H) in
  shape B O error /\ shape B H error_h /\
  exists ce,
    cross_entropy_prob y_hat y_true = Ok ce /\
    train_batch x y_true w b mu B wd =
      Ok ((zip_with vadd
             (zip_with vadd (fst w)
                (mscale mu (matmul (transpose x) (repeat error_h_mean B))))
             (mscale mu (mscale (-2 * wd) (fst w))),
           zip_with vadd
             (zip_with vadd (snd w)
                (mscale mu (matmul (transpose y_h_hat) (repeat error_mean B))))
             (mscale mu (mscale (-2 * wd) (snd w)))),
          (vadd (fst b) (vscale mu error_h_mean),
           vadd (snd b) (vscale mu error_mean)),
          ce + wd * sum_sq (snd w)).
Proof.
  intros error_mean error_h_mean.
  destruct (forward_shapes Hnet Hx Hfw) as (Hzh & Hyh & Hz & Hyhat).
  pose proof Hnet as (Hw0 & Hb0 & Hw1 & Hb1 & HD & HH & HO).
  assert (Herr : shape B O error) by (apply shape_zip_with; assumption).
  pose proof (shape_transpose Hw1 HH) as Hw1t.
  assert (Hew : shape B H (matmul error (transpose (snd w)))).
  { pose proof (shape_matmul (transpose (snd w)) Herr) as Hm.
    rewrite (shape_width Hw1t HO) in Hm. exact Hm. }
  assert (Hmask : shape B H (map (map positive01) z_h)) by (apply shape_map_map; exact Hzh).
  assert (Herrh : shape B H error_h) by (apply shape_zip_with; assumption).
  split; [exact Herr|]. split; [exact Herrh|].
  assert (Hce : exists ce, cross_entropy_prob y_hat y_true = Ok ce).
  { unfold cross_entropy_prob. rewrite (same_shape_true Hyhat Hy).
    destruct y_hat as [|r0 y_hat']; [destruct Hyhat as [Hl _]; simpl in Hl; lia|].
    eexists. reflexivity. }
  destruct Hce as [ce Hce]. exists ce. split; [exact Hce|].
  assert (Hem : length error_mean = O)
    by (unfold error_mean; rewrite length_map, length_seq; reflexivity).
  assert (Hehm : length error_h_mean = H)
    by (unfold error_h_mean; rewrite length_map, length_seq; reflexivity).
  assert (Hg1 : shape H O (matmul (transpose y_h_hat) (repeat error_mean B))).
  { pose proof (shape_matmul (repeat error_mean B) (shape_transpose Hyh HB)) as Hm.
    rewrite (shape_width (shape_repeat B error_mean Hem) HB) in Hm. exact Hm. }
  assert (Hg0 : shape D H (matmul (transpose x) (repeat error_h_mean B))).
  { pose proof (shape_matmul (repeat error_h_mean B) (shape_transpose Hx HB)) as Hm.
    rewrite (shape_width (shape_repeat B error_h_mean Hehm) HB) in Hm. exact Hm. }
  unfold train_batch. rewrite Hfw. cbn [bind].
  rewrite (msub_chk_Ok Hy Hyhat). cbn [bind]. fold error. rewrite Hce. cbn [bind].
  rewrite (matmul_chk_Ok (transpose (snd w)) Herr (proj1 Hw1t)). cbn [bind].
  rewrite concat_map, (reshape_concat Hmask HB). cbn [bind].
  rewrite (mmul_chk_Ok Hew Hmask). cbn [bind]. fold error_h.
  rewrite (mean0_Ok Herr HB). cbn [bind].
  replace (map (fun j => rsum (column j error) / INR B) (seq 0 O)) with error_mean
    by (unfold error_mean, colmean, colsum; rewrite (proj1 Herr); reflexivity).
  rewrite (matmul_chk_Ok (repeat error_mean B) (shape_transpose Hyh HB)
             (repeat_length error_mean B)). cbn [bind].
  rewrite (iadd_Ok Hw1 (shape_mscale mu Hg1)). cbn [bind].
  rewrite (iadd_Ok (shape_zip_vadd Hw1 (shape_mscale mu Hg1))
             (shape_mscale mu (shape_mscale (-2 * wd) Hw1))). cbn [bind].
  rewrite viadd_Ok by (unfold vscale; rewrite length_map; congruence). cbn [bind].
  rewrite (mean0_Ok Herrh HB). cbn [bind].
  replace (map (fun j => rsum (column j error_h) / INR B) (seq 0 H)) with error_h_mean
    by (unfold error_h_mean, colmean, colsum; rewrite (proj1 Herrh); reflexivity).
  rewrite (matmul_chk_Ok (repeat error_h_mean B) (shape_transpose Hx HB)
             (repeat_length error_h_mean B)). cbn [bind].
  rewrite (iadd_Ok Hw0 (shape_mscale mu Hg0)). cbn [bind].
  rewrite (iadd_Ok (shape_zip_vadd Hw0 (shape_mscale mu Hg0))
             (shape_mscale mu (shape_mscale (-2 * wd) Hw0))). cbn [bind].
  rewrite viadd_Ok by (unfold vscale; rewrite length_map; congruence). cbn [bind].
  reflexivity.
Qed.

(** Every entry of the parameters [train_batch] returns, and its loss. *)
Lemma train_batch_entries :
  exists w0' w1' b0' b1' ce,
    cross_entropy_prob y_hat y_true = Ok ce /\
    train_batch x y_true w b mu B wd =
      Ok ((w0', w1'), (b0', b1'), ce + wd * sum_sq (snd w)) /\
    (forall d h, (d < D)%nat -> (h < H)%nat ->
       entry w0' d h =
       entry (fst w) d h + mu * (colsum x d * colmean error_h h)
       + mu * (-2 * wd * entry (fst w) d h)) /\
    (forall h o, (h < H)%nat -> (o < O)%nat ->
       entry w1' h o =
       entry (snd w) h o + mu * (colsum y_h_hat h * colmean error o)
       + mu * (-2 * wd * entry (snd w) h o)) /\
    (forall h, (h < H)%nat -> nth h b0' 0 = nth h (fst b) 0 + mu * colmean error_h h) /\
    (forall o, (o < O)%nat -> nth o b1' 0 = nth o (snd b) 0 + mu * colmean error o).
Proof.
  destruct train_batch_Ok as (Herr & Herrh & ce & Hce & Htb).
  destruct (forward_shapes Hnet Hx Hfw) as (_ & Hyh & _ & _).
  pose proof Hnet as (Hw0 & Hb0 & Hw1 & Hb1 & HD & HH & HO).
  set (error_mean := map (fun j => colmean error j) (seq 0 O)) in *.
  set (error_h_mean := map (fun j => colmean error_h j) (seq 0 H)) in *.
  assert (Hem : length error_mean = O)
    by (unfold error_mean; rewrite length_map, length_seq; reflexivity).
  assert (Hehm : length error_h_mean = H)
    by (unfold error_h_mean; rewrite length_map, length_seq; reflexivity).
  assert (Hg1 : shape H O (matmul (transpose y_h_hat) (repeat error_mean B))).
  { pose proof (shape_matmul (repeat error_mean B) (shape_transpose Hyh HB)) as Hm.
    rewrite (shape_width (shape_repeat B error_mean Hem) HB) in Hm. exact Hm. }
  assert (Hg0 : shape D H (matmul (transpose x) (repeat error_h_mean B))).
  { pose proof (shape_matmul (repeat error_h_mean B) (shape_transpose Hx HB)) as Hm.
    rewrite (shape_width (shape_repeat B error_h_mean Hehm) HB) in Hm. exact Hm. }
  do 5 eexists. split; [exact Hce|]. split; [exact Htb|].
  split; [|split; [|split]].
  - intros d h Hd Hh.
    rewrite (entry_zip_vadd (shape_zip_vadd Hw0 (shape_mscale mu Hg0))
               (shape_mscale mu (shape_mscale (-2 * wd) Hw0)) Hd Hh).
    rewrite (entry_zip_vadd Hw0 (shape_mscale mu Hg0) Hd Hh).
    rewrite (entry_mscale mu Hg0 Hd Hh).
    rewrite (entry_mscale mu (shape_mscale (-2 * wd) Hw0) Hd Hh).
    rewrite (entry_mscale (-2 * wd) Hw0 Hd Hh).
    rewrite (entry_transpose_matmul_repeat error_h_mean Hx HB Hd)
      by (rewrite Hehm; exact Hh).
    unfold error_h_mean. rewrite (nth_colmeans error_h Hh). reflexivity.
  - intros h o Hh Ho.
    rewrite (entry_zip_vadd (shape_zip_vadd Hw1 (shape_mscale mu Hg1))
               (shape_mscale mu (shape_mscale (-2 * wd) Hw1)) Hh Ho).
    rewrite (entry_zip_vadd Hw1 (shape_mscale mu Hg1) Hh Ho).
    rewrite (entry_mscale mu Hg1 Hh Ho).
    rewrite (entry_mscale mu (shape_mscale (-2 * wd) Hw1) Hh Ho).
    rewrite (entry_mscale (-2 * wd) Hw1 Hh Ho).
    rewrite (entry_transpose_matmul_repeat error_mean Hyh HB Hh)
      by (rewrite Hem; exact Ho).
    unfold error_mean. rewrite (nth_colmeans error Ho). reflexivity.
  - intros h Hh.
    rewrite nth_vadd by (unfold vscale; rewrite ?length_map; lia).
    rewrite nth_vscale by lia.
    unfold error_h_mean. rewrite (nth_colmeans error_h Hh). reflexivity.
  - intros o Ho.
    rewrite nth_vadd by (unfold vscale; rewrite ?length_map; lia).
    rewrite nth_vscale by lia.
    unfold error_mean. rewrite (nth_colmeans error Ho). reflexivity.
Qed.

(** C3, as the code has it: each weight matrix grows by [mu] times the
    sum of a gradient term and the weight-decay term, and each bias by
    [mu] times the batch mean of its layer's error.  The gradient term is
    the layer's input transposed times the batch-mean error repeated for
    every example: entry (i, j) is the sum over the batch of input [i]
    times the batch mean of error [j], not the batch mean of the
    per-example products. *)
Theorem train_batch_update_rule :
  exists w0' w1' b0' b1' loss,
    train_batch x y_true w b mu B wd = Ok ((w0', w1'), (b0', b1'), loss) /\
    (forall d h, (d < D)%nat -> (h < H)%nat ->
       entry w0' d h =
       entry (fst w) d h
       + mu * (colsum x d * colmean error_h h + -2 * wd * entry (fst w) d h)) /\
    (forall h o, (h < H)%nat -> (o < O)%nat ->
       entry w1' h o =
       entry (snd w) h o
       + mu * (colsum y_h_hat h * colmean error o + -2 * wd * entry (snd w) h o)) /\
    (forall h, (h < H)%nat -> nth h b0' 0 = nth h (fst b) 0 + mu * colmean error_h h) /\
    (forall o, (o < O)%nat -> nth o b1' 0 = nth o (snd b) 0 + mu * colmean error o).
Proof.
  destruct train_batch_entries
    as (w0' & w1' & b0' & b1' & ce & _ & Htb & Hw0 & Hw1 & Hb0 & Hb1).
  exists w0', w1', b0', b1', (ce + wd * sum_sq (snd w)).
  split; [exact Htb|]. split; [|split; [|split]].
  - intros d h Hd Hh. rewrite (Hw0 d h Hd Hh). ring.
  - intros h o Hh Ho. rewrite (Hw1 h o Hh Ho). ring.
  - exact Hb0.
  - exact Hb1.
Qed.

End TrainingStep.

(** ** The sample network *)

Ltac list_eq :=
  repeat match goal with
  | |- _ :: _ = _ :: _ => apply (f_equal2 (@cons _))
  | |- @nil _ = @nil _ => reflexivity
  end.

Ltac eval_layer :=
  cbv [hidden_pre_activation matmul_chk forallb length Nat.eqb andb fst snd bind
       matmul map seq width column nth dot zip_with rsum fold_right add_bias vadd].

Lemma Rmax0_nonneg (v : R) : 0 <= v -> Rmax 0 v = v.
Proof. intros H. apply Rmax_right. exact H. Qed.

Lemma sqrt_of_square (s v : R) : 0 <= s -> v = s * s -> sqrt v = s.
Proof. intros Hs ->. apply sqrt_square. exact Hs. Qed.

Lemma softmax_row_zero2 (a b : R) : a = 0 -> b = 0 -> softmax_row [a; b] = [1/2; 1/2].
Proof.
  intros -> ->. unfold softmax_row. cbn [map rsum fold_right]. rewrite exp_0.
  list_eq; lra.
Qed.

Lemma sample_shapes :
  network_shape 1 1 2 sample_w sample_b /\ shape 3 1 sample_x /\ shape 3 2 sample_y.
Proof.
  unfold network_shape, shape, sample_w, sample_b, sample_x, sample_y. simpl.
  repeat split; repeat constructor.
Qed.

Lemma sample_forward :
  forward sample_x sample_w sample_b =
  Ok ([[0]; [1]; [2]], [[-1]; [0]; [1]], [[0; 0]; [0; 0]; [0; 0]],
      [[1/2; 1/2]; [1/2; 1/2]; [1/2; 1/2]]).
Proof.
  unfold sample_x, sample_w, sample_b.
  assert (Hpre : hidden_pre_activation [[0]; [1]; [2]] ([[1]], [[0; 0]]) ([0], [0; 0])
                 = Ok [[0]; [1]; [2]]).
  { eval_layer. f_equal. list_eq; lra. }
  assert (Ha : hidden_activate [[0]; [1]; [2]] = [[0]; [1]; [2]]).
  { cbv [hidden_activate map]. list_eq; apply Rmax0_nonneg; lra. }
  assert (Hsm : std_mean (concat [[0]; [1]; [2]]) = (Some 1, Some 1)).
  { cbv [concat app std_mean length rsum fold_right map INR].
    f_equal; f_equal; [apply sqrt_of_square; lra | lra]. }
  rewrite (forward_stages (z := [[0; 0]; [0; 0]; [0; 0]]) _ _ _ Hpre Ha Hsm).
  - cbv [map activate]. rewrite !softmax_row_zero2 by reflexivity.
    f_equal. f_equal. f_equal. f_equal. list_eq; lra.
  - lra.
  - eval_layer. f_equal. list_eq; lra.
Qed.

(** ** The update rule of [train_batch] (C3) *)

Lemma train_batch_update_rule_witness :
  let y_hat := [[1/2; 1/2]; [1/2; 1/2]; [1/2; 1/2]] in
  let error := zip_with (zip_with Rminus) sample_y y_hat in
  let error_h := zip_with (zip_with Rmult) (matmul error (transpose (snd sample_w)))
                   (map (map positive01) [[0]; [1]; [2]]) in
  exists w0' w1' b0' b1' loss,
    train_batch sample_x sample_y sample_w sample_b 1 3 (1/100)
      = Ok ((w0', w1'), (b0', b1'), loss) /\
    (forall d h, (d < 1)%nat -> (h < 1)%nat ->
       entry w0' d h =
       entry (fst sample_w) d h
       + 1 * (colsum sample_x d * colmean error_h h
              + -2 * (1/100) * entry (fst sample_w) d h)) /\
    (forall h o, (h < 1)%nat -> (o < 2)%nat ->
       entry w1' h o =
       entry (snd sample_w) h o
       + 1 * (colsum [[-1]; [0]; [1]] h * colmean error o
              + -2 * (1/100) * entry (snd sample_w) h o)) /\
    (forall h, (h < 1)%nat ->
       nth h b0' 0 = nth h (fst sample_b) 0 + 1 * colmean error_h h) /\
    (forall o, (o < 2)%nat ->
       nth o b1' 0 = nth o (snd sample_b) 0 + 1 * colmean error o).
Proof.
  exact (@train_batch_update_rule 3 1 1 2 sample_x sample_y sample_w sample_b 1 (1/100)
           _ _ _ _ (proj1 sample_shapes) (proj1 (proj2 sample_shapes))
           (proj2 (proj2 sample_shapes)) ltac:(lia) sample_forward).
Defined.

(** On the sample the hidden activations of the batch are -1, 0 and 1:
    their sum is zero, so the code leaves [w1] at zero, where the batch
    mean of the per-example products would move entry (0, 0) by -1/3. *)
Lemma mean_outer_counterexample :
  let y_h_hat := [[-1]; [0]; [1]] in
  let y_hat := [[1/2; 1/2]; [1/2; 1/2]; [1/2; 1/2]] in
  let error := zip_with (zip_with Rminus) sample_y y_hat in
  forward sample_x sample_w sample_b =
    Ok ([[0]; [1]; [2]], y_h_hat, [[0; 0]; [0; 0]; [0; 0]], y_hat) /\
  exists w0' w1' b' loss,
    train_batch sample_x sample_y sample_w sample_b 1 3 0 = Ok ((w0', w1'), b', loss) /\
    entry w1' 0 0 = 0 /\
    entry w1' 0 0 <>
      entry (snd sample_w) 0 0
      + 1 * (mean_outer y_h_hat error 0 0 + -2 * 0 * entry (snd sample_w) 0 0).
Proof.
  intros y_h_hat y_hat error. split; [exact sample_forward|].
  destruct (train_batch_entries 1 0 (proj1 sample_shapes) (proj1 (proj2 sample_shapes))
              (proj2 (proj2 sample_shapes)) ltac:(lia) sample_forward)
    as (w0' & w1' & b0' & b1' & ce & _ & Htb & _ & Hw1 & _ & _).
  exists w0', w1', (b0', b1'), (ce + 0 * sum_sq (snd sample_w)).
  split; [exact Htb|].
  specialize (Hw1 0%nat 0%nat ltac:(lia) ltac:(lia)).
  assert (E : entry w1' 0 0 = 0).
  { rewrite Hw1. cbv [entry sample_w snd nth colsum column map rsum fold_right]. lra. }
  split; [exact E|]. rewrite E.
  cbv [error y_h_hat y_hat sample_y sample_w mean_outer entry snd nth zip_with rsum
       fold_right length INR].
  lra.
Qed.

(** ** The unguarded division of the forward pass (C7) *)

Lemma relu_nonpositive (z_h : mat) :
  Forall (fun v => v <= 0) (concat z_h) ->
  Forall (fun v => v = 0) (concat (hidden_activate z_h)).
Proof.
  intros H. unfold hidden_activate. rewrite <- concat_map.
  apply Forall_map. eapply Forall_impl; [|exact H].
  intros v Hv. apply Rmax_left. exact Hv.
Qed.

(** C7: when the hidden ReLU activations of a batch are all equal, their
    standard deviation over the batch is zero (for a single activation it
    is not even defined), the division by it is not guarded, and [forward]
    has no finite result. *)
Theorem forward_divides_by_zero_std (x : mat) (w : mat * mat) (b : vec * vec)
    (z_h : mat) (c : R) :
  hidden_pre_activation x w b = Ok z_h ->
  concat (hidden_activate z_h) <> [] ->
  Forall (fun v => v = c) (concat (hidden_activate z_h)) ->
  forward x w b = NonFinite /\
  ((2 <= length (concat (hidden_activate z_h)))%nat ->
   std_mean (concat (hidden_activate z_h)) = (Some 0, Some c)) /\
  (length (concat (hidden_activate z_h)) = 1%nat ->
   std_mean (concat (hidden_activate z_h)) = (None, Some c)) /\
  (forall t : mat, concat t <> [] -> div_scalar t (Some 0) = NonFinite).
Proof.
  intros Hpre Hne Hc.
  destruct (std_mean_const Hne Hc) as (Hmean & Hstd2 & Hstd1).
  split; [exact (forward_constant_hidden x w b Hpre Hne Hc)|].
  split; [|split].
  - intros Hlen.
    rewrite (surjective_pairing (std_mean _)), Hmean, (Hstd2 Hlen). reflexivity.
  - intros Hlen.
    rewrite (surjective_pairing (std_mean _)), Hmean, (Hstd1 Hlen). reflexivity.
  - intros t Ht. unfold div_scalar.
    destruct (Req_dec_T 0 0) as [_|N]; [|contradiction].
    rewrite (no_entries_false Ht). reflexivity.
Qed.

Lemma forward_divides_by_zero_std_witness :
  let x := [[1; 2]; [3; 4]] in
  let w := ([[0]; [0]], [[0; 0]]) in
  let b := ([0], [0; 0]) in
  let z_h := [[1 * 0 + (2 * 0 + 0) + 0]; [3 * 0 + (4 * 0 + 0) + 0]] in
  forward x w b = NonFinite /\
  ((2 <= length (concat (hidden_activate z_h)))%nat ->
   std_mean (concat (hidden_activate z_h)) = (Some 0, Some 0)) /\
  (length (concat (hidden_activate z_h)) = 1%nat ->
   std_mean (concat (hidden_activate z_h)) = (None, Some 0)) /\
  (forall t : mat, concat t <> [] -> div_scalar t (Some 0) = NonFinite).
Proof.
  apply (@forward_divides_by_zero_std [[1; 2]; [3; 4]] ([[0]; [0]], [[0; 0]])
           ([0], [0; 0]) [[1 * 0 + (2 * 0 + 0) + 0]; [3 * 0 + (4 * 0 + 0) + 0]] 0).
  - reflexivity.
  - discriminate.
  - apply relu_nonpositive. simpl. repeat constructor; lra.
Defined.

(** ** The all-zero output layer (C6) *)

Lemma forward_output_layer (x : mat) (w : mat * mat) (b : vec * vec)
    (z_h y_h_hat z y_hat : mat) :
  forward x w b = Ok (z_h, y_h_hat, z, y_hat) ->
  (yw <- matmul_chk y_h_hat (snd w) ;; add_bias yw (snd b)) = Ok z /\
  y_hat = activate z.
Proof.
  unfold forward.
  destruct (matmul_chk x (fst w)) as [xw| |]; cbn [bind]; try discriminate.
  destruct (add_bias xw (fst b)) as [pre| |]; cbn [bind]; try discriminate.
  destruct (sub_scalar _ _) as [a1| |]; cbn [bind]; try discriminate.
  destruct (div_scalar _ _) as [a2| |]; cbn [bind]; try discriminate.
  destruct (matmul_chk a2 (snd w)) as [yw| |] eqn:Em; cbn [bind]; try discriminate.
  destruct (add_bias yw (snd b)) as [z'| |] eqn:Ez; cbn [bind]; try discriminate.
  intros E. injection E as <- <- <- <-. rewrite Em. cbn [bind].
  split; [exact Ez | reflexivity].
Qed.

Lemma dot_zeros (r : vec) (n : nat) : dot r (repeat 0 n) = 0.
Proof.
  unfold dot. revert n. induction r as [|e r IH]; intros [|n]; try reflexivity.
  cbn [repeat zip_with]. rewrite rsum_cons, IH. lra.
Qed.

Lemma zero_output_layer_uniform (y_h_hat z : mat) :
  shape 2 3 y_h_hat ->
  (yw <- matmul_chk y_h_hat (zeros 3 2) ;; add_bias yw (repeat 0 2)) = Ok z ->
  activate z = [[1/2; 1/2]; [1/2; 1/2]].
Proof.
  intros Hy. rewrite (matmul_chk_Ok (zeros 3 2) Hy eq_refl). cbn [bind].
  pose proof (shape_matmul (zeros 3 2) Hy) as Hm.
  change (width (zeros 3 2)) with 2%nat in Hm.
  rewrite (add_bias_Ok (repeat 0 2) Hm eq_refl).
  intros E. injection E as <-.
  destruct Hy as [Hlen _].
  destruct y_h_hat as [|r1 [|r2 [|r3 rest]]]; try discriminate.
  unfold matmul, zeros. change (width (repeat (repeat 0 2) 3)) with 2%nat.
  cbn [seq map activate vadd zip_with repeat column nth].
  list_eq; apply softmax_row_zero2;
    change [0; 0; 0] with (repeat 0 3); rewrite dot_zeros; lra.
Qed.

Lemma ln_two_exp_half : ln (exp (1/2) + (exp (1/2) + 0)) = ln 2 + 1/2.
Proof.
  replace (exp (1/2) + (exp (1/2) + 0)) with (2 * exp (1/2)) by lra.
  rewrite ln_mult by (try apply exp_pos; lra). rewrite ln_exp. reflexivity.
Qed.

Lemma cross_entropy_uniform2 (y_true : mat) :
  shape 2 2 y_true -> Forall (fun r => rsum r = 1) y_true ->
  cross_entropy_prob [[1/2; 1/2]; [1/2; 1/2]] y_true = Ok (ln 2).
Proof.
  intros Hy Hone. unfold cross_entropy_prob.
  assert (Hh : shape 2 2 [[1/2; 1/2]; [1/2; 1/2]])
    by (split; [reflexivity | repeat constructor]).
  rewrite (same_shape_true Hh Hy). f_equal.
  destruct Hy as [Hlen Hrows].
  destruct y_true as [|r1 [|r2 [|r3 rest]]]; try discriminate.
  inversion Hrows as [|? ? Hr1 Hrows']; subst. inversion Hrows' as [|? ? Hr2 _]; subst.
  destruct r1 as [|t1 [|t2 [|t3 r1]]]; try discriminate.
  destruct r2 as [|t3 [|t4 [|t5 r2]]]; try discriminate.
  inversion Hone as [|? ? H1 Hone']; subst. inversion Hone' as [|? ? H2 _]; subst.
  cbv [rsum fold_right] in H1, H2.
  cbv [zip_with log_softmax map dot rsum fold_right length INR].
  rewrite ln_two_exp_half.
  replace t2 with (1 - t1) by lra. replace t4 with (1 - t3) by lra. field.
Qed.

Lemma zero_init_constant_hidden (x : mat) :
  shape 2 4 x ->
  exists z_h,
    hidden_pre_activation x (zeros 4 3, zeros 3 2) (repeat 0 3, repeat 0 2) = Ok z_h /\
    concat (hidden_activate z_h) <> [] /\
    Forall (fun v => v = 0) (concat (hidden_activate z_h)).
Proof.
  intros Hx. unfold hidden_pre_activation. cbn [fst snd].
  rewrite (matmul_chk_Ok (zeros 4 3) Hx eq_refl). cbn [bind].
  pose proof (shape_matmul (zeros 4 3) Hx) as Hm.
  change (width (zeros 4 3)) with 3%nat in Hm.
  rewrite (add_bias_Ok (repeat 0 3) Hm eq_refl).
  eexists. split; [reflexivity|].
  destruct Hx as [Hlen _].
  destruct x as [|r1 [|r2 [|r3 rest]]]; try discriminate.
  unfold matmul, zeros. change (width (repeat (repeat 0 3) 4)) with 3%nat.
  cbn [seq map vadd zip_with repeat column nth].
  change [0; 0; 0; 0] with (repeat 0 4). rewrite !dot_zeros.
  split; [discriminate|].
  apply relu_nonpositive. simpl. repeat constructor; lra.
Qed.

(** C6, as the code has it.  With [w0] (4 x 3), [b0], [w1] (3 x 2) and
    [b1] all zero, every hidden activation of a 2-example batch is zero,
    the batch standard deviation is zero and neither [forward] nor
    [train_batch] has a finite result, whatever the input.  With the
    output layer [w1], [b1] all zero, [wd = 0], and a hidden layer [w0],
    [b0] for which the forward pass is finite, the softmax output is the
    uniform 0.5/0.5 for each example and the reported loss is [ln 2]. *)
Theorem zero_output_layer_loss (x y_true w0 : mat) (b0 : vec) (mu : R)
    (z_h y_h_hat z y_hat : mat) :
  shape 2 4 x -> shape 4 3 w0 -> length b0 = 3%nat ->
  shape 2 2 y_true -> Forall (fun r => rsum r = 1) y_true ->
  forward x (w0, zeros 3 2) (b0, repeat 0 2) = Ok (z_h, y_h_hat, z, y_hat) ->
  (forward x (zeros 4 3, zeros 3 2) (repeat 0 3, repeat 0 2) = NonFinite /\
   train_batch x y_true (zeros 4 3, zeros 3 2) (repeat 0 3, repeat 0 2) mu 2 0
     = NonFinite) /\
  y_hat = [[1/2; 1/2]; [1/2; 1/2]] /\
  exists w' b',
    train_batch x y_true (w0, zeros 3 2) (b0, repeat 0 2) mu 2 0 = Ok (w', b', ln 2).
Proof.
  intros Hx Hw0 Hb0 Hy Hone Hfw.
  assert (Hzero : forward x (zeros 4 3, zeros 3 2) (repeat 0 3, repeat 0 2) = NonFinite).
  { destruct (zero_init_constant_hidden Hx) as (zh0 & Hpre & Hne & Hc).
    exact (forward_constant_hidden _ _ _ Hpre Hne Hc). }
  split; [split; [exact Hzero | unfold train_batch; rewrite Hzero; reflexivity]|].
  assert (Hnet : network_shape 4 3 2 (w0, zeros 3 2) (b0, repeat 0 2)).
  { unfold network_shape. cbn [fst snd]. repeat split; try lia; try assumption;
      try apply Hw0; repeat constructor. }
  destruct (forward_shapes Hnet Hx Hfw) as (_ & Hyh & _ & _).
  destruct (forward_output_layer _ _ _ Hfw) as [Hz Hyhat]. cbn [fst snd] in Hz.
  rewrite (zero_output_layer_uniform Hyh Hz) in Hyhat.
  split; [exact Hyhat|].
  destruct (train_batch_entries mu 0 Hnet Hx Hy ltac:(lia) Hfw)
    as (w0' & w1' & b0' & b1' & ce & Hce & Htb & _).
  rewrite Hyhat, (cross_entropy_uniform2 Hy Hone) in Hce. injection Hce as <-.
  exists (w0', w1'), (b0', b1'). rewrite Htb. do 2 f_equal. ring.
Qed.

Lemma zero_output_forward :
  forward [[1; 0; 0; 0]; [0; 0; 0; 0]]
    ([[4; -3; 1]; [0; 0; 0]; [0; 0; 0]; [0; 0; 0]], zeros 3 2) ([2; 3; 3], repeat 0 2) =
  Ok ([[6; 0; 4]; [2; 3; 3]], [[3/2; -3/2; 1/2]; [-1/2; 0; 0]], [[0; 0]; [0; 0]],
      [[1/2; 1/2]; [1/2; 1/2]]).
Proof.
  assert (Hpre : hidden_pre_activation [[1; 0; 0; 0]; [0; 0; 0; 0]]
                   ([[4; -3; 1]; [0; 0; 0]; [0; 0; 0]; [0; 0; 0]], zeros 3 2)
                   ([2; 3; 3], repeat 0 2)
                 = Ok [[6; 0; 4]; [2; 3; 3]]).
  { eval_layer. f_equal. list_eq; lra. }
  assert (Ha : hidden_activate [[6; 0; 4]; [2; 3; 3]] = [[6; 0; 4]; [2; 3; 3]]).
  { cbv [hidden_activate map]. list_eq; apply Rmax0_nonneg; lra. }
  assert (Hsm : std_mean (concat [[6; 0; 4]; [2; 3; 3]]) = (Some 2, Some 3)).
  { cbv [concat app std_mean length rsum fold_right map INR].
    f_equal; f_equal; [apply sqrt_of_square; lra | lra]. }
  rewrite (forward_stages (z := [[0; 0]; [0; 0]]) _ _ _ Hpre Ha Hsm).
  - cbv [map activate]. rewrite !softmax_row_zero2 by reflexivity.
    f_equal. f_equal. f_equal. f_equal. list_eq; lra.
  - lra.
  - cbv [zeros repeat]. eval_layer. f_equal. list_eq; lra.
Qed.

Lemma zero_output_layer_loss_witness :
  let x := [[1; 0; 0; 0]; [0; 0; 0; 0]] in
  let y_true := [[1; 0]; [0; 1]] in
  let w0 := [[4; -3; 1]; [0; 0; 0]; [0; 0; 0]; [0; 0; 0]] in
  (forward x (zeros 4 3, zeros 3 2) (repeat 0 3, repeat 0 2) = NonFinite /\
   train_batch x y_true (zeros 4 3, zeros 3 2) (repeat 0 3, repeat 0 2) 1 2 0
     = NonFinite) /\
  [[1/2; 1/2]; [1/2; 1/2]] = [[1/2; 1/2]; [1/2; 1/2]] /\
  exists w' b',
    train_batch x y_true (w0, zeros 3 2) ([2; 3; 3], repeat 0 2) 1 2 0 = Ok (w', b', ln 2).
Proof.
  apply (@zero_output_layer_loss [[1; 0; 0; 0]; [0; 0; 0; 0]] [[1; 0]; [0; 1]]
           [[4; -3; 1]; [0; 0; 0]; [0; 0; 0]; [0; 0; 0]] [2; 3; 3] 1
           [[6; 0; 4]; [2; 3; 3]] [[3/2; -3/2; 1/2]; [-1/2; 0; 0]] [[0; 0]; [0; 0]]
           [[1/2; 1/2]; [1/2; 1/2]]).
  - split; [reflexivity | repeat constructor].
  - split; [reflexivity | repeat constructor].
  - reflexivity.
  - split; [reflexivity | repeat constructor].
  - repeat constructor; cbv [rsum fold_right]; lra.
  - exact zero_output_forward.
Defined.

(** The scenario of the specification: all parameters zero.  The forward
    pass and the training step end in [nan], not in 0.5/0.5 and [ln 2]. *)
Lemma zero_init_counterexample :
  let x := [[1; 2; 3; 4]; [5; 6; 7; 8]] in
  let w := (zeros 4 3, zeros 3 2) in
  let b := (repeat 0 3, repeat 0 2) in
  forward x w b = NonFinite /\
  train_batch x [[1; 0]; [0; 1]] w b 1 2 0 = NonFinite /\
  (forall z_h y_h_hat z, forward x w b <> Ok (z_h, y_h_hat, z, [[1/2; 1/2]; [1/2; 1/2]])).
Proof.
  intros x w b.
  assert (Hx : shape 2 4 x) by (split; [reflexivity | repeat constructor]).
  destruct (zero_init_constant_hidden Hx) as (zh0 & Hpre & Hne & Hc).
  assert (Hzero : forward x w b = NonFinite)
    by exact (forward_constant_hidden _ _ _ Hpre Hne Hc).
  split; [exact Hzero|]. split.
  - unfold train_batch. rewrite Hzero. reflexivity.
  - intros z_h y_h_hat z. rewrite Hzero. discriminate.
Qed.

(** ** Reading and augmenting the images *)

Section Loader.

Variable rotate : image -> Z -> image.
Hypothesis Hrot : rotate_ok rotate.

Lemma uint8_image_range (t : image) : uint8_image t = true <-> pixels_in_range t.
Proof.
  unfold uint8_image, pixels_in_range. rewrite forallb_forall, Forall_forall.
  split; intros H r Hr; specialize (H r Hr).
  - rewrite forallb_forall in H. apply Forall_forall. intros p Hp.
    specialize (H p Hp). apply andb_true_iff in H. destruct H as [H1 H2].
    apply Z.leb_le in H1. apply Z.leb_le in H2. lia.
  - rewrite Forall_forall in H. apply forallb_forall. intros p Hp.
    specialize (H p Hp). apply andb_true_iff. split; apply Z.leb_le; lia.
Qed.

Lemma Forall_firstn_of {A : Type} (P : A -> Prop) (l : list A) (n : nat) :
  Forall P l -> Forall P (firstn n l).
Proof.
  intros H. rewrite <- (firstn_skipn n l) in H. apply Forall_app in H. apply H.
Qed.

Lemma Forall_skipn_of {A : Type} (P : A -> Prop) (l : list A) (n : nat) :
  Forall P l -> Forall P (skipn n l).
Proof.
  intros H. rewrite <- (firstn_skipn n l) in H. apply Forall_app in H. apply H.
Qed.

Lemma Forall_zip_with_app {A : Type} (P : A -> Prop) (a b : list (list A)) :
  Forall (Forall P) a -> Forall (Forall P) b -> Forall (Forall P) (zip_with (@app A) a b).
Proof.
  intros Ha. revert b. induction Ha as [|x a Hx _ IH]; intros [|y b] Hb; simpl;
    constructor.
  - apply Forall_app. split; [exact Hx | inversion Hb; assumption].
  - apply IH. inversion Hb; assumption.
Qed.

Lemma fill_in_range (r c : nat) : pixels_in_range (fill r c).
Proof.
  unfold pixels_in_range, fill. apply Forall_forall. intros row Hrow.
  apply repeat_spec in Hrow. rewrite Hrow. apply Forall_forall.
  intros p Hp. apply repeat_spec in Hp. lia.
Qed.

Lemma fill_is28 : is28 (fill 28 28).
Proof. split; [reflexivity | repeat constructor]. Qed.

Lemma is28_zip_app (a b : image) (n : nat) :
  length a = 28%nat -> length b = 28%nat ->
  Forall (fun r => length r = n) a -> Forall (fun r => length r = (28 - n)%nat) b ->
  (n <= 28)%nat -> is28 (zip_with (@app Z) a b).
Proof.
  intros Ha Hb Hra Hrb Hn. split; [rewrite zip_with_length; lia|].
  clear Ha Hb. revert b Hrb. induction Hra as [|x a Hx _ IH]; intros [|y b] Hrb; simpl;
    constructor.
  - inversion Hrb; subst. rewrite length_app. lia.
  - apply IH. inversion Hrb; assumption.
Qed.

Lemma augmented_ok (img : image) :
  is28 img -> pixels_in_range img ->
  Forall (fun t => is28 t /\ pixels_in_range t) (augmented rotate img).
Proof.
  intros H28 Hrange. pose proof H28 as [Hlen Hrows].
  assert (Hu : uint8_image img = true) by (apply uint8_image_range; exact Hrange).
  unfold augmented.
  apply Forall_cons; [split; [exact H28 | exact Hrange]|].
  apply Forall_cons; [split; [split|]|].
  { rewrite length_app, length_skipn, Hlen. reflexivity. }
  { apply Forall_app. split; [repeat constructor | apply Forall_skipn_of; exact Hrows]. }
  { apply Forall_app. split; [apply fill_in_range | apply Forall_skipn_of; exact Hrange]. }
  apply Forall_cons; [split; [split|]|].
  { rewrite length_app, length_firstn, Hlen. reflexivity. }
  { apply Forall_app. split; [apply Forall_firstn_of; exact Hrows | repeat constructor]. }
  { apply Forall_app. split; [apply Forall_firstn_of; exact Hrange | apply fill_in_range]. }
  apply Forall_cons; [split|].
  { apply is28_zip_app with (n := 2%nat); try lia.
    - reflexivity.
    - rewrite length_map. exact Hlen.
    - repeat constructor.
    - apply Forall_map. eapply Forall_impl; [|exact Hrows].
      intros r Hr. rewrite length_skipn, Hr. reflexivity. }
  { apply Forall_zip_with_app; [apply fill_in_range|].
    apply Forall_map. eapply Forall_impl; [|exact Hrange].
    intros r Hr. apply Forall_skipn_of. exact Hr. }
  apply Forall_cons; [split|].
  { apply is28_zip_app with (n := 26%nat); try lia.
    - rewrite length_map. exact Hlen.
    - reflexivity.
    - apply Forall_map. eapply Forall_impl; [|exact Hrows].
      intros r Hr. rewrite length_firstn, Hr. reflexivity.
    - repeat constructor. }
  { apply Forall_zip_with_app; [|apply fill_in_range].
    apply Forall_map. eapply Forall_impl; [|exact Hrange].
    intros r Hr. apply Forall_firstn_of. exact Hr. }
  apply Forall_cons;
    [split; [|apply uint8_image_range]; apply (@Hrot img 5%Z H28 Hu)|].
  apply Forall_cons;
    [split; [|apply uint8_image_range]; apply (@Hrot img (-5)%Z H28 Hu)|].
  constructor.
Qed.

Lemma read_images_test (ds : list (image * Z)) :
  read_images rotate false ds = Ok (map fst ds, map snd ds).
Proof.
  induction ds as [|[img label] ds IH]; [reflexivity|].
  cbn [read_images read_image bind]. rewrite IH. reflexivity.
Qed.

Lemma read_images_train (ds : list (image * Z)) :
  Forall (fun p => is28 (fst p)) ds ->
  read_images rotate true ds = Ok (training_images rotate ds, training_labels ds).
Proof.
  induction 1 as [|[img label] ds H28 _ IH]; [reflexivity|].
  cbn [read_images read_image fst snd] in *.
  rewrite (img_shifted_1_Ok H28), (img_shifted_2_Ok H28),
    (img_shifted_3_Ok H28), (img_shifted_4_Ok H28).
  cbn [bind]. rewrite IH. reflexivity.
Qed.

Lemma collate_images_Ok (x : list image) (sh : list nat) :
  x <> [] -> Forall (fun i => image_shape i = sh) x -> collate_images x = Ok x.
Proof.
  intros Hne Hsh. destruct x as [|x0 x']; [congruence|].
  unfold collate_images.
  replace (forallb _ (x0 :: x')) with true; [reflexivity|].
  symmetry. apply forallb_forall. intros i Hi.
  rewrite Forall_forall in Hsh.
  rewrite (Hsh i Hi), (Hsh x0 (or_introl eq_refl)).
  destruct (list_eq_dec Nat.eq_dec sh sh); congruence.
Qed.

Lemma is28_shape (t : image) : is28 t -> image_shape t = repeat 28%nat 28.
Proof.
  intros [Hlen Hrows]. unfold image_shape.
  assert (E : map (@length Z) t = repeat 28%nat (length t)).
  { clear Hlen. induction Hrows as [|r t Hr _ IH]; simpl; [reflexivity|].
    rewrite Hr, IH. reflexivity. }
  rewrite E, Hlen. reflexivity.
Qed.

(** ** Extrema and statistics of the pixel data *)

Lemma fold_Rmax_spec (l : vec) (a : R) :
  (a <= fold_left Rmax l a) /\ (forall e, In e l -> e <= fold_left Rmax l a) /\
  (fold_left Rmax l a = a \/ In (fold_left Rmax l a) l).
Proof.
  revert a. induction l as [|x l IH]; intros a; simpl.
  - split; [lra|]. split; [contradiction | left; reflexivity].
  - destruct (IH (Rmax a x)) as (H1 & H2 & H3).
    pose proof (Rmax_l a x). pose proof (Rmax_r a x).
    split; [lra|]. split.
    + intros e [<-|He]; [lra | apply H2; exact He].
    + destruct H3 as [E|Hin]; [|right; right; exact Hin].
      rewrite E. unfold Rmax. destruct (Rle_dec a x); [right; left|left]; reflexivity.
Qed.

Lemma fold_Rmin_spec (l : vec) (a : R) :
  (fold_left Rmin l a <= a) /\ (forall e, In e l -> fold_left Rmin l a <= e) /\
  (fold_left Rmin l a = a \/ In (fold_left Rmin l a) l).
Proof.
  revert a. induction l as [|x l IH]; intros a; simpl.
  - split; [lra|]. split; [contradiction | left; reflexivity].
  - destruct (IH (Rmin a x)) as (H1 & H2 & H3).
    pose proof (Rmin_l a x). pose proof (Rmin_r a x).
    split; [lra|]. split.
    + intros e [<-|He]; [lra | apply H2; exact He].
    + destruct H3 as [E|Hin]; [|right; right; exact Hin].
      rewrite E. unfold Rmin. destruct (Rle_dec a x); [left|right; left]; reflexivity.
Qed.

Lemma rmax_list_spec (v : vec) :
  v <> [] ->
  exists M, rmax_list v = Ok M /\ In M v /\ (forall e, In e v -> e <= M).
Proof.
  destruct v as [|a l]; [congruence|]. intros _.
  destruct (fold_Rmax_spec l a) as (H1 & H2 & H3).
  exists (fold_left Rmax l a). split; [reflexivity|]. split.
  - destruct H3 as [E|Hin]; [left; symmetry; exact E | right; exact Hin].
  - intros e [<-|He]; [exact H1 | apply H2; exact He].
Qed.

Lemma rmin_list_spec (v : vec) :
  v <> [] ->
  exists M, rmin_list v = Ok M /\ In M v /\ (forall e, In e v -> M <= e).
Proof.
  destruct v as [|a l]; [congruence|]. intros _.
  destruct (fold_Rmin_spec l a) as (H1 & H2 & H3).
  exists (fold_left Rmin l a). split; [reflexivity|]. split.
  - destruct H3 as [E|Hin]; [left; symmetry; exact E | right; exact Hin].
  - intros e [<-|He]; [exact H1 | apply H2; exact He].
Qed.

Lemma rsum_nonneg {v : vec} : Forall (fun e => 0 <= e) v -> 0 <= rsum v.
Proof.
  induction 1 as [|e v He _ IH]; [simpl; lra|]. rewrite rsum_cons. lra.
Qed.

Lemma rsum_ge_term {v : vec} {a : R} :
  Forall (fun e => 0 <= e) v -> In a v -> a <= rsum v.
Proof.
  induction 1 as [|e v He Hv IH]; intros Hin; [contradiction|].
  rewrite rsum_cons. pose proof (rsum_nonneg Hv).
  destruct Hin as [<-|Hin]; [lra | specialize (IH Hin); lra].
Qed.

Lemma square_pos (x : R) : x <> 0 -> 0 < x * x.
Proof. intros H. destruct (Rtotal_order x 0) as [L|[E|G]]; [nra | contradiction | nra]. Qed.

(** The standard deviation of entries that are not all equal is positive. *)
Lemma std_mean_pos (v : vec) (a b : R) :
  In a v -> In b v -> a <> b ->
  exists s m, std_mean v = (Some s, Some m) /\ 0 < s.
Proof.
  intros Ha Hb Hab. unfold std_mean.
  destruct v as [|x [|y v']]; [contradiction| |].
  - destruct Ha as [<-|[]]. destruct Hb as [<-|[]]. congruence.
  - set (v := x :: y :: v') in *. cbn [length].
    set (m := rsum v / INR (S (S (length v')))).
    set (sq := map (fun e => (e - m) * (e - m)) v).
    exists (sqrt (rsum sq / INR (S (length v')))), m. split; [reflexivity|].
    apply sqrt_lt_R0.
    assert (Hk : 0 < INR (S (length v'))) by (apply lt_0_INR; lia).
    assert (Hnn : Forall (fun e => 0 <= e) sq).
    { unfold sq. apply Forall_map, Forall_forall. intros e _. cbv beta.
      generalize (e - m). intros d. nra. }
    assert (Hpos : 0 < rsum sq).
    { destruct (Req_dec_T a m) as [Eam|Nam].
      - assert (Hb' : In ((b - m) * (b - m)) sq) by (unfold sq; apply (in_map (fun e => (e - m) * (e - m))); exact Hb).
        pose proof (rsum_ge_term Hnn Hb').
        assert (0 < (b - m) * (b - m))
          by (apply square_pos; intros E0; apply Hab; lra).
        lra.
      - assert (Ha' : In ((a - m) * (a - m)) sq) by (unfold sq; apply (in_map (fun e => (e - m) * (e - m))); exact Ha).
        pose proof (rsum_ge_term Hnn Ha').
        assert (0 < (a - m) * (a - m))
          by (apply square_pos; intros E0; apply Nam; lra).
        lra. }
    apply Rdiv_lt_0_compat; assumption.
Qed.

Lemma div_scalar_Ok (t : mat) (c : R) :
  c <> 0 -> div_scalar t (Some c) = Ok (map (map (fun v => v / c)) t).
Proof.
  intros Hc. unfold div_scalar. destruct (Req_dec_T c 0); [contradiction | reflexivity].
Qed.

Lemma flat_pixels_range (x : list image) :
  Forall pixels_in_range x ->
  Forall (fun e => 0 <= e <= 255) (concat (flat_pixels x)).
Proof.
  intros H. unfold flat_pixels. apply Forall_concat, Forall_map.
  eapply Forall_impl; [|exact H]. intros t Ht.
  apply Forall_concat, Forall_map. eapply Forall_impl; [|exact Ht].
  intros r Hr. apply Forall_map. eapply Forall_impl; [|exact Hr].
  intros p Hp. cbv beta in Hp |- *.
  split; [apply (IZR_le 0) | apply (IZR_le p 255)]; lia.
Qed.

Lemma in_flat_pixels (x : list image) (t : image) (p : Z) :
  In t x -> In p (concat t) -> In (IZR p) (concat (flat_pixels x)).
Proof.
  intros Ht Hp. unfold flat_pixels. apply in_concat.
  exists (concat (map (map IZR) t)). split; [apply in_map with (f := fun i => concat (map (map IZR) i)); exact Ht|].
  rewrite <- concat_map. apply in_map. exact Hp.
Qed.

(** ** The two call paths of [load_dataset] *)

Lemma to_one_hot_rows (x : list Z) (m : Z) :
  zmax x = Ok m -> (forall l, In l x -> (0 <= l <= m)%Z) ->
  to_one_hot x =
    Ok (map (fun l => map (fun j => if Nat.eqb (Z.to_nat l) j then 1 else 0)
                          (seq 0 (Z.to_nat (m + 1)))) x).
Proof.
  intros Hm Hrange. unfold to_one_hot. rewrite Hm. cbn [bind].
  destruct x as [|x0 xs]; [discriminate|].
  pose proof (Hrange x0 (or_introl eq_refl)) as H0.
  destruct (m + 1 <? 0)%Z eqn:E; [apply Z.ltb_lt in E; lia|].
  apply mapM_Ok_pointwise. intros l Hl.
  apply py_index_eye. specialize (Hrange l Hl). lia.
Qed.

Lemma concat_map_map (f : R -> R) (x : mat) :
  concat (map (map f) x) = map f (concat x).
Proof. symmetry. apply concat_map. Qed.

Lemma concat_min_max_scale (mini maxi : R) (x : mat) :
  concat (min_max_scale mini maxi x) = map (fun v => (v - mini) / maxi) (concat x).
Proof.
  unfold min_max_scale. rewrite !concat_map_map, map_map. reflexivity.
Qed.

Lemma load_dataset_test_steps (ds : list (image * Z))
    (pin_memory : bool) (s m mini maxi : R) :
  ds <> [] ->
  collate_images (map fst ds) = Ok (map fst ds) ->
  rmax_list (concat (flat_pixels (map fst ds))) = Ok maxi ->
  rmin_list (concat (flat_pixels (map fst ds))) = Ok mini ->
  maxi <> 0 -> s <> 0 ->
  load_dataset rotate ds false pin_memory (Some (Some s, Some m)) =
    Ok (LoadedTest (standardize s m (min_max_scale mini maxi (flat_pixels (map fst ds))))
                   (map snd ds)).
Proof.
  intros Hne Hcol Hmax Hmin Hmaxi Hs. unfold load_dataset.
  rewrite read_images_test. cbn [bind]. rewrite Hcol. cbn [bind].
  fold (flat_pixels (map fst ds)). rewrite Hmax, Hmin. cbn [bind sub_scalar].
  rewrite (div_scalar_Ok _ Hmaxi). cbn [bind fst snd sub_scalar].
  rewrite (div_scalar_Ok _ Hs). cbn [bind].
  destruct ds as [|d ds']; [congruence|]. cbn [map collate_labels bind].
  destruct pin_memory; reflexivity.
Qed.

Lemma load_dataset_train_steps (ds : list (image * Z))
    (pin_memory : bool) (xs : list image) (ys : list Z) (s m mini maxi : R) (oh : mat) :
  read_images rotate true ds = Ok (xs, ys) ->
  collate_images xs = Ok xs ->
  rmax_list (concat (flat_pixels xs)) = Ok maxi ->
  rmin_list (concat (flat_pixels xs)) = Ok mini ->
  maxi <> 0 ->
  std_mean (concat (min_max_scale mini maxi (flat_pixels xs))) = (Some s, Some m) ->
  s <> 0 -> ys <> [] -> to_one_hot ys = Ok oh ->
  load_dataset rotate ds true pin_memory None =
    Ok (LoadedTrain (standardize s m (min_max_scale mini maxi (flat_pixels xs)))
                    ys oh (Some s, Some m)).
Proof.
  intros Hread Hcol Hmax Hmin Hmaxi Hsm Hs Hys Hoh. unfold load_dataset.
  rewrite Hread. cbn [bind]. rewrite Hcol. cbn [bind].
  fold (flat_pixels xs). rewrite Hmax, Hmin. cbn [bind sub_scalar].
  rewrite (div_scalar_Ok _ Hmaxi). cbn [bind].
  fold (min_max_scale mini maxi (flat_pixels xs)). rewrite Hsm.
  cbn [bind fst snd sub_scalar]. rewrite (div_scalar_Ok _ Hs). cbn [bind].
  destruct ys as [|y ys']; [congruence|]. cbn [collate_labels bind].
  rewrite Hoh. cbn [bind]. destruct pin_memory; reflexivity.
Qed.

(** Step (1) maps non-negative data with a positive maximum into [0, 1]. *)
Lemma min_max_scale_unit (mini maxi : R) (x : mat) :
  0 <= mini -> 0 < maxi ->
  Forall (fun e => mini <= e <= maxi) (concat x) ->
  Forall (fun e => 0 <= e <= 1) (concat (min_max_scale mini maxi x)).
Proof.
  intros Hmini Hmaxi H. rewrite concat_min_max_scale. apply Forall_map.
  eapply Forall_impl; [|exact H]. intros e He. cbv beta. split.
  - apply Rmult_le_pos; [lra | left; apply Rinv_0_lt_compat; exact Hmaxi].
  - apply Rmult_le_reg_r with (r := maxi); [exact Hmaxi|].
    unfold Rdiv. rewrite Rmult_assoc, Rinv_l by lra. lra.
Qed.

Lemma training_images_ok (ds : list (image * Z)) :
  training_set_ok ds ->
  Forall (fun t => is28 t /\ pixels_in_range t) (training_images rotate ds).
Proof.
  intros (_ & Hall & _). unfold training_images.
  induction Hall as [|[img label] ds (H28 & Hu & _) _ IH]; [constructor|].
  cbn [flat_map fst]. apply Forall_app. split; [|exact IH].
  apply augmented_ok; [exact H28 | apply uint8_image_range; exact Hu].
Qed.

Lemma training_images_has_fill (ds : list (image * Z)) :
  ds <> [] -> In 255 (concat (flat_pixels (training_images rotate ds))).
Proof.
  destruct ds as [|[img label] ds]; [congruence|]. intros _.
  apply (@in_flat_pixels _ (fill 2 28 ++ skipn 2 img) 255%Z).
  - unfold training_images. cbn [flat_map fst augmented].
    right. left. reflexivity.
  - left. reflexivity.
Qed.

Lemma training_images_has_pixel (ds : list (image * Z))
    (img : image) (label p : Z) :
  In (img, label) ds -> In p (concat img) ->
  In (IZR p) (concat (flat_pixels (training_images rotate ds))).
Proof.
  intros Hin Hp. apply (@in_flat_pixels _ img p); [|exact Hp].
  unfold training_images. apply in_flat_map.
  exists (img, label). split; [exact Hin | left; reflexivity].
Qed.

(** The training path: the global maximum is the fill value 255, and the
    standard deviation of the scaled data is positive. *)
Lemma load_dataset_train_ok (ds : list (image * Z)) (pin_memory : bool) :
  training_set_ok ds ->
  let X := flat_pixels (training_images rotate ds) in
  exists mini s m oh,
    rmin_list (concat X) = Ok mini /\ rmax_list (concat X) = Ok 255 /\
    0 <= mini /\ Forall (fun e => mini <= e <= 255) (concat X) /\
    std_mean (concat (min_max_scale mini 255 X)) = (Some s, Some m) /\ 0 < s /\
    load_dataset rotate ds true pin_memory None =
      Ok (LoadedTrain (standardize s m (min_max_scale mini 255 X))
                      (training_labels ds) oh (Some s, Some m)).
Proof.
  intros Hok X. pose proof Hok as (Hne & Hall & img & label & p & Hin & Hp & Hp255).
  pose proof (training_images_ok Hok) as Himgs.
  assert (Hrange : Forall (fun e => 0 <= e <= 255) (concat X)).
  { apply flat_pixels_range. eapply Forall_impl; [|exact Himgs]. intros t Ht. apply Ht. }
  pose proof (training_images_has_fill Hne) as Hfill. fold X in Hfill.
  assert (HXne : concat X <> []) by (intros E; rewrite E in Hfill; contradiction).
  destruct (rmax_list_spec HXne) as (maxi & Hmax & Hmaxin & Hmaxge).
  destruct (rmin_list_spec HXne) as (mini & Hmin & Hminin & Hminle).
  rewrite Forall_forall in Hrange.
  assert (Emax : maxi = 255).
  { apply Rle_antisym; [apply (Hrange maxi Hmaxin) | apply Hmaxge; exact Hfill]. }
  subst maxi.
  pose proof (training_images_has_pixel ds img label p Hin Hp) as Hpix.
  fold X in Hpix.
  assert (Hdiff : (IZR 255 - mini) / 255 <> (IZR p - mini) / 255).
  { intros E. apply Hp255. apply eq_IZR. lra. }
  destruct (@std_mean_pos (concat (min_max_scale mini 255 X))
              ((IZR 255 - mini) / 255) ((IZR p - mini) / 255))
    as (s & m & Hsm & Hs); try exact Hdiff.
  { rewrite concat_min_max_scale. apply (in_map (fun v => (v - mini) / 255)). exact Hfill. }
  { rewrite concat_min_max_scale. apply (in_map (fun v => (v - mini) / 255)). exact Hpix. }
  assert (Hlab : training_labels ds <> []).
  { destruct ds as [|[i0 l0] ds']; [congruence|]. discriminate. }
  destruct (zmax_spec Hlab) as (lm & Hlm & _ & Hlmax).
  assert (Hlr : forall l, In l (training_labels ds) -> (0 <= l <= lm)%Z).
  { intros l Hl. split; [|apply Hlmax; exact Hl].
    unfold training_labels in Hl. apply in_flat_map in Hl.
    destruct Hl as (q & Hq & Hl). apply repeat_spec in Hl. subst l.
    rewrite Forall_forall in Hall. apply (Hall q Hq). }
  eexists mini, s, m, _.
  split; [exact Hmin|]. split; [exact Hmax|].
  split; [apply (Hrange mini Hminin)|].
  split; [apply Forall_forall; intros e He; split; [apply Hminle | apply Hmaxge]; exact He|].
  split; [exact Hsm|]. split; [exact Hs|].
  apply load_dataset_train_steps; try assumption.
  - apply read_images_train. eapply Forall_impl; [|exact Hall]. intros q Hq. apply Hq.
  - apply collate_images_Ok with (sh := repeat 28%nat 28).
    + intros E. unfold X in HXne. rewrite E in HXne. apply HXne. reflexivity.
    + eapply Forall_impl; [|exact Himgs]. intros t Ht. apply is28_shape. apply Ht.
  - lra.
  - lra.
  - apply to_one_hot_rows with (m := lm); assumption.
Qed.

(** The validation path: the extrema are those of the split itself. *)
Lemma load_dataset_test_ok (ds : list (image * Z)) (pin_memory : bool) (s m : R) :
  test_set_ok ds -> s <> 0 ->
  let X := flat_pixels (map fst ds) in
  exists mini maxi,
    rmin_list (concat X) = Ok mini /\ rmax_list (concat X) = Ok maxi /\
    0 <= mini /\ 0 < maxi /\ Forall (fun e => mini <= e <= maxi) (concat X) /\
    load_dataset rotate ds false pin_memory (Some (Some s, Some m)) =
      Ok (LoadedTest (standardize s m (min_max_scale mini maxi X)) (map snd ds)).
Proof.
  intros (Hne & (sh & Hsh) & Hu & img & label & p & Hin & Hp & Hp0) Hs X.
  assert (Hrange : Forall (fun e => 0 <= e <= 255) (concat X)).
  { apply flat_pixels_range. apply Forall_map. eapply Forall_impl; [|exact Hu].
    intros q Hq. apply uint8_image_range. exact Hq. }
  assert (Hpix : In (IZR p) (concat X)).
  { apply (@in_flat_pixels _ img p); [|exact Hp].
    apply (in_map fst) in Hin. exact Hin. }
  assert (HXne : concat X <> []) by (intros E; rewrite E in Hpix; contradiction).
  destruct (rmax_list_spec HXne) as (maxi & Hmax & Hmaxin & Hmaxge).
  destruct (rmin_list_spec HXne) as (mini & Hmin & Hminin & Hminle).
  rewrite Forall_forall in Hrange.
  assert (Hpos : 0 < maxi).
  { pose proof (Hmaxge _ Hpix) as H1. pose proof (Hrange _ Hpix) as [H2 _].
    destruct H2 as [H2|H2]; [lra|]. exfalso. apply Hp0. apply eq_IZR. lra. }
  exists mini, maxi.
  split; [exact Hmin|]. split; [exact Hmax|].
  split; [apply (Hrange mini Hminin)|]. split; [exact Hpos|].
  split; [apply Forall_forall; intros e He; split; [apply Hminle | apply Hmaxge]; exact He|].
  apply load_dataset_test_steps; try assumption; [|lra].
  apply collate_images_Ok with (sh := sh).
  - destruct ds; [congruence | discriminate].
  - apply Forall_map. exact Hsh.
Qed.

(** ** Entries of the normalized data *)

Lemma entry_map_map (f : R -> R) (x : mat) (i j : nat) :
  (i < length x)%nat -> (j < length (nth i x []))%nat ->
  entry (map (map f) x) i j = f (entry x i j).
Proof.
  intros Hi Hj. unfold entry.
  rewrite nth_map_lt with (da := []) by exact Hi.
  apply nth_map_lt. exact Hj.
Qed.

Lemma row_length_map_map (f : R -> R) (x : mat) (i : nat) :
  length (nth i (map (map f) x) []) = length (nth i x []).
Proof.
  destruct (Nat.lt_ge_cases i (length x)) as [H|H].
  - rewrite nth_map_lt with (da := []) by exact H. apply length_map.
  - rewrite !nth_overflow by (rewrite ?length_map; exact H). reflexivity.
Qed.

Lemma entry_min_max_scale (mini maxi : R) (x : mat) (i j : nat) :
  (i < length x)%nat -> (j < length (nth i x []))%nat ->
  entry (min_max_scale mini maxi x) i j = (entry x i j - mini) / maxi.
Proof.
  intros Hi Hj. unfold min_max_scale.
  rewrite entry_map_map by (rewrite ?length_map, ?row_length_map_map; assumption).
  rewrite entry_map_map by assumption. reflexivity.
Qed.

Lemma entry_standardize (s m : R) (x : mat) (i j : nat) :
  (i < length x)%nat -> (j < length (nth i x []))%nat ->
  entry (standardize s m x) i j = (entry x i j - m) / s.
Proof. exact (@entry_min_max_scale m s x i j). Qed.

Lemma scaled_dims (mini maxi : R) (x : mat) (i : nat) :
  length (min_max_scale mini maxi x) = length x /\
  length (nth i (min_max_scale mini maxi x) []) = length (nth i x []).
Proof.
  unfold min_max_scale. rewrite !length_map, !row_length_map_map. split; reflexivity.
Qed.

Lemma entry_normalized (s m mini maxi : R) (x : mat) (i j : nat) :
  (i < length x)%nat -> (j < length (nth i x []))%nat ->
  entry (standardize s m (min_max_scale mini maxi x)) i j
    = ((entry x i j - mini) / maxi - m) / s.
Proof.
  intros Hi Hj. destruct (scaled_dims mini maxi x i) as [E1 E2].
  rewrite entry_standardize by (rewrite ?E1, ?E2; assumption).
  rewrite entry_min_max_scale by assumption. reflexivity.
Qed.

Lemma normalized_dims (s m mini maxi : R) (x : mat) (i : nat) :
  length (standardize s m (min_max_scale mini maxi x)) = length x /\
  length (nth i (standardize s m (min_max_scale mini maxi x)) []) = length (nth i x []).
Proof.
  destruct (scaled_dims mini maxi x i) as [E1 E2].
  destruct (scaled_dims m s (min_max_scale mini maxi x) i) as [F1 F2].
  change (standardize s m) with (min_max_scale m s).
  rewrite F1, F2, E1, E2. split; reflexivity.
Qed.

(** ** Normalizing the training and the validation split (C1, C2) *)

Lemma both_call_paths (T V : list (image * Z)) (pin_memory : bool) :
  training_set_ok T -> test_set_ok V ->
  let Xt := flat_pixels (training_images rotate T) in
  let Xv := flat_pixels (map fst V) in
  exists mini_t mini_v maxi_v s m y_train,
    rmin_list (concat Xt) = Ok mini_t /\ rmax_list (concat Xt) = Ok 255 /\
    Forall (fun e => 0 <= e <= 1) (concat (min_max_scale mini_t 255 Xt)) /\
    std_mean (concat (min_max_scale mini_t 255 Xt)) = (Some s, Some m) /\ 0 < s /\
    load_dataset rotate T true pin_memory None =
      Ok (LoadedTrain (standardize s m (min_max_scale mini_t 255 Xt))
                      (training_labels T) y_train (Some s, Some m)) /\
    rmin_list (concat Xv) = Ok mini_v /\ rmax_list (concat Xv) = Ok maxi_v /\
    Forall (fun e => 0 <= e <= 1) (concat (min_max_scale mini_v maxi_v Xv)) /\
    load_dataset rotate V false pin_memory (Some (Some s, Some m)) =
      Ok (LoadedTest (standardize s m (min_max_scale mini_v maxi_v Xv)) (map snd V)).
Proof.
  intros HT HV Xt Xv.
  destruct (load_dataset_train_ok pin_memory HT)
    as (mini_t & s & m & y_train & Hmin_t & Hmax_t & Hmini_t & Hb_t & Hsm & Hs & Hload_t).
  assert (Hs0 : s <> 0) by lra.
  destruct (load_dataset_test_ok pin_memory m HV Hs0)
    as (mini_v & maxi_v & Hmin_v & Hmax_v & Hmini_v & Hmaxi_v & Hb_v & Hload_v).
  exists mini_t, mini_v, maxi_v, s, m, y_train.
  split; [exact Hmin_t|]. split; [exact Hmax_t|].
  split; [apply min_max_scale_unit; [exact Hmini_t | lra | exact Hb_t]|].
  split; [exact Hsm|]. split; [exact Hs|]. split; [exact Hload_t|].
  split; [exact Hmin_v|]. split; [exact Hmax_v|].
  split; [apply min_max_scale_unit; assumption|].
  exact Hload_v.
Qed.

(** C1, as the code has it: the (std, mean) pair computed on the min-max
    scaled training tensor is handed by [train] to the validation load,
    which standardizes with exactly that pair and computes none of its
    own.  Equal min-max-scaled values therefore come out equal on both
    call paths; equal raw pixel values do when the two splits have the
    same global minimum and maximum. *)
Theorem mean_std_reused_on_validation (T V : list (image * Z)) (pin_memory : bool) :
  training_set_ok T -> test_set_ok V ->
  let Xt := flat_pixels (training_images rotate T) in
  let Xv := flat_pixels (map fst V) in
  exists mini_t mini_v maxi_v s m y_train,
    let x_train := standardize s m (min_max_scale mini_t 255 Xt) in
    let x_test := standardize s m (min_max_scale mini_v maxi_v Xv) in
    rmin_list (concat Xt) = Ok mini_t /\
    rmin_list (concat Xv) = Ok mini_v /\ rmax_list (concat Xv) = Ok maxi_v /\
    std_mean (concat (min_max_scale mini_t 255 Xt)) = (Some s, Some m) /\ s <> 0 /\
    load_dataset rotate T true pin_memory None =
      Ok (LoadedTrain x_train (training_labels T) y_train (Some s, Some m)) /\
    load_dataset rotate V false pin_memory (Some (Some s, Some m)) =
      Ok (LoadedTest x_test (map snd V)) /\
    (forall weights biases epochs mu batch_size eval_batch_size wd,
       train rotate T V weights biases epochs pin_memory mu batch_size eval_batch_size wd =
       train_epochs x_train (training_labels T) y_train x_test (map snd V) (seq 0 epochs)
         weights biases mu batch_size eval_batch_size wd []) /\
    (forall i j i' j',
       (i < length Xt)%nat -> (j < length (nth i Xt []))%nat ->
       (i' < length Xv)%nat -> (j' < length (nth i' Xv []))%nat ->
       (entry (min_max_scale mini_t 255 Xt) i j
          = entry (min_max_scale mini_v maxi_v Xv) i' j' ->
        entry x_train i j = entry x_test i' j') /\
       (mini_t = mini_v -> maxi_v = 255 -> entry Xt i j = entry Xv i' j' ->
        entry x_train i j = entry x_test i' j')).
Proof.
  intros HT HV Xt Xv.
  destruct (both_call_paths pin_memory HT HV)
    as (mini_t & mini_v & maxi_v & s & m & y_train & Hmin_t & _ & _ & Hsm & Hs
        & Hload_t & Hmin_v & Hmax_v & _ & Hload_v).
  fold Xt in Hmin_t, Hsm, Hload_t. fold Xv in Hmin_v, Hmax_v, Hload_v.
  exists mini_t, mini_v, maxi_v, s, m, y_train. cbv zeta.
  split; [exact Hmin_t|]. split; [exact Hmin_v|]. split; [exact Hmax_v|].
  split; [exact Hsm|]. split; [lra|]. split; [exact Hload_t|]. split; [exact Hload_v|].
  split.
  - intros weights biases epochs mu batch_size eval_batch_size wd.
    unfold train. rewrite Hload_t. cbn [bind]. rewrite Hload_v. reflexivity.
  - intros i j i' j' Hi Hj Hi' Hj'.
    destruct (scaled_dims mini_t 255 Xt i) as [E1 E2].
    destruct (scaled_dims mini_v maxi_v Xv i') as [F1 F2].
    rewrite !entry_standardize by (rewrite ?E1, ?E2, ?F1, ?F2; assumption).
    split.
    + intros E. rewrite E. reflexivity.
    + intros Emin Emax E. rewrite !entry_min_max_scale by assumption.
      rewrite E, Emin, Emax. reflexivity.
Qed.

(** C2, as the code has it: on either call path step (1) subtracts the
    global minimum and divides by the global maximum of the split being
    loaded (for the validation split its own, not the training set's),
    which maps uint8 pixels into [0, 1]; step (2) then standardizes with
    the mean and standard deviation of the scaled training data. *)
Theorem min_max_scaling_per_split (T V : list (image * Z)) (pin_memory : bool) :
  training_set_ok T -> test_set_ok V ->
  let Xt := flat_pixels (training_images rotate T) in
  let Xv := flat_pixels (map fst V) in
  exists mini_t mini_v maxi_v s m y_train,
    rmin_list (concat Xt) = Ok mini_t /\ rmax_list (concat Xt) = Ok 255 /\
    Forall (fun e => 0 <= e <= 1) (concat (min_max_scale mini_t 255 Xt)) /\
    std_mean (concat (min_max_scale mini_t 255 Xt)) = (Some s, Some m) /\
    load_dataset rotate T true pin_memory None =
      Ok (LoadedTrain (standardize s m (min_max_scale mini_t 255 Xt))
                      (training_labels T) y_train (Some s, Some m)) /\
    rmin_list (concat Xv) = Ok mini_v /\ rmax_list (concat Xv) = Ok maxi_v /\
    Forall (fun e => 0 <= e <= 1) (concat (min_max_scale mini_v maxi_v Xv)) /\
    load_dataset rotate V false pin_memory (Some (Some s, Some m)) =
      Ok (LoadedTest (standardize s m (min_max_scale mini_v maxi_v Xv)) (map snd V)).
Proof.
  intros HT HV Xt Xv.
  destruct (both_call_paths pin_memory HT HV)
    as (mini_t & mini_v & maxi_v & s & m & y_train & Hmin_t & Hmax_t & Hu_t & Hsm & _
        & Hload_t & Hmin_v & Hmax_v & Hu_v & Hload_v).
  exists mini_t, mini_v, maxi_v, s, m, y_train.
  repeat (split; [assumption|]). assumption.
Qed.

End Loader.

(** ** The two sample splits *)

Lemma no_rotation_ok : rotate_ok no_rotation.
Proof. intros img angle H28 Hu. split; assumption. Qed.

Lemma sample_train_ok : training_set_ok sample_train.
Proof.
  split; [discriminate|]. split.
  - constructor; [|constructor]. cbn [fst snd].
    split; [exact ramp_is28|]. split; [vm_compute; reflexivity | lia].
  - exists ramp, 3%Z, 0%Z. split; [left; reflexivity|].
    split; [vm_compute; left; reflexivity | discriminate].
Qed.

Lemma sample_test_ok : test_set_ok sample_test.
Proof.
  split; [discriminate|]. split; [|split].
  - exists (image_shape dim). repeat constructor.
  - constructor; [vm_compute; reflexivity | constructor].
  - exists dim, 5%Z, 100%Z. split; [left; reflexivity|].
    split; [vm_compute; right; left; reflexivity | discriminate].
Qed.

Lemma in_flat_pixels_inv (x : list image) (e : R) :
  In e (concat (flat_pixels x)) ->
  exists t p, In t x /\ In p (concat t) /\ e = IZR p.
Proof.
  unfold flat_pixels. intros H. apply in_concat in H. destruct H as (row & Hrow & He).
  apply in_map_iff in Hrow. destruct Hrow as (t & <- & Ht).
  rewrite <- concat_map in He. apply in_map_iff in He. destruct He as (p & <- & Hp).
  exists t, p. repeat split; assumption.
Qed.

Lemma Ok_inj {A : Type} (a b : A) : Ok a = Ok b -> a = b.
Proof. intros E. injection E as ->. reflexivity. Qed.

Lemma sample_extrema (rotate : image -> Z -> image) :
  rotate_ok rotate ->
  rmin_list (concat (flat_pixels (training_images rotate sample_train))) = Ok 0 /\
  rmin_list (concat (flat_pixels (map fst sample_test))) = Ok 0 /\
  rmax_list (concat (flat_pixels (map fst sample_test))) = Ok 100.
Proof.
  intros Hrot. split; [|split].
  - pose proof (training_images_ok Hrot sample_train_ok) as Himgs.
    assert (Hrange : Forall (fun e => 0 <= e <= 255)
                       (concat (flat_pixels (training_images rotate sample_train)))).
    { apply flat_pixels_range. eapply Forall_impl; [|exact Himgs]. intros t Ht. apply Ht. }
    assert (H0 : In 0 (concat (flat_pixels (training_images rotate sample_train)))).
    { apply (@training_images_has_pixel rotate sample_train ramp 3%Z 0%Z);
        [left; reflexivity | vm_compute; left; reflexivity]. }
    assert (Hne : concat (flat_pixels (training_images rotate sample_train)) <> [])
      by (intros E; rewrite E in H0; contradiction).
    destruct (rmin_list_spec Hne) as (M & HM & HMin & HMle).
    rewrite HM. f_equal. rewrite Forall_forall in Hrange.
    apply Rle_antisym; [apply HMle; exact H0 | apply (Hrange M HMin)].
  - assert (H0 : In 0 (concat (flat_pixels (map fst sample_test)))).
    { apply (@in_flat_pixels _ dim 0%Z); [left; reflexivity | vm_compute; left; reflexivity]. }
    assert (Hne : concat (flat_pixels (map fst sample_test)) <> [])
      by (intros E; rewrite E in H0; contradiction).
    destruct (rmin_list_spec Hne) as (M & HM & HMin & HMle).
    rewrite HM. f_equal. apply Rle_antisym; [apply HMle; exact H0|].
    apply in_flat_pixels_inv in HMin. destruct HMin as (t & p & Ht & Hp & ->).
    destruct Ht as [<-|[]].
    assert (Hall : forallb (fun p => (0 <=? p)%Z) (concat dim) = true)
      by (vm_compute; reflexivity).
    rewrite forallb_forall in Hall. specialize (Hall p Hp). apply Z.leb_le in Hall.
    apply (IZR_le 0). exact Hall.
  - assert (H100 : In 100 (concat (flat_pixels (map fst sample_test)))).
    { apply (@in_flat_pixels _ dim 100%Z);
        [left; reflexivity | vm_compute; right; left; reflexivity]. }
    assert (Hne : concat (flat_pixels (map fst sample_test)) <> [])
      by (intros E; rewrite E in H100; contradiction).
    destruct (rmax_list_spec Hne) as (M & HM & HMin & HMge).
    rewrite HM. f_equal. apply Rle_antisym; [|apply HMge; exact H100].
    apply in_flat_pixels_inv in HMin. destruct HMin as (t & p & Ht & Hp & ->).
    destruct Ht as [<-|[]].
    assert (Hall : forallb (fun p => (p <=? 100)%Z) (concat dim) = true)
      by (vm_compute; reflexivity).
    rewrite forallb_forall in Hall. specialize (Hall p Hp). apply Z.leb_le in Hall.
    apply (IZR_le p 100). exact Hall.
Qed.

(** Pixel (20, 0) of the training image and pixel (0, 1) of the validation
    image both hold the raw value 100. *)
Lemma sample_raw_pixels (rotate : image -> Z -> image) :
  let Xt := flat_pixels (training_images rotate sample_train) in
  let Xv := flat_pixels (map fst sample_test) in
  (0 < length Xt)%nat /\ (560 < length (nth 0 Xt []))%nat /\
  (0 < length Xv)%nat /\ (1 < length (nth 0 Xv []))%nat /\
  entry Xt 0 560 = 100 /\ entry Xv 0 1 = 100.
Proof.
  unfold entry, training_images, sample_train, sample_test.
  cbn [flat_map fst augmented app flat_pixels map nth length].
  rewrite <- !concat_map, !length_map.
  change 0 with (IZR 0). rewrite !map_nth.
  split; [lia|]. split; [vm_compute; lia|]. split; [lia|]. split; [vm_compute; lia|].
  split; f_equal; vm_compute; reflexivity.
Qed.

Lemma div_cancel (a b s : R) : s <> 0 -> a / s = b / s -> a = b.
Proof.
  intros Hs E. apply (Rmult_eq_compat_r s) in E.
  unfold Rdiv in E. rewrite !Rmult_assoc, Rinv_l in E by exact Hs. lra.
Qed.

Lemma mean_std_reused_on_validation_witness :
  let Xt := flat_pixels (training_images no_rotation sample_train) in
  let Xv := flat_pixels (map fst sample_test) in
  exists mini_t mini_v maxi_v s m y_train,
    let x_train := standardize s m (min_max_scale mini_t 255 Xt) in
    let x_test := standardize s m (min_max_scale mini_v maxi_v Xv) in
    rmin_list (concat Xt) = Ok mini_t /\
    rmin_list (concat Xv) = Ok mini_v /\ rmax_list (concat Xv) = Ok maxi_v /\
    std_mean (concat (min_max_scale mini_t 255 Xt)) = (Some s, Some m) /\ s <> 0 /\
    load_dataset no_rotation sample_train true false None =
      Ok (LoadedTrain x_train (training_labels sample_train) y_train (Some s, Some m)) /\
    load_dataset no_rotation sample_test false false (Some (Some s, Some m)) =
      Ok (LoadedTest x_test (map snd sample_test)) /\
    (forall weights biases epochs mu batch_size eval_batch_size wd,
       train no_rotation sample_train sample_test weights biases epochs false mu
         batch_size eval_batch_size wd =
       train_epochs x_train (training_labels sample_train) y_train x_test
         (map snd sample_test) (seq 0 epochs)
         weights biases mu batch_size eval_batch_size wd []) /\
    (forall i j i' j',
       (i < length Xt)%nat -> (j < length (nth i Xt []))%nat ->
       (i' < length Xv)%nat -> (j' < length (nth i' Xv []))%nat ->
       (entry (min_max_scale mini_t 255 Xt) i j
          = entry (min_max_scale mini_v maxi_v Xv) i' j' ->
        entry x_train i j = entry x_test i' j') /\
       (mini_t = mini_v -> maxi_v = 255 -> entry Xt i j = entry Xv i' j' ->
        entry x_train i j = entry x_test i' j')).
Proof.
  exact (@mean_std_reused_on_validation no_rotation no_rotation_ok
           sample_train sample_test false sample_train_ok sample_test_ok).
Defined.

Lemma min_max_scaling_per_split_witness :
  let Xt := flat_pixels (training_images no_rotation sample_train) in
  let Xv := flat_pixels (map fst sample_test) in
  exists mini_t mini_v maxi_v s m y_train,
    rmin_list (concat Xt) = Ok mini_t /\ rmax_list (concat Xt) = Ok 255 /\
    Forall (fun e => 0 <= e <= 1) (concat (min_max_scale mini_t 255 Xt)) /\
    std_mean (concat (min_max_scale mini_t 255 Xt)) = (Some s, Some m) /\
    load_dataset no_rotation sample_train true false None =
      Ok (LoadedTrain (standardize s m (min_max_scale mini_t 255 Xt))
                      (training_labels sample_train) y_train (Some s, Some m)) /\
    rmin_list (concat Xv) = Ok mini_v /\ rmax_list (concat Xv) = Ok maxi_v /\
    Forall (fun e => 0 <= e <= 1) (concat (min_max_scale mini_v maxi_v Xv)) /\
    load_dataset no_rotation sample_test false false (Some (Some s, Some m)) =
      Ok (LoadedTest (standardize s m (min_max_scale mini_v maxi_v Xv))
                     (map snd sample_test)).
Proof.
  exact (@min_max_scaling_per_split no_rotation no_rotation_ok
           sample_train sample_test false sample_train_ok sample_test_ok).
Defined.

(** What the two loads of the sample splits return, whatever the rotation. *)
Lemma sample_loads (rotate : image -> Z -> image) :
  rotate_ok rotate ->
  let Xt := flat_pixels (training_images rotate sample_train) in
  let Xv := flat_pixels (map fst sample_test) in
  exists s m y_train,
    s <> 0 /\
    load_dataset rotate sample_train true false None =
      Ok (LoadedTrain (standardize s m (min_max_scale 0 255 Xt))
                      (training_labels sample_train) y_train (Some s, Some m)) /\
    load_dataset rotate sample_test false false (Some (Some s, Some m)) =
      Ok (LoadedTest (standardize s m (min_max_scale 0 100 Xv)) (map snd sample_test)) /\
    entry (standardize s m (min_max_scale 0 255 Xt)) 0 560
      = ((100 - 0) / 255 - m) / s /\
    entry (standardize s m (min_max_scale 0 100 Xv)) 0 1
      = ((100 - 0) / 100 - m) / s.
Proof.
  intros Hrot Xt Xv.
  destruct (both_call_paths Hrot false sample_train_ok sample_test_ok)
    as (mini_t & mini_v & maxi_v & s & m & y_train & Hmin_t & _ & _ & _ & Hs
        & Hload_t & Hmin_v & Hmax_v & _ & Hload_v).
  destruct (sample_extrema Hrot) as (E1 & E2 & E3).
  rewrite E1 in Hmin_t. rewrite E2 in Hmin_v. rewrite E3 in Hmax_v.
  apply Ok_inj in Hmin_t. apply Ok_inj in Hmin_v. apply Ok_inj in Hmax_v.
  subst mini_t mini_v maxi_v.
  destruct (sample_raw_pixels rotate) as (L1 & L2 & L3 & L4 & P1 & P2).
  exists s, m, y_train.
  split; [lra|]. split; [exact Hload_t|]. split; [exact Hload_v|].
  fold Xt in L1, L2, P1. fold Xv in L3, L4, P2.
  rewrite !entry_normalized by assumption. rewrite P1, P2. split; reflexivity.
Qed.

(** The raw value 100 of the training image and of the validation image
    are standardized to different values, whatever the rotation does: the
    validation split is scaled by its own maximum, 100, the training
    split by 255. *)
Lemma same_raw_counterexample :
  training_set_ok sample_train /\ test_set_ok sample_test /\
  ~ (exists rotate, rotate_ok rotate /\
       same_raw_same_output rotate sample_train sample_test).
Proof.
  split; [exact sample_train_ok|]. split; [exact sample_test_ok|].
  intros (rotate & Hrot & Hclaim).
  destruct (sample_loads Hrot) as (s & m & y_train & Hs & Hload_t & Hload_v & Et & Ev).
  destruct (sample_raw_pixels rotate) as (L1 & L2 & L3 & L4 & P1 & P2).
  specialize (Hclaim _ _ _ _ _ _ Hload_t Hload_v 0%nat 560%nat 0%nat 1%nat).
  destruct (normalized_dims s m 0 255
              (flat_pixels (training_images rotate sample_train)) 0) as [D1 D2].
  destruct (normalized_dims s m 0 100 (flat_pixels (map fst sample_test)) 0) as [D3 D4].
  rewrite D1, D2, D3, D4, P1, P2, Et, Ev in Hclaim.
  specialize (Hclaim L1 L2 L3 L4 eq_refl).
  apply (div_cancel Hs) in Hclaim. lra.
Qed.

(** The validation data are not scaled by the training extrema 0 and 255:
    the raw value 100 is divided by 100, the maximum of the validation
    split itself. *)
Lemma training_extrema_counterexample :
  training_set_ok sample_train /\ test_set_ok sample_test /\
  ~ (exists rotate, rotate_ok rotate /\
       test_scaled_by_training_extrema rotate sample_train sample_test).
Proof.
  split; [exact sample_train_ok|]. split; [exact sample_test_ok|].
  intros (rotate & Hrot & Hclaim).
  destruct (sample_loads Hrot) as (s & m & y_train & Hs & Hload_t & Hload_v & _ & Ev).
  destruct (sample_extrema Hrot) as (E1 & _ & _).
  destruct (both_call_paths Hrot false sample_train_ok sample_test_ok)
    as (_ & _ & _ & _ & _ & _ & _ & Hmax_t & _).
  specialize (Hclaim _ _ _ _ _ _ _ _ _ Hload_t E1 Hmax_t Hload_v).
  destruct (sample_raw_pixels rotate) as (_ & _ & L3 & L4 & _ & P2).
  apply (f_equal (fun x => entry x 0 1)) in Hclaim.
  rewrite Ev in Hclaim. rewrite entry_normalized in Hclaim by assumption.
  rewrite P2 in Hclaim. apply (div_cancel Hs) in Hclaim. lra.
Qed.

(** ** The store: reading, writing, allocating *)

Lemma bindM_Ok {A B : Type} {m : M A} {k : A -> M B} {h h' : heap} {a : A} :
  m h = Ok (a, h') -> bindM m k h = k a h'.
Proof. intros E. unfold bindM. rewrite E. reflexivity. Qed.

Lemma bindM_lift {A B : Type} (o : outcome A) (k : A -> M B) (h : heap) :
  bindM (lift o) k h =
  match o with
  | Ok a => k a h
  | NonFinite => NonFinite
  | Raises => Raises
  end.
Proof. unfold bindM, lift. destruct o; reflexivity. Qed.

Lemma nth_error_grow (h fresh : heap) (l : loc) (t : tensor) :
  nth_error h l = Some t -> nth_error (h ++ fresh) l = Some t.
Proof.
  intros E. rewrite nth_error_app1; [exact E|].
  apply nth_error_Some. rewrite E. discriminate.
Qed.

Lemma nth_error_fresh (h rest : heap) (n k : nat) :
  length h = n -> nth_error (h ++ rest) (n + k)%nat = nth_error rest k.
Proof. intros <-. rewrite nth_error_app2 by lia. f_equal. lia. Qed.

Lemma update_length (l : loc) (t : tensor) (h : heap) : length (update l t h) = length h.
Proof.
  revert l. induction h as [|c h IH]; intros [|l]; simpl; try reflexivity.
  rewrite IH. reflexivity.
Qed.

Lemma nth_error_update_eq (l : loc) (t : tensor) (h : heap) :
  (l < length h)%nat -> nth_error (update l t h) l = Some t.
Proof.
  revert l. induction h as [|c h IH]; intros [|l] H; simpl in *; try lia.
  - reflexivity.
  - apply IH. lia.
Qed.

Lemma nth_error_update_neq (l l' : loc) (t : tensor) (h : heap) :
  l <> l' -> nth_error (update l t h) l' = nth_error h l'.
Proof.
  revert l l'. induction h as [|c h IH]; intros [|l] [|l'] H; simpl; try reflexivity.
  - congruence.
  - apply IH. congruence.
Qed.

Lemma update_old (h rest : heap) (l : loc) (t : tensor) :
  (l < length h)%nat -> update l t (h ++ rest) = update l t h ++ rest.
Proof.
  revert l. induction h as [|c h IH]; intros l Hl; [cbn in Hl; lia|].
  destruct l as [|l]; [reflexivity|]. cbn [app update]. rewrite IH by (cbn in Hl; lia).
  reflexivity.
Qed.

Lemma update_fresh (h rest : heap) (n k : nat) (t : tensor) :
  length h = n -> update (n + k)%nat t (h ++ rest) = h ++ update k t rest.
Proof.
  intros <-. induction h as [|c h IH]; [reflexivity|].
  cbn [length Nat.add app update]. rewrite IH. reflexivity.
Qed.

(** One step of a computation on a store [h ++ rest]: [h] holds the
    objects that existed before the call, [rest] the ones made since. *)
Lemma run_alloc {A : Type} (k : loc -> M A) (h rest : heap) (n : nat) (t : tensor) :
  length h = n ->
  bindM (alloc t) k (h ++ rest) = k (n + length rest)%nat (h ++ (rest ++ [t])).
Proof.
  intros <-. unfold bindM, alloc. rewrite length_app, app_assoc. reflexivity.
Qed.

Lemma run_alloc_first {A : Type} (k : loc -> M A) (h : heap) (t : tensor) :
  bindM (alloc t) k h = k (length h + 0)%nat (h ++ [t]).
Proof. unfold bindM, alloc. rewrite Nat.add_0_r. reflexivity. Qed.

Lemma run_load2_old {A : Type} (k : mat -> M A) (h rest : heap) (l : loc) (m : mat) :
  nth_error h l = Some (T2 m) -> bindM (load2 l) k (h ++ rest) = k m (h ++ rest).
Proof. intros E. unfold bindM, load2. rewrite (@nth_error_grow h rest l _ E). reflexivity. Qed.

Lemma run_load1_old {A : Type} (k : vec -> M A) (h rest : heap) (l : loc) (v : vec) :
  nth_error h l = Some (T1 v) -> bindM (load1 l) k (h ++ rest) = k v (h ++ rest).
Proof. intros E. unfold bindM, load1. rewrite (@nth_error_grow h rest l _ E). reflexivity. Qed.

Lemma run_load2_fresh {A : Type} (k0 : mat -> M A) (h rest : heap) (n k : nat) (m : mat) :
  length h = n -> nth_error rest k = Some (T2 m) ->
  bindM (load2 (n + k)%nat) k0 (h ++ rest) = k0 m (h ++ rest).
Proof.
  intros Hn E. unfold bindM, load2. rewrite (@nth_error_fresh h rest n k Hn), E. reflexivity.
Qed.

Lemma run_load0_fresh {A : Type} (k0 : fscalar -> M A) (h rest : heap) (n k : nat)
    (s : fscalar) :
  length h = n -> nth_error rest k = Some (T0 s) ->
  bindM (load0 (n + k)%nat) k0 (h ++ rest) = k0 s (h ++ rest).
Proof.
  intros Hn E. unfold bindM, load0. rewrite (@nth_error_fresh h rest n k Hn), E. reflexivity.
Qed.

Lemma run_loadI_fresh {A : Type} (k0 : list Z -> M A) (h rest : heap) (n k : nat)
    (v : list Z) :
  length h = n -> nth_error rest k = Some (TI v) ->
  bindM (loadI (n + k)%nat) k0 (h ++ rest) = k0 v (h ++ rest).
Proof.
  intros Hn E. unfold bindM, loadI. rewrite (@nth_error_fresh h rest n k Hn), E. reflexivity.
Qed.

Lemma run_store_fresh {A : Type} (k0 : unit -> M A) (h rest : heap) (n k : nat)
    (t : tensor) :
  length h = n -> (k < length rest)%nat ->
  bindM (store (n + k)%nat t) k0 (h ++ rest) = k0 tt (h ++ update k t rest).
Proof.
  intros Hn Hk. unfold bindM, store. rewrite length_app.
  replace (n + k <? length h + length rest)%nat with true
    by (symmetry; apply Nat.ltb_lt; lia).
  rewrite (@update_fresh h rest n k t Hn). reflexivity.
Qed.

Lemma run_store_old {A : Type} (k0 : unit -> M A) (h rest : heap) (l : loc)
    (t t0 : tensor) :
  nth_error h l = Some t0 ->
  bindM (store l t) k0 (h ++ rest) = k0 tt (update l t h ++ rest).
Proof.
  intros E. assert (Hl : (l < length h)%nat) by (apply nth_error_Some; rewrite E; discriminate).
  unfold bindM, store. rewrite length_app.
  replace (l <? length h + length rest)%nat with true
    by (symmetry; apply Nat.ltb_lt; lia).
  rewrite (@update_old h rest l t Hl). reflexivity.
Qed.

Lemma params_at_grow (h fresh : heap) (w b : loc * loc) (wv : mat * mat) (bv : vec * vec) :
  params_at h w b wv bv -> params_at (h ++ fresh) w b wv bv.
Proof.
  intros (H0 & H1 & H2 & H3).
  repeat split; apply nth_error_grow; assumption.
Qed.

(** [forward] on the store computes what [forward] computes, in six new
    objects (its four results and the pair of statistics), and leaves
    every object that existed before as it was. *)
Lemma forward_st_agrees (x : mat) (w b : loc * loc) (wv : mat * mat) (bv : vec * vec)
    (h : heap) :
  params_at h w b wv bv ->
  forward_st x w b h =
  match forward x wv bv with
  | Ok (zh, yh, z, yhat) =>
      Ok ((length h + 0, length h + 1, length h + 4, length h + 5)%nat,
          h ++ [T2 zh; T2 yh;
                T0 (fst (std_mean (concat (hidden_activate zh))));
                T0 (snd (std_mean (concat (hidden_activate zh))));
                T2 z; T2 yhat])
  | NonFinite => NonFinite
  | Raises => Raises
  end.
Proof.
  intros Hp. pose proof Hp as (H0 & H1 & H2 & H3).
  unfold forward_st, forward.
  rewrite <- (app_nil_r h) at 1.
  erewrite run_load2_old by exact H0. erewrite run_load1_old by exact H2. rewrite app_nil_r.
  rewrite bindM_lift.
  destruct (matmul_chk x (fst wv)) as [xw| |]; cbn [bind]; try reflexivity.
  rewrite bindM_lift.
  destruct (add_bias xw (fst bv)) as [zh| |]; cbn [bind]; try reflexivity.
  rewrite run_alloc_first.
  erewrite run_load2_fresh by reflexivity.
  erewrite run_alloc by reflexivity. cbn [app length].
  erewrite run_load2_fresh by reflexivity.
  erewrite run_alloc by reflexivity. cbn [app length].
  erewrite run_alloc by reflexivity. cbn [app length]. cbv zeta. cbn [fst snd].
  erewrite run_load2_fresh by reflexivity.
  erewrite run_load0_fresh by reflexivity.
  rewrite bindM_lift.
  destruct (sub_scalar (hidden_activate zh) _) as [y1| |]; cbn [bind]; try reflexivity.
  rewrite run_store_fresh by (try reflexivity; cbn; lia). cbn [update].
  erewrite run_load2_fresh by reflexivity.
  erewrite run_load0_fresh by reflexivity.
  rewrite bindM_lift.
  destruct (div_scalar y1 _) as [y2| |]; cbn [bind]; try reflexivity.
  rewrite run_store_fresh by (try reflexivity; cbn; lia). cbn [update].
  erewrite run_load2_fresh by reflexivity.
  erewrite run_load2_old by exact H1. erewrite run_load1_old by exact H3.
  rewrite bindM_lift.
  destruct (matmul_chk y2 (snd wv)) as [yw| |]; cbn [bind]; try reflexivity.
  rewrite bindM_lift.
  destruct (add_bias yw (snd bv)) as [zv| |]; cbn [bind]; try reflexivity.
  erewrite run_alloc by reflexivity. cbn [app length].
  erewrite run_load2_fresh by reflexivity.
  erewrite run_alloc by reflexivity. cbn [app length].
  reflexivity.
Qed.

(** ** Evaluation, batch by batch *)

(** The loop of [evaluate] adds up, batch by batch, the numbers of correct
    predictions and collects the cross-entropies. *)
Lemma evaluate_loop_closed (data : mat) (labels : list Z) (wv : mat * mat)
    (bv : vec * vec) (bs : nat) (starts : list nat) (tc : nat) (loss : list R) :
  evaluate_loop data labels wv bv bs starts tc loss =
    (rs <- mapM (evaluate_batch data labels wv bv bs) starts ;;
     Ok ((tc + list_sum (map fst rs))%nat, loss ++ map snd rs)).
Proof.
  revert tc loss. induction starts as [|i starts IH]; intros tc loss.
  - cbn [evaluate_loop mapM bind map list_sum]. rewrite Nat.add_0_r, app_nil_r. reflexivity.
  - cbn [evaluate_loop mapM]. unfold evaluate_batch at 1.
    destruct (forward _ wv bv) as [pd| |]; cbn [bind]; try reflexivity.
    destruct (cross_entropy_idx _ _) as [l| |]; cbn [bind]; try reflexivity.
    destruct (count_correct _ _) as [c| |]; cbn [bind]; try reflexivity.
    rewrite IH.
    destruct (mapM _ starts) as [rs| |]; cbn [bind]; try reflexivity.
    cbn [map fst snd]. rewrite <- app_assoc. cbn [app].
    do 2 f_equal. simpl. lia.
Qed.

Lemma evaluate_closed (data : mat) (labels : list Z) (wv : mat * mat)
    (bv : vec * vec) (bs : nat) (r : R * R) :
  evaluate data labels wv bv bs = Ok r ->
  (0 < bs)%nat /\ (0 < length data)%nat /\
  exists rs,
    mapM (evaluate_batch data labels wv bv bs) (range_step (length data) bs) = Ok rs /\
    rs <> [] /\
    r = (INR (list_sum (map fst rs)) / INR (length data),
         rsum (map snd rs) / INR (length rs)).
Proof.
  unfold evaluate. destruct (Nat.eqb_spec bs 0) as [E|Hbs]; [discriminate|].
  rewrite evaluate_loop_closed.
  destruct (mapM _ _) as [rs| |]; cbn [bind]; try discriminate.
  destruct (Nat.eqb_spec (length data) 0) as [E|Hlen]; [discriminate|].
  unfold collate_mean. cbn [app].
  destruct rs as [|r0 rs']; cbn [map bind]; [discriminate|].
  intros E. injection E as <-.
  split; [lia|]. split; [lia|]. exists (r0 :: rs'). split; [reflexivity|]. split.
  - discriminate.
  - cbn [length map]. rewrite length_map. reflexivity.
Qed.

Ltac eval_tests :=
  repeat match goal with
  | |- context [if ?c then _ else _] =>
      match type of c with
      | bool => let v := eval vm_compute in c in change c with v; cbv iota
      end
  end.

Lemma argmax_half : argmax [1/2; 1/2] = Ok 0%nat.
Proof.
  unfold argmax, argmax_from. destruct (Rlt_dec (1/2) (1/2)) as [L|_]; [lra | reflexivity].
Qed.

Lemma mapM_length {A B : Type} (f : A -> outcome B) (l : list A) (rs : list B) :
  mapM f l = Ok rs -> length rs = length l.
Proof.
  revert rs. induction l as [|a l IH]; intros rs; cbn [mapM].
  - intros E. injection E as <-. reflexivity.
  - destruct (f a) as [x| |]; cbn [bind]; try discriminate.
    destruct (mapM f l) as [xs| |]; cbn [bind]; try discriminate.
    intros E. injection E as <-. cbn [length]. rewrite (IH xs eq_refl). reflexivity.
Qed.

Lemma range_step_nonempty (stop step : nat) :
  (0 < stop)%nat -> (0 < step)%nat -> range_step stop step <> [].
Proof.
  intros Hstop Hstep. unfold range_step.
  assert (H : (0 < (stop + step - 1) / step)%nat) by (apply Nat.div_str_pos; lia).
  destruct ((stop + step - 1) / step)%nat; [lia | discriminate].
Qed.

(** Once every batch has been evaluated, [evaluate] returns the accuracy
    and the mean of the batch losses. *)
Lemma evaluate_from_batches (data : mat) (labels : list Z) (wv : mat * mat)
    (bv : vec * vec) (bs : nat) (rs : list (nat * R)) :
  (0 < bs)%nat -> (0 < length data)%nat ->
  mapM (evaluate_batch data labels wv bv bs) (range_step (length data) bs) = Ok rs ->
  evaluate data labels wv bv bs =
    Ok (INR (list_sum (map fst rs)) / INR (length data),
        rsum (map snd rs) / INR (length rs)).
Proof.
  intros Hbs Hlen Hrs. unfold evaluate.
  destruct (Nat.eqb_spec bs 0) as [E|_]; [lia|].
  rewrite evaluate_loop_closed, Hrs. cbn [bind app].
  destruct (Nat.eqb_spec (length data) 0) as [E|_]; [lia|].
  pose proof (mapM_length _ _ Hrs) as Hl.
  pose proof (range_step_nonempty Hlen Hbs) as Hne.
  destruct rs as [|r0 rs'];
    [destruct (range_step (length data) bs); [congruence | discriminate]|].
  unfold collate_mean. cbn [map bind length]. rewrite length_map. reflexivity.
Qed.

(** The sample network predicts class 0 for each of the three examples:
    two of the labels 0, 0, 1 are met, and the loss is [ln 2]. *)
Lemma sample_batches :
  mapM (evaluate_batch sample_x [0; 0; 1]%Z sample_w sample_b 3)
       (range_step (length sample_x) 3) = Ok [(2%nat, ln 2)].
Proof.
  change (range_step (length sample_x) 3) with [0%nat].
  cbn [mapM]. unfold evaluate_batch.
  change (slice sample_x 0 (0 + 3)) with sample_x.
  change (slice [0; 0; 1]%Z 0 (0 + 3)) with [0; 0; 1]%Z.
  rewrite sample_forward. cbn [bind snd].
  unfold cross_entropy_idx, count_correct.
  cbn [length Nat.eqb nll_terms bind mapM]. rewrite argmax_half.
  eval_tests. cbn [bind length Nat.eqb combine filter fst snd].
  eval_tests. cbn [bind length].
  unfold log_softmax. cbn [map rsum fold_right nth Z.to_nat].
  change (Pos.to_nat 1) with 1%nat. cbv iota.
  rewrite ln_two_exp_half. cbn [INR].
  do 3 f_equal. field.
Qed.

(** ** Evaluation on the store *)

Ltac lift_step Eout :=
  rewrite bindM_lift in Eout;
  match type of Eout with
  | _ = match ?o with Ok _ => _ | NonFinite => _ | Raises => _ end =>
      destruct o; cbn [bind]; try exact Eout
  end.

Lemma evaluate_loop_st_agrees (data : mat) (labels : list Z) (w b : loc * loc)
    (wv : mat * mat) (bv : vec * vec) (bs : nat) (starts : list nat) :
  forall (tc : nat) (loss : list R) (h : heap),
    params_at h w b wv bv ->
    match evaluate_loop data labels wv bv bs starts tc loss with
    | Ok r => exists fresh,
        evaluate_loop_st data labels w b bs starts tc loss h = Ok (r, h ++ fresh)
    | NonFinite => evaluate_loop_st data labels w b bs starts tc loss h = NonFinite
    | Raises => evaluate_loop_st data labels w b bs starts tc loss h = Raises
    end.
Proof.
  induction starts as [|i starts IH]; intros tc loss h Hp.
  - cbn [evaluate_loop evaluate_loop_st]. exists []. rewrite app_nil_r. reflexivity.
  - remember (evaluate_loop_st data labels w b bs (i :: starts) tc loss h) as out eqn:Eout.
    cbn [evaluate_loop_st] in Eout. cbn [evaluate_loop].
    rewrite run_alloc_first in Eout.
    erewrite run_alloc in Eout by reflexivity. cbn [app length] in Eout.
    erewrite run_load2_fresh in Eout by reflexivity.
    set (x := slice data i (i + bs)) in *. set (y := slice labels i (i + bs)) in *.
    unfold bindM at 1 in Eout.
    rewrite (forward_st_agrees x (params_at_grow [T2 x; TI y] Hp)) in Eout.
    destruct (forward x wv bv) as [[[[zh yh] z] yhat]| |]; cbn [bind]; try exact Eout.
    cbn [snd] in Eout |- *.
    rewrite <- app_assoc, length_app, <- !Nat.add_assoc in Eout.
    cbn [app length Nat.add] in Eout.
    erewrite run_load2_fresh in Eout by reflexivity.
    erewrite run_loadI_fresh in Eout by reflexivity.
    lift_step Eout.
    erewrite run_alloc in Eout by reflexivity. cbn [app length] in Eout.
    erewrite run_load2_fresh in Eout by reflexivity.
    erewrite run_loadI_fresh in Eout by reflexivity.
    lift_step Eout.
    match type of Eout with
    | _ = evaluate_loop_st _ _ _ _ _ _ ?tc' ?loss' (h ++ ?made) =>
        specialize (IH tc' loss' _ (params_at_grow made Hp));
        rewrite <- Eout in IH;
        destruct (evaluate_loop data labels wv bv bs starts tc' loss') as [r| |];
          try exact IH;
        destruct IH as [fresh IH]; exists (made ++ fresh);
        rewrite IH, app_assoc; reflexivity
    end.
Qed.

(** [evaluate] on the store returns what [evaluate] computes from the
    parameter values and only adds objects to the store. *)
Lemma evaluate_st_agrees (data : mat) (labels : list Z) (w b : loc * loc)
    (wv : mat * mat) (bv : vec * vec) (bs : nat) (h : heap) :
  params_at h w b wv bv ->
  match evaluate data labels wv bv bs with
  | Ok r => exists fresh, evaluate_st data labels w b bs h = Ok (r, h ++ fresh)
  | NonFinite => evaluate_st data labels w b bs h = NonFinite
  | Raises => evaluate_st data labels w b bs h = Raises
  end.
Proof.
  intros Hp.
  remember (evaluate_st data labels w b bs h) as out eqn:Eout.
  unfold evaluate_st in Eout. unfold evaluate.
  destruct (bs =? 0)%nat; [exact Eout|].
  pose proof (evaluate_loop_st_agrees data labels bs
                (range_step (length data) bs) 0 [] Hp) as Hloop.
  unfold bindM at 1 in Eout.
  destruct (evaluate_loop data labels wv bv bs _ 0%nat []) as [[tc loss]| |];
    cbn [bind]; try (rewrite Hloop in Eout; exact Eout).
  destruct Hloop as [fresh Hloop]. rewrite Hloop in Eout.
  destruct (length data =? 0)%nat; [exact Eout|].
  lift_step Eout.
  erewrite run_alloc in Eout by reflexivity.
  eexists. exact Eout.
Qed.

(** ** The in-place training step against its value-level form *)

Ltac after_store l t h :=
  repeat match goal with
  | H : nth_error h ?l' = Some _ |- _ =>
      let H' := fresh H in
      assert (H' : nth_error (update l t h) l' = nth_error h l')
        by (apply nth_error_update_neq; first [congruence | lia]);
      rewrite H in H'; clear H
  end.

Ltac load_old Eout :=
  match goal with
  | H : nth_error ?h0 ?l = Some (T2 _) |- _ =>
      erewrite (@run_load2_old _ _ h0 _ l) in Eout by exact H
  | H : nth_error ?h0 ?l = Some (T1 _) |- _ =>
      erewrite (@run_load1_old _ _ h0 _ l) in Eout by exact H
  end.

Ltac load_fresh Eout :=
  first [ erewrite run_load2_fresh in Eout by (first [eassumption | reflexivity])
        | erewrite run_load0_fresh in Eout by (first [eassumption | reflexivity])
        | erewrite run_loadI_fresh in Eout by (first [eassumption | reflexivity]) ].

Ltac alloc_step Eout :=
  erewrite run_alloc in Eout by (first [eassumption | reflexivity]);
  cbn [app length] in Eout.

Lemma train_batch_st_agrees (x y_true : mat) (w b : loc * loc) (wv : mat * mat)
    (bv : vec * vec) (mu : R) (bs : nat) (wd : R) (h : heap) :
  params_at h w b wv bv -> distinct_params w b ->
  match train_batch x y_true wv bv mu bs wd with
  | Ok (wv', bv', loss) =>
      exists h',
        train_batch_st x y_true w b mu bs wd h = Ok (loss, h') /\
        params_at h' w b wv' bv'
  | NonFinite => train_batch_st x y_true w b mu bs wd h = NonFinite
  | Raises => train_batch_st x y_true w b mu bs wd h = Raises
  end.
Proof.
  intros Hp (D01 & D02 & D03 & D12 & D13 & D23).
  remember (train_batch_st x y_true w b mu bs wd h) as out eqn:Eout.
  unfold train_batch_st in Eout. unfold train_batch.
  unfold bindM at 1 in Eout. rewrite (forward_st_agrees _ Hp) in Eout.
  destruct (forward x wv bv) as [[[[zh yh] z] yhat]| |]; cbn [bind]; try exact Eout.
  destruct Hp as (P0 & P1 & P2 & P3).
  assert (B0 : (fst w < length h)%nat)
    by (apply nth_error_Some; rewrite P0; discriminate).
  assert (B1 : (snd w < length h)%nat)
    by (apply nth_error_Some; rewrite P1; discriminate).
  assert (B2 : (fst b < length h)%nat)
    by (apply nth_error_Some; rewrite P2; discriminate).
  assert (B3 : (snd b < length h)%nat)
    by (apply nth_error_Some; rewrite P3; discriminate).
  cbv zeta in Eout.
  load_fresh Eout. lift_step Eout. alloc_step Eout.
  erewrite run_load2_old in Eout by exact P1. alloc_step Eout.
  erewrite run_load2_old in Eout by exact P0. alloc_step Eout.
  load_fresh Eout. lift_step Eout.
  erewrite run_load2_old in Eout by exact P1. alloc_step Eout.
  load_fresh Eout. erewrite run_load2_old in Eout by exact P1. lift_step Eout.
  load_fresh Eout. lift_step Eout. lift_step Eout. alloc_step Eout.
  load_fresh Eout. lift_step Eout.
  load_fresh Eout. lift_step Eout.
  (* w[1] += mu * g1 *)
  erewrite run_load2_old in Eout by exact P1. lift_step Eout.
  erewrite run_store_old in Eout by exact P1.
  match type of Eout with
  | context [update (snd w) ?t h] =>
      assert (Q1 : nth_error (update (snd w) t h) (snd w) = Some t)
        by (apply nth_error_update_eq; exact B1);
      after_store (snd w) t h; clear P1;
      assert (L1 : length (update (snd w) t h) = length h) by apply update_length;
      set (h1 := update (snd w) t h) in *
  end.
  (* w[1] += mu * w_1_copy *)
  erewrite run_load2_old in Eout by exact Q1. load_fresh Eout. lift_step Eout.
  erewrite run_store_old in Eout by exact Q1.
  match type of Eout with
  | context [update (snd w) ?t h1] =>
      assert (R1 : nth_error (update (snd w) t h1) (snd w) = Some t)
        by (apply nth_error_update_eq; lia);
      after_store (snd w) t h1; clear Q1;
      assert (L2 : length (update (snd w) t h1) = length h)
        by (rewrite update_length; exact L1);
      set (h2 := update (snd w) t h1) in *
  end.
  (* b[1] += mu * error.mean(axis=0) *)
  match goal with Hb : nth_error h2 (snd b) = Some _ |- _ =>
    erewrite run_load1_old in Eout by exact Hb; lift_step Eout;
    erewrite run_store_old in Eout by exact Hb;
    match type of Eout with
    | context [update (snd b) ?t h2] =>
        assert (S3 : nth_error (update (snd b) t h2) (snd b) = Some t)
          by (apply nth_error_update_eq; lia);
        after_store (snd b) t h2; clear Hb;
        assert (L3 : length (update (snd b) t h2) = length h)
          by (rewrite update_length; exact L2);
        set (h3 := update (snd b) t h2) in *
    end
  end.
  load_fresh Eout. lift_step Eout. lift_step Eout.
  (* w[0] += mu * g0 *)
  match goal with Hw : nth_error h3 (fst w) = Some _ |- _ =>
    erewrite run_load2_old in Eout by exact Hw; lift_step Eout;
    erewrite run_store_old in Eout by exact Hw;
    match type of Eout with
    | context [update (fst w) ?t h3] =>
        assert (T0' : nth_error (update (fst w) t h3) (fst w) = Some t)
          by (apply nth_error_update_eq; lia);
        after_store (fst w) t h3; clear Hw;
        assert (L4 : length (update (fst w) t h3) = length h)
          by (rewrite update_length; exact L3);
        set (h4 := update (fst w) t h3) in *
    end
  end.
  (* w[0] += mu * w_0_copy *)
  erewrite run_load2_old in Eout by exact T0'. load_fresh Eout. lift_step Eout.
  erewrite run_store_old in Eout by exact T0'.
  match type of Eout with
  | context [update (fst w) ?t h4] =>
      assert (U0 : nth_error (update (fst w) t h4) (fst w) = Some t)
        by (apply nth_error_update_eq; lia);
      after_store (fst w) t h4; clear T0';
      assert (L5 : length (update (fst w) t h4) = length h)
        by (rewrite update_length; exact L4);
      set (h5 := update (fst w) t h4) in *
  end.
  (* b[0] += mu * error_h.mean(axis=0) *)
  match goal with Hb : nth_error h5 (fst b) = Some _ |- _ =>
    erewrite run_load1_old in Eout by exact Hb; lift_step Eout;
    erewrite run_store_old in Eout by exact Hb;
    match type of Eout with
    | context [update (fst b) ?t h5] =>
        assert (V2 : nth_error (update (fst b) t h5) (fst b) = Some t)
          by (apply nth_error_update_eq; lia);
        after_store (fst b) t h5; clear Hb;
        set (h6 := update (fst b) t h5) in *
    end
  end.
  eexists. split; [exact Eout|].
  unfold params_at. cbn [fst snd]. repeat split; apply nth_error_grow; assumption.
Qed.

(** ** Softmax rows *)

Lemma rsum_map_scale (k : R) (v : vec) : rsum (map (fun e => e * k) v) = rsum v * k.
Proof.
  induction v as [|e v IH]; cbn [map]; [unfold rsum; simpl; lra|].
  rewrite !rsum_cons, IH. lra.
Qed.

Lemma rsum_map_div (k : R) (v : vec) : rsum (map (fun e => e / k) v) = rsum v / k.
Proof. unfold Rdiv. apply rsum_map_scale. Qed.

Lemma rsum_exp_pos (r : vec) : r <> [] -> 0 < rsum (map exp r).
Proof.
  destruct r as [|e r]; [congruence|]. intros _. cbn [map]. rewrite rsum_cons.
  assert (H : 0 <= rsum (map exp r)).
  { apply rsum_nonneg. apply Forall_map. apply Forall_forall. intros v _.
    left. apply exp_pos. }
  pose proof (exp_pos e). lra.
Qed.

Lemma softmax_row_length (r : vec) : length (softmax_row r) = length r.
Proof. unfold softmax_row. rewrite !length_map. reflexivity. Qed.

Lemma softmax_row_sum (r : vec) : r <> [] -> rsum (softmax_row r) = 1.
Proof.
  intros Hr. unfold softmax_row. rewrite rsum_map_div.
  pose proof (rsum_exp_pos Hr). field. lra.
Qed.

Lemma softmax_row_entry (r : vec) (j : nat) :
  (j < length r)%nat ->
  nth j (softmax_row r) 0 = exp (nth j r 0) / rsum (map exp r).
Proof.
  intros Hj. unfold softmax_row.
  rewrite (nth_map_lt (fun v => v / rsum (map exp r)) (map exp r) 0 0)
    by (rewrite length_map; exact Hj).
  rewrite (nth_map_lt exp r 0 0) by exact Hj. reflexivity.
Qed.

Lemma softmax_row_range (r : vec) : Forall (fun p => 0 < p <= 1) (softmax_row r).
Proof.
  destruct r as [|e0 r0] eqn:Er; [constructor|]. rewrite <- Er.
  assert (Hr : r <> []) by (rewrite Er; discriminate).
  pose proof (rsum_exp_pos Hr) as Hs.
  unfold softmax_row. apply Forall_map. apply Forall_forall. intros v Hv.
  assert (Hv0 : 0 < v).
  { apply in_map_iff in Hv. destruct Hv as (u & <- & _). apply exp_pos. }
  assert (Hle : v <= rsum (map exp r)).
  { apply rsum_ge_term; [|exact Hv]. apply Forall_map. apply Forall_forall.
    intros u _. left. apply exp_pos. }
  split.
  - apply Rdiv_lt_0_compat; assumption.
  - apply Rmult_le_reg_r with (r := rsum (map exp r)); [exact Hs|].
    unfold Rdiv. rewrite Rmult_assoc, Rinv_l by lra. lra.
Qed.




(** ** What a finished forward pass went through *)

Lemma no_entries_concat (t : mat) : no_entries t = true <-> concat t = [].
Proof.
  induction t as [|r t IH]; [split; reflexivity|].
  cbn [no_entries forallb concat]. fold (no_entries t).
  destruct r as [|e r]; cbn [app andb].
  - exact IH.
  - split; discriminate.
Qed.

Lemma forward_inv (x : mat) (w : mat * mat) (b : vec * vec) (z_h y_h_hat z y_hat : mat) :
  forward x w b = Ok (z_h, y_h_hat, z, y_hat) ->
  hidden_pre_activation x w b = Ok z_h /\
  (concat (hidden_activate z_h) = [] -> y_h_hat = hidden_activate z_h) /\
  (concat (hidden_activate z_h) <> [] ->
   exists s m,
     std_mean (concat (hidden_activate z_h)) = (Some s, Some m) /\ s <> 0 /\
     y_h_hat = standardize s m (hidden_activate z_h)) /\
  (yw <- matmul_chk y_h_hat (snd w) ;; add_bias yw (snd b)) = Ok z /\
  y_hat = activate z.
Proof.
  intros Hfw. destruct (forward_output_layer _ _ _ Hfw) as [Hz Hy].
  revert Hfw. unfold forward, hidden_pre_activation.
  destruct (matmul_chk x (fst w)) as [xw| |]; cbn [bind]; try discriminate.
  destruct (add_bias xw (fst b)) as [pre| |]; cbn [bind]; try discriminate.
  set (a := hidden_activate pre).
  destruct (sub_scalar a _) as [a1| |] eqn:E1; cbn [bind]; try discriminate.
  destruct (div_scalar a1 _) as [a2| |] eqn:E2; cbn [bind]; try discriminate.
  destruct (matmul_chk a2 (snd w)) as [yw| |]; cbn [bind]; try discriminate.
  destruct (add_bias yw (snd b)) as [z'| |]; cbn [bind]; try discriminate.
  intros E. injection E as <- <- <- <-. fold a.
  split; [reflexivity|]. split; [|split; [|split; assumption]].
  - intros Hnil. apply no_entries_concat in Hnil.
    unfold sub_scalar in E1. unfold div_scalar in E2.
    destruct (snd (std_mean (concat a))) as [m|].
    + injection E1 as <-.
      assert (Hn : no_entries (map (map (fun v => v - m)) a) = true).
      { apply no_entries_concat. rewrite concat_map_map.
        apply no_entries_concat in Hnil. rewrite Hnil. reflexivity. }
      rewrite Hn in E2.
      assert (Ha : map (map (fun v => v - m)) a = a).
      { clear - Hnil. induction a as [|r a IH]; [reflexivity|].
        cbn [no_entries forallb] in Hnil. destruct r; [|discriminate].
        cbn [map]. f_equal. apply IH. exact Hnil. }
      rewrite Ha in E2.
      destruct (fst (std_mean (concat a))) as [s|].
      * destruct (Req_dec_T s 0); [congruence|].
        injection E2 as <-.
        clear - Hnil. induction a as [|r a IH]; [reflexivity|].
        cbn [no_entries forallb] in Hnil. destruct r; [|discriminate].
        cbn [map]. f_equal. apply IH. exact Hnil.
      * congruence.
    + rewrite Hnil in E1. injection E1 as <-. rewrite Hnil in E2.
      destruct (fst (std_mean (concat a))) as [s|].
      * destruct (Req_dec_T s 0); [congruence|].
        injection E2 as <-.
        clear - Hnil. induction a as [|r a IH]; [reflexivity|].
        cbn [no_entries forallb] in Hnil. destruct r; [|discriminate].
        cbn [map]. f_equal. apply IH. exact Hnil.
      * congruence.
  - intros Hne. pose proof (no_entries_false Hne) as Hn.
    unfold sub_scalar in E1.
    destruct (std_mean (concat a)) as [[s|] [m|]]; cbn [fst snd] in *;
      try (rewrite Hn in E1; discriminate).
    + injection E1 as <-. unfold div_scalar in E2.
      pose proof (no_entries_false (concat_map_map_nonempty (fun v => v - m) Hne)) as Hn1.
      destruct (Req_dec_T s 0) as [E0|Hs]; [rewrite Hn1 in E2; discriminate|].
      injection E2 as <-. exists s, m. split; [reflexivity|]. split; [exact Hs|reflexivity].
    + injection E1 as <-. unfold div_scalar in E2.
      pose proof (no_entries_false (concat_map_map_nonempty (fun v => v - m) Hne)) as Hn1.
      rewrite Hn1 in E2. discriminate.
Qed.

(** ** Mean and standard deviation after a standardisation *)

Lemma rsum_map_sub (m : R) (v : vec) :
  rsum (map (fun e => e - m) v) = rsum v - INR (length v) * m.
Proof.
  induction v as [|e v IH]; [cbn [map length INR rsum fold_right]; lra|].
  cbn [map]. rewrite !rsum_cons, IH. cbn [length]. rewrite S_INR. lra.
Qed.

Lemma std_mean_inv (v : vec) (s m : R) :
  std_mean v = (Some s, Some m) ->
  (2 <= length v)%nat /\
  m = rsum v / INR (length v) /\
  s = sqrt (rsum (map (fun x => (x - m) * (x - m)) v) / INR (length v - 1)).
Proof.
  unfold std_mean. destruct v as [|a [|c v']]; cbn [length]; try discriminate.
  intros E. injection E as Es Em. split; [lia|]. split; [symmetry; exact Em|].
  rewrite <- Es, <- Em. do 3 f_equal.
Qed.

Lemma standardize_stats (A : mat) (s m : R) :
  std_mean (concat A) = (Some s, Some m) -> s <> 0 ->
  rsum (concat (standardize s m A)) = 0 /\
  sum_sq (standardize s m A) = INR (length (concat A)) - 1.
Proof.
  intros Hsm Hs. destruct (std_mean_inv _ Hsm) as (Hlen & Hm & Hsq).
  set (v := concat A) in *. set (n := length v) in *.
  assert (Hn : INR n <> 0) by (apply not_0_INR; lia).
  assert (Hn1 : 0 < INR (n - 1)) by (apply lt_0_INR; lia).
  set (q := rsum (map (fun x => (x - m) * (x - m)) v)) in *.
  assert (Hq : 0 <= q).
  { apply rsum_nonneg. apply Forall_map. apply Forall_forall. intros e _.
    cbv beta. generalize (e - m). intros t. nra. }
  assert (Hss : s * s = q / INR (n - 1)).
  { rewrite Hsq. apply sqrt_sqrt. apply Rmult_le_pos; [exact Hq|].
    left. apply Rinv_0_lt_compat. exact Hn1. }
  assert (Hc : concat (standardize s m A) = map (fun e => e / s) (map (fun e => e - m) v)).
  { unfold standardize. rewrite !concat_map_map. reflexivity. }
  split.
  - rewrite Hc, rsum_map_div, rsum_map_sub. fold n.
    replace (rsum v - INR n * m) with 0; [unfold Rdiv; ring|].
    rewrite Hm. field. exact Hn.
  - unfold sum_sq. rewrite Hc, !map_map.
    assert (E : map (fun x => (x - m) / s * ((x - m) / s)) v =
                map (fun e => e / (s * s)) (map (fun x => (x - m) * (x - m)) v)).
    { rewrite map_map. apply map_ext. intros e. field. exact Hs. }
    rewrite E, rsum_map_div. fold q. rewrite Hss.
    replace (INR n - 1) with (INR (n - 1)) by (rewrite minus_INR by lia; reflexivity).
    assert (Hq0 : q <> 0).
    { intros E0. apply Hs. rewrite Hsq, E0. unfold Rdiv. rewrite Rmult_0_l.
      apply sqrt_0. }
    field. split; lra.
Qed.

Lemma std_mean_standardized (v : vec) :
  (2 <= length v)%nat -> rsum v = 0 ->
  rsum (map (fun x => x * x) v) = INR (length v) - 1 ->
  std_mean v = (Some 1, Some 0).
Proof.
  intros Hlen Hsum Hsq. unfold std_mean.
  destruct v as [|a [|c v']]; cbn [length] in *; try lia.
  set (l := a :: c :: v') in *. rewrite Hsum.
  assert (Hm : 0 / INR (S (S (length v'))) = 0) by (unfold Rdiv; ring).
  rewrite Hm. do 2 f_equal.
  assert (E : map (fun x => (x - 0) * (x - 0)) l = map (fun x => x * x) l)
    by (apply map_ext; intros e; ring).
  rewrite E, Hsq. rewrite (S_INR (S (length v'))).
  replace (INR (S (length v')) + 1 - 1) with (INR (S (length v'))) by ring.
  unfold Rdiv. rewrite Rinv_r by apply INR_S_neq_0. apply sqrt_1.
Qed.

Lemma standardize_std_mean (A : mat) (s m : R) :
  std_mean (concat A) = (Some s, Some m) -> s <> 0 ->
  std_mean (concat (standardize s m A)) = (Some 1, Some 0).
Proof.
  intros Hsm Hs. destruct (standardize_stats _ Hsm Hs) as [H1 H2].
  destruct (std_mean_inv _ Hsm) as (Hlen & _).
  assert (Hn : length (concat (standardize s m A)) = length (concat A)).
  { unfold standardize. rewrite !concat_map_map, !length_map. reflexivity. }
  apply std_mean_standardized.
  - rewrite Hn. exact Hlen.
  - exact H1.
  - rewrite Hn. exact H2.
Qed.

(** X2: the hidden activations a forward pass returns are standardised over
    the whole batch: [torch.std_mean] of them is (1, 0).  A batch with
    hidden activations has at least two of them. *)
Theorem forward_standardizes_hidden (x : mat) (w : mat * mat) (b : vec * vec)
    (z_h y_h_hat z y_hat : mat) :
  forward x w b = Ok (z_h, y_h_hat, z, y_hat) ->
  concat y_h_hat <> [] ->
  (2 <= length (concat y_h_hat))%nat /\
  std_mean (concat y_h_hat) = (Some 1, Some 0).
Proof.
  intros Hfw Hne.
  destruct (forward_inv _ _ _ Hfw) as (_ & Hnil & Hstd & _).
  destruct (list_eq_dec Req_dec_T (concat (hidden_activate z_h)) []) as [E|E].
  { rewrite (Hnil E) in Hne. contradiction. }
  destruct (Hstd E) as (s & m & Hsm & Hs & Hy).
  destruct (std_mean_inv _ Hsm) as (Hlen & _).
  rewrite Hy. split.
  - unfold standardize. rewrite !concat_map_map, !length_map. exact Hlen.
  - apply standardize_std_mean; assumption.
Qed.

Lemma forward_standardizes_hidden_witness :
  let y_h_hat := [[-1]; [0]; [1]] in
  (2 <= length (concat y_h_hat))%nat /\
  std_mean (concat y_h_hat) = (Some 1, Some 0).
Proof.
  apply (@forward_standardizes_hidden sample_x sample_w sample_b
           [[0]; [1]; [2]] [[-1]; [0]; [1]] [[0; 0]; [0; 0]; [0; 0]]
           [[1/2; 1/2]; [1/2; 1/2]; [1/2; 1/2]] sample_forward).
  discriminate.
Defined.

(** ** Sums over rows and columns *)

Lemma rsum_app (a b : vec) : rsum (a ++ b) = rsum a + rsum b.
Proof.
  induction a as [|e a IH]; [unfold rsum at 2; cbn [app fold_right]; ring|].
  cbn [app]. rewrite !rsum_cons, IH. ring.
Qed.

Lemma rsum_map_plus {A : Type} (f g : A -> R) (l : list A) :
  rsum (map (fun a => f a + g a) l) = rsum (map f l) + rsum (map g l).
Proof.
  induction l as [|a l IH]; [unfold rsum; cbn [map fold_right]; ring|].
  cbn [map]. rewrite !rsum_cons, IH. ring.
Qed.

Lemma rsum_map_mult_l {A : Type} (k : R) (f : A -> R) (l : list A) :
  rsum (map (fun a => k * f a) l) = k * rsum (map f l).
Proof.
  induction l as [|a l IH]; [unfold rsum; cbn [map fold_right]; ring|].
  cbn [map]. rewrite !rsum_cons, IH. ring.
Qed.

Lemma rsum_map_ext_in {A : Type} (f g : A -> R) (l : list A) :
  (forall a, In a l -> f a = g a) -> rsum (map f l) = rsum (map g l).
Proof. intros H. f_equal. apply map_ext_in. exact H. Qed.

Lemma rsum_vscale (k : R) (v : vec) : rsum (vscale k v) = k * rsum v.
Proof.
  unfold vscale. rewrite <- (map_id v) at 2.
  rewrite <- (rsum_map_mult_l k (fun e => e) v). reflexivity.
Qed.

Lemma rsum_vadd (a b : vec) :
  length a = length b -> rsum (vadd a b) = rsum a + rsum b.
Proof.
  unfold vadd. revert b. induction a as [|e a IH]; intros [|f b] H; try discriminate.
  - unfold rsum. cbn. ring.
  - cbn [zip_with]. rewrite !rsum_cons, IH by (cbn in H; lia). ring.
Qed.

Lemma rsum_zip_minus (a b : vec) :
  length a = length b -> rsum (zip_with Rminus a b) = rsum a - rsum b.
Proof.
  revert b. induction a as [|e a IH]; intros [|f b] H; try discriminate.
  - unfold rsum. cbn. ring.
  - cbn [zip_with]. rewrite !rsum_cons, IH by (cbn in H; lia). ring.
Qed.

(** The sum of a vector, entry by entry. *)
Lemma rsum_by_index (v : vec) :
  rsum v = rsum (map (fun j => nth j v 0) (seq 0 (length v))).
Proof.
  induction v as [|e v IH]; [reflexivity|].
  cbn [length seq map nth]. rewrite !rsum_cons. f_equal.
  rewrite <- seq_shift, map_map. exact IH.
Qed.

Lemma colsum_cons (r : vec) (m : mat) (j : nat) :
  colsum (r :: m) j = nth j r 0 + colsum m j.
Proof. unfold colsum, column. cbn [map]. apply rsum_cons. Qed.

(** The column sums of a matrix add up to the sum of all its entries. *)
Lemma rsum_colsums (c : nat) (m : mat) :
  Forall (fun row => length row = c) m ->
  rsum (map (colsum m) (seq 0 c)) = rsum (concat m).
Proof.
  induction 1 as [|r m Hr _ IH].
  - cbn [concat]. unfold colsum, column. cbn [map].
    rewrite (rsum_map_ext_in _ (fun _ => 0 * 0)) by (intros; unfold rsum; cbn; ring).
    rewrite rsum_map_mult_l. unfold rsum at 2. cbn. ring.
  - cbn [concat]. rewrite rsum_app, <- IH.
    rewrite (rsum_map_ext_in _ (fun j => nth j r 0 + colsum m j))
      by (intros; apply colsum_cons).
    rewrite rsum_map_plus. f_equal. rewrite <- Hr. symmetry. apply rsum_by_index.
Qed.

(** The sum of a column, row by row. *)
Lemma colsum_by_index (m : mat) (j : nat) :
  colsum m j = rsum (map (fun i => entry m i j) (seq 0 (length m))).
Proof.
  induction m as [|r m IH]; [reflexivity|].
  rewrite colsum_cons. cbn [length seq map]. rewrite rsum_cons.
  unfold entry at 1. cbn [nth]. f_equal.
  rewrite <- seq_shift, map_map. exact IH.
Qed.

Lemma rsum_row_by_index (c : nat) (m : mat) (i : nat) :
  length (nth i m []) = c ->
  rsum (nth i m []) = rsum (map (entry m i) (seq 0 c)).
Proof. intros <-. rewrite (rsum_by_index (nth i m [])) at 1. reflexivity. Qed.

(** The rows of a difference of two tensors whose rows sum to one sum to
    zero. *)
Lemma rsum_concat_error (t p : mat) :
  shape_of t = shape_of p ->
  Forall (fun r => rsum r = 1) t -> Forall (fun r => rsum r = 1) p ->
  rsum (concat (zip_with (zip_with Rminus) t p)) = 0.
Proof.
  revert p. induction t as [|a t IH]; intros [|c p] Hs Ht Hp;
    try discriminate; [reflexivity|].
  cbn [shape_of map] in Hs. injection Hs as Hl Hs.
  inversion Ht as [|? ? Ha Ht']; subst. inversion Hp as [|? ? Hc Hp']; subst.
  cbn [zip_with concat]. rewrite rsum_app, rsum_zip_minus by exact Hl.
  rewrite (IH p Hs Ht' Hp'), Ha, Hc. ring.
Qed.

Lemma activate_row_sums (r c : nat) (z : mat) :
  shape r c z -> (0 < c)%nat -> Forall (fun row => rsum row = 1) (activate z).
Proof.
  intros [_ Hz] Hc. unfold activate. apply Forall_map.
  eapply Forall_impl; [|exact Hz]. intros row Hrow. apply softmax_row_sum.
  intros E. rewrite E in Hrow. cbn in Hrow. lia.
Qed.

Section TrainingInvariants.

Variables (B D H O : nat) (x y_true : mat) (w : mat * mat) (b : vec * vec).
Variables (mu wd : R) (z_h y_h_hat z y_hat : mat).

Hypothesis Hnet : network_shape D H O w b.
Hypothesis Hx : shape B D x.
Hypothesis Hy : shape B O y_true.
Hypothesis HB : (0 < B)%nat.
Hypothesis Hfw : forward x w b = Ok (z_h, y_h_hat, z, y_hat).

Let error := zip_with (zip_with Rminus) y_true y_hat.

(** The hidden activations of the batch add up to zero. *)
Lemma hidden_colsums_zero : rsum (map (colsum y_h_hat) (seq 0 H)) = 0.
Proof.
  destruct (forward_shapes Hnet Hx Hfw) as (_ & Hyh & _ & _).
  rewrite (rsum_colsums (proj2 Hyh)).
  assert (Hne : concat y_h_hat <> []).
  { intros E. pose proof (shape_concat_length Hyh) as Hl. rewrite E in Hl.
    destruct Hnet as (_ & _ & _ & _ & _ & HH & _). cbn in Hl. nia. }
  destruct (forward_inv _ _ _ Hfw) as (_ & Hnil & Hstd & _).
  destruct (list_eq_dec Req_dec_T (concat (hidden_activate z_h)) []) as [E|E].
  { rewrite (Hnil E) in Hne. contradiction. }
  destruct (Hstd E) as (s & m & Hsm & Hs & ->).
  apply (standardize_stats _ Hsm Hs).
Qed.

(** With label rows that sum to one, the batch means of the errors add
    up to zero. *)
Lemma error_mean_sum_zero :
  Forall (fun r => rsum r = 1) y_true ->
  rsum (map (colmean error) (seq 0 O)) = 0.
Proof.
  intros Hlab.
  destruct (forward_shapes Hnet Hx Hfw) as (_ & _ & Hz & Hyhat).
  destruct (forward_output_layer _ _ _ Hfw) as [_ Eyhat].
  assert (HO : (0 < O)%nat) by (destruct Hnet as (_ & _ & _ & _ & _ & _ & HO); exact HO).
  assert (Herr : shape B O error) by (apply shape_zip_with; assumption).
  unfold colmean. rewrite (proj1 Herr).
  rewrite (rsum_map_ext_in _ (fun o => / INR B * colsum error o))
    by (intros; unfold Rdiv; ring).
  rewrite rsum_map_mult_l, (rsum_colsums (proj2 Herr)).
  unfold error. rewrite rsum_concat_error; [ring | | exact Hlab |].
  - rewrite (shape_of_shape Hy), (shape_of_shape Hyhat). reflexivity.
  - rewrite Eyhat. apply (activate_row_sums Hz HO).
Qed.

Lemma train_batch_result_shapes (w0' w1' : mat) (b0' b1' : vec) (loss : R) :
  train_batch x y_true w b mu B wd = Ok ((w0', w1'), (b0', b1'), loss) ->
  shape D H w0' /\ shape H O w1' /\ length b0' = H /\ length b1' = O.
Proof.
  destruct (train_batch_Ok mu wd Hnet Hx Hy HB Hfw) as (Herr & Herrh & ce & _ & E).
  rewrite E. intros E'. injection E' as <- <- <- <- _.
  destruct Hnet as (Hw0 & Hb0 & Hw1 & Hb1 & HD & HH & HO).
  destruct (forward_shapes Hnet Hx Hfw) as (_ & Hyh & _ & _).
  assert (G0 : shape D H (matmul (transpose x)
             (repeat (map (fun j => colmean
                (zip_with (zip_with Rmult)
                   (matmul (zip_with (zip_with Rminus) y_true y_hat) (transpose (snd w)))
                   (map (map positive01) z_h)) j) (seq 0 H)) B))).
  { pose proof (shape_matmul
        (repeat (map (fun j => colmean
                (zip_with (zip_with Rmult)
                   (matmul (zip_with (zip_with Rminus) y_true y_hat) (transpose (snd w)))
                   (map (map positive01) z_h)) j) (seq 0 H)) B)
        (shape_transpose Hx HB)) as Hm.
    destruct B as [|B']; [lia|]. cbn [repeat width] in Hm.
    rewrite length_map, length_seq in Hm. exact Hm. }
  assert (G1 : shape H O (matmul (transpose y_h_hat)
             (repeat (map (fun j => colmean (zip_with (zip_with Rminus) y_true y_hat) j)
                          (seq 0 O)) B))).
  { pose proof (shape_matmul
        (repeat (map (fun j => colmean (zip_with (zip_with Rminus) y_true y_hat) j)
                     (seq 0 O)) B)
        (shape_transpose Hyh HB)) as Hm.
    destruct B as [|B']; [lia|]. cbn [repeat width] in Hm.
    rewrite length_map, length_seq in Hm. exact Hm. }
  split; [|split; [|split]].
  - apply shape_zip_vadd; [apply shape_zip_vadd; [exact Hw0|]|];
      repeat apply shape_mscale; assumption.
  - apply shape_zip_vadd; [apply shape_zip_vadd; [exact Hw1|]|];
      repeat apply shape_mscale; assumption.
  - unfold vadd, vscale. rewrite zip_with_length, !length_map, length_seq. lia.
  - unfold vadd, vscale. rewrite zip_with_length, !length_map, length_seq. lia.
Qed.

(** X5: a training step moves the output biases along a direction whose
    entries add up to zero.  With label rows that sum to one (one-hot
    labels), the sum of the output biases is the same before and after the
    step, and the sum of the weights leaving a hidden unit changes by the
    weight decay alone. *)
Theorem train_batch_keeps_output_bias_sum :
  Forall (fun r => rsum r = 1) y_true ->
  exists w0' w1' b0' b1' loss,
    train_batch x y_true w b mu B wd = Ok ((w0', w1'), (b0', b1'), loss) /\
    rsum b1' = rsum (snd b) /\
    forall h, (h < H)%nat ->
      rsum (nth h w1' []) = (1 - 2 * mu * wd) * rsum (nth h (snd w) []).
Proof.
  intros Hlab.
  destruct (train_batch_entries mu wd Hnet Hx Hy HB Hfw)
    as (w0' & w1' & b0' & b1' & ce & _ & E & _ & Hw1 & _ & Hb1).
  destruct (train_batch_result_shapes E) as (_ & Sw1 & _ & Lb1).
  pose proof (error_mean_sum_zero Hlab) as Hzero. fold error in Hw1, Hb1.
  destruct Hnet as (_ & _ & Sw & Lb & _ & _ & _).
  exists w0', w1', b0', b1', (ce + wd * sum_sq (snd w)).
  split; [exact E|]. split.
  - rewrite (rsum_by_index b1'), (rsum_by_index (snd b)), Lb1, Lb.
    rewrite (rsum_map_ext_in _ (fun o => nth o (snd b) 0 + mu * colmean error o))
      by (intros o Ho; apply Hb1; apply in_seq in Ho; lia).
    rewrite rsum_map_plus, rsum_map_mult_l, Hzero. ring.
  - intros h Hh.
    rewrite (rsum_row_by_index w1' h (shape_nth_row Sw1 Hh)).
    rewrite (rsum_row_by_index (snd w) h (shape_nth_row Sw Hh)).
    rewrite (rsum_map_ext_in _
               (fun o => (1 - 2 * mu * wd) * entry (snd w) h o
                         + (mu * colsum y_h_hat h) * colmean error o)).
    + rewrite rsum_map_plus, !rsum_map_mult_l, Hzero. ring.
    + intros o Ho. apply in_seq in Ho. rewrite (Hw1 h o Hh) by lia. ring.
Qed.

(** X6: whatever the labels, the sum of the weights entering an output
    unit changes by the weight decay alone: the gradient term of a column
    of [w[1]] is the batch-mean error times the hidden activations summed
    over the batch, and these add up to zero after the standardisation. *)
Theorem train_batch_output_weight_column_sums :
  exists w0' w1' b' loss,
    train_batch x y_true w b mu B wd = Ok ((w0', w1'), b', loss) /\
    forall o, (o < O)%nat -> colsum w1' o = (1 - 2 * mu * wd) * colsum (snd w) o.
Proof.
  destruct (train_batch_entries mu wd Hnet Hx Hy HB Hfw)
    as (w0' & w1' & b0' & b1' & ce & _ & E & _ & Hw1 & _ & _).
  destruct (train_batch_result_shapes E) as (_ & Sw1 & _ & _).
  pose proof hidden_colsums_zero as Hzero. fold error in Hw1.
  destruct Hnet as (_ & _ & Sw & _ & _ & _ & _).
  exists w0', w1', (b0', b1'), (ce + wd * sum_sq (snd w)).
  split; [exact E|]. intros o Ho.
  rewrite (colsum_by_index w1' o), (colsum_by_index (snd w) o).
  rewrite (proj1 Sw1), (proj1 Sw).
  rewrite (rsum_map_ext_in _
             (fun h => (1 - 2 * mu * wd) * entry (snd w) h o
                       + (mu * colmean error o) * colsum y_h_hat h)).
  - rewrite rsum_map_plus, !rsum_map_mult_l, Hzero. ring.
  - intros h Hh. apply in_seq in Hh. rewrite (Hw1 h o) by lia. ring.
Qed.

End TrainingInvariants.

Lemma train_batch_keeps_output_bias_sum_witness :
  exists w0' w1' b0' b1' loss,
    train_batch sample_x sample_y sample_w sample_b 1 3 (1/100)
      = Ok ((w0', w1'), (b0', b1'), loss) /\
    rsum b1' = rsum (snd sample_b) /\
    forall h, (h < 1)%nat ->
      rsum (nth h w1' []) = (1 - 2 * 1 * (1/100)) * rsum (nth h (snd sample_w) []).
Proof.
  destruct sample_shapes as (Hnet & Hx & Hy).
  apply (@train_batch_keeps_output_bias_sum 3 1 1 2 sample_x sample_y sample_w sample_b
           1 (1/100) _ _ _ _ Hnet Hx Hy (Nat.lt_0_succ 2) sample_forward).
  repeat constructor; unfold rsum; cbn [fold_right]; lra.
Defined.

Lemma sample_shapes2 :
  network_shape 1 2 2 sample_w2 sample_b2 /\ shape 2 1 sample_x2 /\ shape 2 2 sample_y2.
Proof.
  unfold network_shape, shape, sample_w2, sample_b2, sample_x2, sample_y2. simpl.
  repeat split; repeat constructor.
Qed.

(** Two hidden units: the activations 0, 0, 0 and 2 of the batch become
    -1/2, -1/2, -1/2 and 3/2. *)
Lemma sample_forward2 :
  forward sample_x2 sample_w2 sample_b2 =
  Ok ([[0; 0]; [0; 2]], [[-1/2; -1/2]; [-1/2; 3/2]], [[-1/2; -1/2]; [-1/2; 3/2]],
      activate [[-1/2; -1/2]; [-1/2; 3/2]]).
Proof.
  unfold sample_x2, sample_w2, sample_b2.
  assert (Hpre : hidden_pre_activation [[0]; [1]] ([[0; 2]], [[1; 0]; [0; 1]])
                   ([0; 0], [0; 0]) = Ok [[0; 0]; [0; 2]]).
  { eval_layer. f_equal. list_eq; lra. }
  assert (Ha : hidden_activate [[0; 0]; [0; 2]] = [[0; 0]; [0; 2]]).
  { cbv [hidden_activate map]. list_eq; apply Rmax0_nonneg; lra. }
  assert (Hsm : std_mean (concat [[0; 0]; [0; 2]]) = (Some 1, Some (1/2))).
  { cbv [concat app std_mean length rsum fold_right map INR].
    f_equal; f_equal; [apply sqrt_of_square; lra | lra]. }
  rewrite (forward_stages (z := [[-1/2; -1/2]; [-1/2; 3/2]]) _ _ _ Hpre Ha Hsm).
  - f_equal. f_equal. f_equal. f_equal. cbv [map]. list_eq; lra.
  - lra.
  - eval_layer. f_equal. list_eq; lra.
Qed.

(** On the network with two hidden units the entries of [w[1]] move
    (entry (1, 0) does not just decay), while each of its column sums,
    1 before the step, only decays. *)
Lemma train_batch_output_weight_column_sums_witness :
  exists w0' w1' b' loss,
    train_batch sample_x2 sample_y2 sample_w2 sample_b2 1 2 (1/100)
      = Ok ((w0', w1'), b', loss) /\
    (forall o, (o < 2)%nat ->
       colsum w1' o = (1 - 2 * 1 * (1/100)) * colsum (snd sample_w2) o) /\
    colsum (snd sample_w2) 0 = 1 /\ colsum (snd sample_w2) 1 = 1 /\
    entry w1' 1 0 <> (1 - 2 * 1 * (1/100)) * entry (snd sample_w2) 1 0.
Proof.
  destruct sample_shapes2 as (Hnet & Hx & Hy).
  destruct (@train_batch_output_weight_column_sums 2 1 2 2 sample_x2 sample_y2 sample_w2
              sample_b2 1 (1/100) _ _ _ _ Hnet Hx Hy (Nat.lt_0_succ 1) sample_forward2)
    as (w0' & w1' & b' & loss & E & Hcol).
  exists w0', w1', b', loss. split; [exact E|]. split; [exact Hcol|].
  split; [cbv [colsum column sample_w2 snd map nth rsum fold_right]; lra|].
  split; [cbv [colsum column sample_w2 snd map nth rsum fold_right]; lra|].
  destruct (train_batch_entries 1 (1/100) Hnet Hx Hy (Nat.lt_0_succ 1) sample_forward2)
    as (v0 & v1 & c0 & c1 & ce & _ & E' & _ & Hw1 & _ & _).
  rewrite E in E'. injection E' as _ <- _ _.
  rewrite (Hw1 1%nat 0%nat Nat.lt_1_2 (Nat.lt_0_succ 1)).
  cbv [entry nth sample_w2 sample_y2 snd colsum colmean column map rsum fold_right
       zip_with length INR activate softmax_row].
  assert (Hlt : exp (-1/2) < exp (3/2)) by (apply exp_increasing; lra).
  pose proof (exp_pos (-1/2)) as Hp.
  set (p := exp (-1/2)) in *. set (q := exp (3/2)) in *.
  intros Heq.
  assert (Hq : p / (p + (q + 0)) < 1/2).
  { apply Rmult_lt_reg_r with (r := p + (q + 0)); [lra|].
    unfold Rdiv. rewrite Rmult_assoc, Rinv_l by lra. lra. }
  assert (Hh : p / (p + (p + 0)) = 1/2) by (field; lra).
  rewrite Hh in Heq. lra.
Defined.

(** ** A floor under the cross-entropy of a predicted distribution *)


Lemma exp_ge_1 (v : R) : 0 <= v -> 1 <= exp v.
Proof.
  intros [H|<-]; [|rewrite exp_0; lra].
  assert (Hv : v <> 0) by lra. pose proof (exp_ineq1 v Hv). lra.
Qed.

Lemma rsum_exp_ge_length (p : vec) :
  Forall (fun v => 0 <= v) p -> INR (length p) <= rsum (map exp p).
Proof.
  induction 1 as [|e p He _ IH]; [unfold rsum; cbn; lra|].
  cbn [map length]. rewrite rsum_cons, S_INR. pose proof (exp_ge_1 He). lra.
Qed.

Lemma rsum_exp_lower (p : vec) (j : nat) :
  Forall (fun v => 0 <= v) p -> (j < length p)%nat ->
  exp (nth j p 0) + (INR (length p) - 1) <= rsum (map exp p).
Proof.
  intros Hp. revert j. induction Hp as [|e p He Hp IH]; intros j Hj; [cbn in Hj; lia|].
  cbn [map length]. rewrite rsum_cons, S_INR. destruct j as [|j]; cbn [nth].
  - pose proof (rsum_exp_ge_length Hp). lra.
  - cbn [length] in Hj. specialize (IH j ltac:(lia)). pose proof (exp_ge_1 He). lra.
Qed.

Lemma loss_floor_nonneg (n : nat) : (1 <= n)%nat -> 0 <= loss_floor n.
Proof.
  intros Hn. unfold loss_floor. rewrite <- ln_1.
  assert (H1 : 1 <= INR n) by (change 1 with (INR 1); apply le_INR; exact Hn).
  pose proof (exp_pos (-1)) as He.
  assert (H : 1 <= 1 + (INR n - 1) * exp (-1)) by nra.
  destruct H as [H|<-]; [left; apply ln_increasing; lra | right; reflexivity].
Qed.

Lemma loss_floor_pos (n : nat) : (2 <= n)%nat -> 0 < loss_floor n.
Proof.
  intros Hn. unfold loss_floor. rewrite <- ln_1.
  assert (H1 : 2 <= INR n) by (change 2 with (INR 2); apply le_INR; exact Hn).
  pose proof (exp_pos (-1)) as He.
  apply ln_increasing; [lra | nra].
Qed.

Lemma nll_floor (p : vec) (j : nat) :
  Forall (fun v => 0 <= v <= 1) p -> (j < length p)%nat ->
  loss_floor (length p) <= - nth j (log_softmax p) 0.
Proof.
  intros Hp Hj. unfold log_softmax.
  rewrite (nth_map_lt (fun v => v - ln (rsum (map exp p))) p 0 0) by exact Hj.
  set (S := rsum (map exp p)). set (v := nth j p 0).
  assert (Hv : 0 <= v <= 1).
  { unfold v. rewrite Forall_forall in Hp. apply Hp. apply nth_In. exact Hj. }
  assert (Hp0 : Forall (fun u => 0 <= u) p)
    by (eapply Forall_impl; [|exact Hp]; intros u Hu; lra).
  pose proof (rsum_exp_lower Hp0 Hj) as Hlow. fold S v in Hlow.
  assert (Hn : 1 <= INR (length p)).
  { change 1 with (INR 1). apply le_INR. lia. }
  pose proof (exp_pos v) as Hev. pose proof (exp_pos (- v)) as Hemv.
  pose proof (exp_pos (-1)) as Hem1.
  assert (HS : 0 < S) by lra.
  replace (- (v - ln S)) with (ln S + - v) by ring.
  rewrite <- (ln_exp (- v)), <- ln_mult by assumption.
  unfold loss_floor.
  assert (Hinv : exp v * exp (- v) = 1) by (rewrite <- exp_plus, Rplus_opp_r; apply exp_0).
  assert (Hmono : exp (-1) <= exp (- v)).
  { destruct (Req_dec v 1) as [E|Hne]; [rewrite E; right; f_equal; lra|].
    left. apply exp_increasing. lra. }
  assert (Hle : 1 + (INR (length p) - 1) * exp (-1) <= S * exp (- v)).
  { assert (H1 : (exp v + (INR (length p) - 1)) * exp (- v) <= S * exp (- v))
      by (apply Rmult_le_compat_r; lra).
    assert (H2 : (INR (length p) - 1) * exp (-1) <= (INR (length p) - 1) * exp (- v))
      by (apply Rmult_le_compat_l; lra).
    replace ((exp v + (INR (length p) - 1)) * exp (- v))
      with (1 + (INR (length p) - 1) * exp (- v)) in H1 by (rewrite <- Hinv; ring).
    lra. }
  assert (Hpos : 0 < 1 + (INR (length p) - 1) * exp (-1)) by nra.
  destruct Hle as [Hlt|Heq]; [left; apply ln_increasing; assumption|].
  rewrite Heq. lra.
Qed.

Lemma mean_ge (c : R) (l : vec) :
  l <> [] -> Forall (fun t => c <= t) l -> c <= rsum l / INR (length l).
Proof.
  intros Hne Hl.
  assert (Hn : 0 < INR (length l)).
  { apply lt_0_INR. destruct l; [congruence | cbn; lia]. }
  assert (Hs : INR (length l) * c <= rsum l).
  { clear Hne Hn. induction Hl as [|t l Ht _ IH]; [unfold rsum; cbn; lra|].
    cbn [length]. rewrite rsum_cons, S_INR. lra. }
  apply Rmult_le_reg_r with (r := INR (length l)); [exact Hn|].
  unfold Rdiv. rewrite Rmult_assoc, Rinv_l by lra. lra.
Qed.

Lemma nll_terms_floor (n : nat) (input : mat) (target : list Z) (terms : vec) :
  Forall (fun p => length p = n /\ Forall (fun v => 0 <= v <= 1) p) input ->
  nll_terms input target = Ok terms ->
  Forall (fun t => loss_floor n <= t) terms.
Proof.
  intros Hin. revert target terms.
  induction Hin as [|p input [Hlen Hp] _ IH]; intros target terms.
  - cbn [nll_terms]. intros E. injection E as <-. constructor.
  - destruct target as [|t target]; cbn [nll_terms].
    + intros E. injection E as <-. constructor.
    + destruct (nll_terms input target) as [rest| |] eqn:Er; cbn [bind];
        try discriminate.
      specialize (IH target rest Er).
      destruct (t =? -100)%Z; [intros E; injection E as <-; exact IH|].
      destruct ((0 <=? t) && (t <? Z.of_nat (length p)))%Z eqn:Et; [|discriminate].
      intros E. injection E as <-. constructor; [|exact IH].
      rewrite <- Hlen. apply nll_floor; [exact Hp|].
      apply andb_prop in Et. destruct Et as [E0 E1].
      apply Z.leb_le in E0. apply Z.ltb_lt in E1. lia.
Qed.

Lemma cross_entropy_idx_floor (n : nat) (input : mat) (target : list Z) (l : R) :
  Forall (fun p => length p = n /\ Forall (fun v => 0 <= v <= 1) p) input ->
  cross_entropy_idx input target = Ok l -> loss_floor n <= l.
Proof.
  intros Hin. unfold cross_entropy_idx.
  destruct (length input =? length target)%nat; [|discriminate].
  destruct (nll_terms input target) as [terms| |] eqn:Et; cbn [bind]; try discriminate.
  pose proof (nll_terms_floor _ Hin Et) as Hfl.
  destruct terms as [|t terms]; [discriminate|].
  intros E. apply Ok_inj in E. rewrite <- E.
  apply (@mean_ge (loss_floor n) (t :: terms)); [discriminate | exact Hfl].
Qed.

(** ** The rows a forward pass returns *)

Lemma add_bias_rows (m z : mat) (b : vec) :
  add_bias m b = Ok z -> length z = length m /\ Forall (fun r => length r = length b) z.
Proof.
  unfold add_bias. destruct (forallb _ m) eqn:E; [|discriminate].
  intros H. injection H as <-. split; [apply length_map|].
  apply Forall_map. rewrite forallb_forall in E. apply Forall_forall.
  intros r Hr. specialize (E r Hr). apply Nat.eqb_eq in E.
  unfold vadd. rewrite zip_with_length. lia.
Qed.

Lemma matmul_chk_length (a c m : mat) : matmul_chk a c = Ok m -> length m = length a.
Proof.
  unfold matmul_chk. destruct (forallb _ a); [|discriminate].
  intros H. injection H as <-. apply length_map.
Qed.

Lemma forward_output_rows (x : mat) (w : mat * mat) (b : vec * vec)
    (z_h y_h_hat z y_hat : mat) :
  forward x w b = Ok (z_h, y_h_hat, z, y_hat) ->
  length y_hat = length x /\
  Forall (fun p => length p = length (snd b) /\ Forall (fun v => 0 <= v <= 1) p) y_hat.
Proof.
  intros Hfw. destruct (forward_inv _ _ _ Hfw) as (Hpre & Hnil & Hstd & Hz & ->).
  unfold hidden_pre_activation in Hpre.
  destruct (matmul_chk x (fst w)) as [xw| |] eqn:E1; cbn [bind] in Hpre; try discriminate.
  destruct (matmul_chk y_h_hat (snd w)) as [yw| |] eqn:E2; cbn [bind] in Hz;
    try discriminate.
  destruct (add_bias_rows _ _ Hpre) as [L1 _]. destruct (add_bias_rows _ _ Hz) as [L2 R2].
  apply matmul_chk_length in E1, E2.
  assert (Ly : length y_h_hat = length z_h).
  { destruct (list_eq_dec Req_dec_T (concat (hidden_activate z_h)) []) as [E|E].
    - rewrite (Hnil E). apply length_map.
    - destruct (Hstd E) as (s & m & _ & _ & ->). unfold standardize, hidden_activate.
      rewrite !length_map. reflexivity. }
  split.
  - unfold activate. rewrite length_map. congruence.
  - unfold activate. apply Forall_map. eapply Forall_impl; [|exact R2].
    intros r Hr. split; [rewrite softmax_row_length; exact Hr|].
    eapply Forall_impl; [|apply softmax_row_range]. intros v Hv. cbv beta in Hv. lra.
Qed.

Lemma count_correct_le (y_hat : mat) (y : list Z) (c : nat) :
  count_correct y_hat y = Ok c -> (c <= length y_hat)%nat.
Proof.
  unfold count_correct.
  destruct (mapM argmax y_hat) as [predicted| |] eqn:E; cbn [bind]; try discriminate.
  destruct (length predicted =? length y)%nat; [|discriminate].
  intros H. injection H as <-. apply mapM_length in E. rewrite <- E.
  etransitivity; [apply filter_length_le|]. rewrite length_combine. lia.
Qed.

(** ** The batches of [evaluate] *)

Lemma range_step_spec (stop step : nat) :
  (0 < step)%nat ->
  let n := ((stop + step - 1) / step)%nat in
  (stop <= n * step)%nat /\ (n = 0%nat \/ ((n - 1) * step < stop)%nat).
Proof.
  intros Hs n.
  pose proof (Nat.div_mod_eq (stop + step - 1) step) as E. fold n in E.
  pose proof (Nat.mod_upper_bound (stop + step - 1) step ltac:(lia)) as Hm.
  split; [nia|]. destruct n as [|n']; [left; reflexivity|right]. nia.
Qed.

Lemma slices_cover {A : Type} (t : list A) (bs : nat) :
  (0 < bs)%nat ->
  concat (map (fun i => slice t i (i + bs)) (range_step (length t) bs)) = t.
Proof.
  intros Hbs. unfold range_step. rewrite map_map.
  set (n := ((length t + bs - 1) / bs)%nat).
  assert (E : map (fun k => slice t (k * bs) (k * bs + bs)) (seq 0 n)
              = batch_slices t bs n).
  { unfold batch_slices. apply map_ext. intros k. f_equal. lia. }
  rewrite E, batch_slices_concat. apply firstn_all2.
  apply (range_step_spec (length t) Hbs).
Qed.

Lemma slice_length {A : Type} (t : list A) (lo hi : nat) :
  length (slice t lo hi) = Nat.min (hi - lo) (length t - lo).
Proof. unfold slice. rewrite length_firstn, length_skipn. reflexivity. Qed.

Lemma length_concat_sum {A : Type} (l : list (list A)) :
  length (concat l) = list_sum (map (@length A) l).
Proof.
  induction l as [|a l IH]; [reflexivity|].
  cbn [concat map list_sum]. rewrite length_app, IH. reflexivity.
Qed.

Lemma mapM_Forall2 {A B : Type} (f : A -> outcome B) (l : list A) (rs : list B) :
  mapM f l = Ok rs -> Forall2 (fun a r => f a = Ok r) l rs.
Proof.
  revert rs. induction l as [|a l IH]; intros rs; cbn [mapM].
  - intros E. injection E as <-. constructor.
  - destruct (f a) as [x| |] eqn:Ea; cbn [bind]; try discriminate.
    destruct (mapM f l) as [xs| |]; cbn [bind]; try discriminate.
    intros E. injection E as <-. constructor; [exact Ea | apply IH; reflexivity].
Qed.

Lemma evaluate_batch_bounds (data : mat) (labels : list Z) (w : mat * mat) (b : vec * vec)
    (bs i c : nat) (l : R) :
  evaluate_batch data labels w b bs i = Ok (c, l) ->
  (c <= length (slice data i (i + bs)))%nat /\ loss_floor (length (snd b)) <= l.
Proof.
  unfold evaluate_batch.
  destruct (forward _ w b) as [[[[zh yh] z] yhat]| |] eqn:Efw; cbn [bind snd];
    try discriminate.
  destruct (forward_output_rows _ _ _ Efw) as [Hlen Hrows].
  destruct (cross_entropy_idx yhat _) as [l'| |] eqn:El; cbn [bind]; try discriminate.
  destruct (count_correct yhat _) as [c'| |] eqn:Ec; cbn [bind]; try discriminate.
  intros E. injection E as <- <-. split.
  - rewrite <- Hlen. apply (count_correct_le _ _ Ec).
  - apply (cross_entropy_idx_floor _ Hrows El).
Qed.

Lemma evaluate_batches_bounds (data : mat) (labels : list Z) (w : mat * mat)
    (b : vec * vec) (bs : nat) (starts : list nat) (rs : list (nat * R)) :
  Forall2 (fun i r => evaluate_batch data labels w b bs i = Ok r) starts rs ->
  Forall (fun r => loss_floor (length (snd b)) <= snd r) rs /\
  (list_sum (map fst rs)
   <= list_sum (map (fun i => length (slice data i (i + bs))) starts))%nat.
Proof.
  induction 1 as [|i [c l] starts rs Hi _ IH].
  - split; [constructor | reflexivity].
  - destruct (evaluate_batch_bounds _ _ _ _ _ _ Hi) as [Hc Hl].
    destruct IH as [IH1 IH2]. split; [constructor; assumption|].
    unfold list_sum in *. cbn [map fold_right fst]. lia.
Qed.

(** X7: the accuracy [evaluate] returns lies between 0 and 1.  The loss it
    returns is the cross-entropy of the softmax output taken as logits,
    which is bounded away from zero: it is at least
    [ln (1 + (classes - 1) / e)], whatever the parameters and the data. *)
Theorem evaluate_result_bounds (data : mat) (labels : list Z) (w : mat * mat)
    (b : vec * vec) (batch_size : nat) (accuracy loss : R) :
  evaluate data labels w b batch_size = Ok (accuracy, loss) ->
  0 <= accuracy <= 1 /\
  ln (1 + (INR (length (snd b)) - 1) * exp (-1)) <= loss /\
  ((2 <= length (snd b))%nat -> 0 < loss).
Proof.
  intros Hev. destruct (evaluate_closed _ _ _ _ _ Hev) as (Hbs & Hlen & rs & Hrs & Hne & E).
  injection E as -> ->.
  pose proof (mapM_Forall2 _ _ Hrs) as HF.
  destruct (@evaluate_batches_bounds _ _ _ _ _ _ _ HF) as [Hfloor Hsum].
  assert (Hcover : list_sum (map (fun i => length (slice data i (i + batch_size)))
                                 (range_step (length data) batch_size)) = length data).
  { rewrite <- (slices_cover data Hbs) at 2. rewrite length_concat_sum, map_map.
    reflexivity. }
  rewrite Hcover in Hsum.
  assert (Hn : 0 < INR (length data)) by (apply lt_0_INR; exact Hlen).
  assert (Hfl : loss_floor (length (snd b)) <= rsum (map snd rs) / INR (length rs)).
  { rewrite <- (length_map snd rs). apply mean_ge.
    - destruct rs; [congruence | discriminate].
    - apply Forall_map. exact Hfloor. }
  split; [split|split].
  - apply Rmult_le_pos; [apply pos_INR | left; apply Rinv_0_lt_compat; exact Hn].
  - apply Rmult_le_reg_r with (r := INR (length data)); [exact Hn|].
    unfold Rdiv. rewrite Rmult_assoc, Rinv_l by lra. rewrite Rmult_1_r, Rmult_1_l.
    apply le_INR. exact Hsum.
  - exact Hfl.
  - intros H2. pose proof (loss_floor_pos H2). lra.
Qed.

Lemma evaluate_result_bounds_witness :
  let accuracy := INR (list_sum (map fst [(2%nat, ln 2)])) / INR (length sample_x) in
  let loss := rsum (map snd [(2%nat, ln 2)]) / INR (length [(2%nat, ln 2)]) in
  0 <= accuracy <= 1 /\
  ln (1 + (INR (length (snd sample_b)) - 1) * exp (-1)) <= loss /\
  ((2 <= length (snd sample_b))%nat -> 0 < loss).
Proof.
  apply (@evaluate_result_bounds sample_x [0; 0; 1]%Z sample_w sample_b 3).
  apply evaluate_from_batches; [lia | cbn; lia | exact sample_batches].
Defined.

(** X8: [evaluate] goes through the data in consecutive batches that
    together are the whole data set, every row once and in order; only the
    last batch may be shorter than [batch_size], and none is empty. *)
Theorem evaluate_batches_cover (data : mat) (batch_size : nat) :
  (0 < batch_size)%nat ->
  let starts := range_step (length data) batch_size in
  concat (map (fun i => slice data i (i + batch_size)) starts) = data /\
  length starts = ((length data + batch_size - 1) / batch_size)%nat /\
  forall k, (k < length starts)%nat ->
    nth k starts 0%nat = (k * batch_size)%nat /\
    length (slice data (k * batch_size) (k * batch_size + batch_size))
      = (if (S k =? length starts)%nat
         then length data - k * batch_size else batch_size)%nat /\
    (0 < length (slice data (k * batch_size) (k * batch_size + batch_size)))%nat.
Proof.
  intros Hbs starts.
  split; [apply slices_cover; exact Hbs|].
  assert (Hls : length starts = ((length data + batch_size - 1) / batch_size)%nat).
  { unfold starts, range_step. rewrite length_map, length_seq. reflexivity. }
  split; [exact Hls|]. intros k Hk.
  destruct (range_step_spec (length data) Hbs) as [Hup Hlow].
  rewrite <- Hls in Hup, Hlow.
  split.
  - unfold starts, range_step.
    rewrite (nth_map_lt (fun k => (k * batch_size)%nat) _ 0%nat 0%nat)
      by (rewrite length_seq; lia).
    rewrite seq_nth by lia. reflexivity.
  - rewrite slice_length.
    destruct Hlow as [H0|Hlow]; [lia|].
    destruct (Nat.eqb_spec (S k) (length starts)) as [E|E]; split; nia.
Qed.

Lemma evaluate_batches_cover_witness :
  let data := [[1]; [2]; [3]; [4]; [5]] in
  let starts := range_step (length data) 2 in
  concat (map (fun i => slice data i (i + 2)) starts) = data /\
  length starts = ((length data + 2 - 1) / 2)%nat /\
  forall k, (k < length starts)%nat ->
    nth k starts 0%nat = (k * 2)%nat /\
    length (slice data (k * 2) (k * 2 + 2))
      = (if (S k =? length starts)%nat then length data - k * 2 else 2)%nat /\
    (0 < length (slice data (k * 2) (k * 2 + 2)))%nat.
Proof.
  apply (@evaluate_batches_cover [[1]; [2]; [3]; [4]; [5]] 2). lia.
Defined.

(** ** The reported loss and the weight decay (C4) *)

Lemma sum_over_ext (n : nat) (f g : nat -> R) :
  (forall i, (i < n)%nat -> f i = g i) -> sum_over n f = sum_over n g.
Proof.
  intros H. unfold sum_over. apply rsum_map_ext_in. intros i Hi.
  apply in_seq in Hi. apply H. lia.
Qed.

Lemma rsum_zip_with_index {A C : Type} (f : A -> C -> R) (da : A) (dc : C)
    (a : list A) (c : list C) :
  length c = length a ->
  rsum (zip_with f a c) = sum_over (length a) (fun i => f (nth i a da) (nth i c dc)).
Proof.
  unfold sum_over. revert c. induction a as [|u a IH]; intros [|v c] Hlen; try discriminate.
  - reflexivity.
  - cbn [zip_with length seq map nth]. rewrite !rsum_cons. f_equal.
    rewrite <- seq_shift, map_map. apply IH. cbn in Hlen. lia.
Qed.

Lemma rsum_map_index (g : R -> R) (v : vec) :
  rsum (map g v) = sum_over (length v) (fun k => g (nth k v 0)).
Proof.
  unfold sum_over. induction v as [|e v IH]; [reflexivity|].
  cbn [map length seq nth]. rewrite !rsum_cons. f_equal.
  rewrite <- seq_shift, map_map. exact IH.
Qed.

Lemma rsum_concat_rows (m : mat) :
  rsum (concat m) = sum_over (length m) (fun i => rsum (nth i m [])).
Proof.
  unfold sum_over. induction m as [|r m IH]; [reflexivity|].
  cbn [concat length seq map nth]. rewrite rsum_app, rsum_cons. f_equal.
  rewrite <- seq_shift, map_map. exact IH.
Qed.

(** The sum of the squares of a matrix, entry by entry. *)
Lemma sum_sq_entries (r c : nat) (m : mat) :
  shape r c m ->
  sum_sq m = sum_over r (fun i => sum_over c (fun j => entry m i j * entry m i j)).
Proof.
  intros [Hr Hc]. unfold sum_sq. rewrite concat_map, rsum_concat_rows, length_map, Hr.
  apply sum_over_ext. intros i Hi.
  assert (Hrow : length (nth i m []) = c).
  { rewrite Forall_forall in Hc. apply Hc. apply nth_In. lia. }
  rewrite (nth_map_lt (map (fun v => v * v)) m [] []) by lia.
  rewrite rsum_map_index, Hrow. reflexivity.
Qed.

(** [cross_entropy] with class-probability targets, entry by entry: the
    mean over the rows [i] of the sums over the classes [o] of
    [target i o * (ln (sum_k exp (input i k)) - input i o)]. *)
Lemma cross_entropy_prob_entries (r c : nat) (input target : mat) :
  shape r c input -> shape r c target -> (0 < r)%nat ->
  cross_entropy_prob input target =
    Ok (sum_over r (fun i =>
          sum_over c (fun o =>
            entry target i o
            * (ln (sum_over c (fun k => exp (entry input i k))) - entry input i o)))
        / INR r).
Proof.
  intros Hi Ht Hr. unfold cross_entropy_prob.
  rewrite (same_shape_true Hi Ht).
  destruct Hi as [Hli Hci], Ht as [Hlt Hct].
  destruct input as [|i0 input'] eqn:E; [cbn in Hli; lia|]. rewrite <- E in *.
  f_equal. rewrite Hli. f_equal.
  rewrite (rsum_zip_with_index _ [] [] input target) by lia. rewrite Hli.
  apply sum_over_ext. intros i Hlt_i.
  assert (Hri : length (nth i input []) = c).
  { rewrite Forall_forall in Hci. apply Hci. apply nth_In. lia. }
  assert (Hrt : length (nth i target []) = c).
  { rewrite Forall_forall in Hct. apply Hct. apply nth_In. lia. }
  unfold dot, log_softmax.
  rewrite (rsum_zip_with_index Rmult 0 0) by (rewrite length_map; lia).
  rewrite Hrt, rsum_map_index, Hri.
  unfold sum_over at 1. unfold sum_over at 2.
  transitivity (rsum (map (fun o => -1 * (nth o (nth i target []) 0
                   * nth o (map (fun v => v - ln (sum_over c (fun k => exp (nth k (nth i input []) 0))))
                              (nth i input [])) 0)) (seq 0 c))).
  { rewrite rsum_map_mult_l. ring. }
  apply rsum_map_ext_in. intros o Ho. apply in_seq in Ho.
  set (s := ln _).
  rewrite (nth_map_lt (fun v => v - s) (nth i input []) 0 0) by lia.
  unfold entry. ring.
Qed.

Section ReportedLoss.

Variables (B D H O : nat) (x y_true : mat) (w : mat * mat) (b : vec * vec).
Variables (mu wd : R) (z_h y_h_hat z y_hat : mat).

Hypothesis Hnet : network_shape D H O w b.
Hypothesis Hx : shape B D x.
Hypothesis Hy : shape B O y_true.
Hypothesis HB : (0 < B)%nat.
Hypothesis Hfw : forward x w b = Ok (z_h, y_h_hat, z, y_hat).

Let error := zip_with (zip_with Rminus) y_true y_hat.
Let error_h :=
  zip_with (zip_with Rmult) (matmul error (transpose (snd w))) (map (map positive01) z_h).

(** C4: the loss [train_batch] returns is the cross-entropy of [y_hat]
    against [y_true] plus [wd] times the sum of the squares of [w1] as it
    was before the step; [w0] does not occur in it.  Entry by entry: the
    cross-entropy is the mean over the examples [i] of the sums over the
    classes [o] of [y_true i o * (ln (sum_k exp (y_hat i k)) - y_hat i o)],
    the softmax output [y_hat] being taken for logits; the other term is
    [wd] times the sum of [w1 h o * w1 h o] over all [h] and [o].  Each
    weight matrix receives, besides its gradient term, [mu] times its
    decay term: [-2 * wd * w0] for the first, [-2 * wd * w1] for the
    second. *)
Theorem train_batch_loss_and_decay :
  exists w0' w1' b' loss,
    train_batch x y_true w b mu B wd = Ok ((w0', w1'), b', loss) /\
    loss =
      sum_over B (fun i =>
        sum_over O (fun o =>
          entry y_true i o
          * (ln (sum_over O (fun k => exp (entry y_hat i k))) - entry y_hat i o)))
      / INR B
      + wd * sum_over H (fun h => sum_over O (fun o =>
                           entry (snd w) h o * entry (snd w) h o)) /\
    (forall d h, (d < D)%nat -> (h < H)%nat ->
       entry w0' d h =
       entry (fst w) d h + mu * (colsum x d * colmean error_h h)
       + mu * (-2 * wd * entry (fst w) d h)) /\
    (forall h o, (h < H)%nat -> (o < O)%nat ->
       entry w1' h o =
       entry (snd w) h o + mu * (colsum y_h_hat h * colmean error o)
       + mu * (-2 * wd * entry (snd w) h o)).
Proof.
  destruct (train_batch_entries mu wd Hnet Hx Hy HB Hfw)
    as (w0' & w1' & b0' & b1' & ce & Hce & Htb & Hw0 & Hw1 & _ & _).
  destruct (forward_shapes Hnet Hx Hfw) as (_ & _ & _ & Hyhat).
  exists w0', w1', (b0', b1'), (ce + wd * sum_sq (snd w)).
  split; [exact Htb|]. split; [|split; [exact Hw0 | exact Hw1]].
  rewrite (cross_entropy_prob_entries Hyhat Hy HB) in Hce. apply Ok_inj in Hce.
  rewrite <- Hce.
  rewrite (sum_sq_entries (proj1 (proj2 (proj2 Hnet)))). reflexivity.
Qed.

End ReportedLoss.

Lemma softmax_row_equal2 (a c : R) : a = c -> softmax_row [a; c] = [1/2; 1/2].
Proof.
  intros <-. unfold softmax_row. cbn [map rsum fold_right].
  pose proof (exp_pos a) as Hp. list_eq; field; lra.
Qed.

Lemma sample_shapes_ones :
  network_shape 1 1 2 sample_w_ones sample_b /\ shape 3 1 sample_x /\ shape 3 2 sample_y.
Proof.
  unfold network_shape, shape, sample_w_ones, sample_b, sample_x, sample_y. simpl.
  repeat split; repeat constructor.
Qed.

(** With both output weights at 1 the two logits of an example are equal
    and the prediction is uniform, whatever the hidden activation. *)
Lemma sample_forward_ones :
  forward sample_x sample_w_ones sample_b =
  Ok ([[0]; [1]; [2]], [[-1]; [0]; [1]], [[-1; -1]; [0; 0]; [1; 1]],
      [[1/2; 1/2]; [1/2; 1/2]; [1/2; 1/2]]).
Proof.
  unfold sample_x, sample_w_ones, sample_b.
  assert (Hpre : hidden_pre_activation [[0]; [1]; [2]] ([[1]], [[1; 1]]) ([0], [0; 0])
                 = Ok [[0]; [1]; [2]]).
  { eval_layer. f_equal. list_eq; lra. }
  assert (Ha : hidden_activate [[0]; [1]; [2]] = [[0]; [1]; [2]]).
  { cbv [hidden_activate map]. list_eq; apply Rmax0_nonneg; lra. }
  assert (Hsm : std_mean (concat [[0]; [1]; [2]]) = (Some 1, Some 1)).
  { cbv [concat app std_mean length rsum fold_right map INR].
    f_equal; f_equal; [apply sqrt_of_square; lra | lra]. }
  rewrite (forward_stages (z := [[-1; -1]; [0; 0]; [1; 1]]) _ _ _ Hpre Ha Hsm).
  - cbv [map activate]. rewrite !softmax_row_equal2 by reflexivity.
    f_equal. f_equal. f_equal. f_equal. list_eq; lra.
  - lra.
  - eval_layer. f_equal. list_eq; lra.
Qed.

Lemma train_batch_loss_and_decay_witness :
  exists w0' w1' b' loss,
    train_batch sample_x sample_y sample_w_ones sample_b 1 3 (1/100)
      = Ok ((w0', w1'), b', loss) /\
    loss = ln 2 + (1/100) * 2 /\
    entry w0' 0 0 = 1 + 1 * (-2 * (1/100) * 1) /\
    entry w1' 0 0 = 1 + 1 * (-2 * (1/100) * 1) /\
    entry w1' 0 1 = 1 + 1 * (-2 * (1/100) * 1).
Proof.
  destruct (@train_batch_loss_and_decay 3 1 1 2 sample_x sample_y sample_w_ones sample_b
              1 (1/100) _ _ _ _ (proj1 sample_shapes_ones)
              (proj1 (proj2 sample_shapes_ones)) (proj2 (proj2 sample_shapes_ones))
              (Nat.lt_0_succ 2) sample_forward_ones)
    as (w0' & w1' & b' & loss & E & Hloss & Hw0 & Hw1).
  exists w0', w1', b', loss. split; [exact E|]. split; [|split; [|split]].
  - rewrite Hloss.
    cbv [sum_over seq map rsum fold_right entry nth sample_y sample_w_ones snd INR].
    replace (exp (1/2) + (exp (1/2) + 0)) with (2 * exp (1/2)) by lra.
    rewrite ln_mult by (try apply exp_pos; lra). rewrite ln_exp. lra.
  - rewrite (Hw0 0%nat 0%nat (Nat.lt_0_succ 0) (Nat.lt_0_succ 0)).
    cbv [entry nth sample_w_ones sample_x sample_y fst snd colsum colmean column map rsum
         fold_right zip_with matmul transpose width seq dot length INR positive01].
    destruct (Rlt_dec 0 0) as [L|_]; [lra|].
    destruct (Rlt_dec 0 1) as [_|L]; [|lra].
    destruct (Rlt_dec 0 2) as [_|L]; [|lra]. lra.
  - rewrite (Hw1 0%nat 0%nat (Nat.lt_0_succ 0) (Nat.lt_0_succ 1)).
    cbv [entry nth sample_w_ones sample_y snd colsum colmean column map rsum fold_right
         zip_with length INR]. lra.
  - rewrite (Hw1 0%nat 1%nat (Nat.lt_0_succ 0) Nat.lt_1_2).
    cbv [entry nth sample_w_ones sample_y snd colsum colmean column map rsum fold_right
         zip_with length INR]. lra.
Defined.

(** ** The loss of a training step *)




Section TrainingLoss.

Variables (B D H O : nat) (x y_true : mat) (w : mat * mat) (b : vec * vec).
Variables (mu wd : R) (z_h y_h_hat z y_hat : mat).

Hypothesis Hnet : network_shape D H O w b.
Hypothesis Hx : shape B D x.
Hypothesis Hy : shape B O y_true.
Hypothesis HB : (0 < B)%nat.
Hypothesis Hfw : forward x w b = Ok (z_h, y_h_hat, z, y_hat).


End TrainingLoss.


(** ** Decoding a one-hot row *)

Lemma argmax_from_found (k : nat) (len a besti : nat) :
  argmax_from 1 besti a (map (fun j => if Nat.eqb k j then 1 else 0) (seq a len)) = besti.
Proof.
  revert a. induction len as [|len IH]; intros a; [reflexivity|].
  cbn [seq map argmax_from].
  destruct (Rlt_dec 1 (if Nat.eqb k a then 1 else 0)) as [H|_]; [|apply IH].
  exfalso. destruct (Nat.eqb k a); lra.
Qed.

Lemma argmax_from_indicator (k : nat) (len a besti : nat) :
  (a <= k < a + len)%nat ->
  argmax_from 0 besti a (map (fun j => if Nat.eqb k j then 1 else 0) (seq a len)) = k.
Proof.
  revert a. induction len as [|len IH]; intros a Hk; [lia|].
  cbn [seq map argmax_from]. destruct (Nat.eqb_spec k a) as [->|Hne].
  - destruct (Rlt_dec 0 1) as [_|H]; [|exfalso; lra]. apply argmax_from_found.
  - destruct (Rlt_dec 0 0) as [H|_]; [exfalso; lra|]. apply IH. lia.
Qed.

Lemma argmax_indicator (k n : nat) :
  (k < n)%nat -> argmax (map (fun j => if Nat.eqb k j then 1 else 0) (seq 0 n)) = Ok k.
Proof.
  intros Hk. destruct n as [|n]; [lia|]. cbn [seq map argmax]. f_equal.
  destruct (Nat.eqb_spec k 0) as [->|Hne].
  - apply argmax_from_found.
  - apply argmax_from_indicator. lia.
Qed.

(** A negative index counts from the end. *)
Lemma py_index_eye_wrap (n : nat) (l : Z) :
  (- Z.of_nat n <= l < Z.of_nat n)%Z ->
  py_index (eye n) l =
    Ok (map (fun j => if Nat.eqb (Z.to_nat (l mod Z.of_nat n)) j then 1 else 0) (seq 0 n)).
Proof.
  intros Hl. destruct (Z.ltb_spec l 0) as [Hneg|Hpos].
  - unfold py_index. rewrite eye_length.
    destruct (Z.ltb_spec l 0) as [_|]; [|lia].
    assert (Hk : (0 <= l + Z.of_nat n < Z.of_nat n)%Z) by lia.
    destruct ((0 <=? l + Z.of_nat n) && (l + Z.of_nat n <? Z.of_nat n))%Z eqn:E.
    + rewrite eye_row by lia.
      replace (l mod Z.of_nat n)%Z with (l + Z.of_nat n)%Z; [reflexivity|].
      apply Z.mod_unique with (q := (-1)%Z); lia.
    + apply andb_false_iff in E. destruct E as [E|E];
        [apply Z.leb_gt in E | apply Z.ltb_ge in E]; lia.
  - rewrite py_index_eye by lia. rewrite Z.mod_small by lia. reflexivity.
Qed.

Lemma py_index_eye_raises (n : nat) (l : Z) :
  ~ (- Z.of_nat n <= l < Z.of_nat n)%Z -> py_index (eye n) l = Raises.
Proof.
  intros Hl. unfold py_index. rewrite eye_length.
  destruct (Z.ltb_spec l 0) as [Hneg|Hpos].
  - destruct ((0 <=? l + Z.of_nat n) && (l + Z.of_nat n <? Z.of_nat n))%Z eqn:E;
      [|reflexivity].
    apply andb_prop in E. destruct E as [E1 E2].
    apply Z.leb_le in E1. apply Z.ltb_lt in E2. lia.
  - destruct ((0 <=? l) && (l <? Z.of_nat n))%Z eqn:E; [|reflexivity].
    apply andb_prop in E. destruct E as [E1 E2].
    apply Z.leb_le in E1. apply Z.ltb_lt in E2. lia.
Qed.

Lemma mapM_Raises_iff {A B : Type} (f : A -> outcome B) (l : list A) :
  (forall a, f a <> NonFinite) ->
  (mapM f l = Raises <-> Exists (fun a => f a = Raises) l).
Proof.
  intros Hf. induction l as [|a l IH]; cbn [mapM].
  - split; [discriminate | intros H; inversion H].
  - destruct (f a) as [x| |] eqn:Ea; cbn [bind].
    + destruct (mapM f l) as [xs| |]; cbn [bind].
      * split; [discriminate|]. intros H. inversion H as [? ? H1|? ? H1]; subst.
        -- congruence.
        -- apply IH in H1. discriminate.
      * split; [discriminate|]. intros H. inversion H as [? ? H1|? ? H1]; subst.
        -- congruence.
        -- apply IH in H1. discriminate.
      * split; [intros _; apply Exists_cons_tl; apply IH; reflexivity | reflexivity].
    + exfalso. exact (Hf a Ea).
    + split; [intros _; apply Exists_cons_hd; exact Ea | reflexivity].
Qed.

Lemma mapM_map_Ok {A B C : Type} (f : B -> outcome C) (h : A -> B) (k : A -> C)
    (l : list A) :
  (forall a, In a l -> f (h a) = Ok (k a)) -> mapM f (map h l) = Ok (map k l).
Proof.
  induction l as [|a l IH]; intros H; [reflexivity|].
  cbn [map mapM]. rewrite (H a (or_introl eq_refl)). cbn [bind].
  rewrite IH by (intros a' Ha'; apply H; right; exact Ha'). reflexivity.
Qed.

Lemma to_one_hot_length (x : list Z) (rows : mat) :
  to_one_hot x = Ok rows -> length rows = length x.
Proof.
  unfold to_one_hot. destruct (zmax x) as [m| |]; cbn [bind]; try discriminate.
  destruct (m + 1 <? 0)%Z; [discriminate|]. apply mapM_length.
Qed.

Lemma to_one_hot_decode (x : list Z) (m : Z) :
  zmax x = Ok m ->
  Forall (fun l => (- (m + 1) <= l)%Z) x ->
  exists rows,
    to_one_hot x = Ok rows /\
    mapM argmax rows = Ok (map (fun l => Z.to_nat (l mod (m + 1))) x) /\
    (Forall (fun l => (0 <= l)%Z) x -> mapM argmax rows = Ok (map Z.to_nat x)).
Proof.
  intros Hm Hlow.
  assert (Hne : x <> []) by (intros ->; discriminate).
  destruct (zmax_spec Hne) as (m' & Hm' & Hin & Hmax).
  rewrite Hm in Hm'. injection Hm' as <-.
  assert (Hm0 : (0 <= m)%Z).
  { rewrite Forall_forall in Hlow. specialize (Hlow m Hin). lia. }
  set (n := Z.to_nat (m + 1)).
  assert (Hn : Z.of_nat n = (m + 1)%Z) by (unfold n; lia).
  set (row := fun l => map (fun j => if Nat.eqb (Z.to_nat (l mod (m + 1))) j then 1 else 0)
                           (seq 0 n)).
  assert (Hrows : to_one_hot x = Ok (map row x)).
  { unfold to_one_hot. rewrite Hm. cbn [bind].
    destruct (Z.ltb_spec (m + 1) 0) as [|_]; [lia|]. fold n.
    apply mapM_Ok_pointwise. intros l Hl. unfold row. rewrite <- Hn.
    apply py_index_eye_wrap. rewrite Forall_forall in Hlow.
    specialize (Hlow l Hl). specialize (Hmax l Hl). lia. }
  exists (map row x). split; [exact Hrows|].
  assert (Hdec : mapM argmax (map row x) = Ok (map (fun l => Z.to_nat (l mod (m + 1))) x)).
  { apply mapM_map_Ok. intros l Hl. unfold row. apply argmax_indicator.
    pose proof (Z.mod_pos_bound l (m + 1) ltac:(lia)). lia. }
  split; [exact Hdec|]. intros Hpos. rewrite Hdec. f_equal.
  apply map_ext_in. intros l Hl. rewrite Forall_forall in Hpos.
  specialize (Hpos l Hl). specialize (Hmax l Hl). rewrite Z.mod_small by lia. reflexivity.
Qed.

(** X10: decoding undoes the encoding.  The position of the largest entry
    of row [i] of [to_one_hot x] is the label [x[i]]; a negative label
    counts from the end, like any Python index, and comes back as
    [x[i] + max + 1]. *)
Theorem to_one_hot_round_trip (x : list Z) (m : Z) :
  zmax x = Ok m ->
  Forall (fun l => (- (m + 1) <= l)%Z) x ->
  exists rows,
    to_one_hot x = Ok rows /\
    length rows = length x /\
    mapM argmax rows = Ok (map (fun l => Z.to_nat (l mod (m + 1))) x) /\
    (Forall (fun l => (0 <= l)%Z) x -> mapM argmax rows = Ok (map Z.to_nat x)).
Proof.
  intros Hm Hlow. destruct (to_one_hot_decode Hm Hlow) as (rows & Hrows & Hdec & Hpos).
  exists rows. split; [exact Hrows|]. split; [|split; assumption].
  apply to_one_hot_length. exact Hrows.
Qed.

Lemma to_one_hot_round_trip_witness :
  exists rows,
    to_one_hot [3; -1; 0; 9]%Z = Ok rows /\
    length rows = length [3; -1; 0; 9]%Z /\
    mapM argmax rows = Ok (map (fun l => Z.to_nat (l mod (9 + 1))) [3; -1; 0; 9]%Z) /\
    (Forall (fun l => (0 <= l)%Z) [3; -1; 0; 9]%Z ->
     mapM argmax rows = Ok (map Z.to_nat [3; -1; 0; 9]%Z)).
Proof.
  apply (@to_one_hot_round_trip [3; -1; 0; 9]%Z 9%Z).
  - reflexivity.
  - repeat constructor; lia.
Defined.

(** X11: [to_one_hot] raises on a tensor without labels and, otherwise,
    exactly when a label lies below [- (max + 1)], the lowest index of
    [torch.eye(max + 1)]; this includes every tensor of negative labels
    only. *)
Theorem to_one_hot_raises_iff (x : list Z) (m : Z) :
  zmax x = Ok m ->
  to_one_hot [] = Raises /\
  (to_one_hot x = Raises <-> Exists (fun l => (l < - (m + 1))%Z) x) /\
  ((m < 0)%Z -> to_one_hot x = Raises).
Proof.
  intros Hm. split; [reflexivity|].
  assert (Hne : x <> []) by (intros ->; discriminate).
  destruct (zmax_spec Hne) as (m' & Hm' & Hin & Hmax).
  rewrite Hm in Hm'. injection Hm' as <-.
  assert (Hiff : to_one_hot x = Raises <-> Exists (fun l => (l < - (m + 1))%Z) x).
  { unfold to_one_hot. rewrite Hm. cbn [bind].
    destruct (Z.ltb_spec (m + 1) 0) as [Hn|Hn].
    - split; [intros _|reflexivity]. apply Exists_exists. exists m. split; [exact Hin | lia].
    - set (n := Z.to_nat (m + 1)).
      assert (En : Z.of_nat n = (m + 1)%Z) by (unfold n; lia).
      rewrite mapM_Raises_iff.
      + rewrite !Exists_exists. split; intros (l & Hl & H); exists l; (split; [exact Hl|]).
        * destruct (Z.ltb_spec l (- (m + 1))) as [|Hge]; [assumption|].
          rewrite py_index_eye_wrap in H by (specialize (Hmax l Hl); lia). discriminate.
        * apply py_index_eye_raises. lia.
      + intros l. unfold py_index.
        destruct (_ && _)%bool; [|discriminate].
        destruct (nth_error _ _); discriminate. }
  split; [exact Hiff|]. intros Hneg. apply Hiff. apply Exists_exists.
  exists m. split; [exact Hin | lia].
Qed.

Lemma to_one_hot_raises_iff_witness :
  to_one_hot [] = Raises /\
  (to_one_hot [2; -4; 1]%Z = Raises <-> Exists (fun l => (l < - (2 + 1))%Z) [2; -4; 1]%Z) /\
  ((2 < 0)%Z -> to_one_hot [2; -4; 1]%Z = Raises).
Proof.
  apply (@to_one_hot_raises_iff [2; -4; 1]%Z 2%Z). reflexivity.
Defined.

(** ** The layout of the training tensor *)

Lemma length_concat_const {A : Type} (c : nat) (t : list (list A)) :
  Forall (fun r => length r = c) t -> length (concat t) = (length t * c)%nat.
Proof.
  induction 1 as [|r t Hr _ IH]; [reflexivity|].
  cbn [concat length]. rewrite length_app, IH, Hr. lia.
Qed.

Lemma flat_row_length (t : image) :
  is28 t -> length (concat (map (map IZR) t)) = 784%nat.
Proof.
  intros [Hlen Hrows]. rewrite (length_concat_const (c := 28)).
  - rewrite length_map, Hlen. reflexivity.
  - apply Forall_map. eapply Forall_impl; [|exact Hrows].
    intros r Hr. rewrite length_map. exact Hr.
Qed.

(** A list made of blocks of [c] elements, one block per element of [l]. *)
Lemma flat_map_blocks_length {A B : Type} (f : A -> list B) (c : nat) (l : list A) :
  (forall a, length (f a) = c) -> length (flat_map f l) = (c * length l)%nat.
Proof.
  intros Hf. induction l as [|a l IH]; [cbn; lia|].
  cbn [flat_map length]. rewrite length_app, IH, Hf. lia.
Qed.

Lemma flat_map_blocks_nth {A B : Type} (f : A -> list B) (c : nat) (l : list A)
    (k a : nat) (da : A) (db : B) :
  (forall x, length (f x) = c) -> (k < length l)%nat -> (a < c)%nat ->
  nth (c * k + a) (flat_map f l) db = nth a (f (nth k l da)) db.
Proof.
  intros Hf. revert k. induction l as [|x l IH]; intros k Hk Ha; [cbn in Hk; lia|].
  cbn [flat_map]. destruct k as [|k].
  - rewrite Nat.mul_0_r, Nat.add_0_l. cbn [nth].
    apply app_nth1. rewrite Hf. exact Ha.
  - rewrite app_nth2 by (rewrite Hf; nia). rewrite Hf.
    replace (c * S k + a - c)%nat with (c * k + a)%nat by nia.
    cbn [nth]. apply IH; [cbn in Hk; lia | exact Ha].
Qed.

Lemma load_dataset_train_inv (rotate : image -> Z -> image) (ds : list (image * Z))
    (pin_memory : bool) (ms : option (fscalar * fscalar))
    (x : mat) (y : list Z) (oh : mat) (ms' : fscalar * fscalar) :
  load_dataset rotate ds true pin_memory ms = Ok (LoadedTrain x y oh ms') ->
  to_one_hot y = Ok oh.
Proof.
  unfold load_dataset.
  destruct (read_images rotate true ds) as [[xs ys]| |]; cbn [bind]; try discriminate.
  destruct (collate_images xs) as [xc| |]; cbn [bind]; try discriminate.
  destruct (rmax_list _) as [maxi| |]; cbn [bind]; try discriminate.
  destruct (rmin_list _) as [mini| |]; cbn [bind sub_scalar]; try discriminate.
  destruct (div_scalar _ (Some maxi)) as [x1| |]; cbn [bind]; try discriminate.
  destruct (sub_scalar x1 _) as [x2| |]; cbn [bind]; try discriminate.
  destruct (div_scalar x2 _) as [x3| |]; cbn [bind]; try discriminate.
  destruct (collate_labels ys) as [yc| |] eqn:Ey; cbn [bind]; try discriminate.
  destruct (to_one_hot yc) as [oh'| |] eqn:Eo; cbn [bind]; try discriminate.
  destruct pin_memory; intros E; injection E as <- <- <- <-; exact Eo.
Qed.

Section LoaderLayout.

Variable rotate : image -> Z -> image.
Hypothesis Hrot : rotate_ok rotate.

Lemma augmented_length (img : image) : length (augmented rotate img) = 7%nat.
Proof. reflexivity. Qed.

(** X12: the training load returns seven rows of 784 features for every
    image, in the order of the data set: the image, its four border
    variants and its two rotations, all normalized by one and the same
    affine map.  Every label is repeated seven times, and row [i] of the
    one-hot labels decodes to label [i]. *)
Theorem load_dataset_train_layout (ds : list (image * Z)) (pin_memory : bool) :
  training_set_ok ds ->
  exists x y oh ms mini s m,
    load_dataset rotate ds true pin_memory None = Ok (LoadedTrain x y oh ms) /\
    shape (7 * length ds) 784 x /\
    length y = (7 * length ds)%nat /\ length oh = (7 * length ds)%nat /\
    s <> 0 /\
    (forall k a, (k < length ds)%nat -> (a < 7)%nat ->
       nth (7 * k + a) x [] =
         map (fun v => ((v - mini) / 255 - m) / s)
             (concat (map (map IZR) (nth a (augmented rotate (fst (nth k ds ([], 0%Z)))) [])))
       /\ nth (7 * k + a) y 0%Z = snd (nth k ds ([], 0%Z))) /\
    mapM argmax oh = Ok (map Z.to_nat y).
Proof.
  intros Hok. pose proof Hok as (Hne & Hall & _).
  destruct (load_dataset_train_ok Hrot pin_memory Hok)
    as (mini & s & m & oh & _ & _ & _ & _ & _ & Hs & Hload).
  set (X := flat_pixels (training_images rotate ds)) in *.
  pose proof (load_dataset_train_inv _ _ _ _ Hload) as Hoh.
  pose proof (training_images_ok Hrot Hok) as Himgs.
  assert (Lx : length (training_images rotate ds) = (7 * length ds)%nat).
  { unfold training_images. apply flat_map_blocks_length. intros p. reflexivity. }
  assert (Ly : length (training_labels ds) = (7 * length ds)%nat).
  { unfold training_labels. apply flat_map_blocks_length. intros p. apply repeat_length. }
  assert (Hlab : Forall (fun l => (0 <= l)%Z) (training_labels ds)).
  { apply Forall_forall. intros l Hl. unfold training_labels in Hl.
    apply in_flat_map in Hl. destruct Hl as (q & Hq & Hl).
    apply repeat_spec in Hl. subst l. rewrite Forall_forall in Hall.
    apply (Hall q Hq). }
  exists (standardize s m (min_max_scale mini 255 X)), (training_labels ds), oh,
    (Some s, Some m), mini, s, m.
  split; [exact Hload|]. split; [|split; [exact Ly|split; [|split; [lra|split]]]].
  - unfold standardize, min_max_scale. repeat apply shape_map_map.
    unfold X, flat_pixels. split; [rewrite length_map; exact Lx|].
    apply Forall_map. eapply Forall_impl; [|exact Himgs].
    intros t [H28 _]. apply flat_row_length. exact H28.
  - rewrite (to_one_hot_length _ Hoh). exact Ly.
  - intros k a Hk Ha. split.
    + unfold standardize, min_max_scale, X, flat_pixels. rewrite !map_map.
      assert (Hi : (7 * k + a < length (training_images rotate ds))%nat) by (rewrite Lx; nia).
      rewrite (nth_map_lt _ (training_images rotate ds) [] []) by exact Hi.
      unfold training_images.
      rewrite (flat_map_blocks_nth (fun p => augmented rotate (fst p)) ds ([], 0%Z) []);
        [| intros p; reflexivity | exact Hk | exact Ha].
      rewrite !map_map. reflexivity.
    + unfold training_labels.
      rewrite (flat_map_blocks_nth (fun p => repeat (snd p) 7) ds ([], 0%Z) 0%Z);
        [| intros p; apply repeat_length | exact Hk | exact Ha].
      apply nth_repeat_lt. exact Ha.
  - assert (Hlne : training_labels ds <> []).
    { intros E. rewrite E in Ly. cbn in Ly. destruct ds; [congruence | cbn in Ly; lia]. }
    destruct (zmax_spec Hlne) as (lm & Hlm & Hin & Hmax).
    assert (Hlow : Forall (fun l => (- (lm + 1) <= l)%Z) (training_labels ds)).
    { apply Forall_forall. intros l Hl. rewrite Forall_forall in Hlab.
      pose proof (Hlab l Hl). pose proof (Hlab lm Hin). lia. }
    destruct (to_one_hot_decode Hlm Hlow) as (rows & Hrows & _ & Hdec).
    rewrite Hoh in Hrows. injection Hrows as <-. apply Hdec. exact Hlab.
Qed.

End LoaderLayout.

Lemma load_dataset_train_layout_witness :
  exists x y oh ms mini s m,
    load_dataset no_rotation sample_train true false None = Ok (LoadedTrain x y oh ms) /\
    shape (7 * length sample_train) 784 x /\
    length y = (7 * length sample_train)%nat /\
    length oh = (7 * length sample_train)%nat /\
    s <> 0 /\
    (forall k a, (k < length sample_train)%nat -> (a < 7)%nat ->
       nth (7 * k + a) x [] =
         map (fun v => ((v - mini) / 255 - m) / s)
             (concat (map (map IZR)
                (nth a (augmented no_rotation (fst (nth k sample_train ([], 0%Z)))) [])))
       /\ nth (7 * k + a) y 0%Z = snd (nth k sample_train ([], 0%Z))) /\
    mapM argmax oh = Ok (map Z.to_nat y).
Proof.
  apply (@load_dataset_train_layout no_rotation no_rotation_ok sample_train false
           sample_train_ok).
Defined.

(** ** The statistics of the training tensor *)

Section LoaderStatistics.

Variable rotate : image -> Z -> image.
Hypothesis Hrot : rotate_ok rotate.

(** X13: the training features [load_dataset] returns are standardised
    over the whole tensor: [torch.std_mean] of them is (1, 0).  The pair
    it returns as [mean_std] is the one of the data before this step, with
    a positive standard deviation. *)
Theorem load_dataset_train_standardized (ds : list (image * Z)) (pin_memory : bool) :
  training_set_ok ds ->
  exists x y oh s m,
    load_dataset rotate ds true pin_memory None = Ok (LoadedTrain x y oh (Some s, Some m)) /\
    0 < s /\
    std_mean (concat x) = (Some 1, Some 0).
Proof.
  intros Hok.
  destruct (load_dataset_train_ok Hrot pin_memory Hok)
    as (mini & s & m & oh & _ & _ & _ & _ & Hsm & Hs & Hload).
  eexists _, _, oh, s, m. split; [exact Hload|]. split; [exact Hs|].
  apply standardize_std_mean; [exact Hsm | lra].
Qed.

End LoaderStatistics.

Lemma load_dataset_train_standardized_witness :
  exists x y oh s m,
    load_dataset no_rotation sample_train true false None
      = Ok (LoadedTrain x y oh (Some s, Some m)) /\
    0 < s /\
    std_mean (concat x) = (Some 1, Some 0).
Proof.
  apply (@load_dataset_train_standardized no_rotation no_rotation_ok sample_train false
           sample_train_ok).
Defined.

(** ** What the loader refuses *)

Lemma read_image_not_nonfinite (rotate : image -> Z -> image) (train : bool)
    (img : image) (label : Z) :
  read_image rotate train img label <> NonFinite.
Proof.
  unfold read_image, img_shifted_1, img_shifted_2, img_shifted_3, img_shifted_4, cat0, cat1.
  destruct train; [|discriminate].
  repeat match goal with
         | |- context [if ?c then _ else _] => destruct c; cbn [bind]
         end; discriminate.
Qed.

Lemma read_images_raises (rotate : image -> Z -> image) (train : bool)
    (ds : list (image * Z)) (img : image) (label : Z) :
  In (img, label) ds -> read_image rotate train img label = Raises ->
  read_images rotate train ds = Raises.
Proof.
  intros Hin Hr. induction ds as [|[i0 l0] ds IH]; [contradiction|].
  cbn [read_images]. destruct Hin as [E|Hin].
  - injection E as -> ->. rewrite Hr. reflexivity.
  - pose proof (read_image_not_nonfinite rotate train i0 l0) as Hnf.
    destruct (read_image rotate train i0 l0) as [[xs ys]| |]; cbn [bind];
      [|congruence|reflexivity].
    rewrite (IH Hin). reflexivity.
Qed.

Lemma read_image_odd_shape (rotate : image -> Z -> image) (img : image) (label : Z)
    (c : nat) :
  Forall (fun r => length r = c) img ->
  length img <> 28%nat \/ c <> 28%nat ->
  read_image rotate true img label = Raises.
Proof.
  intros Hrect Hodd. unfold read_image.
  destruct (Nat.eq_dec (length img) 28) as [Hh|Hh].
  - assert (Hc : c <> 28%nat) by (destruct Hodd; [contradiction | assumption]).
    unfold img_shifted_1, cat0. change (width (fill 2 28)) with 28%nat.
    replace (forallb _ (skipn 2 img)) with false; [reflexivity|].
    symmetry. destruct img as [|r0 [|r1 [|r2 rest]]]; try discriminate.
    cbn [skipn forallb].
    inversion Hrect as [|? ? _ H1]; subst. inversion H1 as [|? ? _ H2]; subst.
    inversion H2 as [|? ? H3 _]; subst.
    destruct (Nat.eqb_spec (length r2) 28); [contradiction|].
    reflexivity.
  - assert (H3 : img_shifted_3 img = Raises).
    { unfold img_shifted_3, cat1. rewrite length_map.
      unfold fill. rewrite repeat_length.
      destruct (Nat.eqb_spec 28 (length img)); [congruence | reflexivity]. }
    unfold img_shifted_1, img_shifted_2, cat0.
    repeat match goal with
           | |- context [if ?c then _ else _] => destruct c; cbn [bind]
           end; try reflexivity.
    rewrite H3. reflexivity.
Qed.

Lemma collate_images_raises (x : list image) (i1 i2 : image) :
  In i1 x -> In i2 x -> image_shape i1 <> image_shape i2 -> collate_images x = Raises.
Proof.
  intros H1 H2 Hne. destruct x as [|x0 x']; [contradiction|].
  unfold collate_images.
  destruct (forallb _ (x0 :: x')) eqn:E; [|reflexivity].
  rewrite forallb_forall in E.
  pose proof (E i1 H1) as E1. pose proof (E i2 H2) as E2.
  destruct (list_eq_dec Nat.eq_dec (image_shape i1) (image_shape x0)); [|discriminate].
  destruct (list_eq_dec Nat.eq_dec (image_shape i2) (image_shape x0)); [|discriminate].
  congruence.
Qed.

(** X14: [load_dataset] raises on a data set without images, whichever
    split is asked for, and on a validation split that comes without the
    [mean_std] of the training data. *)
Theorem load_dataset_needs_input (rotate : image -> Z -> image)
    (ds : list (image * Z)) (pin_memory : bool) :
  test_set_ok ds ->
  (forall train mean_std, load_dataset rotate [] train pin_memory mean_std = Raises) /\
  load_dataset rotate ds false pin_memory None = Raises.
Proof.
  intros Hok. split.
  - intros train mean_std. unfold load_dataset. destruct train; reflexivity.
  - destruct (load_dataset_test_ok rotate pin_memory 0 Hok R1_neq_R0)
      as (mini & maxi & Hmin & Hmax & _ & Hmaxi & _ & _).
    destruct Hok as (Hne & (sh & Hsh) & _).
    unfold load_dataset. rewrite read_images_test. cbn [bind].
    rewrite (collate_images_Ok (sh := sh)).
    + cbn [bind]. fold (flat_pixels (map fst ds)). rewrite Hmax, Hmin.
      cbn [bind sub_scalar]. rewrite div_scalar_Ok by lra. reflexivity.
    + destruct ds; [congruence | discriminate].
    + apply Forall_map. exact Hsh.
Qed.

Lemma load_dataset_needs_input_witness :
  (forall train mean_std, load_dataset no_rotation [] train false mean_std = Raises) /\
  load_dataset no_rotation sample_test false false None = Raises.
Proof.
  apply (@load_dataset_needs_input no_rotation sample_test false sample_test_ok).
Defined.

(** X15: the training load takes 28 x 28 images only, since its border
    variants are built from blocks of that size; the validation load takes
    images of any one shape.  An image of another size in the training
    set, or two images of different shapes in the validation set, make
    [load_dataset] raise. *)
Theorem load_dataset_rejects_odd_shapes (rotate : image -> Z -> image)
    (T V : list (image * Z)) (pin_memory : bool) (mean_std : option (fscalar * fscalar))
    (img : image) (label : Z) (c : nat) (img1 img2 : image) (label1 label2 : Z) :
  In (img, label) T -> Forall (fun r => length r = c) img ->
  length img <> 28%nat \/ c <> 28%nat ->
  In (img1, label1) V -> In (img2, label2) V ->
  image_shape img1 <> image_shape img2 ->
  load_dataset rotate T true pin_memory mean_std = Raises /\
  load_dataset rotate V false pin_memory mean_std = Raises.
Proof.
  intros Hin Hrect Hodd H1 H2 Hne. split.
  - unfold load_dataset.
    rewrite (@read_images_raises rotate true T img label Hin
               (@read_image_odd_shape rotate img label c Hrect Hodd)).
    reflexivity.
  - unfold load_dataset. rewrite read_images_test. cbn [bind].
    rewrite (@collate_images_raises (map fst V) img1 img2); [reflexivity| | |exact Hne].
    + apply (in_map fst) in H1. exact H1.
    + apply (in_map fst) in H2. exact H2.
Qed.

Lemma load_dataset_rejects_odd_shapes_witness :
  load_dataset no_rotation [([[1; 2]; [3; 4]]%Z, 0%Z)] true false None = Raises /\
  load_dataset no_rotation [([[0]]%Z, 1%Z); ([[0; 0]]%Z, 2%Z)] false false None = Raises.
Proof.
  apply (@load_dataset_rejects_odd_shapes no_rotation
           [([[1; 2]; [3; 4]]%Z, 0%Z)] [([[0]]%Z, 1%Z); ([[0; 0]]%Z, 2%Z)] false None
           [[1; 2]; [3; 4]]%Z 0%Z 2 [[0]]%Z [[0; 0]]%Z 1%Z 2%Z).
  - left. reflexivity.
  - repeat constructor.
  - left. cbn. lia.
  - left. reflexivity.
  - right. left. reflexivity.
  - cbn. discriminate.
Defined.

(** ** The learning rate of an epoch *)

Lemma div60_step (e : nat) :
  ((e + 1) / 60 = if (e + 1) mod 60 =? 0 then e / 60 + 1 else e / 60)%nat.
Proof.
  pose proof (Nat.div_mod_eq e 60) as He.
  pose proof (Nat.mod_upper_bound e 60 ltac:(lia)) as Hr.
  pose proof (Nat.div_mod_eq (e + 1) 60) as He1.
  pose proof (Nat.mod_upper_bound (e + 1) 60 ltac:(lia)) as Hr1.
  destruct (Nat.eqb_spec ((e + 1) mod 60) 0) as [E|E]; lia.
Qed.

Lemma train_epochs_rate (x_train : mat) (y_train_labels : list Z) (y_train : mat)
    (x_test : mat) (y_test : list Z) (mu : R) (batch_size eval_batch_size : nat) (wd : R)
    (n lo : nat) (weights : mat * mat) (biases : vec * vec) (out : list report) :
  train_epochs x_train y_train_labels y_train x_test y_test (seq lo n)
    weights biases (mu * 0.2 ^ (lo / 60)) batch_size eval_batch_size wd out =
  train_epochs_at (fun epoch => mu * 0.2 ^ ((epoch + 1) / 60))
    x_train y_train_labels y_train x_test y_test (seq lo n)
    weights biases batch_size eval_batch_size wd out.
Proof.
  revert lo weights biases out. induction n as [|n IH]; intros lo weights biases out;
    [reflexivity|].
  cbn [seq train_epochs train_epochs_at].
  assert (E : (if ((lo + 1) mod 60 =? 0)%nat
               then mu * 0.2 ^ (lo / 60) * 0.2 else mu * 0.2 ^ (lo / 60))
              = mu * 0.2 ^ ((lo + 1) / 60)).
  { rewrite (div60_step lo). destruct ((lo + 1) mod 60 =? 0)%nat; [|reflexivity].
    rewrite pow_add. ring. }
  rewrite E.
  destruct (train_perceptron _ _ _ _ _ _ _) as [[[w' b'] loss]| |]; cbn [bind];
    try reflexivity.
  destruct (evaluate x_test _ _ _ _) as [[a1 l1]| |]; cbn [bind]; try reflexivity.
  destruct (evaluate x_train _ _ _ _) as [[a2 l2]| |]; cbn [bind]; try reflexivity.
  replace (lo + 1)%nat with (S lo) by lia. apply IH.
Qed.

(** X16: [train] runs epoch [e] (counted from 0) with the learning rate
    [mu * 0.2 ^ ((e + 1) / 60)], division rounding down: the rate is cut to
    a fifth before epochs 59, 119, 179, ... are trained, not after them. *)
Theorem learning_rate_schedule (x_train : mat) (y_train_labels : list Z) (y_train : mat)
    (x_test : mat) (y_test : list Z) (epochs : nat)
    (weights : mat * mat) (biases : vec * vec) (mu : R)
    (batch_size eval_batch_size : nat) (wd : R) :
  train_epochs x_train y_train_labels y_train x_test y_test (seq 0 epochs)
    weights biases mu batch_size eval_batch_size wd [] =
  train_epochs_at (fun epoch => mu * 0.2 ^ ((epoch + 1) / 60))
    x_train y_train_labels y_train x_test y_test (seq 0 epochs)
    weights biases batch_size eval_batch_size wd [].
Proof.
  rewrite <- train_epochs_rate. do 2 f_equal.
  change (0 / 60)%nat with 0%nat. cbn [pow]. ring.
Qed.

(** ** The Jacobian of the softmax *)

Lemma diag_embed_shape (r : vec) : shape (length r) (length r) (diag_embed r).
Proof.
  unfold diag_embed. split; [rewrite length_map, length_seq; reflexivity|].
  apply Forall_map. apply Forall_forall. intros i _. rewrite length_map, length_seq.
  reflexivity.
Qed.

Lemma outer_shape (r : vec) : shape (length r) (length r) (matmul (transpose [r]) [r]).
Proof.
  unfold matmul, transpose. cbn [width]. split.
  - rewrite !length_map, length_seq. reflexivity.
  - apply Forall_map. apply Forall_forall. intros c _.
    rewrite length_map, length_seq. reflexivity.
Qed.

Lemma outer_entry (r : vec) (i j : nat) :
  (i < length r)%nat -> (j < length r)%nat ->
  entry (matmul (transpose [r]) [r]) i j = nth i r 0 * nth j r 0.
Proof.
  intros Hi Hj. unfold entry, matmul, transpose. cbn [width].
  rewrite (nth_map_lt _ (map (fun j0 => column j0 [r]) (seq 0 (length r))) [] [])
    by (rewrite length_map, length_seq; exact Hi).
  rewrite (nth_map_lt (fun j0 => column j0 [r]) (seq 0 (length r)) 0%nat [])
    by (rewrite length_seq; exact Hi).
  rewrite (nth_map_lt _ (seq 0 (length r)) 0%nat 0) by (rewrite length_seq; exact Hj).
  rewrite !seq_nth by assumption. cbn [Nat.add column map].
  unfold dot, rsum. cbn [zip_with fold_right]. ring.
Qed.

Lemma diag_embed_entry (r : vec) (i j : nat) :
  (i < length r)%nat -> (j < length r)%nat ->
  entry (diag_embed r) i j = if Nat.eqb i j then nth i r 0 else 0.
Proof.
  intros Hi Hj. unfold entry, diag_embed.
  rewrite (nth_map_lt _ (seq 0 (length r)) 0%nat []) by (rewrite length_seq; exact Hi).
  rewrite (nth_map_lt _ (seq 0 (length r)) 0%nat 0) by (rewrite length_seq; exact Hj).
  rewrite !seq_nth by assumption. reflexivity.
Qed.

Lemma entry_zip_minus (r c : nat) (a b : mat) (i j : nat) :
  shape r c a -> shape r c b -> (i < r)%nat -> (j < c)%nat ->
  entry (zip_with (zip_with Rminus) a b) i j = entry a i j - entry b i j.
Proof.
  intros Ha Hb Hi Hj. unfold entry.
  rewrite zip_with_nth with (da := []) (db := [])
    by (rewrite ?(proj1 Ha), ?(proj1 Hb); exact Hi).
  apply zip_with_nth.
  - rewrite (shape_nth_row Ha Hi). exact Hj.
  - rewrite (shape_nth_row Hb Hi). exact Hj.
Qed.

Lemma rsum_indicator (n i : nat) (v : R) :
  (i < n)%nat -> rsum (map (fun j => if Nat.eqb i j then v else 0) (seq 0 n)) = v.
Proof.
  intros Hi.
  assert (G : forall len a, rsum (map (fun j => if Nat.eqb i j then v else 0) (seq a len))
                            = if ((a <=? i) && (i <? a + len))%nat then v else 0).
  { induction len as [|len IH]; intros a.
    - cbn [seq map]. destruct (a <=? i)%nat eqn:E1; cbn [andb]; [|reflexivity].
      destruct (i <? a + 0)%nat eqn:E2; [|reflexivity].
      apply Nat.leb_le in E1. apply Nat.ltb_lt in E2. lia.
    - cbn [seq map]. rewrite rsum_cons, IH.
      destruct (Nat.eqb_spec i a) as [->|Hne].
      + destruct (Nat.leb_spec (S a) a); [lia|]. cbn [andb].
        destruct (Nat.leb_spec a a); [|lia]. destruct (Nat.ltb_spec a (a + S len)); [|lia].
        cbn [andb]. ring.
      + destruct (Nat.leb_spec (S a) i), (Nat.leb_spec a i),
          (Nat.ltb_spec i (S a + len)), (Nat.ltb_spec i (a + S len));
          cbn [andb]; try ring; lia. }
  rewrite G. destruct (Nat.leb_spec 0 i); [|lia]. destruct (Nat.ltb_spec i (0 + n)); [|lia].
  reflexivity.
Qed.

Lemma deriv_activation_Ok (y : mat) :
  deriv_activation y =
    Ok (map (fun r => zip_with (zip_with Rminus) (diag_embed r) (matmul (transpose [r]) [r]))
            y).
Proof.
  unfold deriv_activation. apply mapM_Ok_pointwise. intros r _.
  assert (Hm : matmul_chk (transpose [r]) [r] = Ok (matmul (transpose [r]) [r])).
  { unfold matmul_chk. replace (forallb _ (transpose [r])) with true; [reflexivity|].
    symmetry. apply forallb_forall. intros c Hc. unfold transpose in Hc.
    apply in_map_iff in Hc. destruct Hc as (j & <- & _). reflexivity. }
  rewrite Hm. cbn [bind].
  apply (msub_chk_Ok (diag_embed_shape r) (outer_shape r)).
Qed.

(** X17: [deriv_activation] returns, for every row [r] of its argument, the
    square matrix with entry [(i = j ? r_i : 0) - r_i * r_j]; it never
    raises.  The matrix is symmetric and its row [i] sums to
    [r_i * (1 - sum r)]: for the output of [activate], whose rows sum to
    one, every row of every matrix sums to zero. *)
Theorem deriv_activation_jacobian (y : mat) :
  exists J,
    deriv_activation y = Ok J /\ length J = length y /\
    forall k, (k < length y)%nat ->
      let r := nth k y [] in
      let Jk := nth k J [] in
      shape (length r) (length r) Jk /\
      (forall i j, (i < length r)%nat -> (j < length r)%nat ->
         entry Jk i j = (if Nat.eqb i j then nth i r 0 else 0) - nth i r 0 * nth j r 0 /\
         entry Jk i j = entry Jk j i) /\
      (forall i, (i < length r)%nat ->
         rsum (nth i Jk []) = nth i r 0 * (1 - rsum r) /\
         ((exists z, y = activate z) -> rsum (nth i Jk []) = 0)).
Proof.
  eexists. split; [apply deriv_activation_Ok|]. split; [apply length_map|].
  intros k Hk r Jk.
  set (f := fun r => zip_with (zip_with Rminus) (diag_embed r) (matmul (transpose [r]) [r])).
  assert (EJ : Jk = f r).
  { unfold Jk, r. apply (nth_map_lt f y [] []). exact Hk. }
  assert (Hsh : shape (length r) (length r) (f r)).
  { unfold f. apply shape_zip_with; [apply diag_embed_shape | apply outer_shape]. }
  assert (Hent : forall i j, (i < length r)%nat -> (j < length r)%nat ->
            entry (f r) i j = (if Nat.eqb i j then nth i r 0 else 0) - nth i r 0 * nth j r 0).
  { intros i j Hi Hj. unfold f.
    rewrite (entry_zip_minus (diag_embed_shape r) (outer_shape r) Hi Hj).
    rewrite diag_embed_entry, outer_entry by assumption. reflexivity. }
  rewrite EJ. split; [exact Hsh|]. split.
  - intros i j Hi Hj. split; [apply Hent; assumption|].
    rewrite !Hent by assumption. rewrite (Nat.eqb_sym j i).
    destruct (Nat.eqb_spec i j) as [->|_]; ring.
  - intros i Hi.
    assert (Hrow : rsum (nth i (f r) []) = nth i r 0 * (1 - rsum r)).
    { rewrite (rsum_row_by_index (f r) i (shape_nth_row Hsh Hi)).
      rewrite (rsum_map_ext_in _
                 (fun j => (if Nat.eqb i j then nth i r 0 else 0)
                           + (- nth i r 0) * nth j r 0)).
      - rewrite rsum_map_plus, rsum_map_mult_l, (rsum_indicator (nth i r 0) Hi).
        rewrite <- rsum_by_index. ring.
      - intros j Hj. apply in_seq in Hj. rewrite Hent by lia. ring. }
    split; [exact Hrow|]. intros Hone. rewrite Hrow.
    assert (H1 : rsum r = 1).
    { destruct Hone as (z & Ez).
      assert (Hin : In r (activate z)).
      { rewrite <- Ez. unfold r. apply nth_In. exact Hk. }
      unfold activate in Hin. apply in_map_iff in Hin. destruct Hin as (row & Er & _).
      rewrite <- Er. apply softmax_row_sum. intros E0. rewrite E0 in Er.
      rewrite <- Er in Hi. cbn in Hi. lia. }
    rewrite H1. ring.
Qed.

(** ** Objects a training step leaves alone *)

Lemma keeps_ret {A : Type} (l : loc) (a : A) : keeps l (ret a).
Proof. intros h t a' h' Hl E. injection E as _ <-. exact Hl. Qed.

Lemma keeps_lift {A : Type} (l : loc) (o : outcome A) : keeps l (lift o).
Proof.
  intros h t a h' Hl. unfold lift. destruct o; try discriminate.
  intros E. injection E as _ <-. exact Hl.
Qed.

Lemma keeps_alloc (l : loc) (t0 : tensor) : keeps l (alloc t0).
Proof.
  intros h t a h' Hl. unfold alloc. intros E. injection E as _ <-.
  apply nth_error_grow. exact Hl.
Qed.

Lemma keeps_load2 (l l0 : loc) : keeps l (load2 l0).
Proof.
  intros h t a h' Hl. unfold load2. destruct (nth_error h l0) as [[s|v|m|v]|]; try discriminate.
  intros E. injection E as _ <-. exact Hl.
Qed.

Lemma keeps_load1 (l l0 : loc) : keeps l (load1 l0).
Proof.
  intros h t a h' Hl. unfold load1. destruct (nth_error h l0) as [[s|v|m|v]|]; try discriminate.
  intros E. injection E as _ <-. exact Hl.
Qed.

Lemma keeps_load0 (l l0 : loc) : keeps l (load0 l0).
Proof.
  intros h t a h' Hl. unfold load0. destruct (nth_error h l0) as [[s|v|m|v]|]; try discriminate.
  intros E. injection E as _ <-. exact Hl.
Qed.

Lemma keeps_store (l l0 : loc) (t0 : tensor) : l0 <> l -> keeps l (store l0 t0).
Proof.
  intros Hne h t a h' Hl. unfold store. destruct (l0 <? length h)%nat; [|discriminate].
  intros E. injection E as _ <-. rewrite nth_error_update_neq by exact Hne. exact Hl.
Qed.

Lemma keeps_bindM {A B : Type} (l : loc) (m : M A) (k : A -> M B) :
  keeps l m -> (forall a, keeps l (k a)) -> keeps l (bindM m k).
Proof.
  intros Hm Hk h t b h' Hl. unfold bindM.
  destruct (m h) as [[a h1]| |] eqn:E; try discriminate.
  intros Ek. exact (Hk a h1 t b h' (Hm h t a h1 Hl E) Ek).
Qed.

Ltac keeps_tac :=
  repeat first
    [ apply keeps_ret | apply keeps_lift | apply keeps_alloc
    | apply keeps_load2 | apply keeps_load1 | apply keeps_load0
    | apply keeps_store; congruence
    | apply keeps_bindM; [|intros ?] ].

Lemma train_batch_st_frame (x y_true : mat) (w b : loc * loc) (wv : mat * mat)
    (bv : vec * vec) (mu : R) (bs : nat) (wd : R) (h h' : heap) (loss : R)
    (l : loc) (t : tensor) :
  params_at h w b wv bv ->
  l <> fst w -> l <> snd w -> l <> fst b -> l <> snd b ->
  nth_error h l = Some t ->
  train_batch_st x y_true w b mu bs wd h = Ok (loss, h') ->
  nth_error h' l = Some t.
Proof.
  intros Hp N0 N1 N2 N3 Hl. unfold train_batch_st. unfold bindM at 1.
  rewrite (forward_st_agrees x Hp).
  destruct (forward x wv bv) as [[[[zh yh] z] yhat]| |]; try discriminate.
  match goal with
  | |- context [h ++ ?six] => apply (@nth_error_grow h six) in Hl; revert Hl;
                              generalize (h ++ six); intros h1 Hl E
  end.
  revert E. cbv zeta.
  match goal with
  | |- ?m h1 = Ok (loss, h') -> _ =>
      assert (K : keeps l m) by keeps_tac; exact (K h1 t loss h' Hl)
  end.
Qed.

(** ** One epoch on the store *)

Lemma train_steps_st_agrees (data labels : mat) (steps : list nat) (w b : loc * loc)
    (mu : R) (bs : nat) (wd : R) :
  distinct_params w b ->
  forall (wv : mat * mat) (bv : vec * vec) (losses : list R) (h : heap),
  params_at h w b wv bv ->
  match train_steps data labels steps wv bv mu bs wd losses with
  | Ok (wv', bv', ls) =>
      exists h',
        train_steps_st data labels steps w b mu bs wd losses h = Ok (ls, h') /\
        params_at h' w b wv' bv' /\
        (forall l t, nth_error h l = Some t ->
           l <> fst w -> l <> snd w -> l <> fst b -> l <> snd b ->
           nth_error h' l = Some t)
  | NonFinite => train_steps_st data labels steps w b mu bs wd losses h = NonFinite
  | Raises => train_steps_st data labels steps w b mu bs wd losses h = Raises
  end.
Proof.
  intros Hd. induction steps as [|step steps IH]; intros wv bv losses h Hp.
  - cbn [train_steps train_steps_st]. exists h. split; [reflexivity|].
    split; [exact Hp|]. intros l t Hl _ _ _ _. exact Hl.
  - remember (train_steps_st data labels (step :: steps) w b mu bs wd losses h)
      as out eqn:Eout.
    cbn [train_steps_st] in Eout. cbn [train_steps].
    lift_step Eout. rewrite run_alloc_first in Eout.
    lift_step Eout. alloc_step Eout.
    load_fresh Eout. load_fresh Eout.
    match type of Eout with
    | _ = bindM (train_batch_st ?input ?output _ _ _ _ _) _ (h ++ ?made) =>
        pose proof (train_batch_st_agrees input output mu bs wd
                      (params_at_grow made Hp) Hd) as Hb;
        unfold bindM at 1 in Eout;
        destruct (train_batch input output wv bv mu bs wd) as [[[wv' bv'] loss]| |] eqn:Etb;
          cbn [bind];
          [|rewrite Hb in Eout; exact Eout|rewrite Hb in Eout; exact Eout];
        destruct Hb as (h1 & E1 & Hp1); rewrite E1 in Eout;
        specialize (IH wv' bv' (losses ++ [loss]) h1 Hp1);
        rewrite <- Eout in IH;
        destruct (train_steps data labels steps wv' bv' mu bs wd (losses ++ [loss]))
          as [[[wv'' bv''] ls]| |]; try exact IH;
        destruct IH as (h2 & E2 & Hp2 & Hfr2);
        exists h2; split; [exact E2|]; split; [exact Hp2|];
        intros l t Hl N0 N1 N2 N3; apply Hfr2; try assumption;
        exact (@train_batch_st_frame input output w b wv bv mu bs wd (h ++ made) h1 loss l t
                 (params_at_grow made Hp) N0 N1 N2 N3 (@nth_error_grow h made l t Hl) E1)
    end.
Qed.

(** X18: [train_perceptron] works in place.  On the store it returns the
    loss the value-level function returns and leaves the new parameter
    values in the very objects it was given, so that the caller's lists
    [weights] and [biases] show them; no other object that existed before
    the call is changed.  An abnormal end is the same on both levels. *)
Theorem train_perceptron_in_place (data labels : mat) (w b : loc * loc)
    (wv : mat * mat) (bv : vec * vec) (mu : R) (batch_size : nat) (wd : R) (h : heap) :
  params_at h w b wv bv -> distinct_params w b ->
  (forall wv' bv' loss,
     train_perceptron data labels wv bv mu batch_size wd = Ok (wv', bv', loss) ->
     exists h',
       train_perceptron_st data labels w b mu batch_size wd h = Ok (loss, h') /\
       params_at h' w b wv' bv' /\
       (forall l t, nth_error h l = Some t ->
          l <> fst w -> l <> snd w -> l <> fst b -> l <> snd b ->
          nth_error h' l = Some t)) /\
  (train_perceptron data labels wv bv mu batch_size wd = NonFinite ->
   train_perceptron_st data labels w b mu batch_size wd h = NonFinite) /\
  (train_perceptron data labels wv bv mu batch_size wd = Raises ->
   train_perceptron_st data labels w b mu batch_size wd h = Raises).
Proof.
  intros Hp Hd.
  assert (G : match train_perceptron data labels wv bv mu batch_size wd with
              | Ok (wv', bv', loss) =>
                  exists h',
                    train_perceptron_st data labels w b mu batch_size wd h = Ok (loss, h') /\
                    params_at h' w b wv' bv' /\
                    (forall l t, nth_error h l = Some t ->
                       l <> fst w -> l <> snd w -> l <> fst b -> l <> snd b ->
                       nth_error h' l = Some t)
              | NonFinite =>
                  train_perceptron_st data labels w b mu batch_size wd h = NonFinite
              | Raises => train_perceptron_st data labels w b mu batch_size wd h = Raises
              end).
  { unfold train_perceptron, train_perceptron_st.
    destruct (batch_size =? 0)%nat; [reflexivity|].
    pose proof (train_steps_st_agrees data labels (seq 0 (length data / batch_size))
                  mu batch_size wd Hd [] Hp) as Hs.
    destruct (train_steps data labels _ wv bv mu batch_size wd [])
      as [[[wv' bv'] ls]| |]; cbn [bind].
    - destruct Hs as (h' & E & Hp' & Hfr). rewrite (bindM_Ok E).
      rewrite bindM_lift. destruct (collate_mean ls) as [loss| |]; cbn [bind];
        try reflexivity.
      exists (h' ++ [T0 (Some loss)]). split; [reflexivity|].
      split; [apply params_at_grow; exact Hp'|].
      intros l t Hl N0 N1 N2 N3. apply nth_error_grow. apply Hfr; assumption.
    - unfold bindM. rewrite Hs. reflexivity.
    - unfold bindM. rewrite Hs. reflexivity. }
  destruct (train_perceptron data labels wv bv mu batch_size wd) as [[[wv' bv'] loss]| |].
  - split; [|split; discriminate]. intros wv'' bv'' loss' E.
    injection E as <- <- <-. exact G.
  - split; [discriminate|]. split; [intros _; exact G | discriminate].
  - split; [discriminate|]. split; [discriminate | intros _; exact G].
Qed.

Lemma train_perceptron_in_place_witness :
  let h := [T2 [[1]]; T2 [[0; 0]]; T1 [0]; T1 [0; 0]; T1 [7]] in
  let w := (0%nat, 1%nat) in
  let b := (2%nat, 3%nat) in
  (forall wv' bv' loss,
     train_perceptron sample_x sample_y sample_w sample_b 1 3 (1/100) = Ok (wv', bv', loss) ->
     exists h',
       train_perceptron_st sample_x sample_y w b 1 3 (1/100) h = Ok (loss, h') /\
       params_at h' w b wv' bv' /\
       (forall l t, nth_error h l = Some t ->
          l <> fst w -> l <> snd w -> l <> fst b -> l <> snd b ->
          nth_error h' l = Some t)) /\
  (train_perceptron sample_x sample_y sample_w sample_b 1 3 (1/100) = NonFinite ->
   train_perceptron_st sample_x sample_y w b 1 3 (1/100) h = NonFinite) /\
  (train_perceptron sample_x sample_y sample_w sample_b 1 3 (1/100) = Raises ->
   train_perceptron_st sample_x sample_y w b 1 3 (1/100) h = Raises).
Proof.
  apply (@train_perceptron_in_place sample_x sample_y (0%nat, 1%nat) (2%nat, 3%nat)
           sample_w sample_b 1 3 (1/100)
           [T2 [[1]]; T2 [[0; 0]]; T1 [0]; T1 [0; 0]; T1 [7]]).
  - repeat split; reflexivity.
  - repeat split; cbn [fst snd]; lia.
Defined.

(** ** Runs that end in an exception *)

(** X19: [train_perceptron] needs at least one full batch.  With a batch
    size of zero the division raises; with fewer rows than [batch_size] no
    step is run and [collate] raises on the empty list of losses.  On the
    store the run ends the same way. *)
Theorem train_perceptron_needs_a_full_batch (data labels : mat) (w : mat * mat)
    (b : vec * vec) (mu : R) (batch_size : nat) (wd : R) :
  (length data < batch_size)%nat \/ batch_size = 0%nat ->
  train_perceptron data labels w b mu batch_size wd = Raises /\
  forall (wl bl : loc * loc) (h : heap),
    train_perceptron_st data labels wl bl mu batch_size wd h = Raises.
Proof.
  intros Hsmall. unfold train_perceptron, train_perceptron_st.
  destruct (Nat.eqb_spec batch_size 0) as [E|E]; [split; reflexivity|].
  assert (Hlt : (length data < batch_size)%nat) by (destruct Hsmall; [assumption | lia]).
  rewrite (Nat.div_small _ _ Hlt). split; reflexivity.
Qed.

Lemma train_perceptron_needs_a_full_batch_witness :
  train_perceptron sample_x sample_y sample_w sample_b 1 4 0 = Raises /\
  forall (wl bl : loc * loc) (h : heap),
    train_perceptron_st sample_x sample_y wl bl 1 4 0 h = Raises.
Proof.
  apply (@train_perceptron_needs_a_full_batch sample_x sample_y sample_w sample_b 1 4 0).
  left. cbn. lia.
Defined.

(** X20: [evaluate] raises on a batch size of zero ([range] with a zero
    step) and on data without rows (the accuracy is a division by the
    number of rows). *)
Theorem evaluate_raises_without_rows (data : mat) (labels : list Z) (w : mat * mat)
    (b : vec * vec) (batch_size : nat) :
  evaluate data labels w b 0 = Raises /\
  evaluate [] labels w b batch_size = Raises /\
  forall (wl bl : loc * loc) (h : heap),
    evaluate_st data labels wl bl 0 h = Raises /\
    evaluate_st [] labels wl bl batch_size h = Raises.
Proof.
  assert (E : range_step 0 batch_size = []).
  { unfold range_step. destruct batch_size as [|n]; [reflexivity|].
    cbn [length Nat.add]. rewrite Nat.div_small by lia. reflexivity. }
  split; [reflexivity|]. split.
  - unfold evaluate. destruct (batch_size =? 0)%nat; [reflexivity|].
    cbn [length]. rewrite E. reflexivity.
  - intros wl bl h. split; [reflexivity|].
    unfold evaluate_st. destruct (batch_size =? 0)%nat; [reflexivity|].
    cbn [length]. rewrite E. reflexivity.
Qed.

Section BatchSizeMismatch.

Variables (B D H O : nat) (x y_true : mat) (w : mat * mat) (b : vec * vec).
Variables (mu wd : R) (z_h y_h_hat z y_hat : mat) (batch_size : nat).

Hypothesis Hnet : network_shape D H O w b.
Hypothesis Hx : shape B D x.
Hypothesis Hy : shape B O y_true.
Hypothesis HB : (0 < B)%nat.
Hypothesis Hfw : forward x w b = Ok (z_h, y_h_hat, z, y_hat).

(** X21: the argument [batch_size] of [train_batch] has to be the number of
    rows of the batch: with any other value the step raises, at the latest
    where the gradient of [w[1]] multiplies the transposed hidden
    activations with [batch_size] copies of the mean error. *)
Theorem train_batch_needs_matching_batch_size :
  batch_size <> B ->
  train_batch x y_true w b mu batch_size wd = Raises.
Proof.
  intros Hbs.
  destruct (forward_shapes Hnet Hx Hfw) as (Hzh & Hyh & Hz & Hyhat).
  pose proof Hnet as (Hw0 & Hb0 & Hw1 & Hb1 & HD & HH & HO).
  set (error := zip_with (zip_with Rminus) y_true y_hat).
  assert (Herr : shape B O error) by (apply shape_zip_with; assumption).
  pose proof (shape_transpose Hw1 HH) as Hw1t.
  unfold train_batch. rewrite Hfw. cbn [bind].
  rewrite (msub_chk_Ok Hy Hyhat). cbn [bind]. fold error.
  assert (Hce : exists ce, cross_entropy_prob y_hat y_true = Ok ce).
  { unfold cross_entropy_prob. rewrite (same_shape_true Hyhat Hy).
    destruct y_hat as [|r0 y_hat']; [destruct Hyhat as [Hl _]; simpl in Hl; lia|].
    eexists. reflexivity. }
  destruct Hce as [ce Hce]. rewrite Hce. cbn [bind].
  rewrite (matmul_chk_Ok (transpose (snd w)) Herr (proj1 Hw1t)). cbn [bind].
  assert (Hr : forall A (o : outcome A), o <> NonFinite ->
               forall k : A -> outcome ((mat * mat) * (vec * vec) * R),
               (forall a, k a = Raises) -> bind o k = Raises).
  { intros A o Ho k Hk. destruct o; cbn [bind]; [apply Hk | congruence | reflexivity]. }
  apply Hr.
  { unfold reshape. destruct (batch_size =? 0)%nat; [discriminate|].
    destruct (_ =? 0)%nat; discriminate. }
  intros mask. apply Hr.
  { unfold mmul_chk. destruct (same_shape _ mask); discriminate. }
  intros error_h. rewrite (mean0_Ok Herr HB). cbn [bind].
  assert (Hg : matmul_chk (transpose y_h_hat)
                 (repeat (map (fun j => rsum (column j error) / INR B) (seq 0 O)) batch_size)
               = Raises).
  { unfold matmul_chk. rewrite repeat_length.
    pose proof (shape_transpose Hyh HB) as [Hl Hrows].
    destruct (transpose y_h_hat) as [|r0 rest]; [cbn in Hl; lia|].
    pose proof (Forall_inv Hrows) as Hr0. cbv beta in Hr0. cbn [forallb]. rewrite Hr0.
    destruct (Nat.eqb_spec B batch_size); [congruence | reflexivity]. }
  rewrite Hg. reflexivity.
Qed.

End BatchSizeMismatch.

Lemma train_batch_needs_matching_batch_size_witness :
  train_batch sample_x sample_y sample_w sample_b 1 1 0 = Raises.
Proof.
  destruct sample_shapes as (Hnet & Hx & Hy).
  apply (@train_batch_needs_matching_batch_size 3 1 1 2 sample_x sample_y sample_w
           sample_b 1 0 _ _ _ _ 1 Hnet Hx Hy (Nat.lt_0_succ 2) sample_forward).
  lia.
Defined.

(** ** The two forms of the cross-entropy *)

Lemma dot_indicator (k : nat) (v : vec) :
  (k < length v)%nat ->
  dot (map (fun j => if Nat.eqb k j then 1 else 0) (seq 0 (length v))) v = nth k v 0.
Proof.
  intros Hk. unfold dot.
  assert (G : forall (u : vec) (a : nat),
            rsum (zip_with Rmult (map (fun j => if Nat.eqb k j then 1 else 0)
                                      (seq a (length u))) u)
            = if ((a <=? k) && (k <? a + length u))%nat then nth (k - a) u 0 else 0).
  { induction u as [|e u IH]; intros a.
    - cbn [length seq map zip_with]. destruct (_ && _)%bool; [destruct (k - a)%nat|]; reflexivity.
    - cbn [length seq map zip_with]. rewrite rsum_cons, IH.
      destruct (Nat.eqb_spec k a) as [->|Hne].
      + rewrite Nat.sub_diag. cbn [nth].
        destruct (Nat.leb_spec (S a) a); [lia|]. cbn [andb].
        destruct (Nat.leb_spec a a); [|lia]. destruct (Nat.ltb_spec a (a + S (length u))); [|lia].
        cbn [andb]. ring.
      + destruct (Nat.leb_spec (S a) k), (Nat.leb_spec a k),
          (Nat.ltb_spec k (S a + length u)), (Nat.ltb_spec k (a + S (length u)));
          cbn [andb]; try lia; try ring.
        replace (k - a)%nat with (S (k - S a)) by lia. cbn [nth]. ring. }
  rewrite G. destruct (Nat.leb_spec 0 k); [|lia].
  destruct (Nat.ltb_spec k (0 + length v)); [|lia]. cbn [andb].
  rewrite Nat.sub_0_r. reflexivity.
Qed.

Lemma nll_terms_one_hot (n : nat) (input : mat) (target : list Z) :
  Forall (fun i => length i = n) input ->
  Forall (fun t => (0 <= t < Z.of_nat n)%Z) target ->
  length input = length target ->
  nll_terms input target =
    Ok (zip_with (fun i t =>
                    - dot t (log_softmax i)) input
                 (map (fun l => map (fun j => if Nat.eqb (Z.to_nat l) j then 1 else 0)
                                    (seq 0 n)) target)).
Proof.
  intros Hin. revert target. induction Hin as [|i input Hi _ IH]; intros target Ht Hlen.
  - destruct target; [reflexivity | discriminate].
  - destruct target as [|t target]; [discriminate|].
    inversion Ht as [|? ? Ht0 Ht']; subst.
    cbn [nll_terms map zip_with]. rewrite (IH target Ht' ltac:(cbn in Hlen; lia)).
    cbn [bind].
    destruct (Z.eqb_spec t (-100)) as [E|_]; [lia|].
    destruct (Z.leb_spec 0 t); [|lia]. destruct (Z.ltb_spec t (Z.of_nat (length i))); [|lia].
    cbn [andb]. do 3 f_equal.
    assert (Hl : length (log_softmax i) = length i)
      by (unfold log_softmax; apply length_map).
    rewrite <- Hl. symmetry. apply dot_indicator. lia.
Qed.

(** X22: the loss of training and the loss of evaluation are the same
    function of the predictions.  For labels from 0 to the largest one,
    [cross_entropy] with the one-hot rows of [to_one_hot] as float targets
    is [cross_entropy] with the integer labels as targets. *)
Theorem one_hot_loss_is_index_loss (y_hat : mat) (labels : list Z) (m : Z) (oh : mat) :
  zmax labels = Ok m ->
  Forall (fun l => (0 <= l)%Z) labels ->
  to_one_hot labels = Ok oh ->
  shape (length labels) (Z.to_nat (m + 1)) y_hat ->
  cross_entropy_prob y_hat oh = cross_entropy_idx y_hat labels.
Proof.
  intros Hm Hpos Hoh Hy.
  assert (Hne : labels <> []) by (intros ->; discriminate).
  destruct (zmax_spec Hne) as (m' & Hm' & Hin & Hmax).
  rewrite Hm in Hm'. injection Hm' as <-.
  set (n := Z.to_nat (m + 1)) in *.
  assert (Hrange : forall l, In l labels -> (0 <= l <= m)%Z).
  { intros l Hl. rewrite Forall_forall in Hpos. split; [apply Hpos | apply Hmax]; exact Hl. }
  rewrite (@to_one_hot_rows labels m Hm Hrange) in Hoh. injection Hoh as <-. fold n.
  set (rows := map (fun l => map (fun j => if Nat.eqb (Z.to_nat l) j then 1 else 0)
                                 (seq 0 n)) labels).
  assert (Hrows : shape (length labels) n rows).
  { unfold rows. split; [apply length_map|]. apply Forall_map. apply Forall_forall.
    intros l _. rewrite length_map, length_seq. reflexivity. }
  unfold cross_entropy_prob, cross_entropy_idx.
  rewrite (same_shape_true Hy Hrows), (proj1 Hy), Nat.eqb_refl.
  rewrite (@nll_terms_one_hot n y_hat labels (proj2 Hy)).
  - cbn [bind]. fold rows.
    assert (Hl : length (zip_with (fun i t => - dot t (log_softmax i)) y_hat rows)
                 = length y_hat).
    { rewrite zip_with_length, (proj1 Hy), (proj1 Hrows). lia. }
    destruct y_hat as [|i0 y_hat']; [destruct labels; [congruence | destruct Hy; discriminate]|].
    destruct rows as [|r0 rows'] eqn:Er; [destruct Hrows as [Hr _]; destruct labels; [congruence|discriminate]|].
    cbn [zip_with] in Hl |- *. rewrite Hl, ?(proj1 Hy). reflexivity.
  - apply Forall_forall. intros l Hl. specialize (Hrange l Hl). unfold n. lia.
  - exact (proj1 Hy).
Qed.

Lemma one_hot_loss_is_index_loss_witness :
  cross_entropy_prob [[1/2; 1/2]; [1/2; 1/2]; [1/2; 1/2]] sample_y
    = cross_entropy_idx [[1/2; 1/2]; [1/2; 1/2]; [1/2; 1/2]] [0; 0; 1]%Z.
Proof.
  apply (@one_hot_loss_is_index_loss [[1/2; 1/2]; [1/2; 1/2]; [1/2; 1/2]] [0; 0; 1]%Z 1%Z
           sample_y).
  - reflexivity.
  - repeat constructor; lia.
  - unfold to_one_hot. cbn [zmax fold_left bind Z.max Z.compare Pos.compare
                          Pos.compare_cont Z.add Pos.add Z.ltb].
    reflexivity.
  - repeat constructor.
Defined.

(** ** The arg-max of a row *)

Lemma argmax_from_first_largest (l pre : vec) (best : R) (besti : nat) :
  (besti < length pre)%nat -> nth besti pre 0 = best ->
  (forall j, (j < length pre)%nat -> nth j pre 0 <= best) ->
  (forall j, (j < besti)%nat -> nth j pre 0 < best) ->
  first_largest (pre ++ l) (argmax_from best besti (length pre) l).
Proof.
  revert pre best besti. induction l as [|v l IH]; intros pre best besti Hb Hn Hle Hlt.
  - cbn [argmax_from]. rewrite app_nil_r. repeat split.
    + exact Hb.
    + intros j Hj. rewrite Hn. apply Hle. exact Hj.
    + intros j Hj. rewrite Hn. apply Hlt. exact Hj.
  - cbn [argmax_from].
    replace (pre ++ v :: l) with ((pre ++ [v]) ++ l) by (rewrite <- app_assoc; reflexivity).
    assert (Hlen : length (pre ++ [v]) = S (length pre))
      by (rewrite length_app; cbn [length]; lia).
    assert (Hv : nth (length pre) (pre ++ [v]) 0 = v)
      by (rewrite app_nth2 by lia; rewrite Nat.sub_diag; reflexivity).
    rewrite <- Hlen.
    destruct (Rlt_dec best v) as [L|L].
    + apply IH.
      * lia.
      * exact Hv.
      * intros j Hj. rewrite Hlen in Hj.
        destruct (Nat.eq_dec j (length pre)) as [->|Hne]; [rewrite Hv; lra|].
        rewrite app_nth1 by lia. specialize (Hle j ltac:(lia)). lra.
      * intros j Hj. rewrite app_nth1 by lia. specialize (Hle j Hj). lra.
    + apply IH.
      * lia.
      * rewrite app_nth1 by lia. exact Hn.
      * intros j Hj. rewrite Hlen in Hj.
        destruct (Nat.eq_dec j (length pre)) as [->|Hne]; [rewrite Hv; lra|].
        rewrite app_nth1 by lia. apply Hle. lia.
      * intros j Hj. rewrite app_nth1 by lia. apply Hlt. exact Hj.
Qed.

Lemma first_largest_unique (r : vec) (p q : nat) :
  first_largest r p -> first_largest r q -> p = q.
Proof.
  intros (Hp & Hple & Hplt) (Hq & Hqle & Hqlt).
  destruct (Nat.lt_trichotomy p q) as [L|[E|L]]; [|exact E|].
  - specialize (Hqlt p L). specialize (Hple q Hq). lra.
  - specialize (Hplt q L). specialize (Hqle p Hp). lra.
Qed.

(** [argmax] returns the position of the first largest entry, and nothing
    else. *)
Lemma argmax_first_largest (r : vec) (p : nat) :
  first_largest r p -> argmax r = Ok p.
Proof.
  intros Hp. destruct r as [|v l]; [destruct Hp as (H & _); cbn in H; lia|].
  cbn [argmax]. f_equal.
  apply (@first_largest_unique (v :: l)); [|exact Hp].
  apply (@argmax_from_first_largest l [v] v 0%nat).
  - cbn; lia.
  - reflexivity.
  - intros j Hj. cbn in Hj. destruct j; [cbn; lra | lia].
  - intros j Hj. lia.
Qed.

(** ** The rows of a batch *)

Lemma slice_rows {A : Type} (t : list A) (d : A) (lo hi : nat) :
  slice t lo hi =
  map (fun j => nth (lo + j) t d) (seq 0 (Nat.min (hi - lo) (length t - lo))).
Proof.
  apply (nth_ext _ _ d d).
  - rewrite slice_length, length_map, length_seq. reflexivity.
  - intros j Hj. rewrite slice_length in Hj. unfold slice.
    rewrite nth_firstn. replace (j <? hi - lo)%nat with true
      by (symmetry; apply Nat.ltb_lt; lia).
    rewrite nth_skipn.
    rewrite (nth_map_lt (fun j => nth (lo + j) t d) _ 0%nat d)
      by (rewrite length_seq; exact Hj).
    rewrite seq_nth by exact Hj. reflexivity.
Qed.

Lemma slice_batch_rows {A : Type} (t : list A) (d : A) (bs k : nat) :
  slice t (k * bs) (k * bs + bs) = batch_rows t d bs k.
Proof.
  rewrite (slice_rows t d). unfold batch_rows.
  replace (k * bs + bs - k * bs)%nat with bs by lia. reflexivity.
Qed.

Lemma length_batch_rows {A : Type} (t : list A) (d : A) (bs k : nat) :
  length (batch_rows t d bs k) = Nat.min bs (length t - k * bs).
Proof. unfold batch_rows. rewrite length_map, length_seq. reflexivity. Qed.

Lemma nth_batch_rows {A : Type} (t : list A) (d : A) (bs k j : nat) :
  (j < Nat.min bs (length t - k * bs))%nat ->
  nth j (batch_rows t d bs k) d = nth (k * bs + j) t d.
Proof.
  intros Hj. unfold batch_rows.
  rewrite (nth_map_lt (fun j => nth (k * bs + j) t d) _ 0%nat d)
    by (rewrite length_seq; exact Hj).
  rewrite seq_nth by exact Hj. reflexivity.
Qed.

Lemma list_by_index {A : Type} (l : list A) (d : A) :
  l = map (fun j => nth j l d) (seq 0 (length l)).
Proof.
  apply (nth_ext _ _ d d).
  - rewrite length_map, length_seq. reflexivity.
  - intros j Hj.
    rewrite (nth_map_lt (fun j => nth j l d) _ 0%nat d) by (rewrite length_seq; exact Hj).
    rewrite seq_nth by exact Hj. reflexivity.
Qed.

Lemma mapM_by_index {A C : Type} (f : A -> outcome C) (g : nat -> C) (l : list A) (d : A) :
  (forall j, (j < length l)%nat -> f (nth j l d) = Ok (g j)) ->
  mapM f l = Ok (map g (seq 0 (length l))).
Proof.
  intros H. rewrite (list_by_index l d) at 1.
  apply mapM_map_Ok. intros j Hj. apply in_seq in Hj. apply H. lia.
Qed.

(** ** The loss and the correct predictions of a batch *)

Lemma nll_terms_index (input : mat) (target : list Z) :
  length target = length input ->
  (forall j, (j < length input)%nat ->
     (0 <= nth j target 0 < Z.of_nat (length (nth j input [])))%Z) ->
  nll_terms input target =
    Ok (map (fun j => ln (rsum (map exp (nth j input [])))
                      - nth (Z.to_nat (nth j target 0%Z)) (nth j input []) 0)
            (seq 0 (length input))).
Proof.
  revert target. induction input as [|i input IH]; intros [|t target] Hlen Hr;
    try discriminate; [reflexivity|].
  cbn [nll_terms]. rewrite (IH target).
  - cbn [bind]. pose proof (Hr 0%nat ltac:(cbn; lia)) as H0. cbn [nth] in H0.
    replace (t =? -100)%Z with false by (symmetry; apply Z.eqb_neq; lia).
    replace ((0 <=? t) && (t <? Z.of_nat (length i)))%Z with true
      by (symmetry; apply andb_true_iff; split; [apply Z.leb_le | apply Z.ltb_lt]; lia).
    f_equal. cbn [length seq map nth]. f_equal.
    + unfold log_softmax.
      rewrite (nth_map_lt (fun v => v - ln (rsum (map exp i))) i 0 0) by lia. ring.
    + rewrite <- seq_shift, map_map. reflexivity.
  - cbn in Hlen. lia.
  - intros j Hj. apply (Hr (S j)). cbn. lia.
Qed.

Lemma count_by_index (p : nat -> nat) (y : list Z) (n : nat) :
  length y = n ->
  length (filter (fun py => (Z.of_nat (fst py) =? snd py)%Z) (combine (map p (seq 0 n)) y))
  = length (filter (fun j => (Z.of_nat (p j) =? nth j y 0%Z)%Z) (seq 0 n)).
Proof.
  intros Hn. rewrite (list_by_index y 0%Z) at 1. rewrite Hn.
  rewrite combine_map_l || idtac.
  assert (E : combine (map p (seq 0 n)) (map (fun j => nth j y 0%Z) (seq 0 n))
              = map (fun j => (p j, nth j y 0%Z)) (seq 0 n)).
  { generalize (seq 0 n). intros s. induction s as [|a s IH]; [reflexivity|].
    cbn [map combine]. rewrite IH. reflexivity. }
  rewrite E, filter_map_swap, length_map. reflexivity.
Qed.

Lemma cross_entropy_idx_index (input : mat) (target : list Z) :
  length target = length input -> (0 < length input)%nat ->
  (forall j, (j < length input)%nat ->
     (0 <= nth j target 0 < Z.of_nat (length (nth j input [])))%Z) ->
  cross_entropy_idx input target =
    Ok (sum_over (length input)
          (fun j => ln (rsum (map exp (nth j input [])))
                    - nth (Z.to_nat (nth j target 0%Z)) (nth j input []) 0)
        / INR (length input)).
Proof.
  intros Hlen Hpos Hr. unfold cross_entropy_idx.
  rewrite Hlen, Nat.eqb_refl, (nll_terms_index input target Hlen Hr). cbn [bind].
  unfold sum_over. destruct (length input) as [|n]; [lia|].
  cbn [seq map length]. rewrite length_map, length_seq. reflexivity.
Qed.

Lemma count_correct_index (y_hat : mat) (y : list Z) (pred : nat -> nat) :
  length y = length y_hat ->
  (forall j, (j < length y_hat)%nat -> first_largest (nth j y_hat []) (pred j)) ->
  count_correct y_hat y =
    Ok (length (filter (fun j => (Z.of_nat (pred j) =? nth j y 0%Z)%Z)
                       (seq 0 (length y_hat)))).
Proof.
  intros Hlen Hp. unfold count_correct.
  rewrite (mapM_by_index argmax pred y_hat []).
  2: { intros j Hj. apply argmax_first_largest. apply (Hp j Hj). }
  cbn [bind]. rewrite length_map, length_seq, Hlen, Nat.eqb_refl.
  rewrite (count_by_index pred y Hlen). reflexivity.
Qed.

Lemma evaluate_batch_value (data : mat) (labels : list Z) (wv : mat * mat)
    (bv : vec * vec) (bs k : nat) (z_h y_h_hat z y_hat : mat) (pred : nat -> nat) :
  length labels = length data ->
  (0 < Nat.min bs (length data - k * bs))%nat ->
  forward (batch_rows data [] bs k) wv bv = Ok (z_h, y_h_hat, z, y_hat) ->
  (forall j, (j < Nat.min bs (length data - k * bs))%nat ->
     first_largest (nth j y_hat []) (pred j) /\
     (0 <= nth (k * bs + j) labels 0 < Z.of_nat (length (nth j y_hat [])))%Z) ->
  evaluate_batch data labels wv bv bs (k * bs) =
    Ok (length (filter (fun j => (Z.of_nat (pred j) =? nth (k * bs + j) labels 0%Z)%Z)
                       (seq 0 (Nat.min bs (length data - k * bs)))),
        sum_over (Nat.min bs (length data - k * bs))
          (fun j => ln (rsum (map exp (nth j y_hat [])))
                    - nth (Z.to_nat (nth (k * bs + j) labels 0%Z)) (nth j y_hat []) 0)
        / INR (Nat.min bs (length data - k * bs))).
Proof.
  intros Hlab Hpos Hfw Hrows. set (len := Nat.min bs (length data - k * bs)) in *.
  unfold evaluate_batch.
  rewrite (slice_batch_rows data []), (slice_batch_rows labels 0%Z), Hfw.
  cbn [bind snd].
  destruct (forward_output_rows _ _ _ Hfw) as [Hlen _].
  rewrite length_batch_rows in Hlen. fold len in Hlen.
  assert (Hly : length (batch_rows labels 0%Z bs k) = len)
    by (rewrite length_batch_rows, Hlab; reflexivity).
  assert (Hy : forall j, (j < len)%nat ->
            nth j (batch_rows labels 0%Z bs k) 0%Z = nth (k * bs + j) labels 0%Z).
  { intros j Hj. apply nth_batch_rows. rewrite Hlab. exact Hj. }
  rewrite cross_entropy_idx_index.
  2: { rewrite Hly, Hlen. reflexivity. }
  2: { rewrite Hlen. exact Hpos. }
  2: { intros j Hj. rewrite Hlen in Hj. rewrite (Hy j Hj). apply (Hrows j Hj). }
  cbn [bind]. rewrite (count_correct_index y_hat _ pred).
  2: { rewrite Hly, Hlen. reflexivity. }
  2: { intros j Hj. rewrite Hlen in Hj. apply (Hrows j Hj). }
  cbn [bind]. rewrite Hlen. f_equal. f_equal.
  - f_equal. apply filter_ext_in. intros j Hj. apply in_seq in Hj.
    rewrite Hy by lia. reflexivity.
  - f_equal. unfold sum_over.
    apply rsum_map_ext_in. intros j Hj. apply in_seq in Hj. rewrite Hy by lia. reflexivity.
Qed.

(** ** The result of [evaluate] and the objects it leaves alone (C9) *)

Lemma count_over_batches (c : nat -> bool) (N bs : nat) :
  (0 < bs)%nat ->
  list_sum (map (fun k => length (filter (fun j => c (k * bs + j)%nat)
                                         (seq 0 (Nat.min bs (N - k * bs)))))
                (seq 0 ((N + bs - 1) / bs)))
  = length (filter c (seq 0 N)).
Proof.
  intros Hbs. pose proof (slices_cover (seq 0 N) Hbs) as Hc.
  rewrite length_seq in Hc. unfold range_step in Hc. rewrite map_map in Hc.
  rewrite <- Hc at 1. rewrite <- concat_filter_map, length_concat_sum, !map_map.
  f_equal. apply map_ext. intros k.
  rewrite (slice_batch_rows (seq 0 N) 0%nat). unfold batch_rows. rewrite length_seq.
  rewrite filter_map_swap, length_map. f_equal.
  apply filter_ext_in. intros j Hj. apply in_seq in Hj.
  rewrite seq_nth by lia. reflexivity.
Qed.

Lemma batch_index (bs k j : nat) :
  (j < bs)%nat -> ((k * bs + j) / bs = k /\ (k * bs + j) mod bs = j)%nat.
Proof.
  intros Hj. split.
  - rewrite Nat.div_add_l by lia. rewrite Nat.div_small by exact Hj. lia.
  - rewrite Nat.add_comm, Nat.Div0.mod_add. apply Nat.mod_small. exact Hj.
Qed.

(** C9: [evaluate] returns the pair of the accuracy and the mean loss.
    The data are cut into batches of [batch_size] consecutive rows (the
    last one shorter when the rows do not divide), so that row [i] of the
    data is row [i mod batch_size] of batch [i / batch_size]; [y_hat k] is
    the output of [forward] for batch [k].  The accuracy is the number of
    rows [i] whose first largest entry of the predicted distribution sits
    at the integer label of the row, divided by the number of rows of the
    data.  The loss is the mean over the batches of the batch
    cross-entropies, each the mean over the rows of the batch of
    [ln (sum_c exp (y_hat c)) - y_hat label].  On the store [evaluate]
    only reads the parameter objects: every object that existed before
    the call, the weights and biases among them, is unchanged afterwards.
    Training for zero epochs changes nothing either, so a second
    evaluation returns the same accuracy and loss. *)
Theorem evaluate_leaves_parameters (data : mat) (labels : list Z) (w b : loc * loc)
    (wv : mat * mat) (bv : vec * vec) (batch_size : nat) (h : heap)
    (y_hat : nat -> mat) (predicted : nat -> nat) :
  params_at h w b wv bv ->
  (0 < batch_size)%nat -> (0 < length data)%nat -> length labels = length data ->
  (forall k, (k < (length data + batch_size - 1) / batch_size)%nat ->
     exists z_h y_h_hat z,
       forward (batch_rows data [] batch_size k) wv bv = Ok (z_h, y_h_hat, z, y_hat k)) ->
  (forall i, (i < length data)%nat ->
     first_largest (nth (i mod batch_size) (y_hat (i / batch_size)%nat) []) (predicted i) /\
     (0 <= nth i labels 0
      < Z.of_nat (length (nth (i mod batch_size) (y_hat (i / batch_size)%nat) [])))%Z) ->
  let batches := ((length data + batch_size - 1) / batch_size)%nat in
  let rows k := Nat.min batch_size (length data - k * batch_size) in
  let correct :=
    filter (fun i => (Z.of_nat (predicted i) =? nth i labels 0%Z)%Z) (seq 0 (length data)) in
  let batch_loss k :=
    sum_over (rows k)
      (fun j => ln (rsum (map exp (nth j (y_hat k) [])))
                - nth (Z.to_nat (nth (k * batch_size + j) labels 0%Z)) (nth j (y_hat k) []) 0)
    / INR (rows k) in
  let r := (INR (length correct) / INR (length data),
            sum_over batches batch_loss / INR batches) in
  evaluate data labels wv bv batch_size = Ok r /\
  exists fresh,
    evaluate_st data labels w b batch_size h = Ok (r, h ++ fresh) /\
    params_at (h ++ fresh) w b wv bv /\
    forall x_train y_train_labels y_train x_test y_test mu train_batch_size
           eval_batch_size wd,
      train_epochs x_train y_train_labels y_train x_test y_test (seq 0 0)
        wv bv mu train_batch_size eval_batch_size wd [] = Ok (wv, bv, []) /\
      train_epochs_st x_train y_train_labels y_train x_test y_test (seq 0 0)
        w b mu train_batch_size eval_batch_size wd [] (h ++ fresh)
        = Ok ([], h ++ fresh) /\
      exists fresh',
        evaluate_st data labels w b batch_size (h ++ fresh)
          = Ok (r, (h ++ fresh) ++ fresh') /\
        params_at ((h ++ fresh) ++ fresh') w b wv bv.
Proof.
  intros Hp Hbs Hlen Hlab Hfw Hrows batches rows correct batch_loss r.
  assert (Hrs : mapM (evaluate_batch data labels wv bv batch_size)
                     (range_step (length data) batch_size)
                = Ok (map (fun k => (length (filter
                                       (fun j => (Z.of_nat (predicted (k * batch_size + j)%nat)
                                                  =? nth (k * batch_size + j) labels 0%Z)%Z)
                                       (seq 0 (rows k))),
                                     batch_loss k)) (seq 0 batches))).
  { unfold range_step. fold batches. apply mapM_map_Ok. intros k Hk.
    apply in_seq in Hk. destruct Hk as [_ Hk]. cbn in Hk.
    destruct (range_step_spec (length data) Hbs) as [_ Hlast]. fold batches in Hlast.
    assert (Hkb : (k * batch_size < length data)%nat) by (destruct Hlast; nia).
    destruct (Hfw k Hk) as (z_h & y_h_hat & z & Ek).
    apply (@evaluate_batch_value data labels wv bv batch_size k z_h y_h_hat z (y_hat k)
             (fun j => predicted (k * batch_size + j)%nat) Hlab).
    - lia.
    - exact Ek.
    - intros j Hj.
      destruct (@batch_index batch_size k j ltac:(lia)) as [Ed Em].
      pose proof (Hrows (k * batch_size + j)%nat ltac:(lia)) as Hr.
      rewrite Ed, Em in Hr. exact Hr. }
  pose proof (@evaluate_from_batches data labels wv bv batch_size _ Hbs Hlen Hrs) as Hev.
  rewrite !map_map in Hev. cbn [fst snd] in Hev. unfold rows, batches in Hev.
  rewrite (count_over_batches
             (fun i => (Z.of_nat (predicted i) =? nth i labels 0%Z)%Z) (length data) Hbs)
    in Hev.
  rewrite length_map, length_seq in Hev.
  change (evaluate data labels wv bv batch_size = Ok r) in Hev.
  split; [exact Hev|].
  pose proof (evaluate_st_agrees data labels batch_size Hp) as H1.
  rewrite Hev in H1. destruct H1 as [fresh H1].
  exists fresh. split; [exact H1|].
  pose proof (params_at_grow fresh Hp) as Hp'. split; [exact Hp'|].
  intros. split; [reflexivity|]. split; [reflexivity|].
  pose proof (evaluate_st_agrees data labels batch_size Hp') as H2.
  rewrite Hev in H2. destruct H2 as [fresh' H2].
  exists fresh'. split; [exact H2 | apply params_at_grow; exact Hp'].
Qed.

Lemma first_largest_softmax (r : vec) (p : nat) :
  first_largest r p -> first_largest (softmax_row r) p.
Proof.
  intros (Hp & Hle & Hlt).
  assert (Hr : r <> []) by (destruct r; [cbn in Hp; lia | discriminate]).
  pose proof (rsum_exp_pos Hr) as Hs.
  assert (Hi : 0 < / rsum (map exp r)) by (apply Rinv_0_lt_compat; exact Hs).
  repeat split.
  - rewrite softmax_row_length. exact Hp.
  - intros j Hj. rewrite softmax_row_length in Hj.
    rewrite !softmax_row_entry by assumption.
    apply Rmult_le_compat_r; [lra|].
    destruct (Hle j Hj) as [L|E]; [left; apply exp_increasing; exact L | right; rewrite E; reflexivity].
  - intros j Hj. rewrite !softmax_row_entry by lia.
    apply Rmult_lt_compat_r; [exact Hi|]. apply exp_increasing. apply Hlt. exact Hj.
Qed.

Lemma sample_forward_first :
  forward [[0]; [1]; [2]] sample_w_signed sample_b =
  Ok ([[0]; [1]; [2]], [[-1]; [0]; [1]], sample_logits 0, activate (sample_logits 0)).
Proof.
  unfold sample_w_signed, sample_b. change (sample_logits 0) with [[-1; 1]; [0; 0]; [1; -1]].
  assert (Hpre : hidden_pre_activation [[0]; [1]; [2]] ([[1]], [[1; -1]]) ([0], [0; 0])
                 = Ok [[0]; [1]; [2]]).
  { eval_layer. f_equal. list_eq; lra. }
  assert (Ha : hidden_activate [[0]; [1]; [2]] = [[0]; [1]; [2]]).
  { cbv [hidden_activate map]. list_eq; apply Rmax0_nonneg; lra. }
  assert (Hsm : std_mean (concat [[0]; [1]; [2]]) = (Some 1, Some 1)).
  { cbv [concat app std_mean length rsum fold_right map INR].
    f_equal; f_equal; [apply sqrt_of_square; lra | lra]. }
  rewrite (forward_stages (z := [[-1; 1]; [0; 0]; [1; -1]]) _ _ _ Hpre Ha Hsm).
  - f_equal. f_equal. f_equal. f_equal. cbv [map]. list_eq; lra.
  - lra.
  - eval_layer. f_equal. list_eq; lra.
Qed.

Lemma sample_forward_second :
  forward [[5]; [3]; [4]] sample_w_signed sample_b =
  Ok ([[5]; [3]; [4]], [[1]; [-1]; [0]], sample_logits 1, activate (sample_logits 1)).
Proof.
  unfold sample_w_signed, sample_b. change (sample_logits 1) with [[1; -1]; [-1; 1]; [0; 0]].
  assert (Hpre : hidden_pre_activation [[5]; [3]; [4]] ([[1]], [[1; -1]]) ([0], [0; 0])
                 = Ok [[5]; [3]; [4]]).
  { eval_layer. f_equal. list_eq; lra. }
  assert (Ha : hidden_activate [[5]; [3]; [4]] = [[5]; [3]; [4]]).
  { cbv [hidden_activate map]. list_eq; apply Rmax0_nonneg; lra. }
  assert (Hsm : std_mean (concat [[5]; [3]; [4]]) = (Some 1, Some 4)).
  { cbv [concat app std_mean length rsum fold_right map INR].
    f_equal; f_equal; [apply sqrt_of_square; lra | lra]. }
  rewrite (forward_stages (z := [[1; -1]; [-1; 1]; [0; 0]]) _ _ _ Hpre Ha Hsm).
  - f_equal. f_equal. f_equal. f_equal. cbv [map]. list_eq; lra.
  - lra.
  - eval_layer. f_equal. list_eq; lra.
Qed.

Lemma first_largest_pair (a c : R) :
  (a < c -> first_largest [a; c] 1) /\ (c <= a -> first_largest [a; c] 0).
Proof.
  split; intros H; repeat split; cbn [length nth].
  - lia.
  - intros [|[|j]] Hj; cbn; try lra; cbn in Hj; lia.
  - intros [|j] Hj; [cbn; exact H | lia].
  - lia.
  - intros [|[|j]] Hj; cbn; try lra; cbn in Hj; lia.
  - intros j Hj. lia.
Qed.

(** The rows of the two sample batches and what they predict. *)
Lemma sample_rows (i : nat) :
  (i < 6)%nat ->
  first_largest (nth (i mod 3) (activate (sample_logits (i / 3))) []) (sample_predicted i) /\
  (0 <= nth i sample_labels 0
   < Z.of_nat (length (nth (i mod 3) (activate (sample_logits (i / 3))) [])))%Z.
Proof.
  intros Hi.
  do 6 (destruct i as [|i];
        [cbn [Nat.modulo Nat.div Nat.divmod fst snd Nat.sub sample_logits Nat.eqb activate
              map nth sample_predicted sample_labels];
         (split; [apply first_largest_softmax; apply first_largest_pair; lra
                 | rewrite softmax_row_length; cbn; lia])|]).
  lia.
Qed.

Lemma evaluate_leaves_parameters_witness :
  let h := [T2 [[1]]; T2 [[1; -1]]; T1 [0]; T1 [0; 0]] in
  let w := (0%nat, 1%nat) in
  let b := (2%nat, 3%nat) in
  let y_hat k := activate (sample_logits k) in
  let batch_loss k :=
    sum_over 3
      (fun j => ln (rsum (map exp (nth j (y_hat k) [])))
                - nth (Z.to_nat (nth (k * 3 + j) sample_labels 0%Z)) (nth j (y_hat k) []) 0)
    / INR 3 in
  let r := (INR 4 / INR 6, sum_over 2 batch_loss / INR 2) in
  evaluate sample_data sample_labels sample_w_signed sample_b 3 = Ok r /\
  exists fresh,
    evaluate_st sample_data sample_labels w b 3 h = Ok (r, h ++ fresh) /\
    params_at (h ++ fresh) w b sample_w_signed sample_b /\
    forall x_train y_train_labels y_train x_test y_test mu train_batch_size
           eval_batch_size wd,
      train_epochs x_train y_train_labels y_train x_test y_test (seq 0 0)
        sample_w_signed sample_b mu train_batch_size eval_batch_size wd []
        = Ok (sample_w_signed, sample_b, []) /\
      train_epochs_st x_train y_train_labels y_train x_test y_test (seq 0 0)
        w b mu train_batch_size eval_batch_size wd [] (h ++ fresh)
        = Ok ([], h ++ fresh) /\
      exists fresh',
        evaluate_st sample_data sample_labels w b 3 (h ++ fresh)
          = Ok (r, (h ++ fresh) ++ fresh') /\
        params_at ((h ++ fresh) ++ fresh') w b sample_w_signed sample_b.
Proof.
  intros h w b y_hat batch_loss r.
  apply (@evaluate_leaves_parameters sample_data sample_labels w b
           sample_w_signed sample_b 3 h y_hat sample_predicted).
  - repeat split; reflexivity.
  - exact (Nat.lt_0_succ 2).
  - exact (Nat.lt_0_succ 5).
  - reflexivity.
  - intros k Hk.
    change ((length sample_data + 3 - 1) / 3)%nat with 2%nat in Hk.
    destruct k as [|[|k]].
    + do 3 eexists. exact sample_forward_first.
    + do 3 eexists. exact sample_forward_second.
    + exfalso. lia.
  - exact sample_rows.
Defined.

(** ** What well-formed shapes guarantee *)

Lemma forward_never_raises (B D H O : nat) (x : mat) (w : mat * mat) (b : vec * vec) :
  network_shape D H O w b -> shape B D x -> forward x w b <> Raises.
Proof.
  intros Hnet Hx. destruct (hidden_pre_activation_Ok Hnet Hx) as [Epre Hpre].
  destruct Hnet as (Hw0 & Hb0 & Hw1 & Hb1 & HD & HH & HO).
  unfold forward.
  destruct (matmul_chk x (fst w)) as [xw| |]; cbn [bind] in Epre |- *; try discriminate.
  rewrite Epre. cbn [bind].
  set (a := hidden_activate _).
  assert (Ha : shape B H a) by (apply shape_map_map; exact Hpre).
  destruct (sub_scalar a _) as [a1| |] eqn:E1; cbn [bind].
  - destruct (div_scalar a1 _) as [a2| |] eqn:E2; cbn [bind].
    + pose proof (div_scalar_shape (sub_scalar_shape Ha E1) E2) as Ha2.
      rewrite (matmul_chk_Ok (snd w) Ha2 (proj1 Hw1)). cbn [bind].
      pose proof (shape_matmul (snd w) Ha2) as Hm. rewrite (shape_width Hw1 HH) in Hm.
      rewrite (add_bias_Ok (snd b) Hm Hb1). cbn [bind]. discriminate.
    + discriminate.
    + unfold div_scalar in E2. destruct (fst (std_mean (concat a))) as [c|].
      * destruct (Req_dec_T c 0); [destruct (no_entries a1)|]; discriminate.
      * destruct (no_entries a1); discriminate.
  - discriminate.
  - unfold sub_scalar in E1. destruct (snd (std_mean (concat a))) as [c|];
      [|destruct (no_entries a)]; discriminate.
Qed.

Lemma forward_wrong_width (x : mat) (w : mat * mat) (b : vec * vec) (row : vec) :
  In row x -> length row <> length (fst w) -> forward x w b = Raises.
Proof.
  intros Hin Hlen. unfold forward, matmul_chk.
  replace (forallb _ x) with false; [reflexivity|].
  symmetry. apply not_true_is_false. intros E. rewrite forallb_forall in E.
  specialize (E row Hin). apply Nat.eqb_eq in E. contradiction.
Qed.

(** X25: with parameters of a network and a batch of the matching width,
    [forward] never raises: it returns four tensors with one row per
    example, of the hidden width for [z_h] and [y_h_hat] and of the number
    of classes for [z] and [y_hat], or it runs into a value that is not
    finite.  A batch with a row of another width makes it raise. *)
Theorem forward_shape_contract (B D H O : nat) (x x' : mat) (w : mat * mat)
    (b : vec * vec) (row : vec) :
  network_shape D H O w b -> shape B D x ->
  In row x' -> length row <> D ->
  forward x w b <> Raises /\
  (forall z_h y_h_hat z y_hat,
     forward x w b = Ok (z_h, y_h_hat, z, y_hat) ->
     shape B H z_h /\ shape B H y_h_hat /\ shape B O z /\ shape B O y_hat) /\
  forward x' w b = Raises.
Proof.
  intros Hnet Hx Hin Hrow. split; [exact (forward_never_raises Hnet Hx)|]. split.
  - intros z_h y_h_hat z y_hat Hfw. exact (forward_shapes Hnet Hx Hfw).
  - apply (@forward_wrong_width x' w b row Hin). destruct Hnet as ((Hl & _) & _).
    rewrite Hl. exact Hrow.
Qed.

Lemma forward_shape_contract_witness :
  forward sample_x sample_w sample_b <> Raises /\
  (forall z_h y_h_hat z y_hat,
     forward sample_x sample_w sample_b = Ok (z_h, y_h_hat, z, y_hat) ->
     shape 3 1 z_h /\ shape 3 1 y_h_hat /\ shape 3 2 z /\ shape 3 2 y_hat) /\
  forward [[1; 2]] sample_w sample_b = Raises.
Proof.
  destruct sample_shapes as (Hnet & Hx & _).
  apply (@forward_shape_contract 3 1 1 2 sample_x [[1; 2]] sample_w sample_b [1; 2] Hnet Hx).
  - left. reflexivity.
  - cbn. lia.
Defined.



(** ** The sweep configuration of [Runner] *)

Section RunnerFacts.

Import Runner.
Local Open Scope string_scope.

Lemma getitem_setitem_eq (d : dict) (k : string) (v : value) :
  getitem (setitem d k v) k = Ok v.
Proof.
  induction d as [|[k' v'] d IH]; cbn [setitem getitem].
  - rewrite String.eqb_refl. reflexivity.
  - destruct (String.eqb k' k) eqn:E; cbn [getitem]; rewrite E; [reflexivity | exact IH].
Qed.

Lemma getitem_setitem_neq (d : dict) (k k' : string) (v : value) :
  k <> k' -> getitem (setitem d k v) k' = getitem d k'.
Proof.
  intros Hne. induction d as [|[k0 v0] d IH]; cbn [setitem getitem].
  - destruct (String.eqb_spec k k'); [contradiction | reflexivity].
  - destruct (String.eqb_spec k0 k) as [->|Hk]; cbn [getitem].
    + destruct (String.eqb_spec k k'); [contradiction | reflexivity].
    + destruct (String.eqb k0 k'); [reflexivity | exact IH].
Qed.

Lemma getitem_app_last (d : dict) (k0 k : string) (v : value) :
  k <> k0 -> getitem (d ++ [(k0, v)])%list k = getitem d k.
Proof.
  intros Hne. induction d as [|[k' v'] d IH]; cbn [app getitem].
  - destruct (String.eqb_spec k0 k); [congruence | reflexivity].
  - destruct (String.eqb k' k); [reflexivity | exact IH].
Qed.

Lemma length_write (l : nat) (d : dict) (s : store) :
  List.length (write l d s) = List.length s.
Proof.
  revert l. induction s as [|c s IH]; intros [|l]; cbn [write List.length];
    try reflexivity.
  rewrite IH. reflexivity.
Qed.

Lemma nth_error_write_eq (l : nat) (d : dict) (s : store) :
  (l < List.length s)%nat -> nth_error (write l d s) l = Some d.
Proof.
  revert l. induction s as [|c s IH]; intros [|l] H; cbn in *; try lia.
  - reflexivity.
  - apply IH. lia.
Qed.

Lemma nth_error_write_neq (l l' : nat) (d : dict) (s : store) :
  l <> l' -> nth_error (write l d s) l' = nth_error s l'.
Proof.
  revert l l'. induction s as [|c s IH]; intros [|l] [|l'] H; cbn; try reflexivity.
  - congruence.
  - apply IH. congruence.
Qed.

Lemma write_old (s rest : store) (l : nat) (d : dict) :
  (l < List.length s)%nat -> write l d (s ++ rest)%list = (write l d s ++ rest)%list.
Proof.
  revert l. induction s as [|c s IH]; intros l Hl; [cbn in Hl; lia|].
  destruct l as [|l]; [reflexivity|]. cbn [app write]. rewrite IH by (cbn in Hl; lia).
  reflexivity.
Qed.

Lemma write_fresh (s rest : store) (n k : nat) (d : dict) :
  List.length s = n -> write (n + k) d (s ++ rest)%list = (s ++ write k d rest)%list.
Proof.
  intros <-. induction s as [|c s IH]; [reflexivity|].
  cbn [List.length Nat.add app write]. rewrite IH. reflexivity.
Qed.

Lemma read_old (s rest : store) (l : nat) (d : dict) :
  nth_error s l = Some d -> read l (s ++ rest)%list = Ok d.
Proof.
  intros E. unfold read. rewrite nth_error_app1, E; [reflexivity|].
  apply nth_error_Some. rewrite E. discriminate.
Qed.

Lemma read_fresh (s rest : store) (n k : nat) (d : dict) :
  List.length s = n -> nth_error rest k = Some d -> read (n + k) (s ++ rest)%list = Ok d.
Proof.
  intros <- E. unfold read. rewrite nth_error_app2 by lia.
  replace (List.length s + k - List.length s)%nat with k by lia. rewrite E. reflexivity.
Qed.

Lemma read_inv (l : nat) (s : store) (d : dict) :
  read l s = Ok d -> nth_error s l = Some d /\ (l < List.length s)%nat.
Proof.
  unfold read. destruct (nth_error s l) as [d'|] eqn:E; [|discriminate].
  intros H. injection H as <-. split; [reflexivity|].
  apply nth_error_Some. rewrite E. discriminate.
Qed.

Lemma new_inner_spec (entries : list (string * dict)) (s : store) :
  new_inner entries s = (refs_from (List.length s) entries, (s ++ map snd entries)%list).
Proof.
  revert s. induction entries as [|[k d] entries IH]; intros s.
  - cbn [new_inner refs_from map]. rewrite app_nil_r. reflexivity.
  - cbn [new_inner new_dict]. unfold new_dict. rewrite IH.
    rewrite length_app, <- app_assoc. cbn [List.length app refs_from map snd].
    replace (List.length s + 1)%nat with (S (List.length s)) by lia. reflexivity.
Qed.

Lemma new_nested_spec (entries : list (string * dict)) (s rest : store) (n : nat) :
  List.length s = n ->
  new_nested entries (s ++ rest)%list =
    ((n + (List.length rest + List.length entries))%nat,
     (s ++ (rest ++ map snd entries ++ [refs_from (n + List.length rest) entries]))%list).
Proof.
  intros <-. unfold new_nested. rewrite new_inner_spec. unfold new_dict.
  rewrite !length_app, length_map, <- !app_assoc, Nat.add_assoc. reflexivity.
Qed.

Lemma resolve_0 (s : store) (v : value) : resolve 0 s v = v.
Proof. destruct v; reflexivity. Qed.

Lemma resolve_ref (f : nat) (s : store) (l : nat) (d : dict) :
  nth_error s l = Some d ->
  resolve (S f) s (VRef l) = VDict (map (fun kv => (fst kv, resolve f s (snd kv))) d).
Proof. intros E. cbn [resolve]. rewrite E. reflexivity. Qed.

Lemma map_resolve_0 (s : store) (d : dict) :
  map (fun kv => (fst kv, resolve 0 s (snd kv))) d = d.
Proof.
  rewrite <- (map_id d) at 2. apply map_ext. intros [k v]. cbn [fst snd].
  rewrite resolve_0. reflexivity.
Qed.

(** Looking a key up among the references and writing the dict it points
    to out is looking the key up in the display written out. *)
Lemma getitem_refs (entries : list (string * dict)) (s : store) (n : nat) (k : string) :
  (forall i kd, nth_error entries i = Some kd -> nth_error s (n + i) = Some (snd kd)) ->
  (v <- getitem (refs_from n entries) k ;; Ok (resolve 1 s v))
  = getitem (map (fun kd => (fst kd, VDict (snd kd))) entries) k.
Proof.
  revert n. induction entries as [|[k0 d] entries IH]; intros n Hs; [reflexivity|].
  cbn [refs_from map getitem fst snd].
  destruct (String.eqb k0 k).
  - cbn [bind]. specialize (Hs 0%nat (k0, d) eq_refl). rewrite Nat.add_0_r in Hs.
    cbn [snd] in Hs. rewrite (resolve_ref 0 _ _ Hs), map_resolve_0. reflexivity.
  - apply IH. intros i kd Hi. specialize (Hs (S i) kd Hi).
    rewrite Nat.add_succ_comm. exact Hs.
Qed.

Lemma resolve_refs (entries : list (string * dict)) (s : store) (n : nat) :
  (forall i kd, nth_error entries i = Some kd -> nth_error s (n + i) = Some (snd kd)) ->
  map (fun kv => (fst kv, resolve 1 s (snd kv))) (refs_from n entries)
  = map (fun kd => (fst kd, VDict (snd kd))) entries.
Proof.
  revert n. induction entries as [|[k0 d] entries IH]; intros n Hs; [reflexivity|].
  cbn [refs_from map fst snd].
  pose proof (Hs 0%nat (k0, d) eq_refl) as H0. rewrite Nat.add_0_r in H0.
  cbn [snd] in H0. rewrite (resolve_ref 0 _ _ H0), map_resolve_0. f_equal.
  apply IH. intros i kd Hi. specialize (Hs (S i) kd Hi).
    rewrite Nat.add_succ_comm. exact Hs.
Qed.

Lemma write_write (l : nat) (d d' : dict) (s : store) :
  write l d (write l d' s) = write l d s.
Proof.
  revert l. induction s as [|c s IH]; intros [|l]; cbn [write]; try reflexivity.
  rewrite IH. reflexivity.
Qed.

(** What [configure_sweep] leaves behind, object by object: the twenty
    new dicts follow the objects that were there, and [sweep_config] is
    the one old object that is written. *)
Lemma configure_sweep_store (self : runner) (s : store) (cfg : dict) :
  read (sweep_config self) s = Ok cfg ->
  let n := List.length s in
  configure_sweep self s =
    Ok (write (sweep_config self)
          (setitem (setitem cfg "metric" (VRef n)) "parameters" (VRef (n + 17)))
          s
        ++ [("name", VStr "accuracy"); ("goal", VStr "maximize")]
           :: map snd parameters_entries
           ++ [refs_from (n + 1) parameters_entries ++ [("epochs", VRef (n + 18))];
               [("value", VInt (epochs self))];
               [("epochs", VRef (n + 18))]])%list.
Proof.
  intros Hr n. destruct (read_inv _ _ Hr) as [Hn Hlt].
  unfold configure_sweep. unfold new_dict at 1. cbv beta iota zeta.
  erewrite read_old by exact Hn. cbn [bind].
  rewrite write_old by exact Hlt.
  set (cfg1 := setitem cfg "metric" (VRef (List.length s))).
  set (s1 := write (sweep_config self) cfg1 s).
  assert (L1 : List.length s1 = n) by apply length_write.
  assert (N1 : nth_error s1 (sweep_config self) = Some cfg1)
    by (apply nth_error_write_eq; exact Hlt).
  erewrite new_nested_spec by exact L1. cbv beta iota zeta.
  erewrite read_old by exact N1. cbn [bind].
  rewrite write_old by (rewrite L1; exact Hlt).
  set (cfg2 := setitem cfg1 "parameters" _).
  set (s2 := write (sweep_config self) cfg2 s1).
  assert (L2 : List.length s2 = n) by (unfold s2; rewrite length_write; exact L1).
  erewrite new_nested_spec by exact L2. cbv beta iota zeta.
  erewrite read_fresh by (first [exact L2 | reflexivity]). cbn [bind].
  erewrite read_fresh by (first [exact L2 | reflexivity]). cbn [bind].
  erewrite write_fresh by exact L2.
  unfold s2, s1. rewrite write_write. reflexivity.
Qed.

(** The objects [configure_sweep] leaves on the store. *)
Lemma configure_sweep_objects (self : runner) (s : store) (cfg : dict) :
  read (sweep_config self) s = Ok cfg ->
  let n := List.length s in
  exists s',
    configure_sweep self s = Ok s' /\
    List.length s' = (n + 20)%nat /\
    nth_error s' (sweep_config self)
      = Some (setitem (setitem cfg "metric" (VRef n)) "parameters" (VRef (n + 17))) /\
    nth_error s' n = Some [("name", VStr "accuracy"); ("goal", VStr "maximize")] /\
    (forall i kd, nth_error parameters_entries i = Some kd ->
       nth_error s' (n + 1 + i) = Some (snd kd)) /\
    nth_error s' (n + 17)
      = Some (refs_from (n + 1) parameters_entries ++ [("epochs", VRef (n + 18))])%list /\
    nth_error s' (n + 18) = Some [("value", VInt (epochs self))] /\
    (forall l d, l <> sweep_config self -> nth_error s l = Some d ->
       nth_error s' l = Some d).
Proof.
  intros Hr n. destruct (read_inv _ _ Hr) as [Hn Hlt].
  eexists. split; [apply (@configure_sweep_store self s cfg Hr)|].
  fold n. set (cfg2 := setitem _ _ _).
  assert (L : List.length (write (sweep_config self) cfg2 s) = n) by apply length_write.
  set (s0 := write (sweep_config self) cfg2 s) in *.
  assert (F : forall k (rest : store), nth_error (s0 ++ rest)%list (n + k) = nth_error rest k).
  { intros k rest. rewrite nth_error_app2 by lia. f_equal. lia. }
  split; [rewrite length_app, L; cbn [List.length]; rewrite length_app, length_map;
          reflexivity|].
  split; [|split; [|split; [|split; [|split]]]].
  - rewrite nth_error_app1 by lia. apply nth_error_write_eq. exact Hlt.
  - rewrite nth_error_app2 by lia. rewrite L, Nat.sub_diag. reflexivity.
  - intros i kd Hi. rewrite <- Nat.add_assoc, F. cbn [Nat.add nth_error].
    rewrite nth_error_app1 by (rewrite length_map; apply nth_error_Some; rewrite Hi; discriminate).
    rewrite nth_error_map, Hi. reflexivity.
  - rewrite F. reflexivity.
  - rewrite F. reflexivity.
  - intros l d Hl Hd.
    assert (Hlt' : (l < List.length s)%nat) by (apply nth_error_Some; rewrite Hd; discriminate).
    rewrite nth_error_app1 by lia. unfold s0.
    rewrite nth_error_write_neq by congruence. exact Hd.
Qed.

Lemma getitem_app_fresh (d : dict) (k : string) (v : value) :
  getitem d k = Raises -> getitem (d ++ [(k, v)])%list k = Ok v.
Proof.
  induction d as [|[k' v'] d IH]; cbn [app getitem].
  - rewrite String.eqb_refl. reflexivity.
  - destruct (String.eqb k' k); [discriminate | exact IH].
Qed.

(** X23: [configure_sweep] makes twenty new dict objects, one for every
    dict display of its body, and stores references to [metric] and to
    [parameters_dict] under the keys [metric] and [parameters] of
    [sweep_config].  The entry [epochs], added to [parameters_dict] after
    the reference to it was stored, is found through [sweep_config]; every
    other key of [sweep_config] and every other object are as before. *)
Theorem configure_sweep_result (self : runner) (s : store) (cfg : dict) :
  read (sweep_config self) s = Ok cfg ->
  exists s',
    configure_sweep self s = Ok s' /\
    List.length s' = (List.length s + 20)%nat /\
    lookup2 self "parameters" "epochs" s' = Ok (VDict [("value", VInt (epochs self))]) /\
    (forall k, k <> "epochs" ->
       lookup2 self "parameters" k s' = getitem parameters_literal k) /\
    lookup2 self "metric" "name" s' = Ok (VStr "accuracy") /\
    lookup2 self "metric" "goal" s' = Ok (VStr "maximize") /\
    (forall k, k <> "metric" -> k <> "parameters" ->
       (c <- read (sweep_config self) s' ;; getitem c k) = getitem cfg k) /\
    (forall l d, l <> sweep_config self -> nth_error s l = Some d ->
       nth_error s' l = Some d).
Proof.
  intros Hr.
  destruct (@configure_sweep_objects self s cfg Hr)
    as (s' & E & Hlen & Hcfg & Hm & Hin & Hpd & Hval & Hfr).
  exists s'. split; [exact E|]. split; [exact Hlen|].
  set (n := List.length s) in *.
  set (cfg' := setitem _ _ _) in Hcfg.
  assert (Rc : read (sweep_config self) s' = Ok cfg') by (unfold read; rewrite Hcfg; reflexivity).
  assert (Rp : read (n + 17) s' = Ok (refs_from (n + 1) parameters_entries
                                       ++ [("epochs", VRef (n + 18))])%list)
    by (unfold read; rewrite Hpd; reflexivity).
  assert (Rm : read n s' = Ok [("name", VStr "accuracy"); ("goal", VStr "maximize")])
    by (unfold read; rewrite Hm; reflexivity).
  assert (Gp : getitem cfg' "parameters" = Ok (VRef (n + 17)))
    by (unfold cfg'; apply getitem_setitem_eq).
  assert (Gm : getitem cfg' "metric" = Ok (VRef n)).
  { unfold cfg'. rewrite getitem_setitem_neq by discriminate. apply getitem_setitem_eq. }
  split; [|split; [|split; [|split; [|split]]]].
  - unfold lookup2. rewrite Rc. cbn [bind]. rewrite Gp. cbn [bind]. rewrite Rp. cbn [bind].
    rewrite getitem_app_fresh by reflexivity. cbn [bind].
    rewrite (resolve_ref 0 _ _ Hval), map_resolve_0. reflexivity.
  - intros k Hk. unfold lookup2. rewrite Rc. cbn [bind]. rewrite Gp. cbn [bind].
    rewrite Rp. cbn [bind]. rewrite getitem_app_last by exact Hk.
    apply getitem_refs. intros i kd Hi. rewrite <- (Hin i kd Hi). reflexivity.
  - unfold lookup2. rewrite Rc. cbn [bind]. rewrite Gm. cbn [bind]. rewrite Rm. reflexivity.
  - unfold lookup2. rewrite Rc. cbn [bind]. rewrite Gm. cbn [bind]. rewrite Rm. reflexivity.
  - intros k Hk1 Hk2. rewrite Rc. cbn [bind]. unfold cfg'.
    rewrite !getitem_setitem_neq by congruence. reflexivity.
  - exact Hfr.
Qed.

Lemma configure_sweep_result_witness :
  let self := {| epochs := 200; sweep_config := 0 |} in
  let s := [[("method", VStr "random")]] in
  exists s',
    configure_sweep self s = Ok s' /\
    List.length s' = (List.length s + 20)%nat /\
    lookup2 self "parameters" "epochs" s' = Ok (VDict [("value", VInt (epochs self))]) /\
    (forall k, k <> "epochs" ->
       lookup2 self "parameters" k s' = getitem parameters_literal k) /\
    lookup2 self "metric" "name" s' = Ok (VStr "accuracy") /\
    lookup2 self "metric" "goal" s' = Ok (VStr "maximize") /\
    (forall k, k <> "metric" -> k <> "parameters" ->
       (c <- read (sweep_config self) s' ;; getitem c k)
       = getitem [("method", VStr "random")] k) /\
    (forall l d, l <> sweep_config self -> nth_error s l = Some d ->
       nth_error s' l = Some d).
Proof.
  apply (@configure_sweep_result {| epochs := 200; sweep_config := 0 |}
           [[("method", VStr "random")]] [("method", VStr "random")]).
  reflexivity.
Defined.

(** X24: after [__init__] the sweep configuration holds the method, the
    metric and the parameters with the [epochs] of the runner.  Calling
    [configure_sweep] once more makes twenty new dict objects and leaves
    the configuration, written out through its references, as it was. *)
Theorem configure_sweep_again (e : Z) (s : store) :
  let config :=
    VDict [("method", VStr "random");
           ("metric", VDict [("name", VStr "accuracy"); ("goal", VStr "maximize")]);
           ("parameters",
            VDict (parameters_literal ++ [("epochs", VDict [("value", VInt e)])])%list)] in
  exists self s1 s2,
    init e s = Ok (self, s1) /\ epochs self = e /\
    resolve 3 s1 (VRef (sweep_config self)) = config /\
    configure_sweep self s1 = Ok s2 /\
    List.length s2 = (List.length s1 + 20)%nat /\
    resolve 3 s2 (VRef (sweep_config self)) = config.
Proof.
  intros config.
  set (self := {| epochs := e; sweep_config := List.length s |}).
  set (s0 := (s ++ [[("method", VStr "random")]])%list).
  assert (Hr0 : read (sweep_config self) s0 = Ok [("method", VStr "random")]).
  { unfold read, s0. cbn [sweep_config self].
    rewrite nth_error_app2 by lia. rewrite Nat.sub_diag. reflexivity. }
  destruct (@configure_sweep_objects self s0 _ Hr0)
    as (s1 & E1 & Hlen1 & Hcfg1 & Hm1 & Hin1 & Hpd1 & Hval1 & _).
  cbn [setitem String.eqb Ascii.eqb Bool.eqb] in Hcfg1.
  assert (Hr1 : read (sweep_config self) s1
                = Ok [("method", VStr "random"); ("metric", VRef (List.length s0));
                      ("parameters", VRef (List.length s0 + 17))])
    by (unfold read; rewrite Hcfg1; reflexivity).
  destruct (@configure_sweep_objects self s1 _ Hr1)
    as (s2 & E2 & Hlen2 & Hcfg2 & Hm2 & Hin2 & Hpd2 & Hval2 & _).
  cbn [setitem String.eqb Ascii.eqb Bool.eqb] in Hcfg2.
  exists self, s1, s2.
  split.
  { change (init e s) with (bind (configure_sweep self s0) (fun s' => Ok (self, s'))).
    rewrite E1. reflexivity. }
  split; [reflexivity|].
  assert (Hres : forall (s' : store) (n : nat),
            nth_error s' (sweep_config self)
              = Some [("method", VStr "random"); ("metric", VRef n);
                      ("parameters", VRef (n + 17))] ->
            nth_error s' n = Some [("name", VStr "accuracy"); ("goal", VStr "maximize")] ->
            (forall i kd, nth_error parameters_entries i = Some kd ->
               nth_error s' (n + 1 + i) = Some (snd kd)) ->
            nth_error s' (n + 17)
              = Some (refs_from (n + 1) parameters_entries
                      ++ [("epochs", VRef (n + 18))])%list ->
            nth_error s' (n + 18) = Some [("value", VInt e)] ->
            resolve 3 s' (VRef (sweep_config self)) = config).
  { intros s' n H1 H2 H3 H4 H5.
    rewrite (resolve_ref 2 _ _ H1). cbn [map fst snd].
    rewrite (resolve_ref 1 _ _ H2), (resolve_ref 1 _ _ H4).
    rewrite map_app, (resolve_refs parameters_entries s' (n + 1) H3).
    cbn [map fst snd]. rewrite (resolve_ref 0 _ _ H5), map_resolve_0.
    reflexivity. }
  split; [exact (Hres s1 _ Hcfg1 Hm1 Hin1 Hpd1 Hval1)|].
  split; [exact E2|]. split; [exact Hlen2|].
  exact (Hres s2 _ Hcfg2 Hm2 Hin2 Hpd2 Hval2).
Qed.

End RunnerFacts.
